(** * Compiler-interrupt pass (libci/CompilerInterrupt.cpp): a shallow embedding

    The development follows the layout of the pass: the cost model
    (instruction costs, the bridge to scalar evolution, the library-cost
    file), the builder of unit containers, the reducer, the evaluator of
    branch containers, the loop transformer and the probe emitter. *)

From Stdlib Require Import ZArith List String Ascii Bool Lia.
From Stdlib Require Floats Uint63.
From stdpp Require Import base option gmap strings list fin_maps relations.

Set Warnings "-register-all".
Local Open Scope string_scope.
Local Open Scope list_scope.
Local Open Scope Z_scope.

(** ** Outcomes of the pass' routines

    [assert(c)] with a false [c], [exit(1)] and a read through a null
    pointer all stop the compilation: [Fatal].  Routines whose recursion
    is not structural are run with fuel. *)

Inductive result (A : Type) : Type :=
| Ok (a : A)
| Fatal (msg : string)
| OutOfFuel.
Arguments Ok {A} a.
Arguments Fatal {A} msg.
Arguments OutOfFuel {A}.

#[global] Instance result_ret : MRet result := fun A a => Ok a.
#[global] Instance result_bind : MBind result := fun A B f m =>
  match m with
  | Ok a => f a
  | Fatal msg => Fatal msg
  | OutOfFuel => OutOfFuel
  end.

Definition assert (c : bool) (msg : string) : result unit :=
  if c then Ok tt else Fatal msg.

Definition isOk {A} (r : result A) : bool :=
  match r with Ok _ => true | _ => false end.

(** ** Machine integers: [int] is 32 bits, [long] is 64 bits, two's complement *)

Definition wrap (w : Z) (z : Z) : Z := (z + 2 ^ (w - 1)) mod 2 ^ w - 2 ^ (w - 1).
Definition to_int (z : Z) : Z := wrap 32 z.
Definition to_long (z : Z) : Z := wrap 64 z.
Arguments wrap : simpl never.
Arguments to_int : simpl never.
Arguments to_long : simpl never.
Definition INT_MAX : Z := 2 ^ 31 - 1.
Definition INT_MIN : Z := - 2 ^ 31.
Definition in_int (z : Z) : Prop := INT_MIN <= z <= INT_MAX.
Definition in_long (z : Z) : Prop := - 2 ^ 63 <= z <= 2 ^ 63 - 1.

(** C's division truncates toward zero. *)
Definition cdiv (a b : Z) : Z := Z.quot a b.

(** ** Host types the pass consumes

    The effective scalar-evolution type of a value is an integer type; the
    pass compares such types and their sizes only, so a type is its width
    in bits (a pointer has the width of the pointer-sized integer). *)

Definition Ty : Type := N.
Definition Int64Ty : Ty := 64%N.

(** [SE->getWiderType(T1, T2)] *)
Definition getWiderType (t1 t2 : Ty) : Ty := if (t2 <=? t1)%N then t1 else t2.

(** The IR the pass walks: an instruction is known by its kind, a block
    by its identifier and its instructions, the terminator last. *)
Definition BlockId : Type := Z.

Inductive Instruction : Type :=
| PHINode
| LoadInst
| StoreInst
| CallInst (calledFunction : option string) (isDbgInfoIntrinsic : bool)
| BranchInst (succs : list BlockId)
| SwitchInst (succs : list BlockId)
| ReturnInst
| UnreachableInst
| OtherInst.

Record BasicBlock : Type := mkBasicBlock {
  bbId : BlockId;
  insts : list Instruction
}.

(** A function of the module: its name (unique in a module), the types of
    its formal arguments ([None] when the type is not SCEVable), whether
    it is a declaration only, and its blocks. *)
Record Function : Type := mkFunction {
  fname : string;
  fargs : list (option Ty);
  isDeclaration : bool;
  blocks : list BasicBlock
}.

Inductive Value : Type :=
| Argument (argNo : Z) (ty : Ty)
| OtherValue (id : Z) (ty : Ty).

Definition Loop : Type := Z.

(** ** struct InstructionCost *)

Module Cost.

Inductive optype : Type := ADD | MUL | UDIV | SMAX | SMIN | UMAX | UMIN.
Inductive casttype : Type := ZERO_EXT | SIGN_EXT | TRUNC.

(** The operand vector holds pointers, which may be null. *)
Inductive InstructionCost : Type :=
| CONST (_value : Z)
| ARG (_value : Z)
| UNKNOWN
| Op (_type : optype) (_operands : list (option InstructionCost))
| Cast (_type : casttype) (_castExprType : Ty) (_operands : list (option InstructionCost))
| ADD_REC_EXPR (_operands : list (option InstructionCost))
| CALL (_function : string) (_operands : list (option InstructionCost)).

(** A cost pointer may be null. *)
Abbreviation costptr := (option InstructionCost).

(** hasConstCost: "0 is a valid value" *)
Definition hasConstCost (fc : costptr) : Z :=
  match fc with
  | Some (CONST v) => v
  | _ => -1
  end.

Definition getConstCostWithoutAssert (fc : costptr) : Z :=
  match fc with
  | Some (CONST v) => v
  | _ => -1
  end.

Definition getConstCost (fc : costptr) : result Z :=
  let numCost := match fc with Some (CONST v) => v | _ => -1 end in
  _ ← assert (0 <=? numCost) "Instruction cost is not a constant value!";
  Ok numCost.

Definition getConstantInstCost (numCost : Z) : InstructionCost := CONST numCost.

Fixpoint depth (c : InstructionCost) : nat :=
  match c with
  | CONST _ | ARG _ | UNKNOWN => 1
  | Op _ ops | Cast _ _ ops | ADD_REC_EXPR ops | CALL _ ops =>
      S (fold_right (fun o n =>
                       Nat.max (match o with Some c => depth c | None => 0%nat end) n)
                    0%nat ops)
  end.

End Cost.
Export Cost.

(** ** Scalar-evolution expressions of the host *)

Module Scev.

Inductive naryKind : Type :=
  scAddExpr | scMulExpr | scUMaxExpr | scSMaxExpr | scUMinExpr | scSMinExpr.
Inductive castKind : Type := scTruncate | scZeroExtend | scSignExtend.

(** A constant carries its bit width and its value read as a signed number
    ([getSExtValue]). *)
Inductive SCEV : Type :=
| SCEVConstant (bits : N) (value : Z)
| SCEVCastExpr (k : castKind) (op : SCEV) (ty : Ty)
| SCEVNAryExpr (k : naryKind) (ops : list SCEV)
| SCEVUDivExpr (lhs rhs : SCEV)
| SCEVAddRecExpr (ops : list SCEV) (loop : Loop)
| SCEVUnknown (v : Value)
| SCEVCouldNotCompute.

Definition valueType (v : Value) : Ty :=
  match v with Argument _ ty | OtherValue _ ty => ty end.

(** [SE->getEffectiveSCEVType(scev->getType())] *)
Fixpoint getType (s : SCEV) : Ty :=
  match s with
  | SCEVConstant bits _ => bits
  | SCEVCastExpr _ _ ty => ty
  | SCEVNAryExpr _ ops => match ops with o :: _ => getType o | [] => 0%N end
  | SCEVUDivExpr _ rhs => getType rhs
  | SCEVAddRecExpr ops _ => match ops with o :: _ => getType o | [] => 0%N end
  | SCEVUnknown v => valueType v
  | SCEVCouldNotCompute => 0%N
  end.

Definition isCouldNotCompute (s : SCEV) : bool :=
  match s with SCEVCouldNotCompute => true | _ => false end.

(** The expression factories of the host ([SE->getAddExpr] and the like).
    They fold and canonicalise, which the pass does not control. *)
Class ScalarEvolution : Type := {
  getAddExpr : list SCEV -> SCEV;
  getMulExpr : list SCEV -> SCEV;
  getUDivExpr : SCEV -> SCEV -> SCEV;
  getSMaxExpr : list SCEV -> SCEV;
  getSMinExpr : list SCEV -> SCEV;
  getUMaxExpr : list SCEV -> SCEV;
  getUMinExpr : list SCEV -> SCEV;
  getZeroExtendExpr : SCEV -> Ty -> SCEV;
  getSignExtendExpr : SCEV -> Ty -> SCEV;
  getTruncateExpr : SCEV -> Ty -> SCEV
}.

(** [SE->getConstant(Type::getInt64Ty, v, isSigned)] *)
Definition getConstant64 (v : Z) : SCEV := SCEVConstant 64%N (to_long v).

End Scev.
Export Scev.

(** A converted operand: a null pointer, could-not-compute, or an expression. *)
Abbreviation scevptr := (option SCEV).

(** ** scevToCost *)

Definition naryToCost (k : naryKind) : option optype :=
  match k with
  | scAddExpr => Some ADD
  | scMulExpr => Some MUL
  | scSMaxExpr => Some SMAX
  | scUMaxExpr => Some UMAX
  | scSMinExpr => Some SMIN
  | scUMinExpr => None
  end.

Definition castToCost (k : castKind) : casttype :=
  match k with
  | scZeroExtend => ZERO_EXT
  | scSignExtend => SIGN_EXT
  | scTruncate => TRUNC
  end.

Fixpoint scevToCost (scev : SCEV) : InstructionCost :=
  match scev with
  | SCEVConstant bits value =>
      if (bits <=? 64)%N then CONST (to_int value) else UNKNOWN
  | SCEVNAryExpr k ops =>
      match naryToCost k with
      | Some t => Op t (List.map (fun o => Some (scevToCost o)) ops)
      | None => UNKNOWN
      end
  | SCEVUDivExpr lhs rhs => Op UDIV [Some (scevToCost lhs); Some (scevToCost rhs)]
  | SCEVUnknown (Argument argNo _) => ARG argNo
  | SCEVUnknown (OtherValue _ _) => UNKNOWN
  | SCEVAddRecExpr _ _ => UNKNOWN
  | SCEVCastExpr k op ty => Cast (castToCost k) ty [Some (scevToCost op)]
  | SCEVCouldNotCompute => UNKNOWN
  end.

(** ** Function cost records and the library cost table *)

Record FuncInfo : Type := mkFuncInfo {
  fi_hasFence : bool;   (* hasFence *)
  fi_cost : costptr     (* cost *)
}.

Record CostEnv : Type := mkCostEnv {
  libraryInstructionCosts : gmap string InstructionCost;
  computedFuncInfo : gmap string FuncInfo
}.

(** ** costToSCEV *)

Section CostToSCEV.
Context {SE : ScalarEvolution}.
Variable env : CostEnv.


Definition isNullOrCNC (s : scevptr) : bool :=
  match s with
  | None => true
  | Some s => isCouldNotCompute s
  end.

(** First loop of the ADD and MUL cases: convert every operand, return at
    the first null or uncomputable one, and track the widest type. *)
Fixpoint widestPass (rec : costptr -> result scevptr)
    (ops : list costptr) (widestType : option Ty)
    : result (scevptr + option Ty) :=
  match ops with
  | [] => Ok (inr widestType)
  | op :: rest =>
      scev ← rec op;
      match scev with
      | None => Ok (inl None)
      | Some s =>
          if isCouldNotCompute s then Ok (inl (Some s))
          else
            let ty := getType s in
            let widest' :=
              match widestType with
              | Some w => if N.eqb w ty then w else getWiderType w ty
              | None => ty
              end in
            widestPass rec rest (Some widest')
      end
  end.

(** Second loop of the ADD and MUL cases: zero-extend the narrower operands. *)
Fixpoint extendPass (rec : costptr -> result scevptr)
    (ops : list costptr) (widestType : Ty) : result (list SCEV) :=
  match ops with
  | [] => Ok []
  | op :: rest =>
      scev ← rec op;
      match scev with
      | None => Fatal "null operand"
      | Some s =>
          let s' := if N.eqb widestType (getType s) then s
                    else getZeroExtendExpr s widestType in
          tl ← extendPass rec rest widestType;
          Ok (s' :: tl)
      end
  end.

(** The loop of the SMAX, SMIN, UMAX and UMIN cases: operands of a type
    other than the first operand's make the whole expression uncomputable. *)
Fixpoint minmaxPass (rec : costptr -> result scevptr)
    (ops : list costptr) (prev : option SCEV) (acc : list SCEV)
    : result (SCEV + list SCEV) :=
  match ops with
  | [] => Ok (inr acc)
  | op :: rest =>
      scev ← rec op;
      match scev with
      | None => Fatal "OOPS, this operand was null!"
      | Some s =>
          if isCouldNotCompute s then Ok (inl s)
          else
            match prev with
            | Some p =>
                if N.eqb (getType p) (getType s)
                then minmaxPass rec rest prev (acc ++ [s])
                else Ok (inl SCEVCouldNotCompute)
            | None => minmaxPass rec rest (Some s) (acc ++ [s])
            end
      end
  end.

Fixpoint callArgs (rec : costptr -> result scevptr)
    (ops : list costptr) : result (list scevptr) :=
  match ops with
  | [] => Ok []
  | op :: rest =>
      scev ← rec op;
      tl ← callArgs rec rest;
      Ok (scev :: tl)
  end.

Definition castOperand (rec : costptr -> result scevptr)
    (ops : list costptr) : result scevptr :=
  match ops with
  | op :: _ => rec op
  | [] => Fatal "operand index out of range"
  end.

Fixpoint costToSCEV (fuel : nat) (cost : costptr) (args : list scevptr)
    : result scevptr :=
  match fuel with
  | O => OutOfFuel
  | S fuel =>
    let rec := fun c => costToSCEV fuel c args in
    match cost with
    | None => Ok None
    | Some (CONST v) => Ok (Some (getConstant64 v))
    | Some (ARG v) =>
        _ ← assert ((0 <=? v) && (v <? Z.of_nat (length args)))
              "cost->_value < (long)args.size()";
        Ok (default None (args !! Z.to_nat v))
    | Some UNKNOWN => Ok (Some SCEVCouldNotCompute)
    | Some (Op ADD ops) =>
        r ← widestPass rec ops None;
        match r with
        | inl early => Ok early
        | inr widest =>
            l ← extendPass rec ops (default 0%N widest);
            match l with
            | [] => Ok None
            | [s] => Ok (Some s)
            | _ => Ok (Some (getAddExpr l))
            end
        end
    | Some (Op MUL ops) =>
        r ← widestPass rec ops None;
        match r with
        | inl early => Ok early
        | inr widest =>
            l ← extendPass rec ops (default 0%N widest);
            Ok (Some (getMulExpr l))
        end
    | Some (Op UDIV ops) =>
        match ops with
        | l :: r :: _ =>
            left ← rec l;
            right ← rec r;
            match left, right with
            | Some lS, Some rS =>
                if isCouldNotCompute lS || isCouldNotCompute rS
                then Ok (Some SCEVCouldNotCompute)
                else
                  let lS' := if N.eqb (getType lS) (getType rS) then lS
                             else getZeroExtendExpr lS (getType rS) in
                  Ok (Some (getUDivExpr lS' rS))
            | Some lS, None =>
                if isCouldNotCompute lS then Ok (Some SCEVCouldNotCompute)
                else Fatal "null operand"
            | None, Some rS =>
                if isCouldNotCompute rS then Ok (Some SCEVCouldNotCompute)
                else Fatal "null operand"
            | None, None => Fatal "null operand"
            end
        | _ => Fatal "operand index out of range"
        end
    | Some (Op SMAX ops) =>
        r ← minmaxPass rec ops None [];
        match r with inl s => Ok (Some s) | inr l => Ok (Some (getSMaxExpr l)) end
    | Some (Op SMIN ops) =>
        r ← minmaxPass rec ops None [];
        match r with inl s => Ok (Some s) | inr l => Ok (Some (getSMinExpr l)) end
    | Some (Op UMAX ops) =>
        r ← minmaxPass rec ops None [];
        match r with inl s => Ok (Some s) | inr l => Ok (Some (getUMaxExpr l)) end
    | Some (Op UMIN ops) =>
        r ← minmaxPass rec ops None [];
        match r with inl s => Ok (Some s) | inr l => Ok (Some (getUMinExpr l)) end
    | Some (Cast ZERO_EXT ty ops) =>
        op ← castOperand rec ops;
        match op with
        | None => Fatal "null operand"
        | Some s =>
            if isCouldNotCompute s then Ok (Some SCEVCouldNotCompute)
            else if (getType s <? ty)%N then Ok (Some (getZeroExtendExpr s ty))
            else Ok (Some s)
        end
    | Some (Cast SIGN_EXT ty ops) =>
        op ← castOperand rec ops;
        match op with
        | None => Fatal "null operand"
        | Some s =>
            if isCouldNotCompute s then Ok (Some SCEVCouldNotCompute)
            else Ok (Some (getSignExtendExpr s ty))
        end
    | Some (Cast TRUNC ty ops) =>
        op ← castOperand rec ops;
        match op with
        | None => Fatal "null operand"
        | Some s =>
            if isCouldNotCompute s then Ok (Some SCEVCouldNotCompute)
            else Ok (Some (getTruncateExpr s ty))
        end
    | Some (ADD_REC_EXPR _) => Ok (Some SCEVCouldNotCompute)
    | Some (CALL f ops) =>
        argumentSCEVs ← callArgs rec ops;
        match computedFuncInfo env !! f with
        | Some found => costToSCEV fuel (fi_cost found) argumentSCEVs
        | None =>
            match libraryInstructionCosts env !! f with
            | Some fCost => costToSCEV fuel (Some fCost) argumentSCEVs
            | None => Ok (Some (SCEVConstant 64%N 0))
            end
        end
    end
  end.

(** simplifyCost binds the arguments of [F] to their own expressions. *)
Definition funcArgs (F : Function) : list scevptr :=
  imap (fun i a =>
          match a with
          | Some ty => Some (SCEVUnknown (Argument (Z.of_nat i) ty))
          | None => Some SCEVCouldNotCompute
          end) (fargs F).

Definition simplifyCost (fuel : nat) (F : Function) (complexCost : costptr)
    (doNotAssert : bool) : result costptr :=
  match complexCost with
  | None => Ok None
  | Some _ =>
      costScev ← costToSCEV fuel complexCost (funcArgs F);
      match costScev with
      | None => Ok None
      | Some s =>
          if isCouldNotCompute s then
            if doNotAssert then Ok None
            else Fatal "Cost scev cannot be uncomputable!"
          else Ok (Some (scevToCost s))
      end
  end.

End CostToSCEV.

(** [converts rec ops l]: every operand converts to the expression at its
    position in [l], none of them uncomputable. *)
Definition converts (rec : costptr -> result scevptr)
    (ops : list costptr) (l : list SCEV) : Prop :=
  Forall2 (fun op s => rec op = Ok (Some s) /\ isCouldNotCompute s = false) ops l.

(** ** A host whose factories build the node they are asked for

    Used to run the converters on examples; it stands for the host on
    operands to which no folding applies. *)

Definition PlainSE : ScalarEvolution := {|
  getAddExpr := SCEVNAryExpr scAddExpr;
  getMulExpr := SCEVNAryExpr scMulExpr;
  getUDivExpr := SCEVUDivExpr;
  getSMaxExpr := SCEVNAryExpr scSMaxExpr;
  getSMinExpr := SCEVNAryExpr scSMinExpr;
  getUMaxExpr := SCEVNAryExpr scUMaxExpr;
  getUMinExpr := SCEVNAryExpr scUMinExpr;
  getZeroExtendExpr := SCEVCastExpr scZeroExtend;
  getSignExtendExpr := SCEVCastExpr scSignExtend;
  getTruncateExpr := SCEVCastExpr scTruncate
|}.

Class PlainFactories (SE : ScalarEvolution) : Prop := {
  getAddExpr_plain : forall l, getAddExpr l = SCEVNAryExpr scAddExpr l;
  getMulExpr_plain : forall l, getMulExpr l = SCEVNAryExpr scMulExpr l;
  getUDivExpr_plain : forall a b, getUDivExpr a b = SCEVUDivExpr a b;
  getSMaxExpr_plain : forall l, getSMaxExpr l = SCEVNAryExpr scSMaxExpr l;
  getSMinExpr_plain : forall l, getSMinExpr l = SCEVNAryExpr scSMinExpr l;
  getUMaxExpr_plain : forall l, getUMaxExpr l = SCEVNAryExpr scUMaxExpr l;
  getUMinExpr_plain : forall l, getUMinExpr l = SCEVNAryExpr scUMinExpr l;
  getZeroExtendExpr_plain : forall s t, getZeroExtendExpr s t = SCEVCastExpr scZeroExtend s t;
  getSignExtendExpr_plain : forall s t, getSignExtendExpr s t = SCEVCastExpr scSignExtend s t;
  getTruncateExpr_plain : forall s t, getTruncateExpr s t = SCEVCastExpr scTruncate s t
}.

(** ** Equality of expressions modulo type widening

    [eraseWidening] forgets what widening changes: the width of a constant
    (its signed value is kept) and zero-extensions. *)

Fixpoint eraseWidening (s : SCEV) : SCEV :=
  match s with
  | SCEVConstant _ v => SCEVConstant 64%N v
  | SCEVCastExpr scZeroExtend op _ => eraseWidening op
  | SCEVCastExpr k op ty => SCEVCastExpr k (eraseWidening op) ty
  | SCEVNAryExpr k ops => SCEVNAryExpr k (List.map eraseWidening ops)
  | SCEVUDivExpr l r => SCEVUDivExpr (eraseWidening l) (eraseWidening r)
  | SCEVAddRecExpr ops L => SCEVAddRecExpr (List.map eraseWidening ops) L
  | SCEVUnknown v => SCEVUnknown v
  | SCEVCouldNotCompute => SCEVCouldNotCompute
  end.

Definition eqModuloWidening (a b : SCEV) : Prop := eraseWidening a = eraseWidening b.

(** The widest type of a list of types, as the first loop of the ADD and
    MUL cases computes it. *)
Definition widestOf (w : option Ty) (tys : list Ty) : option Ty :=
  fold_left (fun acc ty =>
               match acc with
               | Some w => Some (if N.eqb w ty then w else getWiderType w ty)
               | None => Some ty
               end) tys w.

Definition extendTo (W : Ty) (s : SCEV) : SCEV :=
  if N.eqb W (getType s) then s else SCEVCastExpr scZeroExtend s W.

(** The expression the round trip produces on a plain host. *)
Fixpoint widened (s : SCEV) : SCEV :=
  match s with
  | SCEVConstant _ v => SCEVConstant 64%N v
  | SCEVCastExpr scZeroExtend op ty =>
      let op' := widened op in
      if (getType op' <? ty)%N then SCEVCastExpr scZeroExtend op' ty else op'
  | SCEVCastExpr k op ty => SCEVCastExpr k (widened op) ty
  | SCEVNAryExpr k ops =>
      let l := List.map widened ops in
      match k with
      | scAddExpr | scMulExpr =>
          SCEVNAryExpr k
            (List.map (extendTo (default 0%N (widestOf None (List.map getType l)))) l)
      | _ => SCEVNAryExpr k l
      end
  | SCEVUDivExpr l r =>
      let l' := widened l in
      let r' := widened r in
      SCEVUDivExpr (extendTo (getType r') l') r'
  | other => other
  end.

(** The expressions on which the round trip is stated: the operators
    [scevToCost] maps, in the shape the host builds them (n-ary operators
    have two operands or more, casts change the width in their direction),
    constants that fit [int], arguments bound to themselves in [args], and
    min/max operands that come back with one type. *)
Fixpoint supported (args : list scevptr) (s : SCEV) : Prop :=
  match s with
  | SCEVConstant bits v => (bits <= 64)%N /\ in_int v
  | SCEVUnknown (Argument i ty) =>
      0 <= i /\ args !! Z.to_nat i = Some (Some (SCEVUnknown (Argument i ty)))
  | SCEVUnknown (OtherValue _ _) => False
  | SCEVCastExpr scZeroExtend op _ => supported args op
  | SCEVCastExpr scSignExtend op ty =>
      supported args op /\ (getType (widened op) < ty)%N
  | SCEVCastExpr scTruncate op ty =>
      supported args op /\ (ty < getType (widened op))%N
  | SCEVNAryExpr k ops =>
      (2 <= length ops)%nat /\
      (fix all (l : list SCEV) : Prop :=
         match l with
         | [] => True
         | o :: r => supported args o /\ all r
         end) ops /\
      match k with
      | scAddExpr | scMulExpr => True
      | scUMinExpr => False
      | _ => forall o, In o ops ->
               getType (widened o) = getType (widened (hd SCEVCouldNotCompute ops))
      end
  | SCEVUDivExpr l r =>
      supported args l /\ supported args r /\
      (getType (widened l) <= getType (widened r))%N
  | SCEVAddRecExpr _ _ => False
  | SCEVCouldNotCompute => False
  end.

(** ** Command-line options and the instrumentation levels *)

Record Config : Type := mkConfig {
  InstGranularity : Z;
  ClockType : Z;
  MemOpsCost : Z;
  TargetInterval : Z;
  TargetIntervalInCycles : Z;
  CommitInterval : Z;
  ExtLibFuncCost : Z
}.

Definition OPTIMIZE_HEURISTIC : Z := 1.
Definition OPTIMIZE_HEURISTIC_WITH_TL : Z := 2.
Definition NAIVE : Z := 3.
Definition NAIVE_TL : Z := 4.
Definition LEGACY_HEURISTIC : Z := 5.
Definition COREDET_HEURISTIC_TL : Z := 6.
Definition COREDET_HEURISTIC : Z := 7.
Definition LEGACY_ACCURATE : Z := 8.
Definition OPTIMIZE_ACCURATE : Z := 9.
Definition LEGACY_HEURISTIC_TL : Z := 10.
Definition NAIVE_ACCURATE : Z := 11.
Definition OPTIMIZE_INTERMEDIATE : Z := 12.
Definition NAIVE_INTERMEDIATE : Z := 13.
Definition OPTIMIZE_HEURISTIC_FIBER : Z := 14.
Definition OPTIMIZE_HEURISTIC_INTERMEDIATE_FIBER : Z := 15.
Definition NAIVE_HEURISTIC_FIBER : Z := 16.
Definition OPTIMIZE_CYCLES : Z := 17.
Definition NAIVE_CYCLES : Z := 18.

Definition PREDICTIVE : Z := 0.
Definition INSTANTANEOUS : Z := 1.

Definition ALLOWED_DEVIATION : Z := 100.

Definition isOneOf (x : Z) (l : list Z) : bool := existsb (Z.eqb x) l.

Definition checkIfInstGranIsOpt (cfg : Config) : bool :=
  isOneOf (InstGranularity cfg)
    [OPTIMIZE_HEURISTIC_WITH_TL; OPTIMIZE_ACCURATE; OPTIMIZE_INTERMEDIATE;
     OPTIMIZE_HEURISTIC_INTERMEDIATE_FIBER; OPTIMIZE_HEURISTIC_FIBER; OPTIMIZE_CYCLES].

Definition checkIfInstGranCycleBasedCounter (cfg : Config) : bool :=
  isOneOf (InstGranularity cfg) [LEGACY_ACCURATE; OPTIMIZE_CYCLES; NAIVE_CYCLES].

Definition checkIfInstGranIsIntermediate (cfg : Config) : bool :=
  isOneOf (InstGranularity cfg)
    [OPTIMIZE_INTERMEDIATE; OPTIMIZE_HEURISTIC_INTERMEDIATE_FIBER; NAIVE_INTERMEDIATE].

Definition checkIfInstGranIsDet (cfg : Config) : bool :=
  isOneOf (InstGranularity cfg)
    [NAIVE_TL; OPTIMIZE_HEURISTIC_WITH_TL; OPTIMIZE_HEURISTIC_FIBER;
     COREDET_HEURISTIC_TL; LEGACY_HEURISTIC_TL; NAIVE_HEURISTIC_FIBER].

(** ** Global tables of the pass *)

Record Globals : Type := mkGlobals {
  costEnv : CostEnv;
  CGOrderedFunc : gmap string bool;   (* functions defined in the module *)
  threadFunc : list string;
  fenceList : gset string
}.

Definition isThreadFunc (g : Globals) (name : string) : bool :=
  existsb (String.eqb name) (threadFunc g).

Definition isFenceFunc (g : Globals) (name : string) : bool :=
  bool_decide (name ∈ fenceList g).

Definition inLibrary (g : Globals) (name : string) : bool :=
  bool_decide (is_Some (libraryInstructionCosts (costEnv g) !! name)).

(** ** The cost of one instruction *)

Definition checkIfExternalLibraryCall (g : Globals) (I : Instruction) : bool :=
  match I with
  | CallInst (Some name) dbg =>
      if dbg then false
      else
        let foundInOwnLib := inLibrary g name in
        let foundInModule := bool_decide (is_Some (CGOrderedFunc g !! name)) in
        if foundInOwnLib || foundInModule then false else true
  | _ => false
  end.

Definition getLibCallCost (cfg : Config) : Z :=
  if (InstGranularity cfg =? NAIVE_ACCURATE) || (InstGranularity cfg =? OPTIMIZE_ACCURATE)
  then 50
  else ExtLibFuncCost cfg.

Definition fenceCostMissing : string :=
  "Fence function costs were not found in the library function cost repository! Aborting.".

Section InstCost.
Context {SE : ScalarEvolution}.
Variable cfg : Config.
Variable g : Globals.

Definition getInstCostForPC (fuel : nat) (F : Function) (I : Instruction)
    : result InstructionCost :=
  match I with
  | PHINode => Ok (getConstantInstCost 0)
  | LoadInst | StoreInst => Ok (getConstantInstCost (MemOpsCost cfg))
  | CallInst (Some name) _ =>
      let callCost := [Some (CONST 1)] in
      callCost ←
        match libraryInstructionCosts (costEnv g) !! name with
        | Some fCost => Ok (callCost ++ [Some fCost])
        | None =>
            _ ← assert (negb (isFenceFunc g name)) fenceCostMissing;
            if negb (isThreadFunc g name) then
              match computedFuncInfo (costEnv g) !! name with
              | Some found =>
                  if negb (getConstCostWithoutAssert (fi_cost found) =? 0)
                  then Ok (callCost ++ [fi_cost found])
                  else Ok callCost
              | None => Ok callCost
              end
            else Ok callCost
        end;
      simplifiedCost ← simplifyCost (costEnv g) fuel F (Some (Op ADD callCost)) false;
      match simplifiedCost with
      | None => Ok (getConstantInstCost 1)
      | Some c => Ok c
      end
  | CallInst None _ => Ok (getConstantInstCost 1)
  | _ => Ok (CONST 1)
  end.

Definition getInstCostForIC (I : Instruction) : result InstructionCost :=
  match I with
  | PHINode => Ok (getConstantInstCost 0)
  | LoadInst | StoreInst => Ok (getConstantInstCost (MemOpsCost cfg))
  | CallInst calledFunction _ =>
      let newCost := 0 in
      let callCost := 1 in
      match calledFunction with
      | Some name =>
          callCost ←
            (if checkIfExternalLibraryCall g I then
               Ok (to_int (callCost + getLibCallCost cfg))
             else
               match libraryInstructionCosts (costEnv g) !! name with
               | Some fCost =>
                   funcCost ← getConstCost (Some fCost);
                   Ok (to_int (callCost + funcCost))
               | None =>
                   _ ← assert (negb (isFenceFunc g name)) fenceCostMissing;
                   if negb (isThreadFunc g name) then
                     match computedFuncInfo (costEnv g) !! name with
                     | Some found =>
                         let numCallCost := hasConstCost (fi_cost found) in
                         if 0 <? numCallCost
                         then Ok (to_int (callCost + numCallCost))
                         else Ok callCost
                     | None => Ok callCost
                     end
                   else Ok callCost
               end);
          Ok (getConstantInstCost callCost)
      | None => Ok (getConstantInstCost newCost)
      end
  | _ => Ok (getConstantInstCost 1)
  end.

End InstCost.

(** A host that folds a sum of two 64-bit constants, as the host's
    [getAddExpr] does. *)
Class FoldsConstantSums (SE : ScalarEvolution) : Prop := {
  getAddExpr_fold : forall a b,
    getAddExpr [SCEVConstant 64%N a; SCEVConstant 64%N b] = SCEVConstant 64%N (to_long (a + b))
}.

Definition FoldingSE : ScalarEvolution := {|
  getAddExpr := fun l =>
    match l with
    | [SCEVConstant w a; SCEVConstant w' b] =>
        if N.eqb w w' then SCEVConstant w (wrap (Z.of_N w) (a + b))
        else SCEVNAryExpr scAddExpr l
    | _ => SCEVNAryExpr scAddExpr l
    end;
  getMulExpr := SCEVNAryExpr scMulExpr;
  getUDivExpr := SCEVUDivExpr;
  getSMaxExpr := SCEVNAryExpr scSMaxExpr;
  getSMinExpr := SCEVNAryExpr scSMinExpr;
  getUMaxExpr := SCEVNAryExpr scUMaxExpr;
  getUMinExpr := SCEVNAryExpr scUMinExpr;
  getZeroExtendExpr := SCEVCastExpr scZeroExtend;
  getSignExtendExpr := SCEVCastExpr scSignExtend;
  getTruncateExpr := SCEVCastExpr scTruncate
|}.

(** *** The base cost of an instruction, by class of instruction

    [baseCostIC] and [baseCostPC] state, case by case, the cost the two
    clocks give an instruction.  A call with a known callee that is neither
    charged a library cost nor a summarised cost is a [plainCall]. *)

Definition isOtherInst (I : Instruction) : bool :=
  match I with
  | BranchInst _ | SwitchInst _ | ReturnInst | UnreachableInst | OtherInst => true
  | _ => false
  end.

Section BaseCost.
Variable cfg : Config.
Variable g : Globals.

Definition libraryCost (name : string) : option InstructionCost :=
  libraryInstructionCosts (costEnv g) !! name.

Definition summarizedCost (name : string) : option costptr :=
  fi_cost <$> (computedFuncInfo (costEnv g) !! name).

Definition definedInModule (name : string) : Prop :=
  is_Some (CGOrderedFunc g !! name).

Inductive baseCostIC : Instruction -> Z -> Prop :=
| ic_phi : baseCostIC PHINode 0
| ic_load : baseCostIC LoadInst (MemOpsCost cfg)
| ic_store : baseCostIC StoreInst (MemOpsCost cfg)
| ic_library name dbg c :
    libraryCost name = Some (CONST c) -> 0 <= c -> in_int (1 + c) ->
    baseCostIC (CallInst (Some name) dbg) (1 + c)
| ic_external name :
    libraryCost name = None -> ~ definedInModule name ->
    in_int (1 + getLibCallCost cfg) ->
    baseCostIC (CallInst (Some name) false) (1 + getLibCallCost cfg)
| ic_internal name dbg c :
    libraryCost name = None -> dbg = true \/ definedInModule name ->
    isFenceFunc g name = false -> isThreadFunc g name = false ->
    summarizedCost name = Some (Some (CONST c)) -> 0 < c -> in_int (1 + c) ->
    baseCostIC (CallInst (Some name) dbg) (1 + c)
| ic_plainCall name dbg :
    libraryCost name = None -> dbg = true \/ definedInModule name ->
    isFenceFunc g name = false ->
    (isThreadFunc g name = true \/ summarizedCost name = None \/
     exists fc, summarizedCost name = Some fc /\ hasConstCost fc <= 0) ->
    baseCostIC (CallInst (Some name) dbg) 1
| ic_other I : isOtherInst I = true -> baseCostIC I 1.

Inductive baseCostPC {SE : ScalarEvolution} (fuel : nat) (F : Function)
    : Instruction -> InstructionCost -> Prop :=
| pc_phi : baseCostPC fuel F PHINode (CONST 0)
| pc_load : baseCostPC fuel F LoadInst (CONST (MemOpsCost cfg))
| pc_store : baseCostPC fuel F StoreInst (CONST (MemOpsCost cfg))
| pc_library name dbg c :
    libraryCost name = Some (CONST c) -> in_int c -> in_int (1 + c) ->
    baseCostPC fuel F (CallInst (Some name) dbg) (CONST (1 + c))
| pc_internal_const name dbg c :
    libraryCost name = None ->
    isFenceFunc g name = false -> isThreadFunc g name = false ->
    summarizedCost name = Some (Some (CONST c)) -> c <> 0 ->
    in_int c -> in_int (1 + c) ->
    baseCostPC fuel F (CallInst (Some name) dbg) (CONST (1 + c))
| pc_internal_symbolic name dbg fc s :
    libraryCost name = None ->
    isFenceFunc g name = false -> isThreadFunc g name = false ->
    summarizedCost name = Some (Some fc) -> hasConstCost (Some fc) <> 0 ->
    simplifyCost (costEnv g) fuel F (Some (Op ADD [Some (CONST 1); Some fc])) false
      = Ok (Some s) ->
    baseCostPC fuel F (CallInst (Some name) dbg) s
| pc_plainCall name dbg :
    libraryCost name = None -> isFenceFunc g name = false ->
    (isThreadFunc g name = true \/ summarizedCost name = None \/
     summarizedCost name = Some (Some (CONST 0))) ->
    baseCostPC fuel F (CallInst (Some name) dbg) (CONST 1)
| pc_unknownCallee dbg : baseCostPC fuel F (CallInst None dbg) (CONST 1)
| pc_other I : isOtherInst I = true -> baseCostPC fuel F I (CONST 1).

End BaseCost.

(** ** LCCBuilder: unit containers and the container graph *)

Definition isTerminator (I : Instruction) : bool :=
  match I with
  | BranchInst _ | SwitchInst _ | ReturnInst | UnreachableInst => true
  | _ => false
  end.

Definition getTerminator (b : BasicBlock) : option Instruction :=
  match last (insts b) with
  | Some termInst => if isTerminator termInst then Some termInst else None
  | None => None
  end.

Definition getNumSuccessors (I : Instruction) : nat :=
  match I with
  | BranchInst succs | SwitchInst succs => length succs
  | _ => 0%nat
  end.

Definition successors (b : BasicBlock) : list BlockId :=
  match getTerminator b with
  | Some (BranchInst succs) | Some (SwitchInst succs) => succs
  | _ => []
  end.

Definition findBlock (F : Function) (id : BlockId) : option BasicBlock :=
  List.find (fun b => bbId b =? id) (blocks F).

Definition predecessors (F : Function) (id : BlockId) : list BlockId :=
  flat_map (fun b => List.map (fun _ => bbId b)
                       (List.filter (Z.eqb id) (successors b))) (blocks F).

Definition instAt (F : Function) (id : BlockId) (idx : nat) : option Instruction :=
  b ← findBlock F id; insts b !! idx.

(** checkForPhi: the first instruction at or after the front that is not a
    phi, null when the block holds phis only. *)
Fixpoint checkForPhi (l : list Instruction) (idx : nat) : option nat :=
  match l with
  | [] => None
  | PHINode :: rest => checkForPhi rest (S idx)
  | _ :: _ => Some idx
  end.

(** An instruction of a unit container is known by its index in the block. *)
Record UnitLCC : Type := mkUnitLCC {
  _lccID : Z;
  _currentBlock : BlockId;
  _firstInst : option nat;
  _lastInst : option nat;
  _isExitLCC : bool
}.

Definition newUnitLCC (id : Z) (block : BlockId) (firstInst lastInst : option nat)
    (isExiting : bool) : result UnitLCC :=
  match firstInst, lastInst with
  | Some _, Some _ | None, None => Ok (mkUnitLCC id block firstInst lastInst isExiting)
  | _, _ => Fatal "Cannot have the first or last instruction of a container as null!"
  end.

Definition isEmptyLCC (u : UnitLCC) : bool :=
  match _firstInst u, _lastInst u with
  | Some _, Some _ => false
  | _, _ => true
  end.

Definition isExitBlockLCC (u : UnitLCC) : bool := _isExitLCC u.

(** The edge maps of a container: per predecessor (successor) the set of
    connected inner containers, and per edge the fence flag. *)
Record LCCEdges : Type := mkLCCEdges {
  predSet : gmap Z (gset Z);
  succSet : gmap Z (gset Z);
  predEdgeInfo : gmap (Z * Z) bool;
  succEdgeInfo : gmap (Z * Z) bool
}.

Definition noEdges : LCCEdges := mkLCCEdges ∅ ∅ ∅ ∅.

Definition addPredLCC (this : Z) (predLCC : Z) (hasFence : bool) (e : LCCEdges) : LCCEdges :=
  let connectedLCC := this in
  {| predSet := <[predLCC := {[connectedLCC]} ∪ default ∅ (predSet e !! predLCC)]> (predSet e);
     succSet := succSet e;
     predEdgeInfo := <[(predLCC, connectedLCC) := hasFence]> (predEdgeInfo e);
     succEdgeInfo := succEdgeInfo e |}.

Definition addSuccLCC (this : Z) (succLCC : Z) (hasFence : bool) (e : LCCEdges) : LCCEdges :=
  let connectedLCC := this in
  {| predSet := predSet e;
     succSet := <[succLCC := {[connectedLCC]} ∪ default ∅ (succSet e !! succLCC)]> (succSet e);
     predEdgeInfo := predEdgeInfo e;
     succEdgeInfo := <[(succLCC, connectedLCC) := hasFence]> (succEdgeInfo e) |}.

Record BuilderState : Type := mkBuilderState {
  lccIDGen : Z;
  units : gmap Z UnitLCC;
  edges : gmap Z LCCEdges;
  bbToContainersMap : gmap BlockId (list Z);
  globalOuterLCCList : list Z;
  errs : list string
}.

Definition initialBuilderState : BuilderState :=
  {| lccIDGen := 0; units := ∅; edges := ∅; bbToContainersMap := ∅;
     globalOuterLCCList := []; errs := [] |}.

Definition fenceNotInLibrary (name : string) : string :=
  ("Fence function " ++ name ++ "()'s cost is not found in the library. Aborting")%string.

(** The accumulators of the instruction loop of makeContainersOfBB. *)
Record LoopAcc : Type := mkLoopAcc {
  accHasFence : bool;
  accStartInst : option nat;
  accContainers : list UnitLCC;
  accIDGen : Z;
  accErrs : list string
}.

Definition nextStart (idx : nat) (rest : list Instruction) : option nat :=
  match rest with
  | [] => None
  | _ :: _ => Some (S idx)
  end.

Section Builder.
Variable g : Globals.

(** [assert("...")] on a string literal holds always: the diagnostic is
    printed and the loop goes on. *)
Fixpoint containerLoop (b : BasicBlock) (idx : nat) (rest : list Instruction)
    (acc : LoopAcc) : result LoopAcc :=
  match rest with
  | [] => Ok acc
  | inst :: rest' =>
      match inst with
      | CallInst (Some name) _ =>
          let '(hasFence, log) :=
            if isFenceFunc g name then
              (true,
               if inLibrary g name then accErrs acc
               else accErrs acc ++ [fenceNotInLibrary name])
            else
              match computedFuncInfo (costEnv g) !! name with
              | Some found => (fi_hasFence found, accErrs acc)
              | None => (accHasFence acc, accErrs acc)
              end in
          if hasFence then
            newLCC ← newUnitLCC (accIDGen acc) (bbId b) (accStartInst acc) (Some idx) false;
            containerLoop b (S idx) rest'
              {| accHasFence := hasFence;
                 accStartInst := nextStart idx rest';
                 accContainers := accContainers acc ++ [newLCC];
                 accIDGen := accIDGen acc + 1;
                 accErrs := log |}
          else
            containerLoop b (S idx) rest'
              {| accHasFence := hasFence;
                 accStartInst := accStartInst acc;
                 accContainers := accContainers acc;
                 accIDGen := accIDGen acc;
                 accErrs := log |}
      | UnreachableInst =>
          match getTerminator b with
          | None => Fatal "null terminator"
          | Some termInst =>
              let numSucc := getNumSuccessors termInst in
              newLCC ← newUnitLCC (accIDGen acc) (bbId b) (accStartInst acc) (Some idx)
                         (match numSucc with O => true | _ => false end);
              match numSucc with
              | O =>
                  Ok {| accHasFence := accHasFence acc;
                        accStartInst := None;
                        accContainers := accContainers acc ++ [newLCC];
                        accIDGen := accIDGen acc + 1;
                        accErrs := accErrs acc |}
              | _ =>
                  containerLoop b (S idx) rest'
                    {| accHasFence := accHasFence acc;
                       accStartInst := nextStart idx rest';
                       accContainers := accContainers acc ++ [newLCC];
                       accIDGen := accIDGen acc + 1;
                       accErrs := accErrs acc |}
              end
          end
      | _ => containerLoop b (S idx) rest' acc
      end
  end.

Definition registerUnit (st : BuilderState) (u : UnitLCC) : BuilderState :=
  {| lccIDGen := lccIDGen st;
     units := <[_lccID u := u]> (units st);
     edges := <[_lccID u := noEdges]> (edges st);
     bbToContainersMap := bbToContainersMap st;
     globalOuterLCCList := globalOuterLCCList st ++ [_lccID u];
     errs := errs st |}.

(** makeContainersOfBB: returns true if the block contains a fence. *)
Definition makeContainersOfBB (st : BuilderState) (b : BasicBlock)
    : result (bool * BuilderState) :=
  match checkForPhi (insts b) 0 with
  | None => Fatal "assert(startInst)"
  | Some startIdx =>
      acc ← containerLoop b startIdx (drop startIdx (insts b))
               {| accHasFence := false; accStartInst := Some startIdx;
                  accContainers := []; accIDGen := lccIDGen st; accErrs := errs st |};
      acc ←
        match accStartInst acc with
        | Some _ =>
            newLCC ← newUnitLCC (accIDGen acc) (bbId b) (accStartInst acc)
                       (Some (length (insts b) - 1)%nat) false;
            Ok {| accHasFence := accHasFence acc;
                  accStartInst := accStartInst acc;
                  accContainers := accContainers acc ++ [newLCC];
                  accIDGen := accIDGen acc + 1;
                  accErrs := accErrs acc |}
        | None => Ok acc
        end;
      let st1 :=
        {| lccIDGen := accIDGen acc;
           units := units st;
           edges := edges st;
           bbToContainersMap :=
             <[bbId b := List.map _lccID (accContainers acc)]> (bbToContainersMap st);
           globalOuterLCCList := globalOuterLCCList st;
           errs := accErrs acc |} in
      Ok (accHasFence acc, fold_left registerUnit (accContainers acc) st1)
  end.

Definition updEdges (st : BuilderState) (id : Z) (f : LCCEdges -> LCCEdges) : BuilderState :=
  {| lccIDGen := lccIDGen st;
     units := units st;
     edges := <[id := f (default noEdges (edges st !! id))]> (edges st);
     bbToContainersMap := bbToContainersMap st;
     globalOuterLCCList := globalOuterLCCList st;
     errs := errs st |}.

Definition getUnit (st : BuilderState) (id : Z) : result UnitLCC :=
  match units st !! id with
  | Some u => Ok u
  | None => Fatal "dangling container"
  end.

Definition getFirstLCCofBB (st : BuilderState) (bb : BlockId) : result Z :=
  match default [] (bbToContainersMap st !! bb) with
  | id :: _ => Ok id
  | [] => Fatal "front() of an empty vector"
  end.

Definition getLastLCCofBB (st : BuilderState) (bb : BlockId) : result Z :=
  match last (default [] (bbToContainersMap st !! bb)) with
  | Some id => Ok id
  | None => Fatal "back() of an empty vector"
  end.

(** Whether the edge leaving a container is a fence edge: its last
    instruction is unreachable or a call to a fence. *)
Definition edgeIsFence (F : Function) (u : UnitLCC) : result bool :=
  match _lastInst u with
  | None => Fatal "null instruction"
  | Some idx =>
      match instAt F (_currentBlock u) idx with
      | None => Fatal "null instruction"
      | Some UnreachableInst => Ok true
      | Some (CallInst (Some name) _) => Ok (isFenceFunc g name)
      | Some _ => Ok false
      end
  end.

(** Connections between the containers of one block, split by fences. *)
Fixpoint chainContainers (st : BuilderState) (prevLCC : Z) (rest : list Z)
    : result BuilderState :=
  match rest with
  | [] => Ok st
  | blockContainer :: rest' =>
      u ← getUnit st blockContainer;
      let st' :=
        if negb (isExitBlockLCC u) then
          updEdges (updEdges st prevLCC (addSuccLCC prevLCC blockContainer true))
                   blockContainer (addPredLCC blockContainer prevLCC true)
        else st in
      chainContainers st' blockContainer rest'
  end.

Fixpoint connectPreds (F : Function) (st : BuilderState) (firstContainer : Z)
    (preds : list BlockId) : result BuilderState :=
  match preds with
  | [] => Ok st
  | PI :: rest =>
      lastLCCofPrev ← getLastLCCofBB st PI;
      u ← getUnit st lastLCCofPrev;
      if isEmptyLCC u || isExitBlockLCC u then connectPreds F st firstContainer rest
      else
        fence ← edgeIsFence F u;
        connectPreds F
          (updEdges st firstContainer (addPredLCC firstContainer lastLCCofPrev fence))
          firstContainer rest
  end.

Fixpoint connectSuccs (F : Function) (st : BuilderState) (lastContainer : Z)
    (succs : list BlockId) : result BuilderState :=
  match succs with
  | [] => Ok st
  | SI :: rest =>
      firstLCCofSucc ← getFirstLCCofBB st SI;
      u ← getUnit st firstLCCofSucc;
      if isEmptyLCC u || isExitBlockLCC u then connectSuccs F st lastContainer rest
      else
        lastU ← getUnit st lastContainer;
        fence ← edgeIsFence F lastU;
        connectSuccs F
          (updEdges st lastContainer (addSuccLCC lastContainer firstLCCofSucc fence))
          lastContainer rest
  end.

Definition createContainerCFG (F : Function) (st : BuilderState) (currentBB : BasicBlock)
    : result BuilderState :=
  let containers := default [] (bbToContainersMap st !! bbId currentBB) in
  st ←
    match containers with
    | first :: (_ :: _) as rest => chainContainers st first rest
    | _ => Ok st
    end;
  skip ←
    match containers with
    | [singleLCC] =>
        u ← getUnit st singleLCC;
        Ok (isEmptyLCC u || isExitBlockLCC u)
    | _ => Ok false
    end;
  if (skip : bool) then Ok st
  else
    firstContainer ← getFirstLCCofBB st (bbId currentBB);
    st ← connectPreds F st firstContainer (predecessors F (bbId currentBB));
    lastContainer ← getLastLCCofBB st (bbId currentBB);
    connectSuccs F st lastContainer (successors currentBB).

Fixpoint makeAllContainers (st : BuilderState) (bbs : list BasicBlock) (hasFence : bool)
    : result (bool * BuilderState) :=
  match bbs with
  | [] => Ok (hasFence, st)
  | BB :: rest =>
      r ← makeContainersOfBB st BB;
      let blockHasFence := fst (r : bool * BuilderState) in
      makeAllContainers (snd r) rest (if blockHasFence then true else hasFence)
  end.

Fixpoint createAllEdges (F : Function) (st : BuilderState) (bbs : list BasicBlock)
    : result BuilderState :=
  match bbs with
  | [] => Ok st
  | BB :: rest =>
      st' ← createContainerCFG F st BB;
      createAllEdges F st' rest
  end.

End Builder.

Definition setFuncInfo (g : Globals) (name : string) (fi : FuncInfo) : Globals :=
  {| costEnv :=
       {| libraryInstructionCosts := libraryInstructionCosts (costEnv g);
          computedFuncInfo := <[name := fi]> (computedFuncInfo (costEnv g)) |};
     CGOrderedFunc := CGOrderedFunc g;
     threadFunc := threadFunc g;
     fenceList := fenceList g |}.

(** initializeLCCGraph: unit containers of every block, then the edges,
    then the function's record with its fence flag and no cost yet. *)
Definition initializeLCCGraph (g : Globals) (F : Function) : result (Globals * BuilderState) :=
  r ← makeAllContainers g initialBuilderState (blocks F) false;
  let hasFence := fst (r : bool * BuilderState) in
  st ← createAllEdges g F (snd r) (blocks F);
  Ok (setFuncInfo g (fname F) {| fi_hasFence := hasFence; fi_cost := None |}, st).

(** runOnModule: the fences are defined for the predictive clock only. *)
Definition defineFences (cfg : Config) (g : Globals) : Globals :=
  {| costEnv := costEnv g;
     CGOrderedFunc := CGOrderedFunc g;
     threadFunc := threadFunc g;
     fenceList :=
       if ClockType cfg =? PREDICTIVE
       then {[ "pthread_mutex_lock" ]} ∪ ({[ "pthread_mutex_unlock" ]} ∪ fenceList g)
       else fenceList g |}.

(** *** Well-formed functions and the properties of a built graph *)

(** A block ends in its only terminator. *)
Definition wfBlock (b : BasicBlock) : Prop :=
  exists body term,
    insts b = body ++ [term] /\ isTerminator term = true /\
    Forall (fun i => isTerminator i = false) body.

(** Blocks are well formed, have distinct identifiers, and branch to blocks
    of the function. *)
Definition wfFunction (F : Function) : Prop :=
  Forall wfBlock (blocks F) /\
  NoDup (List.map bbId (blocks F)) /\
  (forall b s, In b (blocks F) -> In s (successors b) ->
               exists b', In b' (blocks F) /\ bbId b' = s).

(** No function summarised so far has a fence. *)
Definition noFenceInfo (g : Globals) : Prop :=
  forall name fi, computedFuncInfo (costEnv g) !! name = Some fi -> fi_hasFence fi = false.

(** Every edge of the container graph carries a false fence flag. *)
Definition noFenceEdges (st : BuilderState) : Prop :=
  forall id e, edges st !! id = Some e ->
    map_Forall (fun _ flag => flag = false) (predEdgeInfo e) /\
    map_Forall (fun _ flag => flag = false) (succEdgeInfo e).

(** Every block of the function has one container: it was not split. *)
Definition unsplit (F : Function) (st : BuilderState) : Prop :=
  forall b, In b (blocks F) -> exists id, bbToContainersMap st !! bbId b = Some [id].

Definition isUnreachable (i : Instruction) : bool :=
  match i with UnreachableInst => true | _ => false end.

(** The one container a well-formed block gets when nothing is a fence. *)
Definition soleUnit (b : BasicBlock) (id : Z) (start : nat) : UnitLCC :=
  mkUnitLCC id (bbId b) (Some start) (Some (length (insts b) - 1)%nat)
            (match last (insts b) with Some UnreachableInst => true | _ => false end).

Definition hasSoleUnit (st : BuilderState) (b : BasicBlock) : Prop :=
  exists id u,
    bbToContainersMap st !! bbId b = Some [id] /\ units st !! id = Some u /\
    _currentBlock u = bbId b /\
    _lastInst u = Some (length (insts b) - 1)%nat /\
    isEmptyLCC u = false /\
    isExitBlockLCC u = match last (insts b) with Some UnreachableInst => true | _ => false end.

(** The state after the containers of the blocks [done] were made. *)
Definition containersMade (st : BuilderState) (done : list BasicBlock) : Prop :=
  (forall b, In b done -> hasSoleUnit st b) /\
  (forall id, is_Some (units st !! id) -> id < lccIDGen st) /\
  (forall id e, edges st !! id = Some e -> e = noEdges).

Definition sameUnits (st st' : BuilderState) : Prop :=
  units st' = units st /\ bbToContainersMap st' = bbToContainersMap st.

(** ** The library-cost file *)

Module CostFile.

(** The bytes of a file, a line or a C string. *)
Abbreviation chars := (list ascii).

Definition newline : ascii := "010"%char.
Definition colon : ascii := ":"%char.
Definition NUL : ascii := "000"%char.

Definition chars_of (s : string) : chars := list_ascii_of_string s.
Definition string_of (l : chars) : string := string_of_list_ascii l.

(** *** Printing ([operator<<]) *)

Definition digitChar (d : Z) : ascii := ascii_of_nat (48 + Z.to_nat d).

(** The decimal digits of a non-negative number, most significant first;
    twenty digits hold every [long]. *)
Fixpoint digits (fuel : nat) (n : Z) : chars :=
  match fuel with
  | O => []
  | S fuel =>
      if n <? 10 then [digitChar n]
      else digits fuel (n / 10) ++ [digitChar (n mod 10)]
  end.

Definition printLong (v : Z) : chars :=
  if v <? 0 then "-"%char :: digits 20 (- v) else digits 20 v.

Definition opSymbol (t : optype) : chars :=
  chars_of (match t with
            | ADD => "+ " | MUL => "* " | UDIV => "/ "
            | SMAX => "smax " | SMIN => "smin "
            | UMAX => "umax " | UMIN => "umin "
            end).

Definition castSymbol (t : casttype) : chars :=
  chars_of (match t with
            | ZERO_EXT => "(zext " | SIGN_EXT => "(sext " | TRUNC => "(trunc "
            end).

Definition printType (ty : Ty) : chars := "i"%char :: digits 20 (Z.of_N ty).

(** Printing an operand through a null pointer stops the pass. *)
Fixpoint printCost (fc : InstructionCost) : result chars :=
  let printOps :=
    fix printOps (sep : chars) (ops : list (option InstructionCost)) : result chars :=
      match ops with
      | [] => Ok []
      | None :: _ => Fatal "null operand"
      | Some op :: rest =>
          s ← printCost op;
          tl ← printOps sep rest;
          Ok (s ++ sep ++ tl)
      end in
  match fc with
  | CONST v => Ok (printLong v)
  | ARG v => Ok (chars_of "(ARG: " ++ printLong v ++ chars_of ")")
  | Op t ops =>
      body ← printOps (chars_of " ") ops;
      let many := (1 <? length ops)%nat in
      Ok ((if many then chars_of "(" else []) ++ opSymbol t ++ body
          ++ (if many then chars_of ")" else []))
  | Cast t ty ops =>
      match ops with
      | Some op :: _ =>
          s ← printCost op;
          Ok (castSymbol t ++ s ++ chars_of " " ++ printType ty ++ chars_of ")")
      | _ => Fatal "null operand"
      end
  | CALL f ops =>
      body ← printOps (chars_of ", ") ops;
      Ok (chars_of "call_cost(" ++ chars_of f ++ chars_of "(" ++ body ++ chars_of ")) ")
  | ADD_REC_EXPR ops =>
      match ops with
      | Some a :: Some b :: _ =>
          sa ← printCost a;
          sb ← printCost b;
          Ok (chars_of "add_rec(start: " ++ sa ++ chars_of ", step: " ++ sb ++ chars_of ")")
      | _ => Fatal "null operand"
      end
  | UNKNOWN => Ok (chars_of "(unknown)")
  end.

(** *** writeCost *)

Definition header : chars := chars_of "Cost File".

Section Write.
Context {SE : ScalarEvolution}.
Variable env : CostEnv.

Definition writeLine (fuel : nat) (F : Function) : result chars :=
  if isDeclaration F then Ok []
  else
    match computedFuncInfo env !! fname F with
    | None => Ok []
    | Some found =>
        let funcCost := fi_cost found in
        simplifiedCost ← simplifyCost env fuel F funcCost false;
        let numCost := to_int (getConstCostWithoutAssert simplifiedCost) in
        if 0 <? numCost then
          match funcCost with
          | Some fc =>
              s ← printCost fc;
              Ok (chars_of (fname F) ++ [colon] ++ s ++ [newline])
          | None => Fatal "null cost"
          end
        else Ok []
    end.

Fixpoint writeLines (fuel : nat) (M : list Function) : result chars :=
  match M with
  | [] => Ok []
  | F :: rest =>
      l ← writeLine fuel F;
      tl ← writeLines fuel rest;
      Ok (l ++ tl)
  end.

(** The content of the file written, or no file for an empty path. *)
Definition writeCost (fuel : nat) (OutCostFilePath : string) (M : list Function)
    : result (option chars) :=
  if String.eqb OutCostFilePath "" then Ok None
  else
    body ← writeLines fuel M;
    Ok (Some (header ++ [newline] ++ body)).

End Write.

(** *** readCost *)

(** [istream::getline(buf, 128)]: characters are taken up to the end of
    the file, a newline (consumed), or until 127 are stored (failbit). *)
Record Line : Type := mkLine {
  buf : chars;
  remaining : chars;
  eofbit : bool;
  failbit : bool
}.

Fixpoint getline (room : nat) (s : chars) : Line :=
  match s with
  | [] => mkLine [] [] true false
  | c :: s' =>
      if Ascii.eqb c newline then mkLine [] s' false false
      else
        match room with
        | O => mkLine [] s false true
        | S room =>
            let l := getline room s' in
            mkLine (c :: buf l) (remaining l) (eofbit l) (failbit l)
        end
  end.

(** The C string held by a buffer: the bytes before the first NUL. *)
Fixpoint cstr (l : chars) : chars :=
  match l with
  | [] => []
  | c :: r => if Ascii.eqb c NUL then [] else c :: cstr r
  end.

Fixpoint skipDelims (l : chars) : chars :=
  match l with
  | c :: r => if Ascii.eqb c colon then skipDelims r else l
  | [] => []
  end.

Fixpoint tokenOf (l : chars) : chars * chars :=
  match l with
  | [] => ([], [])
  | c :: r =>
      if Ascii.eqb c colon then ([], r)
      else let '(t, rest) := tokenOf r in (c :: t, rest)
  end.

(** [strtok(s, ":")]: the next token and where the scan resumes, or null. *)
Definition strtok (l : chars) : option (chars * chars) :=
  match skipDelims l with
  | [] => None
  | c :: r => Some (tokenOf (c :: r))
  end.

Definition isspace (c : ascii) : bool :=
  let n := nat_of_ascii c in (n =? 32)%nat || ((9 <=? n)%nat && (n <=? 13)%nat).

Definition digitValue (c : ascii) : option Z :=
  let n := nat_of_ascii c in
  if (48 <=? n)%nat && (n <=? 57)%nat then Some (Z.of_nat n - 48) else None.

Fixpoint atoiDigits (l : chars) (acc : Z) : Z :=
  match l with
  | [] => acc
  | c :: r =>
      match digitValue c with
      | Some d => atoiDigits r (10 * acc + d)
      | None => acc
      end
  end.

Fixpoint skipSpaces (l : chars) : chars :=
  match l with
  | c :: r => if isspace c then skipSpaces r else l
  | [] => []
  end.

(** [atoi]: the value converted by [strtol], clamped to [long], as an [int]. *)
Definition atoi (l : chars) : Z :=
  let v :=
    match skipSpaces l with
    | c :: r =>
        if Ascii.eqb c "-"%char then - atoiDigits r 0
        else if Ascii.eqb c "+"%char then atoiDigits r 0
        else atoiDigits (c :: r) 0
    | [] => 0
    end in
  to_int (Z.max (- 2 ^ 63) (Z.min (2 ^ 63 - 1) v)).

Definition hasColon (l : chars) : bool := existsb (Ascii.eqb colon) l.

(** The state of the input stream. *)
Record Stream : Type := mkStream {
  content : chars;
  eof : bool;
  fail : bool
}.

Definition nextLine (s : Stream) : chars * Stream :=
  if fail s then ([], s)
  else
    let l := getline 127 (content s) in
    (buf l, mkStream (remaining l) (eofbit l)
                    (failbit l || (eofbit l && match buf l with [] => true | _ => false end))).

Fixpoint readLoop (fuel : nat) (s : Stream) (first : bool)
    (table : gmap string InstructionCost) : result (bool * gmap string InstructionCost) :=
  match fuel with
  | O => OutOfFuel
  | S fuel =>
      if eof s then Ok (true, table)
      else
        let '(buffer, s') := nextLine s in
        let str := cstr buffer in
        if first then
          if bool_decide (str = header) then readLoop fuel s' false table
          else Ok (false, table)
        else if hasColon str then
          match strtok str with
          | Some (token1, rest) =>
              match strtok rest with
              | Some (token2, _) =>
                  let iCost := atoi token2 in
                  readLoop fuel s' false (<[string_of token1 := CONST iCost]> table)
              | None => Fatal "atoi(NULL)"
              end
          | None => readLoop fuel s' false table
          end
        else readLoop fuel s' false table
  end.

(** readCost: [file] is the content found at the path, if it opens. *)
Definition readCost (fuel : nat) (InCostFilePath : string) (file : option chars)
    (table : gmap string InstructionCost) : result (bool * gmap string InstructionCost) :=
  if String.eqb InCostFilePath "" then Ok (true, table)
  else
    match file with
    | None => Ok (false, table)
    | Some bytes => readLoop fuel (mkStream bytes false false) true table
    end.

End CostFile.

(** runOnModule reads the library costs for the optimising granularities
    only.  When readCost says no, it prints a diagnostic and returns false
    ([None]): nothing is instrumented.  The assertion before the diagnostic
    is on a string literal and holds always. *)
Definition runOnModuleReadCost (cfg : Config) (fuel : nat) (InCostFilePath : string)
    (file : option CostFile.chars) (table : gmap string InstructionCost)
    : result (option (gmap string InstructionCost)) :=
  if checkIfInstGranIsOpt cfg then
    r ← CostFile.readCost fuel InCostFilePath file table;
    if fst (r : bool * gmap string InstructionCost) then Ok (Some (snd r))
    else Ok None
  else Ok (Some table).

(** *** What a cost file holds *)

Module CostFileSpec.
Import CostFile.

Definition isDigit (c : ascii) : bool :=
  match digitValue c with Some _ => true | None => false end.

(** A name the file format can carry: not empty, free of the separator,
    of line ends and of NUL. *)
Definition goodName (name : string) : Prop :=
  chars_of name <> [] /\
  Forall (fun c => c <> colon /\ c <> newline /\ c <> NUL) (chars_of name).

(** The entry written for a function: a defined function whose recorded
    cost is a positive constant. *)
Definition entryOf (env : CostEnv) (F : Function) : option (string * Z) :=
  if isDeclaration F then None
  else
    match computedFuncInfo env !! fname F with
    | Some fi =>
        match fi_cost fi with
        | Some (CONST n) => if 0 <? n then Some (fname F, n) else None
        | _ => None
        end
    | None => None
    end.

Definition entries (env : CostEnv) (M : list Function) : list (string * Z) :=
  omap (entryOf env) M.

Definition lineOf (e : string * Z) : chars :=
  chars_of (fst e) ++ [colon] ++ printLong (snd e) ++ [newline].

Definition fileLines (es : list (string * Z)) : chars := flat_map lineOf es.

Definition insertEntries (es : list (string * Z)) (table : gmap string InstructionCost)
    : gmap string InstructionCost :=
  fold_left (fun t e => <[fst e := CONST (snd e)]> t) es table.

(** The recorded costs of the defined functions are constants that fit
    [int] (or not computed yet). *)
Definition constantCosts (env : CostEnv) (M : list Function) : Prop :=
  forall F fi, In F M -> isDeclaration F = false ->
    computedFuncInfo env !! fname F = Some fi ->
    fi_cost fi = None \/ exists n, fi_cost fi = Some (CONST n) /\ in_int n.

(** Every entry has a good name and makes a line of at most 127 bytes. *)
Definition writableEntries (es : list (string * Z)) : Prop :=
  Forall (fun e => goodName (fst e) /\ 0 < snd e <= INT_MAX /\
                   (length (chars_of (fst e)) + 1 + length (printLong (snd e)) <= 127)%nat) es.

End CostFileSpec.

(** ** The production-rule reducer *)

Module Reducer.

(** What the pattern check of a rule finds: the containers to combine, no
    match, or a failing sanity assertion. *)
Inductive Match (A : Type) : Type :=
  | Matched (found : A)
  | NoMatch
  | AssertFails (msg : string).
Arguments Matched {A} found.
Arguments NoMatch {A}.
Arguments AssertFails {A} msg.

Fixpoint findLCC (x : Z) (l : list Z) : option nat :=
  match l with
  | [] => None
  | y :: r => if Z.eqb y x then Some O else option_map S (findLCC x r)
  end.

(** [std::vector::insert(position, x)] *)
Definition insertAt (position : nat) (x : Z) (l : list Z) : list Z :=
  take position l ++ x :: drop position l.

(** eraseFromGlobalLCCList: the list without the first occurrence of the
    container, and the position it was at. *)
Definition eraseFromGlobalLCCList (depricatedLCC : Z) (l : list Z)
    : result (nat * list Z) :=
  match findLCC depricatedLCC l with
  | None => Fatal "Node had already been removed from global list of containers"
  | Some i => Ok (i, take i l ++ drop (S i) l)
  end.

Fixpoint eraseAll (lccs : list Z) (l : list Z) : result (list Z) :=
  match lccs with
  | [] => Ok l
  | x :: rest =>
      p ← eraseFromGlobalLCCList x l;
      eraseAll rest (snd (p : nat * list Z))
  end.

(** The container graph (connections, enclosing containers, loop and
    dominator information) is kept abstract. *)
Record RState (Graph : Type) : Type := mkRState {
  outerLCCs : list Z;      (* globalOuterLCCList[F] *)
  nextID : Z;              (* lccIDGen *)
  graph : Graph
}.
Arguments outerLCCs {Graph} _.
Arguments nextID {Graph} _.
Arguments graph {Graph} _.
Arguments mkRState {Graph} _ _ _.

(** The pattern checks of the three rules and the constructors of the new
    containers.  A pattern finds the successor of a path; the
    post-dominator and the middle containers of a branch; the preheader,
    body and exit containers of a loop. *)
Class Patterns (Graph : Type) : Type := {
  pathPattern : RState Graph -> Z -> Match Z;
  branchPattern : RState Graph -> Z -> Match (Z * list Z);
  loopPattern : RState Graph -> Z -> Match (Z * option Z * Z);
  newPathLCC : Graph -> Z -> Z -> Z -> Graph;
  newBranchLCC : Graph -> Z -> Z -> Z * list Z -> Graph;
  newLoopLCC : Graph -> Z -> Z -> Z * option Z * Z -> Graph
}.

Section Rules.
Context {Graph : Type} {P : Patterns Graph}.

Definition checkNCreatePathLCC (st : RState Graph) (currentLCC : Z) : result (bool * RState Graph) :=
  match pathPattern st currentLCC with
  | AssertFails msg => Fatal msg
  | NoMatch => Ok (false, st)
  | Matched succLCC =>
      let newLCC := nextID st in
      let g := newPathLCC (graph st) newLCC currentLCC succLCC in
      p ← eraseFromGlobalLCCList currentLCC (outerLCCs st);
      let l := insertAt (fst (p : nat * list Z)) newLCC (snd p) in
      q ← eraseFromGlobalLCCList succLCC l;
      Ok (true, mkRState (snd (q : nat * list Z)) (newLCC + 1) g)
  end.

Definition checkNCreateBranchLCC (st : RState Graph) (currentLCC : Z) : result (bool * RState Graph) :=
  match branchPattern st currentLCC with
  | AssertFails msg => Fatal msg
  | NoMatch => Ok (false, st)
  | Matched (postDomLCC, middleLCCs) =>
      let newLCC := nextID st in
      let g := newBranchLCC (graph st) newLCC currentLCC (postDomLCC, middleLCCs) in
      p ← eraseFromGlobalLCCList currentLCC (outerLCCs st);
      let l := insertAt (fst (p : nat * list Z)) newLCC (snd p) in
      q ← eraseFromGlobalLCCList postDomLCC l;
      l' ← eraseAll middleLCCs (snd (q : nat * list Z));
      Ok (true, mkRState l' (newLCC + 1) g)
  end.

Definition checkNCreateLoopLCC (st : RState Graph) (currentLCC : Z) : result (bool * RState Graph) :=
  match loopPattern st currentLCC with
  | AssertFails msg => Fatal msg
  | NoMatch => Ok (false, st)
  | Matched (loopPredLCC, loopBodyLCC, loopSuccLCC) =>
      let newLCC := nextID st in
      let g := newLoopLCC (graph st) newLCC currentLCC (loopPredLCC, loopBodyLCC, loopSuccLCC) in
      p ← eraseFromGlobalLCCList loopPredLCC (outerLCCs st);
      let l := insertAt (fst (p : nat * list Z)) newLCC (snd p) in
      q ← eraseFromGlobalLCCList currentLCC l;
      l' ← match loopBodyLCC with
           | Some body => r ← eraseFromGlobalLCCList body (snd (q : nat * list Z));
                          Ok (snd (r : nat * list Z))
           | None => Ok (snd q)
           end;
      s ← eraseFromGlobalLCCList loopSuccLCC l';
      Ok (true, mkRState (snd (s : nat * list Z)) (newLCC + 1) g)
  end.

(** The rules in their order: the first that applies ends the check. *)
Definition checkNApplyRules (st : RState Graph) (currentLCC : Z) : result (bool * RState Graph) :=
  r1 ← checkNCreatePathLCC st currentLCC;
  if fst (r1 : bool * RState Graph) then Ok r1
  else
    r2 ← checkNCreateBranchLCC (snd r1) currentLCC;
    if fst (r2 : bool * RState Graph) then Ok r2
    else
      r3 ← checkNCreateLoopLCC (snd r2) currentLCC;
      if fst (r3 : bool * RState Graph) then Ok r3
      else Ok (false, snd r3).

(** One scan of the list, stopped by the first rule that applies. *)
Fixpoint scan (lccs : list Z) (st : RState Graph) : result (bool * RState Graph) :=
  match lccs with
  | [] => Ok (false, st)
  | itLCC :: rest =>
      r ← checkNApplyRules st itLCC;
      if fst (r : bool * RState Graph) then Ok r else scan rest (snd r)
  end.

(** The inner do-while: scan again as long as a rule applied. *)
Fixpoint scanLoop (fuel : nat) (st : RState Graph) (passes : nat)
    : result (bool * RState Graph * nat) :=
  match fuel with
  | O => OutOfFuel
  | S fuel =>
      r ← scan (outerLCCs st) st;
      let ruleApplied := fst (r : bool * RState Graph) in
      if ruleApplied then scanLoop fuel (snd r) (S passes)
      else Ok (ruleApplied, snd r, S passes)
  end.

(** traverseNReduce with its outer do-while; the result is the reduced
    state and the number of passes. *)
Fixpoint traverseNReduce (fuel : nat) (st : RState Graph) (passes : nat)
    : result (RState Graph * nat) :=
  match fuel with
  | O => OutOfFuel
  | S fuel' =>
      r ← scanLoop fuel st passes;
      let '(ruleApplied, st', passes') := (r : bool * RState Graph * nat) in
      let unknownRuleApplied := ruleApplied in
      if unknownRuleApplied then traverseNReduce fuel' st' passes'
      else Ok (st', passes')
  end.

(** A rule that reports no match leaves the state as it was; a rule that
    applies makes the list shorter. *)
Definition shrinks (rule : RState Graph -> Z -> result (bool * RState Graph)) : Prop :=
  forall st cur b st', rule st cur = Ok (b, st') ->
    if b then (length (outerLCCs st') < length (outerLCCs st))%nat else st' = st.

End Rules.

End Reducer.

(** ** Cost evaluation and instrumentation markers *)

Module CostEval.

(** What cost evaluation changes: the markers of the unit containers
    ([_instrInfo], [toBeInstrumented], [_initialCost], by container id and
    by the index of the instruction in its block), the direct branches and
    loops scheduled for later passes, and the statistics. *)
Record EvalState : Type := mkEvalState {
  _instrInfo : gmap Z (gmap nat InstructionCost);
  toBeInstrumented : gset Z;
  _initialCost : gmap Z InstructionCost;
  directBranch : gmap BlockId InstructionCost;
  selfLoop : gmap Loop costptr;
  seseLoop : gmap Loop costptr;
  applyrule2 : Z;
  rule2savedInst : Z;
  self_loop_transform : Z;
  generic_loop_transform : Z
}.

Definition initialEvalState : EvalState :=
  {| _instrInfo := ∅; toBeInstrumented := ∅; _initialCost := ∅; directBranch := ∅;
     selfLoop := ∅; seseLoop := ∅; applyrule2 := 0; rule2savedInst := 0;
     self_loop_transform := 0; generic_loop_transform := 0 |}.

Definition withInstrInfo (st : EvalState) (id : Z) (info : gmap nat InstructionCost)
    : EvalState :=
  {| _instrInfo := <[id := info]> (_instrInfo st);
     toBeInstrumented := {[id]} ∪ toBeInstrumented st;
     _initialCost := _initialCost st; directBranch := directBranch st;
     selfLoop := selfLoop st; seseLoop := seseLoop st;
     applyrule2 := applyrule2 st; rule2savedInst := rule2savedInst st;
     self_loop_transform := self_loop_transform st;
     generic_loop_transform := generic_loop_transform st |}.

Definition withDirectBranch (st : EvalState) (d : gmap BlockId InstructionCost)
    : EvalState :=
  {| _instrInfo := _instrInfo st; toBeInstrumented := toBeInstrumented st;
     _initialCost := _initialCost st; directBranch := d;
     selfLoop := selfLoop st; seseLoop := seseLoop st;
     applyrule2 := applyrule2 st; rule2savedInst := rule2savedInst st;
     self_loop_transform := self_loop_transform st;
     generic_loop_transform := generic_loop_transform st |}.

Definition withLoops (st : EvalState) (self sese : gmap Loop costptr)
    (selfCount seseCount : Z) : EvalState :=
  {| _instrInfo := _instrInfo st; toBeInstrumented := toBeInstrumented st;
     _initialCost := _initialCost st; directBranch := directBranch st;
     selfLoop := self; seseLoop := sese;
     applyrule2 := applyrule2 st; rule2savedInst := rule2savedInst st;
     self_loop_transform := selfCount; generic_loop_transform := seseCount |}.

Definition withRule2 (st : EvalState) (applied saved : Z) : EvalState :=
  {| _instrInfo := _instrInfo st; toBeInstrumented := toBeInstrumented st;
     _initialCost := _initialCost st; directBranch := directBranch st;
     selfLoop := selfLoop st; seseLoop := seseLoop st;
     applyrule2 := applied; rule2savedInst := saved;
     self_loop_transform := self_loop_transform st;
     generic_loop_transform := generic_loop_transform st |}.

(** The marker a unit container holds before an instruction. *)
Definition marker (st : EvalState) (id : Z) (inst : nat) : option InstructionCost :=
  default ∅ (_instrInfo st !! id) !! inst.

(** *** UnitLCC: markers *)

Definition setInstrInfo (u : UnitLCC) (inst : option nat) (cost : costptr)
    (st : EvalState) : result EvalState :=
  match cost, inst with
  | None, _ => Fatal "Instruction cost for instrumenting cannot be null!"
  | _, None => Fatal "Instruction for instrumenting cannot be null!"
  | Some newCost, Some i =>
      let info := default ∅ (_instrInfo st !! _lccID u) in
      _ ← match info !! i with
          | Some prevCost =>
              p ← getConstCost (Some prevCost);
              n ← getConstCost cost;
              if (p : Z) =? n then Ok tt else Fatal "exit(1)"
          | None => Ok tt
          end;
      Ok (withInstrInfo st (_lccID u) (<[i := newCost]> info))
  end.

(** With EAGER_OPT the predictive cost is put at the bottom as well. *)
Definition unitInstrumentForPC (u : UnitLCC) (cost : costptr) (st : EvalState)
    : result EvalState :=
  setInstrInfo u (_lastInst u) cost st.

Definition unitInstrumentForIC (u : UnitLCC) (cost : costptr) (st : EvalState)
    : result EvalState :=
  let numCost := hasConstCost cost in
  _ ← assert (0 <=? numCost) "Non-numeric cost cannot be instrumented!";
  if negb (numCost =? 0) then setInstrInfo u (_lastInst u) cost st else Ok st.

(** *** Strip-mining of self loops and SESE loops *)

Section Loops.
Variable cfg : Config.
Variable bst : BuilderState.

(** What the host knows of a loop, and the two loop transformations, which
    give the exit block of the transformed loop or null. *)
Variable getHeader : Loop -> BlockId.
Variable getLoopLatch : Loop -> BlockId.
Variable getInductionVariable : Loop -> option Value.
Variable transformGenericSelfLoopWithoutBounds :
  Loop -> Z -> Z -> EvalState -> result (option BlockId * EvalState).
Variable transformSESELoopWithoutBounds :
  Loop -> Z -> Z -> EvalState -> result (option BlockId * EvalState).

Definition eraseSelfLoop (L : Loop) (st : EvalState) : EvalState :=
  withLoops st (delete L (selfLoop st)) (seseLoop st)
    (self_loop_transform st) (generic_loop_transform st).

Definition eraseSESELoop (L : Loop) (st : EvalState) : EvalState :=
  withLoops st (selfLoop st) (delete L (seseLoop st))
    (self_loop_transform st) (generic_loop_transform st).

Definition countSelfLoopTransform (st : EvalState) : EvalState :=
  withLoops st (selfLoop st) (seseLoop st)
    (to_int (self_loop_transform st + 1)) (generic_loop_transform st).

Definition countGenericLoopTransform (st : EvalState) : EvalState :=
  withLoops st (selfLoop st) (seseLoop st)
    (self_loop_transform st) (to_int (generic_loop_transform st + 1)).

Definition innerIterationThresh : Z := 10.

Definition instrumentSelfLoop (L : Loop) (st : EvalState) : result EvalState :=
  match selfLoop st !! L with
  | None => Ok st
  | Some selfLoopCost =>
      let numSelfLoopCost := to_int (hasConstCost selfLoopCost) in
      if numSelfLoopCost =? 0 then Ok (eraseSelfLoop L st)
      else
        let innerLoopIterations := to_int (cdiv (CommitInterval cfg) numSelfLoopCost) in
        loopLCC ← getLastLCCofBB bst (getHeader L);
        _ ← assert (numSelfLoopCost <=? CommitInterval cfg)
              "Target interval cannot be less than or equal to loop body cost!";
        _ ← assert (0 <=? innerLoopIterations) "Inner loop iterations cannot be 0 or 1";
        unitLoopLCC ← getUnit bst loopLCC;
        let hasInductionVar :=
          match getInductionVariable L with Some _ => true | None => false end in
        if (innerLoopIterations <=? innerIterationThresh) || negb hasInductionVar then
          st1 ← unitInstrumentForIC unitLoopLCC selfLoopCost st;
          Ok (eraseSelfLoop L st1)
        else
          r ← transformGenericSelfLoopWithoutBounds L innerLoopIterations numSelfLoopCost st;
          match fst (r : option BlockId * EvalState) with
          | None =>
              st1 ← unitInstrumentForIC unitLoopLCC selfLoopCost (snd r);
              Ok (eraseSelfLoop L st1)
          | Some _ => Ok (eraseSelfLoop L (countSelfLoopTransform (snd r)))
          end
  end.

Definition instrumentSESELoop (L : Loop) (st : EvalState) : result EvalState :=
  match seseLoop st !! L with
  | None => Ok st
  | Some seseLoopCost =>
      let numSESELoopCost := to_int (hasConstCost seseLoopCost) in
      if numSESELoopCost =? 0 then Ok (eraseSESELoop L st)
      else
        let innerLoopIterations := to_int (cdiv (CommitInterval cfg) numSESELoopCost) in
        loopLCC ← getLastLCCofBB bst (getLoopLatch L);
        _ ← assert (numSESELoopCost <=? CommitInterval cfg)
              "Target interval cannot be less than or equal to loop body cost!";
        _ ← assert (0 <=? innerLoopIterations) "Inner loop iterations cannot be 0 or 1";
        unitLoopLCC ← getUnit bst loopLCC;
        let hasInductionVar :=
          match getInductionVariable L with Some _ => true | None => false end in
        if (innerLoopIterations <=? innerIterationThresh) || negb hasInductionVar then
          st1 ← unitInstrumentForIC unitLoopLCC seseLoopCost st;
          Ok (eraseSESELoop L st1)
        else
          r ← transformSESELoopWithoutBounds L innerLoopIterations numSESELoopCost st;
          match fst (r : option BlockId * EvalState) with
          | None =>
              st1 ← unitInstrumentForIC unitLoopLCC seseLoopCost (snd r);
              Ok (eraseSESELoop L st1)
          | Some _ => Ok (eraseSESELoop L (countGenericLoopTransform (snd r)))
          end
  end.

End Loops.

(** *** The container interface

    [LCCNode]'s virtual functions, as functions on the evaluation state.
    [getCostForPC toInstrument] and [getCostForIC toInstrument initialCost]
    evaluate a container, [instrumentForPC] and [instrumentForIC] mark it. *)
Record LCCNode : Type := mkLCCNode {
  getID : Z;
  getFunction : Function;
  getCostForPC : bool -> EvalState -> result (costptr * EvalState);
  getCostForIC : bool -> costptr -> EvalState -> result (costptr * EvalState);
  instrumentForPC : costptr -> EvalState -> result EvalState;
  instrumentForIC : costptr -> EvalState -> result EvalState
}.

(** The arithmetic of branch probabilities: a [double] probability times a
    [long] cost, summed in [long double] and cast to [long]. *)
Class FloatOps (double longdouble : Type) : Type := {
  ld_zero : longdouble;
  ld_add : longdouble -> longdouble -> longdouble;
  weighted : double -> Z -> longdouble;
  ld_to_long : longdouble -> Z
}.

Section Containers.
Context {SE : ScalarEvolution}.
Variable cfg : Config.
Variable g : Globals.
Variable fuel : nat.

(** *** UnitLCC *)

(** The instructions from [_firstInst] to [_lastInst], with their indices. *)
Definition unitInsts (F : Function) (u : UnitLCC) : result (list (nat * Instruction)) :=
  match _firstInst u, _lastInst u, findBlock F (_currentBlock u) with
  | Some a, Some b, Some bb =>
      if (a <=? b)%nat && (b <? length (insts bb))%nat
      then Ok (imap (fun k inst => ((a + k)%nat, inst)) (take (S b - a) (drop a (insts bb))))
      else Fatal "iterator past the end of the block"
  | _, _, _ => Fatal "null instruction"
  end.

Fixpoint unitCostsPC (F : Function) (l : list (nat * Instruction))
    : result (list costptr) :=
  match l with
  | [] => Ok []
  | (_, inst) :: rest =>
      instCost ← getInstCostForPC cfg g fuel F inst;
      tl ← unitCostsPC F rest;
      Ok (Some instCost :: tl)
  end.

Definition unitGetCostForPC (F : Function) (u : UnitLCC) (toInstrument : bool)
    (st : EvalState) : result (costptr * EvalState) :=
  l ← unitInsts F u;
  totalInstCost ← unitCostsPC F l;
  simplifiedCost ← simplifyCost (costEnv g) fuel F (Some (Op ADD totalInstCost)) false;
  _ ← assert (bool_decide (is_Some simplifiedCost))
        "Basic Block's simplified cost cannot be null!";
  if toInstrument then
    st' ← unitInstrumentForPC u simplifiedCost st;
    Ok (Some (getConstantInstCost 0), st')
  else Ok (simplifiedCost, st).

(** The loop of [UnitLCC::getCostForIC] over the instructions. *)
Fixpoint unitLoopIC (u : UnitLCC) (toInstrument : bool) (l : list (nat * Instruction))
    (totalNumCost : Z) (st : EvalState) : result (Z * EvalState) :=
  match l with
  | [] => Fatal "iterator past the end of the block"
  | (idx, inst) :: rest =>
      instCost ← getInstCostForIC cfg g inst;
      numInstCost ← getConstCost (Some instCost);
      if bool_decide (Some idx = _lastInst u) then
        let total := to_long (totalNumCost + numInstCost) in
        if toInstrument || (CommitInterval cfg <? total) then
          st' ← unitInstrumentForIC u (Some (getConstantInstCost total)) st;
          Ok (0, st')
        else Ok (total, st)
      else if CommitInterval cfg <? to_long (totalNumCost + numInstCost) then
        st' ← setInstrInfo u (Some idx) (Some (getConstantInstCost totalNumCost)) st;
        unitLoopIC u toInstrument rest numInstCost st'
      else unitLoopIC u toInstrument rest (to_long (totalNumCost + numInstCost)) st
  end.

Definition withInitialCost (st : EvalState) (id : Z) (c : InstructionCost) : EvalState :=
  {| _instrInfo := _instrInfo st; toBeInstrumented := toBeInstrumented st;
     _initialCost := <[id := c]> (_initialCost st); directBranch := directBranch st;
     selfLoop := selfLoop st; seseLoop := seseLoop st;
     applyrule2 := applyrule2 st; rule2savedInst := rule2savedInst st;
     self_loop_transform := self_loop_transform st;
     generic_loop_transform := generic_loop_transform st |}.

Definition unitGetCostForIC (F : Function) (u : UnitLCC) (toInstrument : bool)
    (initialCost : costptr) (st : EvalState) : result (costptr * EvalState) :=
  initialNumCost ← getConstCost initialCost;
  _ ← assert (initialNumCost <=? CommitInterval cfg)
        "Initial cost cannot be greater than the commit cost interval!";
  r ← match _initialCost st !! _lccID u, initialCost with
      | Some stored, _ =>
          storedInitCost ← getConstCost (Some stored);
          _ ← assert ((initialNumCost <=? 0) || (storedInitCost <=? 0)
                      || (initialNumCost =? storedInitCost))
                "Initial cost cannot be different than the one used for last evaluation";
          Ok (if 0 <? storedInitCost then storedInitCost else initialNumCost, st)
      | None, Some c => Ok (initialNumCost, withInitialCost st (_lccID u) c)
      | None, None => Ok (initialNumCost, st)
      end;
  l ← unitInsts F u;
  r' ← unitLoopIC u toInstrument l (fst (r : Z * EvalState)) (snd r);
  Ok (Some (getConstantInstCost (fst (r' : Z * EvalState))), snd r').

Definition unitNode (F : Function) (u : UnitLCC) : LCCNode :=
  {| getID := _lccID u;
     getFunction := F;
     getCostForPC := unitGetCostForPC F u;
     getCostForIC := unitGetCostForIC F u;
     instrumentForPC := unitInstrumentForPC u;
     instrumentForIC := unitInstrumentForIC u |}.

(** *** BranchLCC *)

Context {double longdouble : Type} {FO : FloatOps double longdouble}.

Record BranchLCC : Type := mkBranchLCC {
  _branchID : Z;
  _entryLCC : LCCNode;
  _exitLCC : LCCNode;
  _branchLCCInfo : list (LCCNode * double);
  _hasDirectEdge : bool;
  _directBranchProb : double;
  _domBlock : BlockId;
  _postdomBlock : BlockId
}.

(** The variables of the loop over the branches. *)
Record BranchAcc : Type := mkBranchAcc {
  instrumentBranch : bool;
  first : bool;
  maxCost : Z;
  minCost : Z;
  avgFloatingBranchCost : longdouble;
  numNonDirectEdges : Z;
  branchToCostMap : gmap Z costptr
}.

Definition initialBranchAcc : BranchAcc :=
  mkBranchAcc false true 0 0 ld_zero 0 ∅.

(** The minimum and maximum kept by the loop. *)
Definition trackCost (acc : BranchAcc) (numBranchCost : Z) : Z * Z :=
  if first acc then (numBranchCost, numBranchCost)
  else (if maxCost acc <? numBranchCost then numBranchCost else maxCost acc,
        if numBranchCost <? minCost acc then numBranchCost else minCost acc).

Fixpoint branchLoopPC (branches : list (LCCNode * double)) (acc : BranchAcc)
    (st : EvalState) : result (BranchAcc * EvalState) :=
  match branches with
  | [] => Ok (acc, st)
  | (branchLCC, branchProb) :: rest =>
      r ← getCostForPC branchLCC false st;
      let branchCost := fst (r : costptr * EvalState) in
      let numBranchCost := hasConstCost branchCost in
      let n := to_int (numNonDirectEdges acc + 1) in
      let map := <[getID branchLCC := branchCost]> (branchToCostMap acc) in
      let acc' :=
        if numBranchCost =? -1 then
          mkBranchAcc true (first acc) (maxCost acc) (minCost acc)
            (avgFloatingBranchCost acc) n map
        else
          let mm := trackCost acc numBranchCost in
          mkBranchAcc (instrumentBranch acc) false (fst mm) (snd mm)
            (ld_add (avgFloatingBranchCost acc) (weighted branchProb numBranchCost)) n map in
      branchLoopPC rest acc' (snd r)
  end.

Fixpoint instrumentBranchesPC (branches : list (LCCNode * double))
    (costs : gmap Z costptr) (st : EvalState) : result EvalState :=
  match branches with
  | [] => Ok st
  | (branchLCC, _) :: rest =>
      match costs !! getID branchLCC with
      | None => Fatal "Branch PC cost not found!"
      | Some branchCost =>
          st' ← instrumentForPC branchLCC branchCost st;
          instrumentBranchesPC rest costs st'
      end
  end.

Definition pushCost (c : costptr) : list costptr :=
  match c with Some _ => [c] | None => [] end.

Definition countRule2 (st : EvalState) (numNonDirect : Z) : EvalState :=
  withRule2 st (to_int (applyrule2 st + 1))
    (to_int (to_int (rule2savedInst st + numNonDirect) + 1)).

Definition branchInstrumentForPC (b : BranchLCC) : costptr -> EvalState -> result EvalState :=
  instrumentForPC (_entryLCC b).

Definition branchInstrumentForIC (b : BranchLCC) : costptr -> EvalState -> result EvalState :=
  instrumentForIC (_exitLCC b).

(** The costs that stay with the branch container are summed, simplified
    and returned; they are put in the entry container when asked. *)
Definition branchSumPC (b : BranchLCC) (toInstrument : bool) (costs : list costptr)
    (st : EvalState) : result (costptr * EvalState) :=
  let newCost := Op ADD costs in
  simplifiedNewCost ← simplifyCost (costEnv g) fuel (getFunction (_entryLCC b))
                        (Some newCost) false;
  _ ← assert (bool_decide (is_Some simplifiedNewCost))
        "Simplified branch cost cannot be null!";
  if toInstrument then
    st' ← branchInstrumentForPC b simplifiedNewCost st;
    Ok (simplifiedNewCost, st')
  else Ok (simplifiedNewCost, st).

Definition branchGetCostForPC (b : BranchLCC) (toInstrument : bool) (st : EvalState)
    : result (costptr * EvalState) :=
  r1 ← getCostForPC (_entryLCC b) false st;
  r2 ← getCostForPC (_exitLCC b) false (snd (r1 : costptr * EvalState));
  let costs := pushCost (fst r1) ++ pushCost (fst (r2 : costptr * EvalState)) in
  r3 ← branchLoopPC (_branchLCCInfo b) initialBranchAcc (snd r2);
  let acc := fst (r3 : BranchAcc * EvalState) in
  let avgBranchCost := to_long (ld_to_long (avgFloatingBranchCost acc)) in
  let minCost' := if _hasDirectEdge b then 0 else minCost acc in
  let diffCost := to_long (maxCost acc - minCost') in
  let instrumentBranch' := instrumentBranch acc || (ALLOWED_DEVIATION <? diffCost) in
  r4 ← (if instrumentBranch' then
          st' ← instrumentBranchesPC (_branchLCCInfo b) (branchToCostMap acc) (snd r3);
          Ok (costs, st')
        else
          Ok (costs ++ [Some (getConstantInstCost avgBranchCost)],
              countRule2 (snd r3) (numNonDirectEdges acc)));
  branchSumPC b toInstrument (fst (r4 : list costptr * EvalState)) (snd r4).

Fixpoint branchLoopIC (branches : list (LCCNode * double)) (entryLCCCost : costptr)
    (acc : BranchAcc) (st : EvalState) : result (BranchAcc * EvalState) :=
  match branches with
  | [] => Ok (acc, st)
  | (branchLCC, branchProb) :: rest =>
      r ← getCostForIC branchLCC false entryLCCCost st;
      let branchCost := fst (r : costptr * EvalState) in
      numBranchCost ← getConstCost branchCost;
      let mm := trackCost acc numBranchCost in
      let acc' :=
        mkBranchAcc (instrumentBranch acc) false (fst mm) (snd mm)
          (ld_add (avgFloatingBranchCost acc) (weighted branchProb numBranchCost))
          (to_int (numNonDirectEdges acc + 1))
          (<[getID branchLCC := branchCost]> (branchToCostMap acc)) in
      branchLoopIC rest entryLCCCost acc' (snd r)
  end.

Fixpoint instrumentBranchesIC (branches : list (LCCNode * double))
    (costs : gmap Z costptr) (st : EvalState) : result EvalState :=
  match branches with
  | [] => Ok st
  | (branchLCC, _) :: rest =>
      match costs !! getID branchLCC with
      | None => Fatal "Branch IC cost not found!"
      | Some branchCost =>
          st' ← instrumentForIC branchLCC branchCost st;
          instrumentBranchesIC rest costs st'
      end
  end.

(** The direct edge is scheduled for a block of its own, once. *)
Definition scheduleDirectBranch (b : BranchLCC) (numEntryLCCCost : Z) (st : EvalState)
    : EvalState :=
  if _hasDirectEdge b then
    match directBranch st !! _domBlock b with
    | None =>
        let numDirectBranchCost := to_long (numEntryLCCCost + 1) in
        withDirectBranch st
          (<[_domBlock b := getConstantInstCost numDirectBranchCost]> (directBranch st))
    | Some _ => st
    end
  else st.

(** The exit container is evaluated from the cost handed on by the
    branches; what exceeds the commit interval is committed there. *)
Definition branchExitIC (b : BranchLCC) (toInstrument : bool) (avgBranchCost : Z)
    (st : EvalState) : result (costptr * EvalState) :=
  r ← getCostForIC (_exitLCC b) false (Some (getConstantInstCost avgBranchCost)) st;
  let exitLCCCost := fst (r : costptr * EvalState) in
  remCost ← getConstCost exitLCCCost;
  if toInstrument || (CommitInterval cfg <? remCost) then
    st' ← branchInstrumentForIC b exitLCCCost (snd r);
    Ok (Some (getConstantInstCost 0), st')
  else Ok (exitLCCCost, snd r).

Definition branchGetCostForIC (b : BranchLCC) (toInstrument : bool)
    (initialCost : costptr) (st : EvalState) : result (costptr * EvalState) :=
  initialNumCost ← getConstCost initialCost;
  _ ← assert (initialNumCost <=? CommitInterval cfg)
        "Initial cost cannot be greater than the commit cost interval!";
  r1 ← getCostForIC (_entryLCC b) false initialCost st;
  let entryLCCCost := fst (r1 : costptr * EvalState) in
  r2 ← branchLoopIC (_branchLCCInfo b) entryLCCCost initialBranchAcc (snd r1);
  let acc := fst (r2 : BranchAcc * EvalState) in
  numEntryLCCCost ← getConstCost entryLCCCost;
  let minCost' :=
    if _hasDirectEdge b && (numEntryLCCCost <? minCost acc)
    then numEntryLCCCost else minCost acc in
  let maxCost' :=
    if _hasDirectEdge b && (maxCost acc <? numEntryLCCCost)
    then numEntryLCCCost else maxCost acc in
  let avgFloating :=
    if _hasDirectEdge b
    then ld_add (avgFloatingBranchCost acc) (weighted (_directBranchProb b) numEntryLCCCost)
    else avgFloatingBranchCost acc in
  let avgBranchCost := to_long (ld_to_long avgFloating) in
  let diffCost := to_long (maxCost' - minCost') in
  if ALLOWED_DEVIATION <? diffCost then
    st' ← instrumentBranchesIC (_branchLCCInfo b) (branchToCostMap acc) (snd r2);
    branchExitIC b toInstrument 0 (scheduleDirectBranch b numEntryLCCCost st')
  else
    branchExitIC b toInstrument avgBranchCost
      (countRule2 (snd r2) (numNonDirectEdges acc)).

(** *** The branch rule in the words of its description

    The branches are evaluated in turn; the decision is taken on the list
    of their costs. *)

Fixpoint evalBranchesPC (branches : list (LCCNode * double)) (st : EvalState)
    : result (list costptr * EvalState) :=
  match branches with
  | [] => Ok ([], st)
  | (branchLCC, _) :: rest =>
      r ← getCostForPC branchLCC false st;
      r' ← evalBranchesPC rest (snd (r : costptr * EvalState));
      Ok (fst r :: fst (r' : list costptr * EvalState), snd r')
  end.

Fixpoint evalBranchesIC (branches : list (LCCNode * double)) (entryCost : costptr)
    (st : EvalState) : result (list costptr * EvalState) :=
  match branches with
  | [] => Ok ([], st)
  | (branchLCC, _) :: rest =>
      r ← getCostForIC branchLCC false entryCost st;
      r' ← evalBranchesIC rest entryCost (snd (r : costptr * EvalState));
      Ok (fst r :: fst (r' : list costptr * EvalState), snd r')
  end.

(** Every branch is marked with its own cost. *)
Fixpoint instrumentEachPC (l : list (LCCNode * costptr)) (st : EvalState)
    : result EvalState :=
  match l with
  | [] => Ok st
  | (branchLCC, branchCost) :: rest =>
      st' ← instrumentForPC branchLCC branchCost st;
      instrumentEachPC rest st'
  end.

Fixpoint instrumentEachIC (l : list (LCCNode * costptr)) (st : EvalState)
    : result EvalState :=
  match l with
  | [] => Ok st
  | (branchLCC, branchCost) :: rest =>
      st' ← instrumentForIC branchLCC branchCost st;
      instrumentEachIC rest st'
  end.

Definition maxOf (l : list Z) : Z :=
  match l with [] => 0 | n :: rest => fold_left Z.max rest n end.

Definition minOf (l : list Z) : Z :=
  match l with [] => 0 | n :: rest => fold_left Z.min rest n end.

(** The branches of constant cost, with their probabilities. *)
Fixpoint constantBranches (probs : list double) (costs : list costptr)
    : list (double * Z) :=
  match probs, costs with
  | p :: probs', c :: costs' =>
      if hasConstCost c =? -1 then constantBranches probs' costs'
      else (p, hasConstCost c) :: constantBranches probs' costs'
  | _, _ => []
  end.

Definition weightedSum (l : list (double * Z)) : longdouble :=
  fold_left (fun a pn => ld_add a (weighted (fst pn) (snd pn))) l ld_zero.

(** Predictive: a branch of unknown cost, or a spread above the allowed
    deviation; the minimum counts as 0 when there is a direct edge. *)
Definition mustInstrumentPC (b : BranchLCC) (costs : list costptr) : bool :=
  let consts := List.map snd (constantBranches (List.map snd (_branchLCCInfo b)) costs) in
  let spread := to_long (maxOf consts - (if _hasDirectEdge b then 0 else minOf consts)) in
  existsb (fun c => hasConstCost c =? -1) costs || (ALLOWED_DEVIATION <? spread).

Definition averagePC (b : BranchLCC) (costs : list costptr) : Z :=
  to_long (ld_to_long
    (weightedSum (constantBranches (List.map snd (_branchLCCInfo b)) costs))).

(** Instantaneous: the spread of the branch costs, the cost at the entry
    counting as the cost of the direct edge. *)
Definition mustInstrumentIC (b : BranchLCC) (entryCost : Z) (costs : list Z) : bool :=
  let mx := maxOf costs in
  let mn := minOf costs in
  let spread :=
    if _hasDirectEdge b then to_long (Z.max mx entryCost - Z.min mn entryCost)
    else to_long (mx - mn) in
  ALLOWED_DEVIATION <? spread.

Definition averageIC (b : BranchLCC) (entryCost : Z) (costs : list Z) : Z :=
  let branches := zip (List.map snd (_branchLCCInfo b)) costs in
  to_long (ld_to_long
    (weightedSum (if _hasDirectEdge b
                  then branches ++ [(_directBranchProb b, entryCost)]
                  else branches))).

(** A container whose methods leave the scheduled direct branches alone. *)
Record keepsDirectBranch (n : LCCNode) : Prop := {
  keeps_getCostForPC : forall t st c st',
    getCostForPC n t st = Ok (c, st') -> directBranch st' = directBranch st;
  keeps_getCostForIC : forall t i st c st',
    getCostForIC n t i st = Ok (c, st') -> directBranch st' = directBranch st;
  keeps_instrumentForPC : forall c st st',
    instrumentForPC n c st = Ok st' -> directBranch st' = directBranch st;
  keeps_instrumentForIC : forall c st st',
    instrumentForIC n c st = Ok st' -> directBranch st' = directBranch st
}.

Definition branchNode (b : BranchLCC) : LCCNode :=
  {| getID := _branchID b;
     getFunction := getFunction (_entryLCC b);
     getCostForPC := branchGetCostForPC b;
     getCostForIC := branchGetCostForIC b;
     instrumentForPC := branchInstrumentForPC b;
     instrumentForIC := branchInstrumentForIC b |}.

End Containers.

End CostEval.

(** ** The probe emitter

    The instructions a probe is made of, the functions that emit them, and
    what they do when the instrumented program runs. *)

Module Probe.

Inductive GlobalVar : Type :=
  | LocalLC                       (* thread-local i64 clock *)
  | lc_disabled_count             (* thread-local i32 *)
  | LastCycleTS                   (* thread-local i64 *)
  | intvActionHook                (* thread-local pointer to the handler *)
  | gLocalCounter (F : string)    (* the function's own counter *)
  | gLocalFLag (F : string).      (* the function's own flag *)

(** The values a probe creates, by the role they have in it. *)
Inductive Reg : Type :=
  | costVal
  | loadDisFlag | clock_running
  | Load_lc | Inc | now | then_ | timeDiff
  | commit
  | now_gate | then_gate | timeDiff_gate | exceeded_cycle
  | disFlagVal | lc_reg | ci_handler | loadDisFlag2 | disFlagVal2.

Inductive Operand : Type :=
  | ConstantInt (bits : Z) (value : Z)
  | Value (r : Reg).

Inductive Predicate : Type := ICMP_EQ | ICMP_UGT | ICMP_UGE.

Inductive Inst : Type :=
  | Load (dst : Reg) (ptr : GlobalVar)
  | Store (v : Operand) (ptr : GlobalVar)
  | Add (dst : Reg) (bits : Z) (a b : Operand)
  | Sub (dst : Reg) (bits : Z) (a b : Operand)
  | ICmp (dst : Reg) (p : Predicate) (bits : Z) (a b : Operand)
  | ReadCycleCounter (dst : Reg)
  | Call (callee : Operand) (args : list Operand)
  | IfThen (cond : Operand) (thenBlock : list Inst)
  | IfThenElse (cond : Operand) (thenBlock elseBlock : list Inst).

Inductive eInstrumentType : Type := ALL_IR | PUSH_ON_CYCLES | INCR_ON_CYCLES.

(** *** Emission *)

(** [gIsOnlyThreadLocal] when a probe is emitted.  runOnModule has two
    switches on the granularity.  The first, which prints the configuration,
    exits for OPTIMIZE_HEURISTIC, NAIVE, LEGACY_HEURISTIC, COREDET_HEURISTIC
    and for a value it does not know.  The second sets the flag; its cases
    for NAIVE, LEGACY_HEURISTIC and COREDET_HEURISTIC, which clear it, come
    after that exit. *)
Definition gIsOnlyThreadLocal (cfg : Config) : result bool :=
  if isOneOf (InstGranularity cfg)
       [OPTIMIZE_HEURISTIC; NAIVE; LEGACY_HEURISTIC; COREDET_HEURISTIC]
  then Fatal "exit(1)"
  else if negb (isOneOf (InstGranularity cfg)
       [OPTIMIZE_HEURISTIC_WITH_TL; OPTIMIZE_HEURISTIC_FIBER; NAIVE_TL;
        LEGACY_HEURISTIC_TL; COREDET_HEURISTIC_TL; LEGACY_ACCURATE; OPTIMIZE_ACCURATE;
        NAIVE_ACCURATE; OPTIMIZE_INTERMEDIATE; OPTIMIZE_CYCLES;
        OPTIMIZE_HEURISTIC_INTERMEDIATE_FIBER; NAIVE_INTERMEDIATE;
        NAIVE_HEURISTIC_FIBER; NAIVE_CYCLES])
  then Fatal "exit(1)"
  else if isOneOf (InstGranularity cfg)
       [NAIVE_TL; NAIVE_INTERMEDIATE; NAIVE_CYCLES; NAIVE_HEURISTIC_FIBER; NAIVE_ACCURATE;
        LEGACY_HEURISTIC_TL; LEGACY_ACCURATE; COREDET_HEURISTIC_TL;
        OPTIMIZE_HEURISTIC_WITH_TL; OPTIMIZE_HEURISTIC_FIBER; OPTIMIZE_ACCURATE;
        OPTIMIZE_INTERMEDIATE; OPTIMIZE_HEURISTIC_INTERMEDIATE_FIBER; OPTIMIZE_CYCLES]
  then Ok true
  else if isOneOf (InstGranularity cfg) [NAIVE; LEGACY_HEURISTIC; COREDET_HEURISTIC]
  then Ok false
  else Fatal "exit(1)".

Definition getCostOfInstrumentation (cfg : Config) : result Z :=
  let instrumentationCost :=
    if checkIfInstGranIsDet cfg then 9
    else if checkIfInstGranIsIntermediate cfg then 15
    else if checkIfInstGranCycleBasedCounter cfg then 35
    else 0 in
  _ ← (if negb (InstGranularity cfg =? NAIVE_ACCURATE)
          && negb (InstGranularity cfg =? OPTIMIZE_ACCURATE)
       then assert (negb (instrumentationCost =? 0))
              "Instrumentation cost is not available for this type of configuration"
       else Ok tt);
  Ok instrumentationCost.

(** [(double) z] and [(int) d]. *)
Definition double_of_int (z : Z) : PrimFloat.float :=
  if z <? 0 then PrimFloat.opp (PrimFloat.of_uint63 (Uint63.of_Z (- z)))
  else PrimFloat.of_uint63 (Uint63.of_Z z).

Definition int_of_double (d : PrimFloat.float) : Z :=
  match FloatOps.Prim2SF d with
  | SpecFloat.S754_finite s m e =>
      let v := if 0 <=? e then Z.pos m * 2 ^ e else Z.pos m / 2 ^ (- e) in
      to_int (if s then - v else v)
  | _ => 0
  end.

(** The literal [0.9]. *)
Definition zero_point_nine : PrimFloat.float :=
  PrimFloat.div (double_of_int 9) (double_of_int 10).

(** [int threshold = 0.9 * TargetIntervalInCycles] *)
Definition cycleThreshold (cfg : Config) : Z :=
  int_of_double (PrimFloat.mul zero_point_nine (double_of_int (TargetIntervalInCycles cfg))).

Section Emit.
Variable cfg : Config.
Variable F : string.

Definition counterVar (threadLocal : bool) : GlobalVar :=
  if threadLocal then LocalLC else gLocalCounter F.

Definition flagVar (threadLocal : bool) : GlobalVar :=
  if threadLocal then lc_disabled_count else gLocalFLag F.

Definition incrementTLLC (cost : option Operand) : result (list Inst * Operand) :=
  tl ← gIsOnlyThreadLocal cfg;
  match cost with
  | None => Fatal "null cost value"
  | Some c =>
      Ok ([Load Load_lc (counterVar tl);
           Add Inc 64 c (Value Load_lc);
           Store (Value Inc) (counterVar tl)], Value Inc)
  end.

Definition incrementTLLCWithCycles : result (list Inst * Operand) :=
  tl ← gIsOnlyThreadLocal cfg;
  Ok ([Load Load_lc (counterVar tl);
       ReadCycleCounter now;
       Load then_ LastCycleTS;
       Sub timeDiff 64 (Value now) (Value then_);
       Add Inc 64 (Value timeDiff) (Value Load_lc);
       Store (Value Inc) (counterVar tl);
       Store (Value now) LastCycleTS], Value Inc).

Definition pushToMLCfromTLLC (loadedLC : option Operand) (disFlag : option Operand)
    (currTSC : option Operand) : result (list Inst) :=
  tl ← gIsOnlyThreadLocal cfg;
  let disable :=
    match disFlag with
    | Some d => [Add disFlagVal 32 d (ConstantInt 32 1);
                 Store (Value disFlagVal) (flagVar tl)]
    | None => []
    end in
  instrumentationCost ← getCostOfInstrumentation cfg;
  let reset := [Store (ConstantInt 64 instrumentationCost) (counterVar tl)] in
  let stamp :=
    match currTSC with
    | Some t => [Store t LastCycleTS]
    | None => []
    end in
  let valLC :=
    match loadedLC with
    | Some v => ([], v)
    | None => ([Load lc_reg (counterVar tl)], Value lc_reg)
    end in
  let call := [Load ci_handler intvActionHook;
               Call (Value ci_handler) [snd valLC]] in
  enable ← match disFlag with
           | Some _ =>
               if tl then
                 Ok [Load loadDisFlag2 lc_disabled_count;
                     Sub disFlagVal2 32 (Value loadDisFlag2) (ConstantInt 32 1);
                     Store (Value disFlagVal2) lc_disabled_count]
               else Fatal "This path requires fix!"
           | None => Ok []
           end;
  Ok (disable ++ reset ++ stamp ++ fst valLC ++ call ++ enable).

Definition pushToMLCfromTLLCifTSCExceeded (loadedLC : option Operand)
    (disFlag : option Operand) : result (list Inst) :=
  if negb (checkIfInstGranIsIntermediate cfg) then
    Fatal "pushToMLCfromTLLCifTSCExceeded is not implemented for this Inst Gran!"
  else
    _ ← assert (negb (TargetIntervalInCycles cfg =? 0)) "Target interval is not provided.";
    tl ← gIsOnlyThreadLocal cfg;
    let threshold := cycleThreshold cfg in
    overhead ← getCostOfInstrumentation cfg;
    let instrumentationCost := to_int (cdiv (TargetInterval cfg) 2 + overhead) in
    let reduceClock := [Store (ConstantInt 64 instrumentationCost) (counterVar tl)] in
    pushBlock ← pushToMLCfromTLLC loadedLC disFlag (Some (Value now_gate));
    Ok [ReadCycleCounter now_gate;
        Load then_gate LastCycleTS;
        Sub timeDiff_gate 64 (Value now_gate) (Value then_gate);
        ICmp exceeded_cycle ICMP_UGE 64 (Value timeDiff_gate) (ConstantInt 64 threshold);
        IfThenElse (Value exceeded_cycle) pushBlock reduceClock].

Definition testNpushMLCfromTLLC (loadedLC : Operand) (disFlag : option Operand)
    (useTSC : bool) : result (list Inst) :=
  let targetinterval :=
    if checkIfInstGranCycleBasedCounter cfg then TargetIntervalInCycles cfg
    else TargetInterval cfg in
  thenBlock ← (if useTSC then pushToMLCfromTLLCifTSCExceeded (Some loadedLC) disFlag
               else pushToMLCfromTLLC (Some loadedLC) disFlag None);
  Ok [ICmp commit ICMP_UGT 64 loadedLC (ConstantInt 64 targetinterval);
      IfThen (Value commit) thenBlock].

Definition instrumentGlobal (instrType : eInstrumentType) (val : option Operand)
    (disFlag : option Operand) : result (list Inst) :=
  r ← match instrType with
      | INCR_ON_CYCLES =>
          _ ← assert (bool_decide (val = None))
                "Not expecting a pre-calculated cost value for this configuration";
          incrementTLLCWithCycles
      | _ => incrementTLLC val
      end;
  let loadedLC := snd (r : list Inst * Operand) in
  test ← testNpushMLCfromTLLC loadedLC disFlag
           (match instrType with PUSH_ON_CYCLES => true | _ => false end);
  Ok (fst r ++ test).

Definition instrumentIfLCEnabled (instrType : eInstrumentType) (incVal : option Operand)
    : result (list Inst) :=
  tl ← gIsOnlyThreadLocal cfg;
  body ← instrumentGlobal instrType incVal (Some (Value loadDisFlag));
  Ok [Load loadDisFlag (flagVar tl);
      ICmp clock_running ICMP_EQ 32 (Value loadDisFlag) (ConstantInt 32 0);
      IfThen (Value clock_running) body].

(** The probe of the optimising granularities. *)
Definition instrumentCI (val : option Operand) : result (list Inst) :=
  let gran := InstGranularity cfg in
  if isOneOf gran [OPTIMIZE_HEURISTIC; OPTIMIZE_HEURISTIC_WITH_TL; OPTIMIZE_ACCURATE]
  then instrumentIfLCEnabled ALL_IR val
  else if gran =? OPTIMIZE_INTERMEDIATE then instrumentIfLCEnabled PUSH_ON_CYCLES val
  else if gran =? OPTIMIZE_HEURISTIC_INTERMEDIATE_FIBER
  then instrumentGlobal PUSH_ON_CYCLES val None
  else if gran =? OPTIMIZE_HEURISTIC_FIBER then instrumentGlobal ALL_IR val None
  else if gran =? OPTIMIZE_CYCLES then instrumentIfLCEnabled INCR_ON_CYCLES None
  else Fatal "This level of instrumentation granularity is not present!".

(** The probe instrumentAllBlocks puts in each block of cost [instCount]. *)
Definition instrumentBlock (instCount : Z) : result (list Inst) :=
  let val := Some (ConstantInt 64 instCount) in
  let gran := InstGranularity cfg in
  if gran =? NAIVE_INTERMEDIATE then instrumentIfLCEnabled PUSH_ON_CYCLES val
  else if gran =? NAIVE_HEURISTIC_FIBER then instrumentGlobal ALL_IR val None
  else if gran =? NAIVE_CYCLES then instrumentIfLCEnabled INCR_ON_CYCLES None
  else instrumentIfLCEnabled ALL_IR val.

End Emit.

(** *** Execution *)

Definition Memory : Type := GlobalVar -> Z.

Definition sameVar (a b : GlobalVar) : bool :=
  match a, b with
  | LocalLC, LocalLC | lc_disabled_count, lc_disabled_count
  | LastCycleTS, LastCycleTS | intvActionHook, intvActionHook => true
  | gLocalCounter f, gLocalCounter f' | gLocalFLag f, gLocalFLag f' => String.eqb f f'
  | _, _ => false
  end.

Definition store (m : Memory) (ptr : GlobalVar) (v : Z) : Memory :=
  fun p => if sameVar p ptr then v else m p.

Definition sameReg (a b : Reg) : bool :=
  match a, b with
  | costVal, costVal | loadDisFlag, loadDisFlag | clock_running, clock_running
  | Load_lc, Load_lc | Inc, Inc | now, now | then_, then_ | timeDiff, timeDiff
  | commit, commit | now_gate, now_gate | then_gate, then_gate
  | timeDiff_gate, timeDiff_gate | exceeded_cycle, exceeded_cycle
  | disFlagVal, disFlagVal | lc_reg, lc_reg | ci_handler, ci_handler
  | loadDisFlag2, loadDisFlag2 | disFlagVal2, disFlagVal2 => true
  | _, _ => false
  end.

(** The running thread: its memory, the values computed so far, the
    readings the cycle counter will give, and the handler calls made (the
    pointer called and its argument). *)
Record Machine : Type := mkMachine {
  mem : Memory;
  regs : Reg -> Z;
  cycles : list Z;
  calls : list (Z * Z)
}.

Definition unsigned (bits : Z) (v : Z) : Z := v mod 2 ^ bits.

Definition valueOf (m : Machine) (o : Operand) : Z :=
  match o with
  | ConstantInt bits v => unsigned bits v
  | Value r => regs m r
  end.

Definition setReg (m : Machine) (r : Reg) (v : Z) : Machine :=
  mkMachine (mem m) (fun x => if sameReg x r then v else regs m x) (cycles m) (calls m).

Definition compare (p : Predicate) (a b : Z) : bool :=
  match p with
  | ICMP_EQ => a =? b
  | ICMP_UGT => b <? a
  | ICMP_UGE => b <=? a
  end.

Section Run.
(** The code behind a handler pointer: what a call with an argument does
    to the memory. *)
Variable handler : Z -> Z -> Memory -> Memory.

Fixpoint exec (i : Inst) (m : Machine) : Machine :=
  let run := fix run (l : list Inst) (m : Machine) : Machine :=
    match l with
    | [] => m
    | i :: rest => run rest (exec i m)
    end in
  match i with
  | Load dst ptr => setReg m dst (mem m ptr)
  | Store v ptr => mkMachine (store (mem m) ptr (valueOf m v)) (regs m) (cycles m) (calls m)
  | Add dst bits a b => setReg m dst (unsigned bits (valueOf m a + valueOf m b))
  | Sub dst bits a b => setReg m dst (unsigned bits (valueOf m a - valueOf m b))
  | ICmp dst p bits a b =>
      setReg m dst (if compare p (unsigned bits (valueOf m a)) (unsigned bits (valueOf m b))
                    then 1 else 0)
  | ReadCycleCounter dst =>
      match cycles m with
      | t :: rest => mkMachine (mem m) (fun x => if sameReg x dst then unsigned 64 t
                                                 else regs m x) rest (calls m)
      | [] => setReg m dst 0
      end
  | Call callee args =>
      let f := valueOf m callee in
      let arg := match args with a :: _ => valueOf m a | [] => 0 end in
      mkMachine (handler f arg (mem m)) (regs m) (cycles m) (calls m ++ [(f, arg)])
  | IfThen cond thenBlock =>
      if valueOf m cond =? 0 then m else run thenBlock m
  | IfThenElse cond thenBlock elseBlock =>
      if valueOf m cond =? 0 then run elseBlock m else run thenBlock m
  end.

Fixpoint run (l : list Inst) (m : Machine) : Machine :=
  match l with
  | [] => m
  | i :: rest => run rest (exec i m)
  end.

End Run.

(** What is seen of a run: the memory, the cycle counter and the calls. *)
Definition observe (m : Machine) : Memory * list Z * list (Z * Z) :=
  (mem m, cycles m, calls m).

(** *** What a probe does, in the words of its description *)

Definition Observation : Type := Memory * list Z * list (Z * Z).

Definition readCycles (cyc : list Z) : Z * list Z :=
  match cyc with
  | t :: rest => (unsigned 64 t, rest)
  | [] => (0, [])
  end.

Section ProbeSpec.
Variable cfg : Config.
Variable handler : Z -> Z -> Memory -> Memory.

(** The interval the clock is compared with. *)
Definition targetOf : Z :=
  unsigned 64 (if checkIfInstGranCycleBasedCounter cfg then TargetIntervalInCycles cfg
               else TargetInterval cfg).

(** The commit: the disabled count is raised from the depth loaded by the
    guard, the clock is reset to the cost of the probe, the time stamp is
    taken when given, the handler found in [intvActionHook] at that moment
    is called with the clock value, and the disabled count read back is
    lowered. *)
Definition commitStep (overhead : Z) (depth : option Z) (stamp : option Z) (clock : Z)
    (o : Observation) : Observation :=
  let '(m, cyc, cs) := o in
  let m1 := match depth with
            | Some d => store m lc_disabled_count (unsigned 32 (d + 1))
            | None => m
            end in
  let m2 := store m1 LocalLC (unsigned 64 overhead) in
  let m3 := match stamp with Some t => store m2 LastCycleTS t | None => m2 end in
  let hook := m3 intvActionHook in
  let m4 := handler hook clock m3 in
  let m5 := match depth with
            | Some _ => store m4 lc_disabled_count (unsigned 32 (m4 lc_disabled_count - 1))
            | None => m4
            end in
  (m5, cyc, cs ++ [(hook, clock)]).

(** Increment by a cost, commit on the clock alone. *)
Definition probeOnCost (overhead : Z) (cost : Z) (depth : option Z) (o : Observation)
    : Observation :=
  let '(m, cyc, cs) := o in
  let clock := unsigned 64 (cost + m LocalLC) in
  let o1 := (store m LocalLC clock, cyc, cs) in
  if targetOf <? clock then commitStep overhead depth None clock o1 else o1.

(** Increment by a cost; past the interval, commit when enough cycles have
    gone by since the last commit, and otherwise set the clock back to half
    the interval and the cost of the probe, without calling the handler. *)
Definition probeOnCostAndCycles (overhead : Z) (cost : Z) (depth : option Z)
    (o : Observation) : Observation :=
  let '(m, cyc, cs) := o in
  let clock := unsigned 64 (cost + m LocalLC) in
  let m1 := store m LocalLC clock in
  if targetOf <? clock then
    let '(t, rest) := readCycles cyc in
    let elapsed := unsigned 64 (t - m1 LastCycleTS) in
    if unsigned 64 (cycleThreshold cfg) <=? elapsed
    then commitStep overhead depth (Some t) clock (m1, rest, cs)
    else (store m1 LocalLC (unsigned 64 (to_int (cdiv (TargetInterval cfg) 2 + overhead))),
          rest, cs)
  else (m1, cyc, cs).

(** Increment by the cycles gone by, commit on the clock alone. *)
Definition probeOnCycles (overhead : Z) (depth : option Z) (o : Observation)
    : Observation :=
  let '(m, cyc, cs) := o in
  let '(t, rest) := readCycles cyc in
  let clock := unsigned 64 (unsigned 64 (t - m LastCycleTS) + m LocalLC) in
  let o1 := (store (store m LocalLC clock) LastCycleTS t, rest, cs) in
  if targetOf <? clock then commitStep overhead depth None clock o1 else o1.

Definition probeSpec (instrType : eInstrumentType) (overhead : Z) (cost : Z)
    (depth : option Z) (o : Observation) : Observation :=
  match instrType with
  | ALL_IR => probeOnCost overhead cost depth o
  | PUSH_ON_CYCLES => probeOnCostAndCycles overhead cost depth o
  | INCR_ON_CYCLES => probeOnCycles overhead depth o
  end.

(** A guarded probe runs only at depth 0. *)
Definition guardedProbeSpec (instrType : eInstrumentType) (overhead : Z) (cost : Z)
    (o : Observation) : Observation :=
  let depth := fst (fst o) lc_disabled_count in
  if unsigned 32 depth =? 0 then probeSpec instrType overhead cost (Some depth) o else o.

End ProbeSpec.

(** An operand the caller of a probe hands in. *)
Definition fromCaller (o : Operand) : bool :=
  match o with
  | ConstantInt _ _ | Value costVal | Value loadDisFlag => true
  | _ => false
  end.

(** The granularities whose probes are guarded, and the fiber
    granularities, whose probes are not. *)
Definition guardedGranularities : list Z :=
  [OPTIMIZE_HEURISTIC_WITH_TL; OPTIMIZE_ACCURATE; OPTIMIZE_INTERMEDIATE; OPTIMIZE_CYCLES].
Definition fiberGranularities : list Z :=
  [OPTIMIZE_HEURISTIC_FIBER; OPTIMIZE_HEURISTIC_INTERMEDIATE_FIBER].

Definition instrTypeOf (cfg : Config) : eInstrumentType :=
  if isOneOf (InstGranularity cfg) [OPTIMIZE_INTERMEDIATE; OPTIMIZE_HEURISTIC_INTERMEDIATE_FIBER;
                                    NAIVE_INTERMEDIATE]
  then PUSH_ON_CYCLES
  else if isOneOf (InstGranularity cfg) [OPTIMIZE_CYCLES; NAIVE_CYCLES] then INCR_ON_CYCLES
  else ALL_IR.

(** The cost value of a probe: a constant or the value the caller computed. *)
Definition costOperand (o : Operand) : bool :=
  match o with
  | ConstantInt _ _ | Value costVal => true
  | _ => false
  end.

(** An operand the commit block does not overwrite before it uses it. *)
Definition outlivesCommit (o : Operand) : bool :=
  match o with
  | Value disFlagVal | Value lc_reg | Value ci_handler
  | Value loadDisFlag2 | Value disFlagVal2 => false
  | _ => true
  end.

(** A handler that leaves the disabled count as it found it. *)
Definition balanced (handler : Z -> Z -> Memory -> Memory) : Prop :=
  forall f arg m, handler f arg m lc_disabled_count = m lc_disabled_count.

(** An instruction that loads from or stores to the variable, itself or
    in one of its blocks. *)
Fixpoint usesVar (x : GlobalVar) (i : Inst) : bool :=
  match i with
  | Load _ ptr => sameVar ptr x
  | Store _ ptr => sameVar ptr x
  | IfThen _ thenBlock => existsb (usesVar x) thenBlock
  | IfThenElse _ thenBlock elseBlock =>
      existsb (usesVar x) thenBlock || existsb (usesVar x) elseBlock
  | _ => false
  end.

End Probe.

(** *** The outer list of a function during reduction *)

Module ReducerSpec.
Import Reducer.

(** The containers of the outer list are distinct and were all numbered by
    the id generator. *)
Definition distinctBelow {Graph : Type} (st : RState Graph) : Prop :=
  NoDup (outerLCCs st) /\ Forall (fun x => x < nextID st) (outerLCCs st).

(** The list with [newLCC] in the place of [oldLCC] and without [gone]. *)
Definition replaceAndDrop (oldLCC newLCC gone : Z) (l : list Z) : list Z :=
  List.filter (fun y => negb (y =? gone))
    (List.map (fun y => if y =? oldLCC then newLCC else y) l).

(** A rule that keeps the outer list well formed. *)
Definition keepsDistinct {Graph : Type}
    (rule : RState Graph -> Z -> result (bool * RState Graph)) : Prop :=
  forall st cur b st', rule st cur = Ok (b, st') -> distinctBelow st -> distinctBelow st'.

(** One pass that reduces: a rule applies to [x] and gives [r], no rule
    having applied to the containers that come before [x] in the list. *)
Definition reducesTo {Graph : Type} {P : Patterns Graph} (s r : RState Graph) : Prop :=
  exists pre x post,
    outerLCCs s = pre ++ x :: post /\
    (forall y, In y pre -> checkNApplyRules s y = Ok (false, s)) /\
    checkNApplyRules s x = Ok (true, r).

(** No rule applies to any container of the list. *)
Definition irreducible {Graph : Type} {P : Patterns Graph} (s : RState Graph) : Prop :=
  forall x, In x (outerLCCs s) -> checkNApplyRules s x = Ok (false, s).

End ReducerSpec.

(** *** What the evaluation of a unit container accounts for *)

Module EvalSpec.
Import CostEval.

Definition sumZ (l : list Z) : Z := fold_right Z.add 0 l.

(** The instantaneous cost of an instruction of the block, as a number. *)
Definition instCostIC (cfg : Config) (g : Globals) (p : nat * Instruction) : Z :=
  match getInstCostForIC cfg g (snd p) with
  | Ok c => hasConstCost (Some c)
  | _ => 0
  end.

(** The cost of the marker held before an instruction, 0 without a marker. *)
Definition markerCost (st : EvalState) (id : Z) (p : nat * Instruction) : Z :=
  match marker st id (fst p) with
  | Some c => hasConstCost (Some c)
  | None => 0
  end.

(** No instruction of the list holds a marker yet. *)
Definition unmarked (st : EvalState) (id : Z) (l : list (nat * Instruction)) : Prop :=
  Forall (fun p => marker st id (fst p) = None) l.

End EvalSpec.

(** *** The unit containers of a block *)

Module BuilderSpec.

(** The containers cover the instructions from [start] up to, not
    including, [next], one after the other and in this order. *)
Fixpoint tiles (start : nat) (us : list UnitLCC) (next : nat) : Prop :=
  match us with
  | [] => start = next
  | u :: rest =>
      exists lastIdx,
        _firstInst u = Some start /\ _lastInst u = Some lastIdx /\
        (start <= lastIdx)%nat /\ tiles (S lastIdx) rest next
  end.

(** The containers made for block [b] since the id generator was at [gen]. *)
Definition madeFor (b : BasicBlock) (gen : Z) (acc : LoopAcc) : Prop :=
  gen <= accIDGen acc /\
  Forall (fun u => _currentBlock u = bbId b /\ gen <= _lccID u < accIDGen acc)
    (accContainers acc) /\
  NoDup (List.map _lccID (accContainers acc)).

(** The state of the loop of makeContainersOfBB before instruction [idx]:
    the containers made so far tile the block up to the start of the
    pending one, which is at or before [idx]. *)
Definition loopInv (b : BasicBlock) (first idx : nat) (gen : Z) (acc : LoopAcc) : Prop :=
  (exists s, accStartInst acc = Some s /\ (s <= idx)%nat /\
             tiles first (accContainers acc) s) /\
  madeFor b gen acc.

(** What the loop returns: either a container is pending and starts
    inside the block, or the block is covered to its end. *)
Definition loopPost (b : BasicBlock) (first : nat) (gen : Z) (acc : LoopAcc) : Prop :=
  match accStartInst acc with
  | Some s => (s < length (insts b))%nat /\ tiles first (accContainers acc) s
  | None => tiles first (accContainers acc) (length (insts b))
  end /\
  madeFor b gen acc.

End BuilderSpec.

(** *** Simplified costs *)

Module CostSpec.

(** A cost with nothing left to resolve: constants that fit [int], no call,
    no add-recurrence, no unsigned minimum and no null operand; a division
    has two operands and a cast one. *)
Fixpoint resolved (c : InstructionCost) : bool :=
  match c with
  | CONST v => (INT_MIN <=? v) && (v <=? INT_MAX)
  | ARG _ | UNKNOWN => true
  | Op t ops =>
      match t with
      | UDIV => (length ops =? 2)%nat
      | UMIN => false
      | _ => true
      end
      && forallb (fun o => match o with Some c' => resolved c' | None => false end) ops
  | Cast _ _ ops =>
      (length ops =? 1)%nat
      && forallb (fun o => match o with Some c' => resolved c' | None => false end) ops
  | ADD_REC_EXPR _ | CALL _ _ => false
  end.

End CostSpec.

(** *** getFuncExitBlock *)

Module ExitBlock.

Definition isExitInst (termInst : Instruction) : bool :=
  match termInst with
  | ReturnInst | UnreachableInst => true
  | _ => false
  end.

(** The loop over the blocks: the second block that returns or is
    unreachable ends it with null.  [isa<>] of the null terminator of a
    block without one stops the pass. *)
Fixpoint exitBlockLoop (bbs : list BasicBlock) (exitBB : option BlockId)
    : result (option BlockId) :=
  match bbs with
  | [] => Ok exitBB
  | BB :: rest =>
      match getTerminator BB with
      | None => Fatal "isa<> used on a null pointer!"
      | Some termInst =>
          if isExitInst termInst then
            match exitBB with
            | None => exitBlockLoop rest (Some (bbId BB))
            | Some _ => Ok None
            end
          else exitBlockLoop rest exitBB
      end
  end.

Definition getFuncExitBlock (F : Function) : result (option BlockId) :=
  exitBlockLoop (blocks F) None.

(** The blocks of a function that return or end in unreachable. *)
Definition exitBlocks (F : Function) : list BasicBlock :=
  List.filter (fun b => match getTerminator b with
                        | Some termInst => isExitInst termInst
                        | None => false
                        end) (blocks F).

End ExitBlock.

(** *** The fence flag of a block *)

Module FenceFlagSpec.

(** An instruction that leaves the fence flag of the loop of
    makeContainersOfBB as it finds it: anything but a call to a fence or to
    a function with a summary. *)
Definition keepsFlag (g : Globals) (i : Instruction) : Prop :=
  match i with
  | CallInst (Some name) _ =>
      isFenceFunc g name = false /\ computedFuncInfo (costEnv g) !! name = None
  | _ => True
  end.

End FenceFlagSpec.

(** *** The outer list across the builder *)

Module OuterListSpec.

(** Two builder states with the same outer list and id generator. *)
Definition sameOuter (st st' : BuilderState) : Prop :=
  globalOuterLCCList st' = globalOuterLCCList st /\ lccIDGen st' = lccIDGen st.

End OuterListSpec.

(** *** The edges of the container graph *)

Module GraphSpec.

Definition edgesOf (st : BuilderState) (x : Z) : LCCEdges :=
  default noEdges (edges st !! x).

(** [p] is recorded as a predecessor of [c]; [c] as a successor of [p]. *)
Definition hasPred (st : BuilderState) (c p : Z) : Prop :=
  is_Some (predSet (edgesOf st c) !! p).

Definition hasSucc (st : BuilderState) (p c : Z) : Prop :=
  is_Some (succSet (edgesOf st p) !! c).

Definition containersOf (st : BuilderState) (bb : BlockId) : list Z :=
  default [] (bbToContainersMap st !! bb).

(** A container that takes part in edges: neither empty nor exiting. *)
Definition liveLCC (st : BuilderState) (x : Z) : Prop :=
  exists u, units st !! x = Some u /\ isEmptyLCC u || isExitBlockLCC u = false.

Definition notExit (st : BuilderState) (x : Z) : Prop :=
  exists u, units st !! x = Some u /\ isExitBlockLCC u = false.

(** [p] comes right before [c] in the list, and [c] is not exiting. *)
Definition chained (st : BuilderState) (l : list Z) (p c : Z) : Prop :=
  (exists l1 l2, l = l1 ++ p :: c :: l2) /\ notExit st c.

(** A block made of one container that is empty or exiting gets no edge
    to other blocks. *)
Definition skipped (st : BuilderState) (bb : BlockId) : Prop :=
  exists x u, containersOf st bb = [x] /\ units st !! x = Some u /\
              isEmptyLCC u || isExitBlockLCC u = true.

(** The predecessor edges made when block [B] is handled, and the
    successor edges. *)
Definition crossPred (F : Function) (st : BuilderState) (B : BasicBlock) (p c : Z) : Prop :=
  ~ skipped st (bbId B) /\ head (containersOf st (bbId B)) = Some c /\
  exists a, In a (predecessors F (bbId B)) /\
            last (containersOf st a) = Some p /\ liveLCC st p.

Definition crossSucc (st : BuilderState) (B : BasicBlock) (p c : Z) : Prop :=
  ~ skipped st (bbId B) /\ last (containersOf st (bbId B)) = Some p /\
  exists b, In b (successors B) /\
            head (containersOf st b) = Some c /\ liveLCC st c.

Definition blockPreds (F : Function) (st : BuilderState) (B : BasicBlock) (p c : Z) : Prop :=
  chained st (containersOf st (bbId B)) p c \/ crossPred F st B p c.

Definition blockSuccs (st : BuilderState) (B : BasicBlock) (p c : Z) : Prop :=
  chained st (containersOf st (bbId B)) p c \/ crossSucc st B p c.

(** No edge has been made yet. *)
Definition noEdgesYet (st : BuilderState) : Prop :=
  forall x e, edges st !! x = Some e -> e = noEdges.

(** What the edges rely on: branch targets are blocks of the function,
    every container of a block has its unit, the last container of a block
    with successors is live, and so is the first container of a block that
    was split. *)
Definition layout (F : Function) (st : BuilderState) : Prop :=
  (forall A s, In A (blocks F) -> In s (successors A) ->
     exists B, In B (blocks F) /\ bbId B = s) /\
  (forall B x, In B (blocks F) -> In x (containersOf st (bbId B)) ->
     is_Some (units st !! x)) /\
  (forall A p, In A (blocks F) -> successors A <> [] ->
     last (containersOf st (bbId A)) = Some p -> liveLCC st p) /\
  (forall B c c' cs, In B (blocks F) ->
     containersOf st (bbId B) = c :: c' :: cs -> liveLCC st c).

End GraphSpec.

(** *** The layout the builder gives *)

Module LayoutSpec.
Import GraphSpec.

Definition nonEmpty (u : UnitLCC) : Prop := isEmptyLCC u = false.
Definition nonExit (u : UnitLCC) : Prop := isExitBlockLCC u = false.

(** The containers made so far in a block: none is empty, and only the
    last one of a block without successors may be exiting. *)
Definition aliveAcc (b : BasicBlock) (acc : LoopAcc) : Prop :=
  Forall nonEmpty (accContainers acc) /\
  match accStartInst acc with
  | Some _ => Forall nonExit (accContainers acc)
  | None =>
      accContainers acc <> [] /\
      Forall nonExit (removelast (accContainers acc)) /\ successors b = []
  end.

(** The containers of a block once it is made. *)
Definition blockOK (st : BuilderState) (B : BasicBlock) : Prop :=
  exists us,
    us <> [] /\
    bbToContainersMap st !! bbId B = Some (List.map _lccID us) /\
    Forall (fun u => units st !! _lccID u = Some u /\ nonEmpty u) us /\
    Forall nonExit (removelast us) /\
    (successors B <> [] -> Forall nonExit us).

(** The builder state after the containers of the blocks [done]. *)
Definition built (st : BuilderState) (done : list BasicBlock) : Prop :=
  noEdgesYet st /\
  (forall id, is_Some (units st !! id) -> id < lccIDGen st) /\
  (forall B, In B done -> blockOK st B).

End LayoutSpec.

(** *** The pattern of the path rule on the graph of unit containers *)

Module PathPattern.
Import GraphSpec.

(** [predSet.size() == 1] and [predSet.begin()->first] *)
Definition getSinglePred (e : LCCEdges) : option Z :=
  if (size (predSet e) =? 1)%nat then fst <$> head (map_to_list (predSet e)) else None.

Definition getSingleSucc (e : LCCEdges) : option Z :=
  if (size (succSet e) =? 1)%nat then fst <$> head (map_to_list (succSet e)) else None.

Definition getPredSingleConnLCC (e : LCCEdges) (predLCC : Z) : option Z :=
  match predSet e !! predLCC with
  | Some connSet => if (size connSet =? 1)%nat then head (elements connSet) else None
  | None => None
  end.

Definition getSuccSingleConnLCC (e : LCCEdges) (succLCC : Z) : option Z :=
  match succSet e !! succLCC with
  | Some connSet => if (size connSet =? 1)%nat then head (elements connSet) else None
  | None => None
  end.

(** The single predecessor, when no fence separates it. *)
Definition getSinglePredWOFence (e : LCCEdges) : result (option Z) :=
  match getSinglePred e with
  | None => Ok None
  | Some singlePred =>
      match getPredSingleConnLCC e singlePred with
      | None => Ok None
      | Some connNode =>
          _ ← assert (size (predEdgeInfo e) =? 1)%nat
                "Single predecessor with single connected link cannot have multiple edge entries";
          match (predEdgeInfo e !! (singlePred, connNode) : option bool) with
          | Some fence => Ok (if fence then None else Some singlePred)
          | None => Ok None
          end
      end
  end.

Definition getSingleSuccWOFence (e : LCCEdges) : result (option Z) :=
  match getSingleSucc e with
  | None => Ok None
  | Some singleSucc =>
      match getSuccSingleConnLCC e singleSucc with
      | None => Ok None
      | Some connNode =>
          _ ← assert (size (succEdgeInfo e) =? 1)%nat
                "Single successor with single connected link cannot have multiple edge entries";
          match (succEdgeInfo e !! (singleSucc, connNode) : option bool) with
          | Some fence => Ok (if fence then None else Some singleSucc)
          | None => Ok None
          end
      end
  end.

(** getSingleSuccOfPath: the successor of a two-node path that starts at
    [this], or null. *)
Definition getSingleSuccOfPath (st : BuilderState) (this : Z) : result (option Z) :=
  singleSucc ← getSingleSuccWOFence (edgesOf st this);
  match singleSucc with
  | None => Ok None
  | Some succLCC =>
      predOfSingleSucc ← getSinglePredWOFence (edgesOf st succLCC);
      match predOfSingleSucc with
      | None => Ok None
      | Some predLCC =>
          _ ← assert (predLCC =? this)
                "The only predecessor of the only successor of the current LCC, must be the current LCC";
          Ok (Some succLCC)
      end
  end.

(** The edge maps of container [x] are consistent with each other: every
    connected set is [x] alone, and the flags are recorded for the
    recorded neighbours and no other. *)
Definition tidyEdges (x : Z) (e : LCCEdges) : Prop :=
  (forall p s, predSet e !! p = Some s -> s = {[x]}) /\
  (forall k, is_Some (predEdgeInfo e !! k) <->
             exists p, k = (p, x) /\ is_Some (predSet e !! p)) /\
  (forall c s, succSet e !! c = Some s -> s = {[x]}) /\
  (forall k, is_Some (succEdgeInfo e !! k) <->
             exists c, k = (c, x) /\ is_Some (succSet e !! c)).

Definition tidy (st : BuilderState) : Prop := forall x, tidyEdges x (edgesOf st x).

End PathPattern.

(** ** Data for the examples *)

Definition isAddOrMul (t : optype) : bool :=
  match t with ADD | MUL => true | _ => false end.

Definition isMinMax (t : optype) : bool :=
  match t with SMAX | SMIN | UMAX | UMIN => true | _ => false end.

Definition naryOfCost (t : optype) : naryKind :=
  match t with
  | ADD => scAddExpr | MUL => scMulExpr
  | SMAX => scSMaxExpr | SMIN => scSMinExpr
  | UMAX => scUMaxExpr | _ => scUMinExpr
  end.

Definition emptyCostEnv : CostEnv := mkCostEnv ∅ ∅.

Definition arg0_i32 : SCEV := SCEVUnknown (Argument 0 32%N).
Definition arg1_i64 : SCEV := SCEVUnknown (Argument 1 64%N).

Definition exampleConfig : Config :=
  {| InstGranularity := OPTIMIZE_HEURISTIC_WITH_TL; ClockType := INSTANTANEOUS;
     MemOpsCost := 1; TargetInterval := 5000; TargetIntervalInCycles := 0;
     CommitInterval := 1000; ExtLibFuncCost := 100 |}.

Definition emptyGlobals : Globals :=
  {| costEnv := emptyCostEnv; CGOrderedFunc := ∅; threadFunc := []; fenceList := ∅ |}.

(** A library table holding one function of cost 7. *)
Definition libGlobals : Globals :=
  {| costEnv := mkCostEnv {[ "memcpy" := CONST 7 ]} ∅;
     CGOrderedFunc := ∅; threadFunc := []; fenceList := ∅ |}.

Definition mainF : Function := mkFunction "main" [] false [].

Definition dbgValueCall : Instruction := CallInst (Some "llvm.dbg.value") true.

(** A function with a conditional: block 0 branches to 1 and 2, block 1
    calls the mutex lock and joins block 2, which returns. *)
Definition lockCall : Instruction := CallInst (Some "pthread_mutex_lock") false.

Definition diamondF : Function :=
  mkFunction "f" [] false
    [ mkBasicBlock 0 [OtherInst; BranchInst [1; 2]];
      mkBasicBlock 1 [lockCall; StoreInst; BranchInst [2]];
      mkBasicBlock 2 [LoadInst; ReturnInst] ].

Definition instantaneousConfig : Config := exampleConfig.

Definition predictiveConfig : Config :=
  {| InstGranularity := OPTIMIZE_HEURISTIC_WITH_TL; ClockType := PREDICTIVE;
     MemOpsCost := 1; TargetInterval := 5000; TargetIntervalInCycles := 0;
     CommitInterval := 1000; ExtLibFuncCost := 100 |}.

(** The globals of a predictive run with an empty library cost table. *)
Definition predictiveGlobals : Globals := defineFences predictiveConfig emptyGlobals.

Definition lockBlock : BasicBlock := mkBasicBlock 1 [lockCall; StoreInst; BranchInst [2]].


(** A module with two defined functions, of recorded costs 42 and 0, and a
    declaration. *)
Definition costF : Function :=
  {| fname := "f"; fargs := []; isDeclaration := false; blocks := [] |}.
Definition costG : Function :=
  {| fname := "g"; fargs := []; isDeclaration := false; blocks := [] |}.
Definition costExt : Function :=
  {| fname := "ext"; fargs := []; isDeclaration := true; blocks := [] |}.
Definition costModule : list Function := [costF; costG; costExt].
Definition costFileEnv : CostEnv :=
  {| libraryInstructionCosts := ∅;
     computedFuncInfo :=
       <["f" := {| fi_hasFence := false; fi_cost := Some (CONST 42) |}]>
       (<["g" := {| fi_hasFence := false; fi_cost := Some (CONST 0) |}]> ∅) |}.

(** A chain of three containers 1 -> 2 -> 3 reduced by the path rule alone:
    the graph maps a container to its single successor. *)
Definition chainPatterns : Reducer.Patterns (gmap Z Z) := {|
  Reducer.pathPattern := fun st currentLCC =>
    match Reducer.graph st !! currentLCC with
    | Some succLCC => Reducer.Matched succLCC
    | None => Reducer.NoMatch
    end;
  Reducer.branchPattern := fun _ _ => Reducer.NoMatch;
  Reducer.loopPattern := fun _ _ => Reducer.NoMatch;
  Reducer.newPathLCC := fun g newLCC currentLCC succLCC =>
    let g' := delete currentLCC (delete succLCC g) in
    match g !! succLCC with
    | Some next => <[newLCC := next]> g'
    | None => g'
    end;
  Reducer.newBranchLCC := fun g _ _ _ => g;
  Reducer.newLoopLCC := fun g _ _ _ => g
|}.
Definition chainState : Reducer.RState (gmap Z Z) :=
  Reducer.mkRState [1; 2; 3] 4 (<[1 := 2]> (<[2 := 3]> ∅)).

(** A loop whose header (and latch) is block 7, held by the unit container
    0 with last instruction 3; commit interval 1000, recorded body cost 200. *)
Definition loopUnit : UnitLCC := mkUnitLCC 0 7 (Some 0%nat) (Some 3%nat) false.
Definition loopBuilderState : BuilderState :=
  {| lccIDGen := 1; units := <[0 := loopUnit]> ∅; edges := ∅;
     bbToContainersMap := <[7 := [0]]> ∅; globalOuterLCCList := [0]; errs := [] |}.
Definition loopEvalState : CostEval.EvalState :=
  CostEval.withLoops CostEval.initialEvalState
    (<[1 := Some (CONST 200)]> ∅) (<[1 := Some (CONST 200)]> ∅) 0 0.
Definition noTransform (L : Loop) (iterations cost : Z) (st : CostEval.EvalState)
    : result (option BlockId * CostEval.EvalState) := Ok (None, st).

(** Exact arithmetic on fractions, for probabilities such as 1/2 on which
    the floating-point operations are exact. *)
Definition Ratio : Type := Z * Z.
Definition ratioOps : CostEval.FloatOps Ratio Ratio := {|
  CostEval.ld_zero := (0, 1);
  CostEval.ld_add := fun x y => (fst x * snd y + fst y * snd x, snd x * snd y);
  CostEval.weighted := fun p n => (fst p * n, snd p);
  CostEval.ld_to_long := fun x => Z.quot (fst x) (snd x)
|}.

(** An if-then: block 0 branches to block 1 or straight to block 2; block 1
    calls a library function of cost 500 and goes on to block 2. *)
Definition workGlobals : Globals :=
  {| costEnv := mkCostEnv {[ "work" := CONST 500 ]} ∅;
     CGOrderedFunc := ∅; threadFunc := []; fenceList := ∅ |}.
Definition ifThenF : Function :=
  mkFunction "ifThen" [] false
    [ mkBasicBlock 0 [OtherInst; BranchInst [1; 2]];
      mkBasicBlock 1 [CallInst (Some "work") false; BranchInst [2]];
      mkBasicBlock 2 [OtherInst; ReturnInst] ].
Definition domUnit : UnitLCC := mkUnitLCC 0 0 (Some 0%nat) (Some 1%nat) false.
Definition thenUnit : UnitLCC := mkUnitLCC 1 1 (Some 0%nat) (Some 1%nat) false.
Definition postDomUnit : UnitLCC := mkUnitLCC 2 2 (Some 0%nat) (Some 1%nat) true.
Definition ifThenNode (u : UnitLCC) : CostEval.LCCNode :=
  CostEval.unitNode (SE := FoldingSE) exampleConfig workGlobals 3 ifThenF u.
Definition ifThenBranch : @CostEval.BranchLCC Ratio :=
  {| CostEval._branchID := 3;
     CostEval._entryLCC := ifThenNode domUnit;
     CostEval._exitLCC := ifThenNode postDomUnit;
     CostEval._branchLCCInfo := [(ifThenNode thenUnit, (1, 2))];
     CostEval._hasDirectEdge := true;
     CostEval._directBranchProb := (1, 2);
     CostEval._domBlock := 0;
     CostEval._postdomBlock := 2 |}.
Definition stateOf {A : Type} (r : result (A * CostEval.EvalState)) : CostEval.EvalState :=
  match r with Ok (_, st) => st | _ => CostEval.initialEvalState end.

(** A thread whose clock stands at 4990, with handler 77 installed, and a
    handler that counts its calls in [LastCycleTS]. *)
Definition probeConfig : Config := exampleConfig.
Definition probeMemory : Probe.Memory :=
  fun p => match p with
           | Probe.LocalLC => 4990
           | Probe.intvActionHook => 77
           | _ => 0
           end.
Definition probeMachine : Probe.Machine :=
  Probe.mkMachine probeMemory (fun _ => 0) [] [].
Definition idleHandler (f arg : Z) (m : Probe.Memory) : Probe.Memory := m.
Definition intermediateConfig : Config :=
  {| InstGranularity := OPTIMIZE_INTERMEDIATE; ClockType := INSTANTANEOUS; MemOpsCost := 1;
     TargetInterval := 5000; TargetIntervalInCycles := 10000; CommitInterval := 1000;
     ExtLibFuncCost := 100 |}.
Definition fiberConfig : Config :=
  {| InstGranularity := OPTIMIZE_HEURISTIC_FIBER; ClockType := INSTANTANEOUS; MemOpsCost := 1;
     TargetInterval := 5000; TargetIntervalInCycles := 0; CommitInterval := 1000;
     ExtLibFuncCost := 100 |}.
Definition naiveConfig : Config :=
  {| InstGranularity := NAIVE; ClockType := INSTANTANEOUS; MemOpsCost := 1;
     TargetInterval := 5000; TargetIntervalInCycles := 0; CommitInterval := 1000;
     ExtLibFuncCost := 100 |}.
Definition disabledMachine : Probe.Machine :=
  Probe.mkMachine (Probe.store probeMemory Probe.lc_disabled_count 1) (fun _ => 0) [] [].
Definition clockedMachine : Probe.Machine :=
  Probe.mkMachine probeMemory (fun _ => 0) [20000] [].
Definition staleState : Reducer.RState (gmap Z Z) :=
  Reducer.mkRState [1; 3] 4 (<[1 := 2]> (<[2 := 3]> ∅)).
Definition twoExitF : Function :=
  mkFunction "g" [] false
    [ mkBasicBlock 0 [OtherInst; BranchInst [1; 2]];
      mkBasicBlock 1 [OtherInst; ReturnInst];
      mkBasicBlock 2 [UnreachableInst] ].
Definition forgetfulGlobals : Globals :=
  setFuncInfo predictiveGlobals "helper" {| fi_hasFence := false; fi_cost := Some (CONST 3) |}.
Definition forgetfulBlock : BasicBlock :=
  mkBasicBlock 3 [lockCall; CallInst (Some "helper") false; ReturnInst].
Definition straightF : Function :=
  mkFunction "h" [] false
    [ mkBasicBlock 0 [OtherInst; BranchInst [1]];
      mkBasicBlock 1 [LoadInst; ReturnInst] ].
Definition earlyMachine : Probe.Machine :=
  Probe.mkMachine probeMemory (fun _ => 0) [100] [].

(** * Properties *)

(** ** The cost model: the bridge to scalar evolution *)

#[global] Instance PlainSE_plain : PlainFactories PlainSE.
Proof. constructor; reflexivity. Qed.

Section SCEV_induction.
Variable P : SCEV -> Prop.
Hypothesis Hconst : forall bits v, P (SCEVConstant bits v).
Hypothesis Hcast : forall k op ty, P op -> P (SCEVCastExpr k op ty).
Hypothesis Hnary : forall k ops, Forall P ops -> P (SCEVNAryExpr k ops).
Hypothesis Hudiv : forall l r, P l -> P r -> P (SCEVUDivExpr l r).
Hypothesis Haddrec : forall ops L, Forall P ops -> P (SCEVAddRecExpr ops L).
Hypothesis Hunknown : forall v, P (SCEVUnknown v).
Hypothesis Hcnc : P SCEVCouldNotCompute.

Fixpoint SCEV_nested_ind (s : SCEV) : P s :=
  match s with
  | SCEVConstant bits v => Hconst bits v
  | SCEVCastExpr k op ty => Hcast k op ty (SCEV_nested_ind op)
  | SCEVNAryExpr k ops =>
      Hnary k ops
        ((fix go (l : list SCEV) : Forall P l :=
            match l with
            | [] => @List.Forall_nil _ P
            | o :: r => @List.Forall_cons _ P o r (SCEV_nested_ind o) (go r)
            end) ops)
  | SCEVUDivExpr l r => Hudiv l r (SCEV_nested_ind l) (SCEV_nested_ind r)
  | SCEVAddRecExpr ops L =>
      Haddrec ops L
        ((fix go (l : list SCEV) : Forall P l :=
            match l with
            | [] => @List.Forall_nil _ P
            | o :: r => @List.Forall_cons _ P o r (SCEV_nested_ind o) (go r)
            end) ops)
  | SCEVUnknown v => Hunknown v
  | SCEVCouldNotCompute => Hcnc
  end.
End SCEV_induction.

Lemma wrap_id w z : 0 < w -> - 2 ^ (w - 1) <= z < 2 ^ (w - 1) -> wrap w z = z.
Proof.
  intros Hw Hz. unfold wrap.
  assert (H2 : 2 ^ w = 2 * 2 ^ (w - 1)).
  { replace w with (Z.succ (w - 1)) at 1 by lia. rewrite Z.pow_succ_r; lia. }
  rewrite Z.mod_small; lia.
Qed.

Lemma to_int_id z : in_int z -> to_int z = z.
Proof.
  unfold in_int, INT_MIN, INT_MAX, to_int. intros H.
  apply wrap_id; [lia|]. change (32 - 1) with 31. lia.
Qed.

Lemma to_long_id z : in_long z -> to_long z = z.
Proof.
  unfold in_long, to_long. intros H.
  apply wrap_id; [lia|]. change (64 - 1) with 63. lia.
Qed.

Lemma in_int_in_long z : in_int z -> in_long z.
Proof. unfold in_int, in_long, INT_MIN, INT_MAX. lia. Qed.

Lemma supported_nary_Forall args k ops :
  supported args (SCEVNAryExpr k ops) -> Forall (supported args) ops.
Proof.
  simpl. intros (_ & Hall & _). induction ops as [|o r IH]; constructor.
  - apply Hall.
  - apply IH, Hall.
Qed.

Section Passes.
Context {SE : ScalarEvolution} {HSE : PlainFactories SE}.
Variable rec : costptr -> result scevptr.

Lemma widestPass_converts ops l w :
  converts rec ops l ->
  widestPass rec ops w = Ok (inr (widestOf w (List.map getType l))).
Proof.
  intros H. revert w. induction H as [|op s ops l [Hr Hc] _ IH]; intros w; simpl.
  - reflexivity.
  - rewrite Hr. simpl. rewrite Hc. rewrite IH. destruct w; reflexivity.
Qed.

Lemma extendPass_converts ops l W :
  converts rec ops l ->
  extendPass rec ops W = Ok (List.map (extendTo W) l).
Proof.
  intros H. induction H as [|op s ops l [Hr Hc] _ IH]; simpl.
  - reflexivity.
  - rewrite Hr. simpl. rewrite IH. simpl. unfold extendTo.
    rewrite getZeroExtendExpr_plain. reflexivity.
Qed.

Lemma minmaxPass_converts ops l p acc :
  converts rec ops l ->
  Forall (fun s => getType s = getType p) l ->
  minmaxPass rec ops (Some p) acc = Ok (inr (acc ++ l)).
Proof.
  intros H. revert acc. induction H as [|op s ops l [Hr Hc] _ IH]; intros acc Hty; simpl.
  - rewrite app_nil_r. reflexivity.
  - rewrite Hr. simpl. rewrite Hc.
    inversion Hty as [|? ? Hs Hrest]; subst.
    rewrite Hs, N.eqb_refl. rewrite IH by assumption.
    rewrite <- app_assoc. reflexivity.
Qed.

Lemma minmaxPass_converts_first ops l :
  converts rec ops l ->
  Forall (fun s => getType s = getType (hd SCEVCouldNotCompute l)) l ->
  minmaxPass rec ops None [] = Ok (inr l).
Proof.
  intros H Hty. destruct H as [|op s ops l [Hr Hc] H]; simpl.
  - reflexivity.
  - rewrite Hr. simpl. rewrite Hc.
    inversion Hty as [|? ? _ Hrest]; subst. simpl in Hrest.
    apply (minmaxPass_converts ops l s [s] H Hrest).
Qed.

End Passes.

Section RoundTrip.
Context {SE : ScalarEvolution} {HSE : PlainFactories SE}.
Variable env : CostEnv.
Variable args : list scevptr.

Lemma extendTo_not_cnc W s :
  isCouldNotCompute s = false -> isCouldNotCompute (extendTo W s) = false.
Proof. unfold extendTo. destruct (N.eqb W (getType s)); auto. Qed.

Lemma widened_not_cnc s :
  supported args s -> isCouldNotCompute (widened s) = false.
Proof.
  induction s as [bits v|k op ty IH|k ops IH|l r IHl IHr|ops L IH|v|] using SCEV_nested_ind;
    simpl; try tauto.
  - destruct k; simpl; try reflexivity.
    intros Hs. destruct (getType (widened op) <? ty)%N; [reflexivity|]. auto.
  - destruct k; reflexivity.
Qed.

Lemma converts_operands fuel (ops : list SCEV) :
  Forall (fun s => supported args s ->
            forall fuel, (depth (scevToCost s) <= fuel)%nat ->
              costToSCEV env fuel (Some (scevToCost s)) args = Ok (Some (widened s))) ops ->
  Forall (supported args) ops ->
  (fold_right (fun o n => Nat.max (match o with Some c => depth c | None => 0%nat end) n)
              0%nat (List.map (fun o => Some (scevToCost o)) ops) <= fuel)%nat ->
  converts (fun c => costToSCEV env fuel c args)
           (List.map (fun o => Some (scevToCost o)) ops) (List.map widened ops).
Proof.
  intros IH Hsup Hfuel. induction ops as [|o r IHr]; simpl; constructor.
  - inversion IH; inversion Hsup; subst. simpl in Hfuel. split.
    + apply H1; [assumption | lia].
    + apply widened_not_cnc; assumption.
  - inversion IH; inversion Hsup; subst. simpl in Hfuel. apply IHr; auto. lia.
Qed.

Lemma roundtrip_widened s :
  supported args s ->
  forall fuel, (depth (scevToCost s) <= fuel)%nat ->
    costToSCEV env fuel (Some (scevToCost s)) args = Ok (Some (widened s)).
Proof.
  induction s as [bits v|k op ty IH|k ops IH|l r IHl IHr|ops L IH|v|] using SCEV_nested_ind;
    intros Hsup fuel Hfuel.
  - (* constant *)
    simpl in Hsup. destruct Hsup as [Hb Hv].
    simpl in *. apply N.leb_le in Hb. rewrite Hb in *. simpl in Hfuel.
    destruct fuel as [|fuel]; [lia|]. simpl.
    unfold getConstant64. rewrite to_int_id by assumption.
    rewrite to_long_id by (apply in_int_in_long; assumption). reflexivity.
  - (* casts *)
    simpl in Hfuel. destruct fuel as [|fuel]; [lia|].
    assert (Hop : supported args op) by (destruct k; simpl in Hsup; tauto).
    specialize (IH Hop fuel ltac:(lia)).
    pose proof (widened_not_cnc op Hop) as Hc.
    destruct k; simpl; rewrite IH; simpl; rewrite Hc.
    + rewrite getTruncateExpr_plain. reflexivity.
    + destruct (getType (widened op) <? ty)%N.
      * rewrite getZeroExtendExpr_plain. reflexivity.
      * reflexivity.
    + rewrite getSignExtendExpr_plain. reflexivity.
  - (* n-ary *)
    pose proof (supported_nary_Forall _ _ _ Hsup) as Hall.
    destruct Hsup as (Hlen & _ & Hk).
    destruct k; simpl in Hk; try contradiction; simpl in Hfuel;
      (destruct fuel as [|fuel]; [lia|]);
      pose proof (converts_operands fuel ops IH Hall ltac:(lia)) as Hconv.
    + (* add *)
      simpl. rewrite (widestPass_converts _ _ _ None Hconv). simpl.
      rewrite (extendPass_converts _ _ _ _ Hconv). simpl.
      destruct ops as [|a [|b rest]]; simpl in Hlen; try lia.
      simpl. rewrite getAddExpr_plain. reflexivity.
    + (* mul *)
      simpl. rewrite (widestPass_converts _ _ _ None Hconv). simpl.
      rewrite (extendPass_converts _ _ _ _ Hconv). simpl.
      rewrite getMulExpr_plain. reflexivity.
    + (* umax *)
      simpl. rewrite (minmaxPass_converts_first _ _ _ Hconv).
      * simpl. rewrite getUMaxExpr_plain. reflexivity.
      * apply List.Forall_forall. intros s Hin. apply List.in_map_iff in Hin.
        destruct Hin as (o & <- & Hin). rewrite (Hk o Hin).
        destruct ops; [contradiction|reflexivity].
    + (* smax *)
      simpl. rewrite (minmaxPass_converts_first _ _ _ Hconv).
      * simpl. rewrite getSMaxExpr_plain. reflexivity.
      * apply List.Forall_forall. intros s Hin. apply List.in_map_iff in Hin.
        destruct Hin as (o & <- & Hin). rewrite (Hk o Hin).
        destruct ops; [contradiction|reflexivity].
    + (* smin *)
      simpl. rewrite (minmaxPass_converts_first _ _ _ Hconv).
      * simpl. rewrite getSMinExpr_plain. reflexivity.
      * apply List.Forall_forall. intros s Hin. apply List.in_map_iff in Hin.
        destruct Hin as (o & <- & Hin). rewrite (Hk o Hin).
        destruct ops; [contradiction|reflexivity].
  - (* udiv *)
    simpl in Hsup. destruct Hsup as (Hl & Hr & Hty).
    simpl in Hfuel. destruct fuel as [|fuel]; [lia|].
    specialize (IHl Hl fuel ltac:(lia)). specialize (IHr Hr fuel ltac:(lia)).
    simpl. rewrite IHl. simpl. rewrite IHr. simpl.
    rewrite (widened_not_cnc l Hl), (widened_not_cnc r Hr). simpl.
    unfold extendTo. rewrite N.eqb_sym.
    destruct (N.eqb (getType (widened r)) (getType (widened l))) eqn:E;
      rewrite ?getZeroExtendExpr_plain, getUDivExpr_plain; reflexivity.
  - simpl in Hsup. contradiction.
  - (* argument *)
    destruct v as [i ty|]; simpl in Hsup; [|contradiction].
    destruct Hsup as [Hi Hbind]. simpl in Hfuel.
    destruct fuel as [|fuel]; [lia|]. simpl.
    assert (Hlt : (Z.to_nat i < length args)%nat) by (eapply lookup_lt_Some; eassumption).
    replace ((0 <=? i) && (i <? Z.of_nat (length args))) with true.
    + simpl. rewrite Hbind. reflexivity.
    + symmetry. apply andb_true_iff. split; [apply Z.leb_le|apply Z.ltb_lt]; lia.
  - simpl in Hsup. contradiction.
Qed.

Lemma eraseWidening_extendTo W s : eraseWidening (extendTo W s) = eraseWidening s.
Proof. unfold extendTo. destruct (N.eqb W (getType s)); reflexivity. Qed.

Lemma eraseWidening_widened s : eraseWidening (widened s) = eraseWidening s.
Proof.
  induction s as [bits v|k op ty IH|k ops IH|l r IHl IHr|ops L IH|v|] using SCEV_nested_ind;
    simpl; try reflexivity.
  - destruct k; simpl; rewrite <- ?IH; try reflexivity.
    destruct (getType (widened op) <? ty)%N; reflexivity.
  - assert (Hmap : List.map eraseWidening (List.map widened ops) = List.map eraseWidening ops).
    { induction IH as [|o rest Ho _ IHrest]; simpl; [reflexivity|]. rewrite Ho, IHrest. reflexivity. }
    destruct k; simpl; rewrite ?List.map_map;
      rewrite ?List.map_map in Hmap; try (rewrite Hmap; reflexivity);
      f_equal; rewrite <- Hmap; apply List.map_ext; intros; apply eraseWidening_extendTo.
  - rewrite eraseWidening_extendTo, IHl, IHr. reflexivity.
Qed.

End RoundTrip.

Section Widening.
Context {SE : ScalarEvolution} {HSE : PlainFactories SE}.
Variable rec : costptr -> result scevptr.

Lemma minmaxPass_mismatch ops l p acc :
  converts rec ops l ->
  ~ Forall (fun s => getType s = getType p) l ->
  minmaxPass rec ops (Some p) acc = Ok (inl SCEVCouldNotCompute).
Proof.
  intros H. revert acc. induction H as [|op s ops l [Hr Hc] _ IH]; intros acc Hn; simpl.
  - exfalso. apply Hn. constructor.
  - rewrite Hr. simpl. rewrite Hc.
    destruct (N.eqb (getType p) (getType s)) eqn:E; [|reflexivity].
    apply N.eqb_eq in E. apply IH. intros Hall. apply Hn. constructor; auto.
Qed.

Lemma getType_extendTo W s : getType (extendTo W s) = W.
Proof.
  unfold extendTo. destruct (N.eqb W (getType s)) eqn:E; [|reflexivity].
  apply N.eqb_eq in E. auto.
Qed.

End Widening.

(** C9 (as amended): on a host that builds the nodes it is asked for,
    (1) converting an expression of the supported fragment to a cost and
    back under a binding of the arguments to themselves succeeds and gives
    the expression again modulo type widening; (2) an ADD or MUL of two or
    more operands is formed over the operands zero-extended to the widest
    operand type; (3) an SMAX, SMIN, UMAX or UMIN whose operands do not all
    have the type of the first one is not widened: the conversion answers
    could-not-compute; (4) hence a signed or unsigned maximum or a signed
    minimum of supported operands that do not all come back with the type of
    the first one (a constant comes back over 64 bits) does not survive the
    round trip: it comes back as could-not-compute; (5) add recurrences,
    unsigned minima and values that are not arguments become [UNKNOWN] and
    come back as could-not-compute. *)
Theorem costToSCEV_scevToCost_roundtrip
    {SE : ScalarEvolution} {HSE : PlainFactories SE}
    (env : CostEnv) (args : list scevptr) :
  (forall s fuel,
      supported args s -> (depth (scevToCost s) <= fuel)%nat ->
      exists s', costToSCEV env fuel (Some (scevToCost s)) args = Ok (Some s')
                 /\ eqModuloWidening s' s) /\
  (forall t ops l fuel,
      isAddOrMul t = true -> (2 <= length ops)%nat ->
      converts (fun c => costToSCEV env fuel c args) ops l ->
      exists res W,
        costToSCEV env (S fuel) (Some (Op t ops)) args
          = Ok (Some (SCEVNAryExpr (naryOfCost t) res))
        /\ widestOf None (List.map getType l) = Some W
        /\ Forall (fun s => getType s = W) res
        /\ List.map eraseWidening res = List.map eraseWidening l) /\
  (forall t ops l fuel,
      isMinMax t = true ->
      converts (fun c => costToSCEV env fuel c args) ops l ->
      ~ Forall (fun s => getType s = getType (hd SCEVCouldNotCompute l)) l ->
      costToSCEV env (S fuel) (Some (Op t ops)) args = Ok (Some SCEVCouldNotCompute)) /\
  (forall k t ops fuel,
      naryToCost k = Some t -> isMinMax t = true ->
      Forall (supported args) ops ->
      ~ (forall o, In o ops ->
           getType (widened o) = getType (widened (hd SCEVCouldNotCompute ops))) ->
      (depth (scevToCost (SCEVNAryExpr k ops)) <= fuel)%nat ->
      costToSCEV env fuel (Some (scevToCost (SCEVNAryExpr k ops))) args
        = Ok (Some SCEVCouldNotCompute)) /\
  (forall s fuel,
      (exists ops L, s = SCEVAddRecExpr ops L) \/
      (exists ops, s = SCEVNAryExpr scUMinExpr ops) \/
      (exists id ty, s = SCEVUnknown (OtherValue id ty)) ->
      scevToCost s = UNKNOWN /\
      costToSCEV env (S fuel) (Some (scevToCost s)) args = Ok (Some SCEVCouldNotCompute)).
Proof.
  assert (Hmismatch : forall t ops l fuel,
      isMinMax t = true ->
      converts (fun c => costToSCEV env fuel c args) ops l ->
      ~ Forall (fun s => getType s = getType (hd SCEVCouldNotCompute l)) l ->
      costToSCEV env (S fuel) (Some (Op t ops)) args = Ok (Some SCEVCouldNotCompute)).
  { intros t ops l fuel Ht Hconv Hn.
    assert (Hpass : minmaxPass (fun c => costToSCEV env fuel c args) ops None []
                    = Ok (inl SCEVCouldNotCompute)).
    { destruct Hconv as [|op s ops l [Hr Hc] Hconv]; simpl.
      - exfalso. apply Hn. constructor.
      - rewrite Hr. simpl. rewrite Hc.
        apply (minmaxPass_mismatch _ _ _ _ _ Hconv).
        intros Hall. apply Hn. constructor; [reflexivity|assumption]. }
    destruct t; try discriminate; simpl; rewrite Hpass; reflexivity. }
  split; [|split; [|split; [exact Hmismatch|split]]].
  - intros s fuel Hs Hf. exists (widened s). split.
    + apply roundtrip_widened; assumption.
    + apply eraseWidening_widened.
  - intros t ops l fuel Ht Hlen Hconv.
    assert (Hl : length l = length ops) by (symmetry; eapply Forall2_length; eassumption).
    assert (HW : exists W, widestOf None (List.map getType l) = Some W).
    { destruct l as [|a l']; simpl in Hl; [lia|]. simpl.
      generalize (getType a). clear. induction l' as [|b r IH]; intros w; simpl; eauto. }
    destruct HW as [W HW].
    exists (List.map (extendTo W) l), W.
    split; [|split; [assumption|split]].
    + destruct t; try discriminate; simpl;
        rewrite (widestPass_converts _ _ _ None Hconv); simpl;
        rewrite HW; simpl; rewrite (extendPass_converts _ _ _ _ Hconv); simpl.
      * destruct l as [|a [|b r]]; simpl in Hl; try lia.
        simpl. rewrite getAddExpr_plain. reflexivity.
      * rewrite getMulExpr_plain. reflexivity.
    + apply List.Forall_forall. intros s Hin. apply List.in_map_iff in Hin.
      destruct Hin as (o & <- & _). apply getType_extendTo.
    + rewrite List.map_map. apply List.map_ext. intros. apply eraseWidening_extendTo.
  - intros k t ops fuel Hk Ht Hsup Hn Hfuel.
    cbn [scevToCost] in *. rewrite Hk in *. cbn [depth] in Hfuel.
    destruct fuel as [|fuel]; [lia|].
    assert (Hconv : converts (fun c => costToSCEV env fuel c args)
                      (List.map (fun o => Some (scevToCost o)) ops) (List.map widened ops)).
    { apply converts_operands; [|exact Hsup|lia].
      apply Forall_forall. intros o _ Ho f Hf. apply roundtrip_widened; assumption. }
    apply (Hmismatch t _ _ fuel Ht Hconv).
    intros Hall. apply Hn. intros o Ho.
    rewrite Forall_forall in Hall.
    assert (Hin : widened o ∈ List.map widened ops).
    { apply list_elem_of_In, List.in_map, Ho. }
    rewrite (Hall _ Hin). destruct ops; [destruct Ho|reflexivity].
  - intros s fuel [(ops & L & ->)|[(ops & ->)|(id & ty & ->)]]; split; reflexivity.
Qed.

(** The round trip of [arg0 + 5] over [i32]: the sum comes back over [i64],
    with the argument zero-extended. *)
Lemma costToSCEV_scevToCost_roundtrip_witness :
  exists s',
    costToSCEV (SE := PlainSE) emptyCostEnv 2
      (Some (scevToCost (SCEVNAryExpr scAddExpr [arg0_i32; SCEVConstant 32%N 5])))
      [Some arg0_i32] = Ok (Some s')
    /\ eqModuloWidening s' (SCEVNAryExpr scAddExpr [arg0_i32; SCEVConstant 32%N 5]).
Proof.
  apply (proj1 (costToSCEV_scevToCost_roundtrip (SE := PlainSE) emptyCostEnv [Some arg0_i32])).
  - simpl. unfold in_int, INT_MIN, INT_MAX. repeat split; try lia; reflexivity.
  - vm_compute. lia.
Defined.

(** C9 fails as stated: a signed maximum of an [i32] and an [i64] operand
    is not widened but answered could-not-compute, an add recurrence
    [{0,+,1}] does not survive the round trip, and neither does the signed
    maximum of an [i32] argument and the [i32] constant 5, whose constant
    comes back over 64 bits. *)
Lemma costToSCEV_scevToCost_counterexample :
  costToSCEV (SE := PlainSE) emptyCostEnv 2 (Some (Op SMAX [Some (ARG 0); Some (ARG 1)]))
    [Some arg0_i32; Some arg1_i64] = Ok (Some SCEVCouldNotCompute)
  /\ costToSCEV (SE := PlainSE) emptyCostEnv 2
       (Some (scevToCost (SCEVAddRecExpr [SCEVConstant 64%N 0; SCEVConstant 64%N 1] 7))) []
     = Ok (Some SCEVCouldNotCompute)
  /\ ~ eqModuloWidening SCEVCouldNotCompute
         (SCEVAddRecExpr [SCEVConstant 64%N 0; SCEVConstant 64%N 1] 7)
  /\ costToSCEV (SE := PlainSE) emptyCostEnv 2
       (Some (scevToCost (SCEVNAryExpr scSMaxExpr [arg0_i32; SCEVConstant 32%N 5])))
       [Some arg0_i32]
     = Ok (Some SCEVCouldNotCompute)
  /\ ~ eqModuloWidening SCEVCouldNotCompute
         (SCEVNAryExpr scSMaxExpr [arg0_i32; SCEVConstant 32%N 5]).
Proof.
  split; [reflexivity|]. split; [reflexivity|]. split.
  - unfold eqModuloWidening. simpl. discriminate.
  - split; [reflexivity|]. unfold eqModuloWidening. simpl. discriminate.
Qed.

(** ** The cost model: the base cost of an instruction *)

Lemma FoldingSE_folds : FoldsConstantSums FoldingSE.
Proof. constructor. intros a b. reflexivity. Qed.

Section BaseCostProofs.
Context {SE : ScalarEvolution} {HF : FoldsConstantSums SE}.
Variable cfg : Config.
Variable g : Globals.

Lemma simplifyCost_one fuel F :
  (2 <= fuel)%nat ->
  simplifyCost (costEnv g) fuel F (Some (Op ADD [Some (CONST 1)])) false
    = Ok (Some (CONST 1)).
Proof.
  intros Hf. destruct fuel as [|[|fuel]]; try lia. reflexivity.
Qed.

Lemma simplifyCost_one_plus_const fuel F c :
  (2 <= fuel)%nat -> in_int c -> in_int (1 + c) ->
  simplifyCost (costEnv g) fuel F (Some (Op ADD [Some (CONST 1); Some (CONST c)])) false
    = Ok (Some (CONST (1 + c))).
Proof.
  intros Hf Hc H1c. destruct fuel as [|[|fuel]]; try lia.
  unfold simplifyCost. simpl. unfold getConstant64.
  rewrite (to_long_id c) by (apply in_int_in_long; assumption).
  change (to_long 1) with 1.
  rewrite getAddExpr_fold. simpl.
  rewrite (to_long_id (1 + c)) by (apply in_int_in_long; assumption).
  rewrite to_int_id by assumption. reflexivity.
Qed.

Arguments simplifyCost : simpl never.

Lemma baseCostIC_sound I n :
  baseCostIC cfg g I n -> getInstCostForIC cfg g I = Ok (CONST n).
Proof.
  unfold libraryCost, summarizedCost, definedInModule.
  intros H. destruct H as
    [ | | | name dbg c Hlib Hc Hint
      | name Hlib Hmod Hint
      | name dbg c Hlib Hdef Hfence Hthread Hsum Hc Hint
      | name dbg Hlib Hdef Hfence Hrest
      | I Hother ]; unfold libraryCost, summarizedCost, definedInModule in *.
  - reflexivity.
  - reflexivity.
  - reflexivity.
  - (* library *)
    unfold getInstCostForIC, checkIfExternalLibraryCall, inLibrary.
    rewrite Hlib. rewrite (bool_decide_eq_true_2 _ (ltac:(eauto) : is_Some (Some (CONST c)))).
    assert (Hle : (0 <=? c) = true) by (apply Z.leb_le; lia).
    destruct dbg; cbn -[Z.leb Z.add]; unfold getConstCost; cbn -[Z.leb Z.add];
      rewrite Hle; cbn -[Z.add]; rewrite to_int_id by assumption; reflexivity.
  - (* external *)
    unfold getInstCostForIC, checkIfExternalLibraryCall, inLibrary.
    rewrite Hlib.
    rewrite (bool_decide_eq_false_2 (is_Some None)) by (intros [? ?]; discriminate).
    rewrite (bool_decide_eq_false_2 _ Hmod). simpl.
    rewrite to_int_id by assumption. reflexivity.
  - (* internal *)
    destruct (computedFuncInfo (costEnv g) !! name) as [found|] eqn:Hfound;
      simpl in Hsum; [|discriminate].
    injection Hsum as Hsum.
    assert (Hext : checkIfExternalLibraryCall g (CallInst (Some name) dbg) = false).
    { unfold checkIfExternalLibraryCall, inLibrary. destruct dbg; [reflexivity|].
      destruct Hdef as [Hd|Hd]; [discriminate|].
      rewrite (bool_decide_eq_true_2 _ Hd). rewrite orb_true_r. reflexivity. }
    unfold getInstCostForIC. rewrite Hext, Hlib, Hfence, Hthread. simpl.
    rewrite Hfound, Hsum. simpl.
    replace (0 <? c) with true by (symmetry; apply Z.ltb_lt; lia).
    simpl. rewrite to_int_id by assumption. reflexivity.
  - (* a call that is charged 1 *)
    assert (Hext : checkIfExternalLibraryCall g (CallInst (Some name) dbg) = false).
    { unfold checkIfExternalLibraryCall, inLibrary. destruct dbg; [reflexivity|].
      destruct Hdef as [Hd|Hd]; [discriminate|].
      rewrite (bool_decide_eq_true_2 _ Hd). rewrite orb_true_r. reflexivity. }
    unfold getInstCostForIC. rewrite Hext, Hlib, Hfence. simpl.
    destruct (isThreadFunc g name) eqn:Hthread; simpl; [reflexivity|].
    destruct Hrest as [Ht|[Hnone|(fc & Hfc & Hle)]]; [discriminate| |].
    + destruct (computedFuncInfo (costEnv g) !! name); [discriminate|reflexivity].
    + destruct (computedFuncInfo (costEnv g) !! name) as [found|]; [|discriminate].
      simpl in Hfc. injection Hfc as Hfc. subst fc.
      unfold hasConstCost in *.
      destruct (fi_cost found) as [[v| | | | | |]|]; simpl; try reflexivity.
      destruct (Z.ltb_spec 0 v); [lia|reflexivity].
  - destruct I; try discriminate; reflexivity.
Qed.

Lemma baseCostPC_sound fuel F I c :
  (2 <= fuel)%nat ->
  baseCostPC cfg g fuel F I c -> getInstCostForPC cfg g fuel F I = Ok c.
Proof.
  intros Hfuel H. destruct H as
    [ | | | name dbg c Hlib Hc Hint
      | name dbg c Hlib Hfence Hthread Hsum Hc Hci Hint
      | name dbg fc s Hlib Hfence Hthread Hsum Hc Hsimp
      | name dbg Hlib Hfence Hrest
      | dbg
      | I Hother ]; unfold libraryCost, summarizedCost in *.
  - reflexivity.
  - reflexivity.
  - reflexivity.
  - unfold getInstCostForPC. rewrite Hlib. simpl.
    rewrite simplifyCost_one_plus_const by assumption. reflexivity.
  - destruct (computedFuncInfo (costEnv g) !! name) as [found|] eqn:Hfound;
      simpl in Hsum; [|discriminate].
    injection Hsum as Hsum.
    unfold getInstCostForPC. rewrite Hlib, Hfence, Hthread. simpl.
    rewrite Hfound, Hsum. simpl.
    replace (c =? 0) with false by (symmetry; apply Z.eqb_neq; assumption).
    simpl. rewrite simplifyCost_one_plus_const by assumption. reflexivity.
  - destruct (computedFuncInfo (costEnv g) !! name) as [found|] eqn:Hfound;
      simpl in Hsum; [|discriminate].
    injection Hsum as Hsum.
    unfold getInstCostForPC. rewrite Hlib, Hfence, Hthread. simpl.
    rewrite Hfound, Hsum.
    replace (getConstCostWithoutAssert (Some fc) =? 0) with false
      by (symmetry; apply Z.eqb_neq; exact Hc).
    cbn. rewrite Hsimp. reflexivity.
  - unfold getInstCostForPC. rewrite Hlib, Hfence. simpl.
    destruct (isThreadFunc g name) eqn:Hthread; simpl.
    + rewrite simplifyCost_one by assumption. reflexivity.
    + destruct Hrest as [Ht|[Hnone|Hzero]]; [discriminate| |].
      * destruct (computedFuncInfo (costEnv g) !! name); [discriminate|].
        cbn. rewrite simplifyCost_one by assumption. reflexivity.
      * destruct (computedFuncInfo (costEnv g) !! name) as [found|]; [|discriminate].
        simpl in Hzero. injection Hzero as ->. cbn.
        rewrite simplifyCost_one by assumption. reflexivity.
  - reflexivity.
  - destruct I; try discriminate; reflexivity.
Qed.

End BaseCostProofs.

(** C2 (as amended): the base cost of an instruction is the one its class
    has in [baseCostIC] (instantaneous clock) and in [baseCostPC]
    (predictive clock, on a host that folds constant sums): [MemOpsCost] for
    a load or store, 0 for a phi, 1 plus the table's cost for a call to a
    function of the library table, 1 plus the summarised cost for a call to
    a summarised function that is neither a thread function nor a fence, 1
    plus the external-library cost for a call (instantaneous clock) to a
    function that is in neither table nor module, and 1 for every other call
    with a known callee (debug intrinsics among them), for a call through a
    pointer under the predictive clock, and for every other instruction. *)
Theorem getInstCost_baseCost
    {SE : ScalarEvolution} {HF : FoldsConstantSums SE} (cfg : Config) (g : Globals) :
  (forall I n, baseCostIC cfg g I n -> getInstCostForIC cfg g I = Ok (CONST n)) /\
  (forall fuel F I c, (2 <= fuel)%nat -> baseCostPC cfg g fuel F I c ->
                      getInstCostForPC cfg g fuel F I = Ok c).
Proof.
  split.
  - intros I n. apply baseCostIC_sound.
  - intros fuel F I c. apply baseCostPC_sound.
Qed.

(** A call to a library function of cost 7 costs 8 under both clocks. *)
Lemma getInstCost_baseCost_witness :
  getInstCostForIC exampleConfig libGlobals (CallInst (Some "memcpy") false)
    = Ok (CONST (1 + 7))
  /\ getInstCostForPC (SE := FoldingSE) exampleConfig libGlobals 2 mainF
       (CallInst (Some "memcpy") false) = Ok (CONST (1 + 7)).
Proof.
  split.
  - apply (proj1 (getInstCost_baseCost (SE := FoldingSE) (HF := FoldingSE_folds)
                    exampleConfig libGlobals)).
    apply ic_library; [reflexivity | lia | unfold in_int, INT_MIN, INT_MAX; lia].
  - apply (proj2 (getInstCost_baseCost (SE := FoldingSE) (HF := FoldingSE_folds)
                    exampleConfig libGlobals)); [lia|].
    apply pc_library; [reflexivity | | ]; unfold in_int, INT_MIN, INT_MAX; lia.
Defined.

(** C2 fails as stated: a debug intrinsic is charged 1, not 0, under both
    clocks. *)
Lemma getInstCost_dbg_counterexample :
  getInstCostForIC exampleConfig emptyGlobals dbgValueCall = Ok (CONST 1)
  /\ getInstCostForPC (SE := FoldingSE) exampleConfig emptyGlobals 2 mainF dbgValueCall
     = Ok (CONST 1).
Proof. split; reflexivity. Qed.

(** ** The builder under an empty fence list *)

Section FenceFreeBuilder.
Variable g : Globals.
Hypothesis Hnofence : forall name, isFenceFunc g name = false.
Hypothesis Hnoinfo : noFenceInfo g.

Lemma LoopAcc_eta acc :
  accHasFence acc = false ->
  {| accHasFence := false; accStartInst := accStartInst acc;
     accContainers := accContainers acc; accIDGen := accIDGen acc;
     accErrs := accErrs acc |} = acc.
Proof. destruct acc; simpl; intros ->; reflexivity. Qed.

Lemma containerLoop_nonterminator b idx inst rest acc :
  isTerminator inst = false -> accHasFence acc = false ->
  containerLoop g b idx (inst :: rest) acc = containerLoop g b (S idx) rest acc.
Proof.
  intros Hi Hacc. destruct inst as [| | |[name|] dbg| | | | |]; try discriminate; try reflexivity.
  simpl. rewrite Hnofence.
  destruct (computedFuncInfo (costEnv g) !! name) as [found|] eqn:Hf.
  - rewrite (Hnoinfo _ _ Hf). rewrite LoopAcc_eta by assumption. reflexivity.
  - rewrite Hacc. rewrite LoopAcc_eta by assumption. reflexivity.
Qed.

Lemma containerLoop_fenceFree b body term idx acc s :
  Forall (fun i => isTerminator i = false) body ->
  isTerminator term = true ->
  getTerminator b = Some term ->
  accHasFence acc = false -> accStartInst acc = Some s ->
  containerLoop g b idx (body ++ [term]) acc =
    if isUnreachable term then
      Ok {| accHasFence := false; accStartInst := None;
            accContainers := accContainers acc ++
              [mkUnitLCC (accIDGen acc) (bbId b) (Some s) (Some (idx + length body)%nat) true];
            accIDGen := accIDGen acc + 1; accErrs := accErrs acc |}
    else Ok acc.
Proof.
  intros Hbody Hterm Hget Hacc Hs. revert idx.
  induction Hbody as [|i body Hi _ IH]; intros idx.
  - simpl. destruct term; try discriminate; simpl; try reflexivity.
    rewrite Hget. simpl. rewrite Hs. simpl. rewrite Hacc.
    replace (idx + 0)%nat with idx by lia. reflexivity.
  - change ((i :: body) ++ [term]) with (i :: (body ++ [term])).
    rewrite containerLoop_nonterminator by assumption.
    rewrite IH. replace (S idx + length body)%nat with (idx + length (i :: body))%nat
      by (simpl; lia). reflexivity.
Qed.

Lemma checkForPhi_wf body term idx :
  Forall (fun i => isTerminator i = false) body ->
  isTerminator term = true ->
  exists k, checkForPhi (body ++ [term]) idx = Some (idx + k)%nat /\ (k <= length body)%nat /\
            drop k (body ++ [term]) = drop k body ++ [term].
Proof.
  intros Hbody Hterm. revert idx. induction Hbody as [|i body Hi _ IH]; intros idx.
  - exists 0%nat. simpl. destruct term; try discriminate;
      (split; [f_equal; lia|split; [lia|reflexivity]]).
  - destruct (IH (S idx)) as (k & Hk & Hle & Hdrop).
    destruct i; try (exists 0%nat; simpl; split; [f_equal; lia|split; [lia|reflexivity]]).
    exists (S k). simpl. rewrite Hk. split; [f_equal; lia|]. split; [lia|]. exact Hdrop.
Qed.

Lemma getTerminator_wf b body term :
  insts b = body ++ [term] -> isTerminator term = true -> getTerminator b = Some term.
Proof.
  intros Hb Ht. unfold getTerminator. rewrite Hb, last_snoc, Ht. reflexivity.
Qed.

Lemma makeContainersOfBB_fenceFree st b :
  wfBlock b ->
  exists start,
    makeContainersOfBB g st b =
      Ok (false,
          registerUnit
            {| lccIDGen := lccIDGen st + 1; units := units st; edges := edges st;
               bbToContainersMap := <[bbId b := [lccIDGen st]]> (bbToContainersMap st);
               globalOuterLCCList := globalOuterLCCList st; errs := errs st |}
            (soleUnit b (lccIDGen st) start)).
Proof.
  intros (body & term & Hb & Hterm & Hbody).
  destruct (checkForPhi_wf body term 0 Hbody Hterm) as (k & Hk & Hle & Hdrop).
  simpl in Hk. exists k. unfold makeContainersOfBB. rewrite Hb, Hk, Hdrop. simpl.
  rewrite (containerLoop_fenceFree b (drop k body) term k _ k);
    [| apply Forall_drop; assumption | assumption
     | eapply getTerminator_wf; eassumption | reflexivity | reflexivity ].
  unfold soleUnit. rewrite Hb, last_snoc.
  assert (Hlen : (k + length (drop k body))%nat = (length (body ++ [term]) - 1)%nat).
  { rewrite length_drop, length_app. simpl. lia. }
  destruct term; try discriminate; simpl; rewrite ?Hlen; reflexivity.
Qed.

End FenceFreeBuilder.

Lemma findBlock_NoDup (bs : list BasicBlock) b :
  NoDup (List.map bbId bs) -> In b bs ->
  List.find (fun b' => bbId b' =? bbId b) bs = Some b.
Proof.
  induction bs as [|a r IH]; simpl; [tauto|].
  intros Hnd [->|Hin].
  - rewrite Z.eqb_refl. reflexivity.
  - apply NoDup_cons in Hnd. destruct Hnd as [Hnotin Hnd].
    destruct (Z.eqb_spec (bbId a) (bbId b)) as [E|E].
    + exfalso. apply Hnotin. rewrite E. apply list_elem_of_In.
      apply List.in_map. assumption.
    + apply IH; assumption.
Qed.

Lemma hasSoleUnit_sameUnits st st' b :
  sameUnits st st' -> hasSoleUnit st b -> hasSoleUnit st' b.
Proof.
  intros [Hu Hm] (id & u & H1 & H2 & H3). exists id, u.
  rewrite Hu, Hm. auto.
Qed.

Lemma sameUnits_refl st : sameUnits st st.
Proof. split; reflexivity. Qed.

Lemma sameUnits_trans a b c : sameUnits a b -> sameUnits b c -> sameUnits a c.
Proof. intros [H1 H2] [H3 H4]. split; congruence. Qed.

Lemma sameUnits_updEdges st id f : sameUnits st (updEdges st id f).
Proof. split; reflexivity. Qed.

Lemma noFenceEdges_updEdges_pred st this p :
  noFenceEdges st -> noFenceEdges (updEdges st this (addPredLCC this p false)).
Proof.
  intros H id e. unfold updEdges. simpl.
  destruct (decide (this = id)) as [->|Hne].
  - rewrite lookup_insert_eq. intros [= <-]. simpl.
    destruct (edges st !! id) as [e0|] eqn:He; simpl.
    + destruct (H _ _ He) as [Hp Hs]. split; [|assumption].
      apply map_Forall_insert_2; [reflexivity|assumption].
    + split; [|apply map_Forall_empty].
      apply map_Forall_insert_2; [reflexivity|apply map_Forall_empty].
  - rewrite lookup_insert_ne by assumption. apply H.
Qed.

Lemma noFenceEdges_updEdges_succ st this s :
  noFenceEdges st -> noFenceEdges (updEdges st this (addSuccLCC this s false)).
Proof.
  intros H id e. unfold updEdges. simpl.
  destruct (decide (this = id)) as [->|Hne].
  - rewrite lookup_insert_eq. intros [= <-]. simpl.
    destruct (edges st !! id) as [e0|] eqn:He; simpl.
    + destruct (H _ _ He) as [Hp Hs]. split; [assumption|].
      apply map_Forall_insert_2; [reflexivity|assumption].
    + split; [apply map_Forall_empty|].
      apply map_Forall_insert_2; [reflexivity|apply map_Forall_empty].
  - rewrite lookup_insert_ne by assumption. apply H.
Qed.

Section FenceFreeGraph.
Variable g : Globals.
Hypothesis Hnofence : forall name, isFenceFunc g name = false.
Hypothesis Hnoinfo : noFenceInfo g.

Lemma makeAllContainers_fenceFree bbs :
  forall done st,
    Forall wfBlock bbs ->
    NoDup (List.map bbId (done ++ bbs)) ->
    containersMade st done ->
    exists st', makeAllContainers g st bbs false = Ok (false, st')
                /\ containersMade st' (done ++ bbs).
Proof.
  induction bbs as [|b rest IH]; intros done st Hwf Hnd Hinv.
  - exists st. rewrite app_nil_r. split; [reflexivity|assumption].
  - inversion Hwf as [|? ? Hb Hrest]; subst.
    destruct (makeContainersOfBB_fenceFree g Hnofence Hnoinfo st b Hb) as [start Hmk].
    simpl. rewrite Hmk. simpl.
    set (st1 := registerUnit _ _).
    assert (Hinv1 : containersMade st1 (done ++ [b])).
    { destruct Hinv as (Hsole & Hids & Hedges). split; [|split].
      - intros b' Hin. apply List.in_app_iff in Hin. destruct Hin as [Hin|[<-|[]]].
        + destruct (Hsole b' Hin) as (id & u & H1 & H2 & H3).
          exists id, u. subst st1. simpl. split; [|split; [|exact H3]].
          * rewrite lookup_insert_ne; [assumption|].
            intros E. rewrite List.map_app in Hnd. simpl in Hnd.
            apply NoDup_app in Hnd. destruct Hnd as (_ & Hdisj & _).
            apply (Hdisj (bbId b')).
            -- apply list_elem_of_In, List.in_map. assumption.
            -- rewrite <- E. left.
          * rewrite lookup_insert_ne; [assumption|].
            intros E. assert (Hlt : id < lccIDGen st) by (apply Hids; eauto). lia.
        + exists (lccIDGen st), (soleUnit b (lccIDGen st) start). subst st1. simpl.
          rewrite !lookup_insert_eq. repeat split; try reflexivity.
      - intros id His. subst st1. simpl in *.
        destruct (decide (lccIDGen st = id)) as [<-|Hne]; [lia|].
        rewrite lookup_insert_ne in His by assumption.
        specialize (Hids id His). lia.
      - intros id e. subst st1. simpl.
        destruct (decide (lccIDGen st = id)) as [<-|Hne].
        + rewrite lookup_insert_eq. intros [= <-]. reflexivity.
        + rewrite lookup_insert_ne by assumption. apply Hedges. }
    destruct (IH (done ++ [b]) st1 Hrest) as (st' & Hrun & Hinv').
    + rewrite <- app_assoc. exact Hnd.
    + exact Hinv1.
    + exists st'. rewrite <- app_assoc in Hinv'. split; assumption.
Qed.

Variable F : Function.
Hypothesis HwfF : wfFunction F.

Lemma edgeIsFence_terminator st b id u :
  In b (blocks F) ->
  units st !! id = Some u -> _currentBlock u = bbId b ->
  _lastInst u = Some (length (insts b) - 1)%nat ->
  match last (insts b) with Some UnreachableInst => true | _ => false end = false ->
  edgeIsFence g F u = Ok false.
Proof.
  intros Hin Hu Hcur Hlast Hexit.
  destruct HwfF as (Hwf & Hnd & _).
  assert (Hb : wfBlock b) by (eapply (proj1 (List.Forall_forall _ _)); eassumption).
  destruct Hb as (body & term & Hbody & Hterm & _).
  unfold edgeIsFence. rewrite Hlast. unfold instAt, findBlock. rewrite Hcur.
  rewrite (findBlock_NoDup _ _ Hnd Hin). simpl.
  rewrite Hbody, length_app. simpl.
  replace (length body + 1 - 1)%nat with (length body + 0)%nat by lia.
  rewrite lookup_app_r by lia.
  replace (length body + 0 - length body)%nat with 0%nat by lia. simpl.
  rewrite Hbody, last_snoc in Hexit.
  destruct term; try discriminate; reflexivity.
Qed.

Lemma connectPreds_fenceFree preds :
  forall st first,
    (forall b, In b (blocks F) -> hasSoleUnit st b) ->
    noFenceEdges st ->
    (forall p, In p preds -> exists b, In b (blocks F) /\ bbId b = p) ->
    exists st', connectPreds g F st first preds = Ok st'
                /\ sameUnits st st' /\ noFenceEdges st'.
Proof.
  induction preds as [|PI rest IH]; intros st first Hsole Hedges Hpreds.
  - exists st. split; [reflexivity|]. split; [apply sameUnits_refl|assumption].
  - destruct (Hpreds PI (or_introl eq_refl)) as (b & Hin & Hid).
    destruct (Hsole b Hin) as (id & u & Hmap & Hu & Hcur & Hlast & Hempty & Hexit).
    simpl. unfold getLastLCCofBB. rewrite <- Hid, Hmap. simpl.
    unfold getUnit. rewrite Hu. simpl. rewrite Hempty. simpl.
    destruct (isExitBlockLCC u) eqn:Hex.
    + apply IH; auto; intros p Hp; apply Hpreds; right; assumption.
    + rewrite (edgeIsFence_terminator st b id u Hin Hu Hcur Hlast (eq_sym Hexit)). simpl.
      destruct (IH (updEdges st first (addPredLCC first id false)) first) as (st' & Hrun & Hsame & Hed).
      * intros b' Hb'. eapply hasSoleUnit_sameUnits; [apply sameUnits_updEdges|auto].
      * apply noFenceEdges_updEdges_pred. assumption.
      * intros p Hp. apply Hpreds. right. assumption.
      * exists st'. split; [assumption|]. split; [|assumption].
        eapply sameUnits_trans; [apply sameUnits_updEdges|eassumption].
Qed.

Lemma connectSuccs_fenceFree succs :
  forall st b id u,
    (forall b, In b (blocks F) -> hasSoleUnit st b) ->
    noFenceEdges st ->
    In b (blocks F) ->
    units st !! id = Some u -> _currentBlock u = bbId b ->
    _lastInst u = Some (length (insts b) - 1)%nat ->
    match last (insts b) with Some UnreachableInst => true | _ => false end = false ->
    (forall s, In s succs -> exists b', In b' (blocks F) /\ bbId b' = s) ->
    exists st', connectSuccs g F st id succs = Ok st'
                /\ sameUnits st st' /\ noFenceEdges st'.
Proof.
  induction succs as [|SI rest IH]; intros st b id u Hsole Hedges Hin Hu Hcur Hlast Hexit Hsuccs.
  - exists st. split; [reflexivity|]. split; [apply sameUnits_refl|assumption].
  - destruct (Hsuccs SI (or_introl eq_refl)) as (b' & Hin' & Hid').
    destruct (Hsole b' Hin') as (id' & u' & Hmap' & Hu' & Hcur' & Hlast' & Hempty' & Hexit').
    simpl. unfold getFirstLCCofBB. rewrite <- Hid', Hmap'. simpl.
    unfold getUnit. rewrite Hu'. simpl. rewrite Hempty'. simpl.
    destruct (isExitBlockLCC u') eqn:Hex'.
    + apply (IH st b id u); auto; intros s Hs; apply Hsuccs; right; assumption.
    + rewrite Hu. simpl.
      rewrite (edgeIsFence_terminator st b id u Hin Hu Hcur Hlast Hexit). simpl.
      destruct (IH (updEdges st id (addSuccLCC id id' false)) b id u)
        as (st' & Hrun & Hsame & Hed); auto;
        try (apply noFenceEdges_updEdges_succ; assumption);
        try (intros s Hs; apply Hsuccs; right; assumption).
      exists st'. split; [assumption|]. split; [|assumption].
      eapply sameUnits_trans; [apply sameUnits_updEdges|eassumption].
Qed.

Lemma predecessors_in_function id p :
  In p (predecessors F id) -> exists b, In b (blocks F) /\ bbId b = p.
Proof.
  unfold predecessors. intros Hin. apply List.in_flat_map in Hin.
  destruct Hin as (b & Hb & Hp). apply List.in_map_iff in Hp.
  destruct Hp as (x & Hx & _). eauto.
Qed.

Lemma createContainerCFG_fenceFree st b :
  (forall b, In b (blocks F) -> hasSoleUnit st b) ->
  noFenceEdges st ->
  In b (blocks F) ->
  exists st', createContainerCFG g F st b = Ok st'
              /\ sameUnits st st' /\ noFenceEdges st'.
Proof.
  intros Hsole Hedges Hin.
  destruct (Hsole b Hin) as (id & u & Hmap & Hu & Hcur & Hlast & Hempty & Hexit).
  unfold createContainerCFG. rewrite Hmap. simpl.
  unfold getUnit at 1. rewrite Hu. simpl. rewrite Hempty. simpl.
  destruct (isExitBlockLCC u) eqn:Hex.
  - exists st. split; [reflexivity|]. split; [apply sameUnits_refl|assumption].
  - unfold getFirstLCCofBB. rewrite Hmap. simpl.
    destruct (connectPreds_fenceFree (predecessors F (bbId b)) st id Hsole Hedges)
      as (st1 & Hrun1 & Hsame1 & Hed1).
    { intros p. apply predecessors_in_function. }
    rewrite Hrun1. simpl.
    unfold getLastLCCofBB. destruct Hsame1 as [Hu1 Hm1]. rewrite Hm1, Hmap. simpl.
    destruct (connectSuccs_fenceFree (successors b) st1 b id u) as (st2 & Hrun2 & Hsame2 & Hed2); auto.
    + intros b0 Hb0. eapply hasSoleUnit_sameUnits; [split; eassumption|auto].
    + rewrite Hu1. assumption.
    + intros s Hs. destruct HwfF as (_ & _ & Hclosed). eapply Hclosed; eassumption.
    + exists st2. split; [assumption|]. split; [|assumption].
      eapply sameUnits_trans; [split; eassumption|eassumption].
Qed.

Lemma createAllEdges_fenceFree bbs :
  forall st,
    (forall b, In b (blocks F) -> hasSoleUnit st b) ->
    noFenceEdges st ->
    (forall b, In b bbs -> In b (blocks F)) ->
    exists st', createAllEdges g F st bbs = Ok st'
                /\ sameUnits st st' /\ noFenceEdges st'.
Proof.
  induction bbs as [|b rest IH]; intros st Hsole Hedges Hsub.
  - exists st. split; [reflexivity|]. split; [apply sameUnits_refl|assumption].
  - destruct (createContainerCFG_fenceFree st b Hsole Hedges) as (st1 & Hrun & Hsame & Hed).
    { apply Hsub. left. reflexivity. }
    simpl. rewrite Hrun. simpl.
    destruct (IH st1) as (st2 & Hrun2 & Hsame2 & Hed2); auto.
    + intros b0 Hb0. eapply hasSoleUnit_sameUnits; [eassumption|auto].
    + intros b0 Hb0. apply Hsub. right. assumption.
    + exists st2. split; [assumption|]. split; [|assumption].
      eapply sameUnits_trans; eassumption.
Qed.

End FenceFreeGraph.

Lemma containersMade_initial : containersMade initialBuilderState [].
Proof.
  split; [|split].
  - intros b [].
  - intros id [u Hu]. simpl in Hu. rewrite lookup_empty in Hu. discriminate.
  - intros id e He. simpl in He. rewrite lookup_empty in He. discriminate.
Qed.

Lemma initializeLCCGraph_fenceFree g F :
  (forall name, isFenceFunc g name = false) ->
  noFenceInfo g -> wfFunction F ->
  exists g' st,
    initializeLCCGraph g F = Ok (g', st)
    /\ unsplit F st /\ noFenceEdges st /\ noFenceInfo g'
    /\ fenceList g' = fenceList g.
Proof.
  intros Hnofence Hnoinfo HwfF.
  pose proof HwfF as (Hwf & Hnd & Hclosed).
  destruct (makeAllContainers_fenceFree g Hnofence Hnoinfo (blocks F) [] initialBuilderState
              Hwf Hnd containersMade_initial) as (st1 & Hrun1 & Hsole & Hids & Hedges).
  simpl in Hsole.
  assert (Hed1 : noFenceEdges st1).
  { intros id e He. rewrite (Hedges _ _ He). simpl. split; apply map_Forall_empty. }
  destruct (createAllEdges_fenceFree g F HwfF (blocks F) st1 Hsole Hed1)
    as (st2 & Hrun2 & Hsame & Hed2); [auto|].
  eexists _, st2. unfold initializeLCCGraph. rewrite Hrun1. simpl.
  rewrite Hrun2. simpl. split; [reflexivity|]. split; [|split; [assumption|split]].
  - intros b Hin. destruct (Hsole b Hin) as (id & u & Hmap & _).
    exists id. destruct Hsame as [_ Hm]. rewrite Hm. assumption.
  - intros name fi. unfold setFuncInfo. simpl.
    destruct (decide (fname F = name)) as [<-|Hne].
    + rewrite lookup_insert_eq. intros [= <-]. reflexivity.
    + rewrite lookup_insert_ne by assumption. apply Hnoinfo.
  - reflexivity.
Qed.

(** C10: the fence list is populated (with the two mutex functions) only
    when the clock is predictive; under the instantaneous clock it stays
    empty, no callee is a fence, and the graph built for a well-formed
    function has one container for every block and no fence edge. *)
Theorem fenceList_instantaneous (cfg : Config) (g : Globals) :
  fenceList g = ∅ -> noFenceInfo g ->
  (fenceList (defineFences cfg g) <> ∅ <-> ClockType cfg = PREDICTIVE) /\
  (ClockType cfg = PREDICTIVE ->
     fenceList (defineFences cfg g) = {[ "pthread_mutex_lock"; "pthread_mutex_unlock" ]}) /\
  (ClockType cfg = INSTANTANEOUS ->
     fenceList (defineFences cfg g) = ∅ /\
     (forall name, isFenceFunc (defineFences cfg g) name = false) /\
     (forall F, wfFunction F ->
        exists g' st,
          initializeLCCGraph (defineFences cfg g) F = Ok (g', st)
          /\ unsplit F st /\ noFenceEdges st /\ noFenceInfo g' /\ fenceList g' = ∅)).
Proof.
  intros Hempty Hinfo. split; [|split].
  - unfold defineFences. simpl. destruct (Z.eqb_spec (ClockType cfg) PREDICTIVE) as [E|E].
    + split; [intros _; assumption|]. intros _. set_solver.
    + split; [intros H; contradiction|]. intros H. contradiction.
  - intros E. unfold defineFences. simpl. rewrite E, Hempty. simpl. set_solver.
  - intros E.
    assert (Hfl : fenceList (defineFences cfg g) = ∅).
    { unfold defineFences. simpl. rewrite E. simpl. assumption. }
    assert (Hnf : forall name, isFenceFunc (defineFences cfg g) name = false).
    { intros name. unfold isFenceFunc. rewrite Hfl. apply bool_decide_eq_false_2. set_solver. }
    split; [assumption|]. split; [assumption|].
    intros F HwfF.
    destruct (initializeLCCGraph_fenceFree (defineFences cfg g) F Hnf Hinfo HwfF)
      as (g' & st & Hrun & Hun & Hed & Hni & Hfl').
    exists g', st.
    split; [assumption|]. split; [assumption|]. split; [assumption|].
    split; [assumption|]. rewrite Hfl'. exact Hfl.
Qed.

Lemma diamondF_wf : wfFunction diamondF.
Proof.
  split; [|split].
  - repeat constructor.
    + exists [OtherInst], (BranchInst [1; 2]). repeat constructor.
    + exists [lockCall; StoreInst], (BranchInst [2]). repeat constructor.
    + exists [LoadInst], ReturnInst. repeat constructor.
  - simpl. repeat (apply NoDup_cons_2; [rewrite ?elem_of_cons, elem_of_nil; lia|]).
    apply NoDup_nil_2.
  - intros b s Hb Hs. simpl in Hb.
    destruct Hb as [<-|[<-|[<-|[]]]]; simpl in Hs.
    + destruct Hs as [<-|[<-|[]]].
      * eexists; split; [right; left; reflexivity|reflexivity].
      * eexists; split; [right; right; left; reflexivity|reflexivity].
    + destruct Hs as [<-|[]].
      eexists; split; [right; right; left; reflexivity|reflexivity].
    + destruct Hs.
Defined.

(** Under the instantaneous clock the block of [diamondF] that calls the
    mutex lock is not split and no edge is a fence edge. *)
Lemma fenceList_instantaneous_witness :
  exists g' st,
    initializeLCCGraph (defineFences instantaneousConfig emptyGlobals) diamondF = Ok (g', st)
    /\ unsplit diamondF st /\ noFenceEdges st /\ noFenceInfo g' /\ fenceList g' = ∅.
Proof.
  assert (Hinfo : noFenceInfo emptyGlobals).
  { intros name fi H. simpl in H. rewrite lookup_empty in H. discriminate. }
  exact (proj2 (proj2 (proj2 (proj2
           (fenceList_instantaneous instantaneousConfig emptyGlobals eq_refl Hinfo))
           eq_refl)) diamondF diamondF_wf).
Defined.

(** ** The builder at a fence whose cost is not configured *)

(** C7 (the code at the failing input): under the predictive clock with an
    empty library table, the builder meets a call to [pthread_mutex_lock],
    a fence without a cost.  It prints the diagnostic, does not stop, splits
    the block into two unit containers, and the whole graph of the function
    is built; the first fatal stop is the assertion of [getInstCostForPC],
    at cost evaluation. *)
Theorem makeContainersOfBB_unconfigured_fence :
  isFenceFunc predictiveGlobals "pthread_mutex_lock" = true
  /\ inLibrary predictiveGlobals "pthread_mutex_lock" = false
  /\ match makeContainersOfBB predictiveGlobals initialBuilderState lockBlock with
     | Ok (hasFence, st) =>
         hasFence = true
         /\ globalOuterLCCList st = [0; 1]
         /\ errs st = [fenceNotInLibrary "pthread_mutex_lock"]
     | _ => False
     end
  /\ isOk (initializeLCCGraph predictiveGlobals diamondF) = true
  /\ getInstCostForPC (SE := FoldingSE) predictiveConfig predictiveGlobals 2 diamondF lockCall
     = Fatal fenceCostMissing.
Proof.
  split; [reflexivity|]. split; [reflexivity|].
  split; [vm_compute; auto|]. split; reflexivity.
Qed.

(** ** The library-cost file *)

Module CostFileProofs.
Import CostFile CostFileSpec.

Lemma digitValue_digitChar d : 0 <= d <= 9 -> digitValue (digitChar d) = Some d.
Proof.
  intros H.
  assert (Hd : d = 0 \/ d = 1 \/ d = 2 \/ d = 3 \/ d = 4 \/ d = 5 \/ d = 6 \/ d = 7 \/ d = 8 \/ d = 9)
    by lia.
  destruct Hd as [->|[->|[->|[->|[->|[->|[->|[->|[->| ->]]]]]]]]]; reflexivity.
Qed.

Arguments digitChar : simpl never.
Arguments digitValue : simpl never.
Arguments isspace : simpl never.
Arguments atoi : simpl never.

Lemma isDigit_digitChar d : 0 <= d <= 9 -> isDigit (digitChar d) = true.
Proof. intros H. unfold isDigit. rewrite digitValue_digitChar by assumption. reflexivity. Qed.

Lemma digits_isDigit fuel n : 0 <= n -> Forall (fun c => isDigit c = true) (digits fuel n).
Proof.
  revert n. induction fuel as [|fuel IH]; intros n Hn; simpl; [constructor|].
  destruct (Z.ltb_spec n 10).
  - constructor; [|constructor]. apply isDigit_digitChar. lia.
  - apply Forall_app. split.
    + apply IH. apply Z.div_pos; lia.
    + constructor; [|constructor]. apply isDigit_digitChar.
      pose proof (Z.mod_pos_bound n 10). lia.
Qed.

Lemma atoiDigits_app l1 l2 acc :
  Forall (fun c => isDigit c = true) l1 ->
  atoiDigits (l1 ++ l2) acc = atoiDigits l2 (atoiDigits l1 acc).
Proof.
  intros H. revert acc. induction H as [|c l1 Hc _ IH]; intros acc; simpl; [reflexivity|].
  unfold isDigit in Hc. destruct (digitValue c); [|discriminate]. apply IH.
Qed.

Lemma atoiDigits_digits fuel n :
  0 <= n < 10 ^ Z.of_nat fuel -> atoiDigits (digits fuel n) 0 = n.
Proof.
  revert n. induction fuel as [|fuel IH]; intros n [Hn0 Hn].
  - change (10 ^ Z.of_nat 0) with 1 in Hn. simpl. lia.
  - cbn [digits]. destruct (Z.ltb_spec n 10) as [Hlt|Hge].
    + clear Hn IH. cbn [atoiDigits]. rewrite digitValue_digitChar by lia. lia.
    + assert (Hdiv : 0 <= n / 10 < 10 ^ Z.of_nat fuel).
      { split; [apply Z.div_pos; lia|].
        apply Z.div_lt_upper_bound; [lia|].
        rewrite Nat2Z.inj_succ, Z.pow_succ_r in Hn by apply Nat2Z.is_nonneg.
        exact Hn. }
      clear Hn.
      rewrite atoiDigits_app by (apply digits_isDigit; apply Z.div_pos; lia).
      rewrite IH by exact Hdiv. clear IH Hdiv. cbn [atoiDigits].
      pose proof (Z.mod_pos_bound n 10 ltac:(lia)) as Hmod.
      rewrite digitValue_digitChar by lia.
      pose proof (Z.div_mod n 10 ltac:(lia)). lia.
Qed.

Lemma digits_nonempty fuel n : digits (S fuel) n <> [].
Proof.
  simpl. destruct (n <? 10); [discriminate|].
  intros H. apply app_eq_nil in H. destruct H as [_ H]. discriminate.
Qed.

(** A digit is neither a separator, a line end, NUL, a space nor a sign. *)
Lemma isDigit_plain c :
  isDigit c = true ->
  Ascii.eqb c colon = false /\ Ascii.eqb c newline = false /\ Ascii.eqb c NUL = false
  /\ isspace c = false /\ Ascii.eqb c "-"%char = false /\ Ascii.eqb c "+"%char = false.
Proof.
  unfold isDigit, digitValue. intros H.
  destruct ((48 <=? nat_of_ascii c)%nat && (nat_of_ascii c <=? 57)%nat) eqn:E; [|discriminate].
  apply andb_true_iff in E. destruct E as [E1 E2].
  apply Nat.leb_le in E1. apply Nat.leb_le in E2.
  assert (Hne : forall k, (k < 48 \/ 57 < k < 256)%nat ->
                          Ascii.eqb c (ascii_of_nat k) = false).
  { intros k Hk. apply Ascii.eqb_neq. intros ->.
    rewrite nat_ascii_embedding in E1, E2 by lia. lia. }
  repeat split.
  - apply (Hne 58%nat). lia.
  - apply (Hne 10%nat). lia.
  - apply (Hne 0%nat). lia.
  - unfold isspace. apply orb_false_iff. split.
    + apply Nat.eqb_neq. lia.
    + apply andb_false_iff. right. apply Nat.leb_gt. lia.
  - apply (Hne 45%nat). lia.
  - apply (Hne 43%nat). lia.
Qed.

Lemma atoi_printLong n : 0 < n <= INT_MAX -> atoi (printLong n) = n.
Proof.
  intros Hn. unfold INT_MAX in Hn. unfold printLong.
  replace (n <? 0) with false by (symmetry; apply Z.ltb_ge; lia).
  pose proof (digits_isDigit 20 n ltac:(lia)) as Hd.
  pose proof (digits_nonempty 19 n) as Hne.
  assert (Hval : atoiDigits (digits 20 n) 0 = n).
  { apply atoiDigits_digits. split; [lia|]. change (10 ^ Z.of_nat 20) with (10 ^ 20). lia. }
  unfold atoi. revert Hd Hne Hval. generalize (digits 20 n). intros [|c r] Hd Hne Hval.
  - contradiction.
  - assert (Hc : isDigit c = true) by (inversion Hd; assumption).
    destruct (isDigit_plain c Hc) as (_ & _ & _ & Hsp & Hminus & Hplus).
    cbn [skipSpaces]. rewrite Hsp, Hminus, Hplus, Hval.
    rewrite Z.min_r by lia. rewrite Z.max_r by lia.
    apply to_int_id. unfold in_int, INT_MIN, INT_MAX. lia.
Qed.

Lemma getline_line line rest room :
  Forall (fun c => Ascii.eqb c newline = false) line ->
  (length line <= room)%nat ->
  getline room (line ++ newline :: rest) = mkLine line rest false false.
Proof.
  intros H. revert room. induction H as [|c line Hc _ IH]; intros room Hlen.
  - destruct room; reflexivity.
  - cbn [length] in Hlen. destruct room as [|room]; [lia|].
    cbn [app getline]. rewrite Hc, IH by lia. reflexivity.
Qed.

Lemma cstr_id l : Forall (fun c => Ascii.eqb c NUL = false) l -> cstr l = l.
Proof.
  induction 1 as [|c l Hc _ IH]; cbn [cstr]; [reflexivity|]. rewrite Hc, IH. reflexivity.
Qed.

Lemma tokenOf_token t rest :
  Forall (fun c => Ascii.eqb c colon = false) t ->
  tokenOf (t ++ colon :: rest) = (t, rest).
Proof.
  induction 1 as [|c t Hc _ IH]; cbn [app tokenOf].
  - reflexivity.
  - rewrite Hc, IH. reflexivity.
Qed.

Lemma tokenOf_last t :
  Forall (fun c => Ascii.eqb c colon = false) t -> tokenOf t = (t, []).
Proof.
  induction 1 as [|c t Hc _ IH]; cbn [tokenOf]; [reflexivity|]. rewrite Hc, IH. reflexivity.
Qed.

Lemma strtok_first t rest :
  t <> [] -> Forall (fun c => Ascii.eqb c colon = false) t ->
  strtok (t ++ colon :: rest) = Some (t, rest).
Proof.
  intros Hne Hall. unfold strtok. destruct t as [|c t]; [contradiction|].
  assert (Hc : Ascii.eqb c colon = false) by (inversion Hall; assumption).
  cbn [app skipDelims]. rewrite Hc.
  change (c :: t ++ colon :: rest) with ((c :: t) ++ colon :: rest).
  rewrite (tokenOf_token (c :: t) rest Hall). reflexivity.
Qed.

Lemma strtok_last t :
  t <> [] -> Forall (fun c => Ascii.eqb c colon = false) t ->
  strtok t = Some (t, []).
Proof.
  intros Hne Hall. unfold strtok. destruct t as [|c t]; [contradiction|].
  assert (Hc : Ascii.eqb c colon = false) by (inversion Hall; assumption).
  cbn [skipDelims]. rewrite Hc.
  rewrite (tokenOf_last (c :: t) Hall). reflexivity.
Qed.

Lemma hasColon_app a b : hasColon (a ++ colon :: b) = true.
Proof.
  unfold hasColon. rewrite existsb_app.
  replace (existsb (Ascii.eqb colon) (colon :: b)) with true by reflexivity.
  apply orb_true_r.
Qed.

Lemma printLong_digits n :
  0 < n <= INT_MAX ->
  printLong n <> [] /\ Forall (fun c => isDigit c = true) (printLong n).
Proof.
  intros Hn. unfold printLong.
  replace (n <? 0) with false by (symmetry; apply Z.ltb_ge; lia).
  split; [apply digits_nonempty | apply digits_isDigit; lia].
Qed.

Lemma string_of_chars_of name : string_of (chars_of name) = name.
Proof. apply string_of_list_ascii_of_string. Qed.

Lemma eqb_false_of_neq (c d : ascii) : c <> d -> Ascii.eqb c d = false.
Proof. intros H. apply Ascii.eqb_neq. exact H. Qed.

(** Reading one written line stores the entry and leaves the stream at the
    next line. *)
Lemma readLoop_line fuel name n rest table :
  goodName name -> 0 < n <= INT_MAX ->
  (length (chars_of name) + 1 + length (printLong n) <= 127)%nat ->
  readLoop (S fuel) (mkStream (lineOf (name, n) ++ rest) false false) false table
  = readLoop fuel (mkStream rest false false) false (<[name := CONST n]> table).
Proof.
  intros [Hne Hname] Hn Hlen.
  destruct (printLong_digits n Hn) as [Hdne Hdig].
  assert (Hd : Forall (fun c => Ascii.eqb c colon = false /\ Ascii.eqb c newline = false
                                /\ Ascii.eqb c NUL = false) (printLong n)).
  { eapply List.Forall_impl; [|exact Hdig]. intros c Hc.
    destruct (isDigit_plain c Hc) as (H1 & H2 & H3 & _). auto. }
  assert (Hnm : Forall (fun c => Ascii.eqb c colon = false /\ Ascii.eqb c newline = false
                                 /\ Ascii.eqb c NUL = false) (chars_of name)).
  { eapply List.Forall_impl; [|exact Hname]. intros c (H1 & H2 & H3).
    auto using eqb_false_of_neq. }
  set (line := chars_of name ++ colon :: printLong n).
  assert (Hline : lineOf (name, n) ++ rest = line ++ newline :: rest).
  { unfold lineOf, line. simpl. rewrite <- !app_assoc. simpl.
    rewrite <- app_assoc. reflexivity. }
  assert (Hall : Forall (fun c => Ascii.eqb c newline = false /\ Ascii.eqb c NUL = false) line).
  { unfold line. apply Forall_app. split.
    - eapply List.Forall_impl; [|exact Hnm]. tauto.
    - constructor; [split; reflexivity|]. eapply List.Forall_impl; [|exact Hd]. tauto. }
  assert (Hget : getline 127 (line ++ newline :: rest) = mkLine line rest false false).
  { apply getline_line.
    - eapply List.Forall_impl; [|exact Hall]. tauto.
    - unfold line. rewrite length_app. simpl. lia. }
  assert (Hcstr : cstr line = line).
  { apply cstr_id. eapply List.Forall_impl; [|exact Hall]. tauto. }
  assert (Htok1 : strtok line = Some (chars_of name, printLong n)).
  { apply strtok_first; [exact Hne|]. eapply List.Forall_impl; [|exact Hnm]. tauto. }
  assert (Htok2 : strtok (printLong n) = Some (printLong n, [])).
  { apply strtok_last; [exact Hdne|]. eapply List.Forall_impl; [|exact Hd]. tauto. }
  rewrite Hline. cbn [readLoop eof]. unfold nextLine. cbn [fail content].
  rewrite Hget. cbn [buf remaining eofbit failbit orb andb].
  rewrite Hcstr. unfold line at 1. rewrite hasColon_app.
  rewrite Htok1, Htok2, atoi_printLong, string_of_chars_of by assumption.
  reflexivity.
Qed.

Lemma readLoop_entries es : forall fuel table,
  writableEntries es -> (length es + 2 <= fuel)%nat ->
  readLoop fuel (mkStream (fileLines es) false false) false table
  = Ok (true, insertEntries es table).
Proof.
  induction es as [|[name n] es IH]; intros fuel table Hw Hf.
  - destruct fuel as [|[|fuel]]; simpl in Hf; try lia. reflexivity.
  - destruct fuel as [|fuel]; simpl in Hf; [lia|].
    inversion Hw as [|? ? (Hgood & Hn & Hlen) Hw']; subst. simpl in Hgood, Hn, Hlen.
    change (fileLines ((name, n) :: es)) with (lineOf (name, n) ++ fileLines es).
    rewrite readLoop_line by assumption.
    rewrite IH by (assumption || lia). reflexivity.
Qed.

Lemma readLoop_header fuel body table :
  readLoop (S fuel) (mkStream (header ++ newline :: body) false false) true table
  = readLoop fuel (mkStream body false false) false table.
Proof.
  cbn [readLoop eof]. unfold nextLine. cbn [fail content].
  rewrite getline_line; [| repeat constructor | vm_compute; lia].
  cbn [buf remaining eofbit failbit orb andb].
  rewrite cstr_id by repeat constructor.
  rewrite bool_decide_eq_true_2 by reflexivity. reflexivity.
Qed.

Lemma insertEntries_lookup es : forall table name n,
  (forall n', In (name, n') es -> n' = n) ->
  In (name, n) es \/ table !! name = Some (CONST n) ->
  insertEntries es table !! name = Some (CONST n).
Proof.
  induction es as [|[name' n'] es IH]; intros table name n Hfun Hin.
  - destruct Hin as [[]|Hin]. exact Hin.
  - simpl. apply IH.
    + intros k Hk. apply Hfun. right. exact Hk.
    + destruct (decide (name' = name)) as [->|Hneq].
      * right. rewrite (Hfun n' (or_introl eq_refl)). apply lookup_insert_eq.
      * destruct Hin as [[Hin|Hin]|Hin].
        -- inversion Hin. contradiction.
        -- left. exact Hin.
        -- right. rewrite lookup_insert_ne by assumption. exact Hin.
Qed.

Lemma insertEntries_other es : forall table name,
  ~ In name (List.map fst es) -> insertEntries es table !! name = table !! name.
Proof.
  induction es as [|[name' n'] es IH]; intros table name Hnot; [reflexivity|].
  simpl. rewrite IH by (intros H; apply Hnot; right; exact H).
  apply lookup_insert_ne. intros ->. apply Hnot. left. reflexivity.
Qed.

Section WriteProofs.
Context {SE : ScalarEvolution}.
Variable env : CostEnv.

Lemma writeLine_entry fuel F :
  (1 <= fuel)%nat ->
  (forall fi, isDeclaration F = false -> computedFuncInfo env !! fname F = Some fi ->
     fi_cost fi = None \/ exists n, fi_cost fi = Some (CONST n) /\ in_int n) ->
  writeLine env fuel F
  = Ok (match entryOf env F with Some e => lineOf e | None => [] end).
Proof.
  intros Hf Hc. unfold writeLine, entryOf.
  destruct (isDeclaration F); [reflexivity|].
  destruct (computedFuncInfo env !! fname F) as [fi|] eqn:E; [|reflexivity].
  destruct (Hc fi eq_refl eq_refl) as [Hnone|(n & Hn & Hint)]; rewrite ?Hnone, ?Hn.
  - reflexivity.
  - destruct fuel as [|fuel]; [lia|].
    unfold simplifyCost. cbn. unfold getConstant64. cbn.
    rewrite (to_long_id n) by (apply in_int_in_long; assumption).
    rewrite !(to_int_id n) by assumption.
    destruct (0 <? n); reflexivity.
Qed.

Lemma writeLines_entries fuel M :
  (1 <= fuel)%nat -> constantCosts env M ->
  writeLines env fuel M = Ok (fileLines (entries env M)).
Proof.
  intros Hf. induction M as [|F M IH]; intros Hc; [reflexivity|].
  simpl. rewrite writeLine_entry; [| assumption | intros fi Hd Hl; apply (Hc F fi); auto; left; reflexivity].
  rewrite IH by (intros G fi HG; apply Hc; right; exact HG).
  unfold entries. simpl. destruct (entryOf env F); reflexivity.
Qed.

Lemma entries_functional M name n n' :
  In (name, n) (entries env M) -> In (name, n') (entries env M) -> n = n'.
Proof.
  assert (Hshape : forall k, In (name, k) (entries env M) ->
            exists fi, computedFuncInfo env !! name = Some fi /\ fi_cost fi = Some (CONST k)).
  { intros k Hk. unfold entries in Hk. apply list_elem_of_In, list_elem_of_omap in Hk.
    destruct Hk as (F & _ & HF). unfold entryOf in HF.
    destruct (isDeclaration F); [discriminate|].
    destruct (computedFuncInfo env !! fname F) as [fi|] eqn:E; [|discriminate].
    destruct (fi_cost fi) as [[v| | | | | |]|] eqn:Ec; try discriminate.
    destruct (0 <? v); [|discriminate]. inversion HF; subst. eauto. }
  intros H1 H2. destruct (Hshape n H1) as (fi & E1 & C1).
  destruct (Hshape n' H2) as (fi' & E2 & C2). congruence.
Qed.

End WriteProofs.

End CostFileProofs.

(** Claim C3 (amended).  With an output path, recorded costs that are
    constants, and entries whose names are free of [:], line ends and NUL
    and whose lines fit the 128-byte buffer, [writeCost] writes the line
    [Cost File] and one line [name:cost] for every defined function whose
    cost is a positive constant; [readCost] on that file succeeds and maps
    every such name to the same constant, leaving every other name as it
    was (no default is assigned).  No input path is accepted; an input
    path whose file does not open is rejected, and so is every file whose
    first line, as [getline] and the C string of the buffer give it, is not
    [Cost File]; the table is then left as it was.  For the optimising
    granularities runOnModule reads the file and returns false at once when
    [readCost] does; for the other granularities it does not read it. *)
Theorem writeCost_readCost_roundtrip {SE : ScalarEvolution} (env : CostEnv)
    (M : list Function) (out inp : string) (fuelW fuelR : nat)
    (table : gmap string InstructionCost) :
  out <> "" -> inp <> "" ->
  CostFileSpec.constantCosts env M ->
  CostFileSpec.writableEntries (CostFileSpec.entries env M) ->
  (1 <= fuelW)%nat -> (length (CostFileSpec.entries env M) + 3 <= fuelR)%nat ->
  exists body table',
    CostFile.writeCost env fuelW out M
      = Ok (Some (CostFile.header ++ [CostFile.newline] ++ body)) /\
    body = CostFileSpec.fileLines (CostFileSpec.entries env M) /\
    CostFile.readCost fuelR inp (Some (CostFile.header ++ [CostFile.newline] ++ body)) table
      = Ok (true, table') /\
    (forall F fi n, In F M -> isDeclaration F = false ->
       computedFuncInfo env !! fname F = Some fi -> fi_cost fi = Some (CONST n) -> 0 < n ->
       table' !! fname F = Some (CONST n)) /\
    (forall name, ~ In name (List.map fst (CostFileSpec.entries env M)) ->
       table' !! name = table !! name) /\
    CostFile.readCost fuelR "" None table = Ok (true, table) /\
    CostFile.readCost fuelR inp None table = Ok (false, table) /\
    (forall bytes,
       CostFile.cstr (CostFile.buf (CostFile.getline 127 bytes)) <> CostFile.header ->
       CostFile.readCost fuelR inp (Some bytes) table = Ok (false, table)) /\
    (forall cfg, checkIfInstGranIsOpt cfg = true ->
       runOnModuleReadCost cfg fuelR inp
         (Some (CostFile.header ++ [CostFile.newline] ++ body)) table = Ok (Some table') /\
       runOnModuleReadCost cfg fuelR "" None table = Ok (Some table) /\
       runOnModuleReadCost cfg fuelR inp None table = Ok None /\
       (forall bytes,
          CostFile.cstr (CostFile.buf (CostFile.getline 127 bytes)) <> CostFile.header ->
          runOnModuleReadCost cfg fuelR inp (Some bytes) table = Ok None)) /\
    (forall cfg file, checkIfInstGranIsOpt cfg = false ->
       runOnModuleReadCost cfg fuelR inp file table = Ok (Some table)).
Proof.
  intros Hout Hinp Hconst Hw HfW HfR.
  apply String.eqb_neq in Hout. apply String.eqb_neq in Hinp.
  exists (CostFileSpec.fileLines (CostFileSpec.entries env M)),
         (CostFileSpec.insertEntries (CostFileSpec.entries env M) table).
  assert (Hread : CostFile.readCost fuelR inp
            (Some (CostFile.header ++ [CostFile.newline]
                   ++ CostFileSpec.fileLines (CostFileSpec.entries env M))) table
          = Ok (true, CostFileSpec.insertEntries (CostFileSpec.entries env M) table)).
  { unfold CostFile.readCost. rewrite Hinp.
    destruct fuelR as [|fuelR]; [lia|].
    change (CostFile.header ++ [CostFile.newline] ++ ?b)
      with (CostFile.header ++ CostFile.newline :: b).
    rewrite CostFileProofs.readLoop_header.
    apply CostFileProofs.readLoop_entries; [assumption | lia]. }
  assert (Hmissing : CostFile.readCost fuelR inp None table = Ok (false, table)).
  { unfold CostFile.readCost. rewrite Hinp. reflexivity. }
  assert (Hfirst : forall bytes,
            CostFile.cstr (CostFile.buf (CostFile.getline 127 bytes)) <> CostFile.header ->
            CostFile.readCost fuelR inp (Some bytes) table = Ok (false, table)).
  { intros bytes Hne. unfold CostFile.readCost. rewrite Hinp.
    destruct fuelR as [|fuelR]; [lia|].
    cbn [CostFile.readLoop CostFile.eof CostFile.nextLine CostFile.fail CostFile.content].
    rewrite bool_decide_eq_false_2 by exact Hne. reflexivity. }
  split; [|split; [reflexivity|split; [exact Hread|split; [|split; [|split;
    [|split; [exact Hmissing|split; [exact Hfirst|split]]]]]]]].
  - unfold CostFile.writeCost. rewrite Hout.
    rewrite CostFileProofs.writeLines_entries by assumption. reflexivity.
  - intros F fi n HF Hdecl Hfi Hcost Hn.
    assert (Hin : In (fname F, n) (CostFileSpec.entries env M)).
    { unfold CostFileSpec.entries. apply list_elem_of_In, list_elem_of_omap.
      exists F. split; [apply list_elem_of_In; exact HF|].
      unfold CostFileSpec.entryOf. rewrite Hdecl, Hfi, Hcost.
      replace (0 <? n) with true by (symmetry; apply Z.ltb_lt; exact Hn). reflexivity. }
    apply CostFileProofs.insertEntries_lookup; [|left; exact Hin].
    intros n' Hn'. apply (CostFileProofs.entries_functional env M (fname F)); assumption.
  - apply CostFileProofs.insertEntries_other.
  - reflexivity.
  - intros cfg Hopt. unfold runOnModuleReadCost. rewrite Hopt.
    split; [rewrite Hread; reflexivity|]. split; [reflexivity|].
    split; [rewrite Hmissing; reflexivity|].
    intros bytes Hne. rewrite (Hfirst bytes Hne). reflexivity.
  - intros cfg file Hopt. unfold runOnModuleReadCost. rewrite Hopt. reflexivity.
Qed.

(** The round trip on a module with a function of cost 42, one of cost 0
    and a declaration: only [f:42] is written and read back. *)
Lemma writeCost_readCost_roundtrip_witness :
  exists body table',
    CostFile.writeCost (SE := PlainSE) costFileEnv 1 "out.cost" costModule
      = Ok (Some (CostFile.header ++ [CostFile.newline] ++ body)) /\
    body = CostFile.chars_of "f:42
" /\
    CostFile.readCost 4 "out.cost" (Some (CostFile.header ++ [CostFile.newline] ++ body)) ∅
      = Ok (true, table') /\
    table' !! "f" = Some (CONST 42) /\ table' !! "g" = None.
Proof.
  assert (Hconst : CostFileSpec.constantCosts costFileEnv costModule).
  { intros F fi HF Hdecl Hfi. right.
    destruct HF as [<-|[<-|[<-|[]]]]; vm_compute in Hfi; inversion Hfi; subst.
    - exists 42. split; [reflexivity|]. unfold in_int, INT_MIN, INT_MAX. lia.
    - exists 0. split; [reflexivity|]. unfold in_int, INT_MIN, INT_MAX. lia. }
  assert (Hw : CostFileSpec.writableEntries (CostFileSpec.entries costFileEnv costModule)).
  { change (CostFileSpec.entries costFileEnv costModule) with [("f", 42)].
    constructor; [|constructor]. split; [|split].
    - split; [discriminate|]. repeat constructor; discriminate.
    - unfold INT_MAX. simpl. lia.
    - vm_compute. lia. }
  destruct (writeCost_readCost_roundtrip (SE := PlainSE) costFileEnv costModule
              "out.cost" "out.cost" 1 4 ∅ ltac:(discriminate) ltac:(discriminate)
              Hconst Hw ltac:(lia) ltac:(vm_compute; lia))
    as (body & table' & Hwrite & Hbody & Hread & Hin & Hout & _ & _).
  exists body, table'. split; [exact Hwrite|]. split; [rewrite Hbody; reflexivity|].
  split; [exact Hread|]. split.
  - apply (Hin costF {| fi_hasFence := false; fi_cost := Some (CONST 42) |} 42);
      try reflexivity. left. reflexivity.
  - rewrite Hout; [reflexivity|]. vm_compute. intros [H|[]]. discriminate.
Defined.

(** An input path whose file does not open is rejected by [readCost] (the
    pass then stops), and reading a file assigns nothing to the names it
    does not hold. *)
Lemma readCost_missing_file_counterexample :
  CostFile.readCost 4 "lib.cost" None ∅ = Ok (false, ∅) /\
  (exists table',
    CostFile.readCost 4 "lib.cost" (Some (CostFile.chars_of "Cost File
f:42
")) ∅ = Ok (true, table') /\
    table' !! "f" = Some (CONST 42) /\ table' !! "memcpy" = None) /\
  runOnModuleReadCost exampleConfig 4 "lib.cost" None ∅ = Ok None.
Proof.
  split; [reflexivity|]. split; [|reflexivity].
  eexists. split; [vm_compute; reflexivity|].
  split; reflexivity.
Qed.

(** ** The reducer *)

Module ReducerProofs.
Import Reducer.

Lemma findLCC_lt x l i : findLCC x l = Some i -> (i < length l)%nat.
Proof.
  revert i. induction l as [|y l IH]; intros i H; simpl in H; [discriminate|].
  destruct (Z.eqb y x).
  - inversion H. simpl. lia.
  - destruct (findLCC x l) as [j|]; [|discriminate]. inversion H.
    specialize (IH j eq_refl). simpl. lia.
Qed.

Lemma erase_length x l p :
  eraseFromGlobalLCCList x l = Ok p -> S (length (snd p)) = length l.
Proof.
  unfold eraseFromGlobalLCCList. destruct (findLCC x l) as [i|] eqn:E; [|discriminate].
  intros H. inversion H. simpl. apply findLCC_lt in E.
  rewrite length_app, length_take, length_drop. lia.
Qed.

Lemma insertAt_length i x l : length (insertAt i x l) = S (length l).
Proof.
  unfold insertAt. rewrite length_app. simpl. rewrite length_take, length_drop. lia.
Qed.

Lemma eraseAll_length xs : forall l l',
  eraseAll xs l = Ok l' -> (length l' <= length l)%nat.
Proof.
  induction xs as [|x xs IH]; intros l l' H; simpl in H.
  - inversion H. lia.
  - destruct (eraseFromGlobalLCCList x l) as [p| |] eqn:E; try discriminate.
    simpl in H. apply erase_length in E. apply IH in H. lia.
Qed.

Section RuleProofs.
Context {Graph : Type} {P : Patterns Graph}.

Lemma checkNCreatePathLCC_shrinks : shrinks checkNCreatePathLCC.
Proof.
  intros st cur b st' H. unfold checkNCreatePathLCC in H.
  destruct (pathPattern st cur) as [succ| |]; try discriminate.
  - destruct (eraseFromGlobalLCCList cur (outerLCCs st)) as [p| |] eqn:E1; try discriminate.
    simpl in H.
    destruct (eraseFromGlobalLCCList succ _) as [q| |] eqn:E2; try discriminate.
    simpl in H. inversion H; subst. simpl.
    apply erase_length in E1. apply erase_length in E2.
    rewrite insertAt_length in E2. lia.
  - inversion H. reflexivity.
Qed.

Lemma checkNCreateBranchLCC_shrinks : shrinks checkNCreateBranchLCC.
Proof.
  intros st cur b st' H. unfold checkNCreateBranchLCC in H.
  destruct (branchPattern st cur) as [[postDom middle]| |]; try discriminate.
  - destruct (eraseFromGlobalLCCList cur (outerLCCs st)) as [p| |] eqn:E1; try discriminate.
    simpl in H.
    destruct (eraseFromGlobalLCCList postDom _) as [q| |] eqn:E2; try discriminate.
    simpl in H.
    destruct (eraseAll middle (snd q)) as [l'| |] eqn:E3; try discriminate.
    simpl in H. inversion H; subst. simpl.
    apply erase_length in E1. apply erase_length in E2. apply eraseAll_length in E3.
    rewrite insertAt_length in E2. lia.
  - inversion H. reflexivity.
Qed.

Lemma checkNCreateLoopLCC_shrinks : shrinks checkNCreateLoopLCC.
Proof.
  intros st cur b st' H. unfold checkNCreateLoopLCC in H.
  destruct (loopPattern st cur) as [[[pred body] succ]| |]; try discriminate.
  - destruct (eraseFromGlobalLCCList pred (outerLCCs st)) as [p| |] eqn:E1; try discriminate.
    simpl in H.
    destruct (eraseFromGlobalLCCList cur _) as [q| |] eqn:E2; try discriminate.
    simpl in H. apply erase_length in E1. apply erase_length in E2.
    rewrite insertAt_length in E2.
    destruct body as [body|].
    + destruct (eraseFromGlobalLCCList body (snd q)) as [r| |] eqn:E3; try discriminate.
      simpl in H.
      destruct (eraseFromGlobalLCCList succ (snd r)) as [s| |] eqn:E4; try discriminate.
      simpl in H. inversion H; subst. simpl.
      apply erase_length in E3. apply erase_length in E4. lia.
    + simpl in H.
      destruct (eraseFromGlobalLCCList succ (snd q)) as [s| |] eqn:E4; try discriminate.
      simpl in H. inversion H; subst. simpl.
      apply erase_length in E4. lia.
  - inversion H. reflexivity.
Qed.

Lemma rules_shrink : shrinks checkNApplyRules.
Proof.
  intros st cur b st' H. unfold checkNApplyRules in H.
  destruct (checkNCreatePathLCC st cur) as [[b1 s1]| |] eqn:E1; try discriminate.
  pose proof (checkNCreatePathLCC_shrinks _ _ _ _ E1) as H1. simpl in H.
  destruct b1; [inversion H; subst; exact H1|]. subst s1.
  destruct (checkNCreateBranchLCC st cur) as [[b2 s2]| |] eqn:E2; try discriminate.
  pose proof (checkNCreateBranchLCC_shrinks _ _ _ _ E2) as H2. simpl in H.
  destruct b2; [inversion H; subst; exact H2|]. subst s2.
  destruct (checkNCreateLoopLCC st cur) as [[b3 s3]| |] eqn:E3; try discriminate.
  pose proof (checkNCreateLoopLCC_shrinks _ _ _ _ E3) as H3. simpl in H.
  destruct b3; inversion H; subst; auto.
Qed.

(** A rule never runs out of fuel: it has none. *)
Lemma rules_total st cur : checkNApplyRules st cur <> OutOfFuel.
Proof.
  assert (He : forall x l, eraseFromGlobalLCCList x l <> OutOfFuel).
  { intros x l. unfold eraseFromGlobalLCCList. destruct (findLCC x l); discriminate. }
  assert (Ha : forall xs l, eraseAll xs l <> OutOfFuel).
  { induction xs as [|x xs IH]; intros l; simpl; [discriminate|].
    pose proof (He x l). destruct (eraseFromGlobalLCCList x l); simpl; auto; discriminate. }
  assert (Hp : forall s, checkNCreatePathLCC s cur <> OutOfFuel).
  { intros s. unfold checkNCreatePathLCC.
    destruct (pathPattern s cur) as [found| |]; try discriminate.
    pose proof (He cur (outerLCCs s)).
    destruct (eraseFromGlobalLCCList cur (outerLCCs s)) as [p| |]; simpl; try congruence.
    pose proof (He found (insertAt (fst p) (nextID s) (snd p))).
    destruct (eraseFromGlobalLCCList found _); simpl; congruence. }
  assert (Hb : forall s, checkNCreateBranchLCC s cur <> OutOfFuel).
  { intros s. unfold checkNCreateBranchLCC.
    destruct (branchPattern s cur) as [[postDom middle]| |]; try discriminate.
    pose proof (He cur (outerLCCs s)).
    destruct (eraseFromGlobalLCCList cur (outerLCCs s)) as [p| |]; simpl; try congruence.
    pose proof (He postDom (insertAt (fst p) (nextID s) (snd p))).
    destruct (eraseFromGlobalLCCList postDom _) as [q| |]; simpl; try congruence.
    pose proof (Ha middle (snd q)).
    destruct (eraseAll middle (snd q)); simpl; congruence. }
  assert (Hl : forall s, checkNCreateLoopLCC s cur <> OutOfFuel).
  { intros s. unfold checkNCreateLoopLCC.
    destruct (loopPattern s cur) as [[[pred body] succ]| |]; try discriminate.
    pose proof (He pred (outerLCCs s)).
    destruct (eraseFromGlobalLCCList pred (outerLCCs s)) as [p| |]; simpl; try congruence.
    pose proof (He cur (insertAt (fst p) (nextID s) (snd p))).
    destruct (eraseFromGlobalLCCList cur _) as [q| |]; simpl; try congruence.
    destruct body as [body|]; simpl.
    - pose proof (He body (snd q)).
      destruct (eraseFromGlobalLCCList body (snd q)) as [r| |]; simpl; try congruence.
      pose proof (He succ (snd r)).
      destruct (eraseFromGlobalLCCList succ (snd r)); simpl; congruence.
    - pose proof (He succ (snd q)).
      destruct (eraseFromGlobalLCCList succ (snd q)); simpl; congruence. }
  unfold checkNApplyRules.
  pose proof (Hp st). destruct (checkNCreatePathLCC st cur) as [[b1 s1]| |]; simpl; try congruence.
  destruct b1; [discriminate|].
  pose proof (Hb s1). destruct (checkNCreateBranchLCC s1 cur) as [[b2 s2]| |]; simpl; try congruence.
  destruct b2; [discriminate|].
  pose proof (Hl s2). destruct (checkNCreateLoopLCC s2 cur) as [[b3 s3]| |]; simpl; try congruence.
  destruct b3; discriminate.
Qed.

Lemma scan_shrinks lccs : forall st b st',
  scan lccs st = Ok (b, st') ->
  if b then (length (outerLCCs st') < length (outerLCCs st))%nat else st' = st.
Proof.
  induction lccs as [|x lccs IH]; intros st b st' H; simpl in H.
  - inversion H. reflexivity.
  - destruct (checkNApplyRules st x) as [[b1 s1]| |] eqn:E; try discriminate.
    pose proof (rules_shrink _ _ _ _ E) as H1. simpl in H.
    destruct b1; [inversion H; subst; exact H1|]. subst s1. apply IH. exact H.
Qed.

Lemma scan_total lccs : forall st, scan lccs st <> OutOfFuel.
Proof.
  induction lccs as [|x lccs IH]; intros st; simpl; [discriminate|].
  pose proof (rules_total st x) as Hr. pose proof (rules_shrink st x) as Hs.
  destruct (checkNApplyRules st x) as [[b1 s1]| |]; simpl; try congruence.
  destruct b1; [discriminate|]. apply IH.
Qed.

(** A scan stops at the first container of the list to which a rule
    applies, and says no when a rule applies to none. *)
Lemma scan_applied lccs : forall st r,
  scan lccs st = Ok (true, r) <->
  exists pre x post,
    lccs = pre ++ x :: post /\
    (forall y, In y pre -> checkNApplyRules st y = Ok (false, st)) /\
    checkNApplyRules st x = Ok (true, r).
Proof.
  induction lccs as [|c lccs IH]; intros st r; cbn [scan].
  - split; [discriminate|]. intros (pre & x & post & Hl & _). destruct pre; discriminate.
  - split.
    + intros H. destruct (checkNApplyRules st c) as [[b s1]| |] eqn:E; try discriminate.
      pose proof (rules_shrink _ _ _ _ E) as Hs. cbn [mbind result_bind fst snd] in H.
      destruct b.
      * injection H as <-. exists [], c, lccs. split; [reflexivity|]. split; [|exact E].
        intros y [].
      * subst s1. apply IH in H. destruct H as (pre & x & post & -> & Hpre & Hx).
        exists (c :: pre), x, post. split; [reflexivity|]. split; [|exact Hx].
        intros y [<-|Hy]; [exact E|exact (Hpre y Hy)].
    + intros (pre & x & post & Hl & Hpre & Hx). destruct pre as [|p pre]; cbn in Hl.
      * injection Hl as -> ->. rewrite Hx. reflexivity.
      * injection Hl as -> ->. rewrite (Hpre p (or_introl eq_refl)).
        cbn [mbind result_bind fst snd]. apply IH.
        exists pre, x, post. split; [reflexivity|]. split; [|exact Hx].
        intros y Hy. apply Hpre. right. exact Hy.
Qed.

Lemma scan_none lccs : forall st r,
  scan lccs st = Ok (false, r) <->
  r = st /\ forall y, In y lccs -> checkNApplyRules st y = Ok (false, st).
Proof.
  induction lccs as [|c lccs IH]; intros st r; cbn [scan].
  - split.
    + intros [= <-]. split; [reflexivity|]. intros y [].
    + intros [-> _]. reflexivity.
  - split.
    + intros H. destruct (checkNApplyRules st c) as [[b s1]| |] eqn:E; try discriminate.
      pose proof (rules_shrink _ _ _ _ E) as Hs. cbn [mbind result_bind fst snd] in H.
      destruct b; [discriminate|]. subst s1. apply IH in H. destruct H as [-> Hall].
      split; [reflexivity|]. intros y [<-|Hy]; [exact E|exact (Hall y Hy)].
    + intros [-> Hall]. rewrite (Hall c (or_introl eq_refl)).
      cbn [mbind result_bind fst snd]. apply IH. split; [reflexivity|].
      intros y Hy. apply Hall. right. exact Hy.
Qed.

(** The inner loop ends within one pass per container, plus the pass that
    applies no rule; every pass but the last applies one rule, at the first
    container of the current list to which one applies. *)
Lemma scanLoop_terminates fuel : forall st passes,
  (length (outerLCCs st) < fuel)%nat ->
  (exists st' passes',
     scanLoop fuel st passes = Ok (false, st', passes') /\
     scan (outerLCCs st') st' = Ok (false, st') /\
     (length (outerLCCs st') + passes' <= length (outerLCCs st) + S passes)%nat /\
     (passes < passes')%nat /\
     nsteps ReducerSpec.reducesTo (passes' - S passes) st st' /\
     ReducerSpec.irreducible st')
  \/ (exists msg, scanLoop fuel st passes = Fatal msg).
Proof.
  induction fuel as [|fuel IH]; intros st passes Hf; [lia|].
  simpl. pose proof (scan_total (outerLCCs st) st) as Ht.
  destruct (scan (outerLCCs st) st) as [[b s1]| |] eqn:E; [| |congruence].
  - pose proof (scan_shrinks _ _ _ _ E) as Hs. simpl. destruct b.
    + destruct (IH s1 (S passes) ltac:(lia))
        as [(st' & p' & H1 & H2 & H3 & H4 & H5 & H6)|[msg H1]].
      * left. exists st', p'. split; [exact H1|]. split; [exact H2|].
        split; [lia|]. split; [lia|]. split; [|exact H6].
        replace (p' - S passes)%nat with (S (p' - S (S passes))) by lia.
        apply nsteps_l with s1; [|exact H5].
        apply scan_applied in E. exact E.
      * right. exists msg. exact H1.
    + subst s1. left. exists st, (S passes). split; [reflexivity|]. split; [exact E|].
      split; [lia|]. split; [lia|]. split.
      * replace (S passes - S passes)%nat with 0%nat by lia. apply nsteps_O.
      * apply scan_none in E. exact (proj2 E).
  - right. exists msg. reflexivity.
Qed.

End RuleProofs.

End ReducerProofs.

(** Claim C8.  The reducer's loop terminates on every list of outer
    containers, whatever the patterns match: with one unit of fuel per
    container and one more, [traverseNReduce] returns (or stops on a failed
    sanity assertion).  The state it returns is reached from the initial one
    by [passes - 1] reducing passes, each of which applies one rule to the
    first container of the current list to which a rule applies and is
    followed by a scan from the head of the new list; in the state returned
    no rule applies to any container of the list, which is what the last scan
    finds.  It makes at most one pass per container removed, plus the last.
    Every rule that applies makes the list strictly shorter, and leaves the
    state alone when it does not apply.  The rules are tried in the order
    Path, Branch, Loop.  A scan answers with the first container of the list
    to which a rule applies, and says no exactly when none applies. *)
Theorem traverseNReduce_terminates {Graph : Type} {P : Reducer.Patterns Graph}
    (st : Reducer.RState Graph) (fuel : nat) :
  (length (Reducer.outerLCCs st) < fuel)%nat ->
  ((exists st' passes,
      Reducer.traverseNReduce fuel st 0 = Ok (st', passes) /\
      Reducer.scan (Reducer.outerLCCs st') st' = Ok (false, st') /\
      (length (Reducer.outerLCCs st') + passes <= S (length (Reducer.outerLCCs st)))%nat /\
      (1 <= passes)%nat /\
      nsteps ReducerSpec.reducesTo (passes - 1) st st' /\
      ReducerSpec.irreducible st')
   \/ exists msg, Reducer.traverseNReduce fuel st 0 = Fatal msg)
  /\ Reducer.shrinks Reducer.checkNApplyRules
  /\ (forall s cur r, Reducer.checkNCreatePathLCC s cur = Ok (true, r) ->
        Reducer.checkNApplyRules s cur = Ok (true, r))
  /\ (forall s cur r, Reducer.checkNCreatePathLCC s cur = Ok (false, s) ->
        Reducer.checkNCreateBranchLCC s cur = Ok (true, r) ->
        Reducer.checkNApplyRules s cur = Ok (true, r))
  /\ (forall s cur r, Reducer.checkNCreatePathLCC s cur = Ok (false, s) ->
        Reducer.checkNCreateBranchLCC s cur = Ok (false, s) ->
        Reducer.checkNCreateLoopLCC s cur = Ok r ->
        Reducer.checkNApplyRules s cur = Ok r)
  /\ (forall s r n passes, Reducer.scan (Reducer.outerLCCs s) s = Ok (true, r) ->
        Reducer.scanLoop (S n) s passes = Reducer.scanLoop n r (S passes))
  /\ (forall lccs s r,
        Reducer.scan lccs s = Ok (true, r) <->
        exists pre x post,
          lccs = pre ++ x :: post /\
          (forall y, In y pre -> Reducer.checkNApplyRules s y = Ok (false, s)) /\
          Reducer.checkNApplyRules s x = Ok (true, r))
  /\ (forall lccs s r,
        Reducer.scan lccs s = Ok (false, r) <->
        r = s /\ forall y, In y lccs -> Reducer.checkNApplyRules s y = Ok (false, s))
  /\ (forall s r n passes, ReducerSpec.reducesTo s r ->
        Reducer.scanLoop (S n) s passes = Reducer.scanLoop n r (S passes)).
Proof.
  intros Hfuel. split; [|split; [|split; [|split; [|split; [|split; [|split; [|split]]]]]]].
  - destruct fuel as [|fuel]; [lia|]. cbn [Reducer.traverseNReduce].
    destruct (ReducerProofs.scanLoop_terminates (S fuel) st 0 Hfuel)
      as [(st' & p' & H1 & H2 & H3 & H4 & H5 & H6)|[msg H1]]; rewrite H1.
    + left. exists st', p'. split; [reflexivity|]. split; [exact H2|].
      split; [lia|]. split; [lia|]. split; [exact H5|exact H6].
    + right. exists msg. reflexivity.
  - apply ReducerProofs.rules_shrink.
  - intros s cur r H. unfold Reducer.checkNApplyRules. rewrite H. reflexivity.
  - intros s cur r H1 H2. unfold Reducer.checkNApplyRules. rewrite H1. simpl.
    rewrite H2. reflexivity.
  - intros s cur [b r] H1 H2 H3. unfold Reducer.checkNApplyRules. rewrite H1. simpl.
    rewrite H2. simpl. rewrite H3. simpl. destruct b; reflexivity.
  - intros s r n passes H. cbn [Reducer.scanLoop]. rewrite H. reflexivity.
  - intros lccs s r. apply ReducerProofs.scan_applied.
  - intros lccs s r. apply ReducerProofs.scan_none.
  - intros s r n passes H. cbn [Reducer.scanLoop].
    apply ReducerProofs.scan_applied in H. rewrite H. reflexivity.
Qed.

(** The chain 1 -> 2 -> 3 is reduced to the single container 5 in three
    passes: two that apply the path rule and the one that finds nothing. *)
Lemma traverseNReduce_terminates_witness :
  exists st',
    Reducer.traverseNReduce (P := chainPatterns) 4 chainState 0 = Ok (st', 3%nat) /\
    Reducer.outerLCCs st' = [5] /\
    nsteps (ReducerSpec.reducesTo (P := chainPatterns)) 2 chainState st' /\
    ReducerSpec.irreducible (P := chainPatterns) st'.
Proof.
  destruct (traverseNReduce_terminates (P := chainPatterns) chainState 4)
    as [[(st' & passes & H1 & H2 & H3 & H4 & H5 & H6)|[msg H]] _].
  - simpl. lia.
  - assert (Hrun : Reducer.traverseNReduce (P := chainPatterns) 4 chainState 0
                   = Ok (st', passes)) by exact H1.
    vm_compute in H1. injection H1 as Hst Hp. subst passes.
    exists st'. split; [exact Hrun|]. split; [rewrite <- Hst; reflexivity|].
    split; [exact H5|exact H6].
  - vm_compute in H. discriminate H.
Defined.

(** ** Strip-mining decisions *)

Module EvalProofs.
Import CostEval.

Lemma cdiv_pos a b : 0 <= a -> 0 < b -> cdiv a b = a / b.
Proof. intros Ha Hb. unfold cdiv. apply Z.quot_div_nonneg; lia. Qed.

Lemma setInstrInfo_fresh u i c st :
  marker st (_lccID u) i = None ->
  exists st', setInstrInfo u (Some i) (Some c) st = Ok st' /\
    marker st' (_lccID u) i = Some c /\
    selfLoop st' = selfLoop st /\ seseLoop st' = seseLoop st /\
    self_loop_transform st' = self_loop_transform st /\
    generic_loop_transform st' = generic_loop_transform st /\
    directBranch st' = directBranch st.
Proof.
  intros Hm. unfold setInstrInfo. unfold marker in Hm. rewrite Hm. simpl.
  eexists. split; [reflexivity|]. unfold marker. simpl.
  rewrite lookup_insert_eq. simpl. rewrite lookup_insert_eq. repeat split.
Qed.

Lemma unitInstrumentForIC_fresh u i b st :
  _lastInst u = Some i -> 0 < b -> marker st (_lccID u) i = None ->
  exists st', unitInstrumentForIC u (Some (CONST b)) st = Ok st' /\
    marker st' (_lccID u) i = Some (CONST b) /\
    selfLoop st' = selfLoop st /\ seseLoop st' = seseLoop st /\
    self_loop_transform st' = self_loop_transform st /\
    generic_loop_transform st' = generic_loop_transform st /\
    directBranch st' = directBranch st.
Proof.
  intros Hlast Hb Hm. unfold unitInstrumentForIC. simpl.
  replace (0 <=? b) with true by (symmetry; apply Z.leb_le; lia).
  replace (b =? 0) with false by (symmetry; apply Z.eqb_neq; lia).
  simpl. rewrite Hlast. apply setInstrInfo_fresh. exact Hm.
Qed.

End EvalProofs.

(** Claim C6.  For a self loop or a SESE loop scheduled with a constant
    body cost [b], [0 < b <= CommitInterval], the transformer computes
    [inner = CommitInterval / b]; when [inner <= 10] or the loop has no
    induction variable it does not call the transformation: it puts the
    body cost [b] before the last instruction of the loop's container (the
    header's for a self loop, the latch's for a SESE loop), which runs on
    every iteration, and unschedules the loop.  Otherwise it calls the
    transformation with [inner] and [b]; when that gives no exit block it
    falls back to the same marker, when it succeeds no marker is put and
    the transformation is counted. *)
Theorem instrumentLoop_fallback (cfg : Config) (bst : BuilderState)
    (getHeader getLoopLatch : Loop -> BlockId)
    (getInductionVariable : Loop -> option Value)
    (transformSelf transformSESE :
       Loop -> Z -> Z -> CostEval.EvalState -> result (option BlockId * CostEval.EvalState))
    (L : Loop) (st : CostEval.EvalState) (b : Z) (u : UnitLCC) (i : nat) :
  0 < b <= CommitInterval cfg -> CommitInterval cfg <= INT_MAX ->
  _lastInst u = Some i ->
  let inner := CommitInterval cfg / b in
  let self := CostEval.instrumentSelfLoop cfg bst getHeader getInductionVariable transformSelf in
  let sese := CostEval.instrumentSESELoop cfg bst getLoopLatch getInductionVariable transformSESE in
  let fallbackSelf s :=
    st1 ← CostEval.unitInstrumentForIC u (Some (CONST b)) s; Ok (CostEval.eraseSelfLoop L st1) in
  let fallbackSESE s :=
    st1 ← CostEval.unitInstrumentForIC u (Some (CONST b)) s; Ok (CostEval.eraseSESELoop L st1) in
  (CostEval.selfLoop st !! L = Some (Some (CONST b)) ->
   getLastLCCofBB bst (getHeader L) = Ok (_lccID u) -> getUnit bst (_lccID u) = Ok u ->
     (inner <= 10 \/ getInductionVariable L = None ->
        self L st = fallbackSelf st /\
        (CostEval.marker st (_lccID u) i = None ->
         exists st', self L st = Ok st' /\
           CostEval.marker st' (_lccID u) i = Some (CONST b) /\
           CostEval.selfLoop st' !! L = None /\
           CostEval.self_loop_transform st' = CostEval.self_loop_transform st))
     /\ (10 < inner -> getInductionVariable L <> None ->
         forall r, transformSelf L inner b st = Ok r ->
           self L st = match fst r with
                       | None => fallbackSelf (snd r)
                       | Some _ => Ok (CostEval.eraseSelfLoop L (CostEval.countSelfLoopTransform (snd r)))
                       end))
  /\
  (CostEval.seseLoop st !! L = Some (Some (CONST b)) ->
   getLastLCCofBB bst (getLoopLatch L) = Ok (_lccID u) -> getUnit bst (_lccID u) = Ok u ->
     (inner <= 10 \/ getInductionVariable L = None ->
        sese L st = fallbackSESE st /\
        (CostEval.marker st (_lccID u) i = None ->
         exists st', sese L st = Ok st' /\
           CostEval.marker st' (_lccID u) i = Some (CONST b) /\
           CostEval.seseLoop st' !! L = None /\
           CostEval.generic_loop_transform st' = CostEval.generic_loop_transform st))
     /\ (10 < inner -> getInductionVariable L <> None ->
         forall r, transformSESE L inner b st = Ok r ->
           sese L st = match fst r with
                       | None => fallbackSESE (snd r)
                       | Some _ => Ok (CostEval.eraseSESELoop L (CostEval.countGenericLoopTransform (snd r)))
                       end)).
Proof.
  intros Hb HC Hlast inner self sese fallbackSelf fallbackSESE.
  unfold INT_MAX in HC.
  assert (Hnum : to_int (hasConstCost (Some (CONST b))) = b).
  { simpl. apply to_int_id. unfold in_int, INT_MIN, INT_MAX. lia. }
  assert (Hne : (b =? 0) = false) by (apply Z.eqb_neq; lia).
  assert (Hq : cdiv (CommitInterval cfg) b = inner) by (apply EvalProofs.cdiv_pos; lia).
  assert (Hinner : 0 <= inner <= CommitInterval cfg).
  { subst inner. split; [apply Z.div_pos; lia|].
    apply Z.div_le_upper_bound; [lia|]. nia. }
  assert (Hti : to_int inner = inner).
  { apply to_int_id. unfold in_int, INT_MIN, INT_MAX. lia. }
  assert (Hle : (b <=? CommitInterval cfg) = true) by (apply Z.leb_le; lia).
  assert (Hge : (0 <=? inner) = true) by (apply Z.leb_le; lia).
  split.
  - intros Hsched Hlcc Hunit.
    assert (Heq :
      self L st =
      (let hasIV := match getInductionVariable L with Some _ => true | None => false end in
       if (inner <=? 10) || negb hasIV then fallbackSelf st
       else r ← transformSelf L inner b st;
            match fst (r : option BlockId * CostEval.EvalState) with
            | None => fallbackSelf (snd r)
            | Some _ => Ok (CostEval.eraseSelfLoop L (CostEval.countSelfLoopTransform (snd r)))
            end)).
    { subst self. unfold CostEval.instrumentSelfLoop.
      rewrite Hsched, Hnum, Hne, Hq, Hti, Hlcc. cbn [mbind result_bind].
      rewrite Hle, Hge. cbn [assert mbind result_bind]. rewrite Hunit.
      cbn [mbind result_bind]. reflexivity. }
    split.
    + intros Hcase.
      assert (Hcond : (inner <=? 10)
                      || negb match getInductionVariable L with Some _ => true | None => false end
                      = true).
      { destruct Hcase as [Hi|Hiv].
        - apply orb_true_iff. left. apply Z.leb_le. exact Hi.
        - rewrite Hiv. apply orb_true_r. }
      rewrite Heq. cbv zeta. rewrite Hcond. split; [reflexivity|].
      intros Hm.
      destruct (EvalProofs.unitInstrumentForIC_fresh u i b st Hlast ltac:(lia) Hm)
        as (st1 & H1 & H2 & H3 & H4 & H5 & H6 & H7).
      exists (CostEval.eraseSelfLoop L st1). subst fallbackSelf. cbv beta. rewrite H1.
      split; [reflexivity|]. split; [exact H2|]. split.
      * simpl. apply lookup_delete_eq.
      * simpl. exact H5.
    + intros Hbig Hiv r Hr. rewrite Heq. cbv zeta.
      replace (inner <=? 10) with false by (symmetry; apply Z.leb_gt; lia).
      destruct (getInductionVariable L); [|contradiction]. simpl.
      rewrite Hr. reflexivity.
  - intros Hsched Hlcc Hunit.
    assert (Heq :
      sese L st =
      (let hasIV := match getInductionVariable L with Some _ => true | None => false end in
       if (inner <=? 10) || negb hasIV then fallbackSESE st
       else r ← transformSESE L inner b st;
            match fst (r : option BlockId * CostEval.EvalState) with
            | None => fallbackSESE (snd r)
            | Some _ => Ok (CostEval.eraseSESELoop L (CostEval.countGenericLoopTransform (snd r)))
            end)).
    { subst sese. unfold CostEval.instrumentSESELoop.
      rewrite Hsched, Hnum, Hne, Hq, Hti, Hlcc. cbn [mbind result_bind].
      rewrite Hle, Hge. cbn [assert mbind result_bind]. rewrite Hunit.
      cbn [mbind result_bind]. reflexivity. }
    split.
    + intros Hcase.
      assert (Hcond : (inner <=? 10)
                      || negb match getInductionVariable L with Some _ => true | None => false end
                      = true).
      { destruct Hcase as [Hi|Hiv].
        - apply orb_true_iff. left. apply Z.leb_le. exact Hi.
        - rewrite Hiv. apply orb_true_r. }
      rewrite Heq. cbv zeta. rewrite Hcond. split; [reflexivity|].
      intros Hm.
      destruct (EvalProofs.unitInstrumentForIC_fresh u i b st Hlast ltac:(lia) Hm)
        as (st1 & H1 & H2 & H3 & H4 & H5 & H6 & H7).
      exists (CostEval.eraseSESELoop L st1). subst fallbackSESE. cbv beta. rewrite H1.
      split; [reflexivity|]. split; [exact H2|]. split.
      * simpl. apply lookup_delete_eq.
      * simpl. exact H6.
    + intros Hbig Hiv r Hr. rewrite Heq. cbv zeta.
      replace (inner <=? 10) with false by (symmetry; apply Z.leb_gt; lia).
      destruct (getInductionVariable L); [|contradiction]. simpl.
      rewrite Hr. reflexivity.
Qed.

(** A loop of body cost 200 under a commit interval of 1000: five inner
    iterations are too few, so the body cost is put in the loop's
    container, for a self loop and for a SESE loop alike. *)
Lemma instrumentLoop_fallback_witness :
  (exists st',
     CostEval.instrumentSelfLoop exampleConfig loopBuilderState (fun _ => 7)
       (fun _ => Some (Argument 0 32%N)) noTransform 1 loopEvalState = Ok st' /\
     CostEval.marker st' 0 3 = Some (CONST 200) /\
     CostEval.selfLoop st' !! 1 = None /\
     CostEval.self_loop_transform st' = 0) /\
  (exists st',
     CostEval.instrumentSESELoop exampleConfig loopBuilderState (fun _ => 7)
       (fun _ => Some (Argument 0 32%N)) noTransform 1 loopEvalState = Ok st' /\
     CostEval.marker st' 0 3 = Some (CONST 200) /\
     CostEval.seseLoop st' !! 1 = None /\
     CostEval.generic_loop_transform st' = 0).
Proof.
  assert (Hb : 0 < 200 <= CommitInterval exampleConfig) by (simpl; lia).
  assert (HC : CommitInterval exampleConfig <= INT_MAX) by (unfold INT_MAX; simpl; lia).
  assert (Hfew : CommitInterval exampleConfig / 200 <= 10 \/
                 (fun _ : Loop => Some (Argument 0 32%N)) 1 = None).
  { left. vm_compute. discriminate. }
  destruct (instrumentLoop_fallback exampleConfig loopBuilderState
              (fun _ => 7) (fun _ => 7) (fun _ => Some (Argument 0 32%N))
              noTransform noTransform 1 loopEvalState 200 loopUnit 3
              Hb HC eq_refl) as [Hself Hsese].
  split.
  - destruct (Hself eq_refl eq_refl eq_refl) as [Hfb _].
    destruct (Hfb Hfew) as [_ Hex]. exact (Hex eq_refl).
  - destruct (Hsese eq_refl eq_refl eq_refl) as [Hfb _].
    destruct (Hfb Hfew) as [_ Hex]. exact (Hex eq_refl).
Defined.

(** ** The branch rule *)

Module BranchProofs.
Import CostEval.

Lemma maxOf_snoc l n : l <> [] -> maxOf (l ++ [n]) = Z.max (maxOf l) n.
Proof.
  destruct l as [|m l]; [contradiction|]. intros _. simpl.
  rewrite fold_left_app. reflexivity.
Qed.

Lemma minOf_snoc l n : l <> [] -> minOf (l ++ [n]) = Z.min (minOf l) n.
Proof.
  destruct l as [|m l]; [contradiction|]. intros _. simpl.
  rewrite fold_left_app. reflexivity.
Qed.

Section BranchLoops.
Context {SE : ScalarEvolution} {double longdouble : Type} {FO : FloatOps double longdouble}.
Variable cfg : Config.
Variable g : Globals.
Variable fuel : nat.

(** What the loop has kept of the constant costs seen so far. *)
Lemma trackCost_snoc (acc : @BranchAcc longdouble) seen n :
  (first acc = true /\ seen = [] /\ maxCost acc = 0 /\ minCost acc = 0) \/
  (first acc = false /\ seen <> [] /\ maxCost acc = maxOf seen /\ minCost acc = minOf seen) ->
  fst (trackCost acc n) = maxOf (seen ++ [n]) /\
  snd (trackCost acc n) = minOf (seen ++ [n]).
Proof.
  unfold trackCost. intros [(Hf & Hs & _ & _)|(Hf & Hs & Hmax & Hmin)]; rewrite Hf.
  - subst seen. split; reflexivity.
  - rewrite maxOf_snoc, minOf_snoc by assumption. simpl. rewrite Hmax, Hmin. split.
    + destruct (Z.ltb_spec (maxOf seen) n); lia.
    + destruct (Z.ltb_spec n (minOf seen)); lia.
Qed.

Lemma weightedSum_snoc (seen : list (double * Z)) p n :
  weightedSum (seen ++ [(p, n)]) = ld_add (weightedSum seen) (weighted p n).
Proof. unfold weightedSum. rewrite fold_left_app. reflexivity. Qed.

Lemma branchLoopPC_spec (branches : list (LCCNode * double)) :
  forall acc st cs st' seen k,
  evalBranchesPC branches st = Ok (cs, st') ->
  ((first acc = true /\ seen = [] /\ maxCost acc = 0 /\ minCost acc = 0) \/
   (first acc = false /\ seen <> [] /\ maxCost acc = maxOf (List.map snd seen)
    /\ minCost acc = minOf (List.map snd seen))) ->
  avgFloatingBranchCost acc = weightedSum seen ->
  numNonDirectEdges acc = Z.of_nat k ->
  Z.of_nat (k + length branches) <= INT_MAX ->
  NoDup (List.map (fun bp => getID (fst bp)) branches) ->
  exists acc',
    branchLoopPC branches acc st = Ok (acc', st') /\
    length cs = length branches /\
    maxCost acc' = maxOf (List.map snd
                     (seen ++ constantBranches (List.map snd branches) cs)) /\
    minCost acc' = minOf (List.map snd
                     (seen ++ constantBranches (List.map snd branches) cs)) /\
    avgFloatingBranchCost acc' =
      weightedSum (seen ++ constantBranches (List.map snd branches) cs) /\
    instrumentBranch acc' =
      instrumentBranch acc || existsb (fun c => hasConstCost c =? -1) cs /\
    numNonDirectEdges acc' = Z.of_nat (k + length branches) /\
    (forall j node c, List.map fst branches !! j = Some node -> cs !! j = Some c ->
       branchToCostMap acc' !! getID node = Some c) /\
    (forall id, ~ In id (List.map (fun bp => getID (fst bp)) branches) ->
       branchToCostMap acc' !! id = branchToCostMap acc !! id).
Proof.
  induction branches as [|[node p] rest IH]; intros acc st cs st' seen k Hev Htr Havg Hn Hk Hnd.
  - simpl in Hev. inversion Hev; subst. exists acc. simpl. rewrite app_nil_r.
    rewrite Nat.add_0_r, orb_false_r.
    split; [reflexivity|]. split; [reflexivity|].
    assert (Hmm : maxCost acc = maxOf (List.map snd seen)
                  /\ minCost acc = minOf (List.map snd seen)).
    { destruct Htr as [(_ & -> & H1 & H2)|(_ & _ & H1 & H2)]; auto. }
    destruct Hmm as [H1 H2].
    repeat split; try assumption.
    + intros j n c Hj. rewrite lookup_nil in Hj. discriminate.
  - simpl in Hev.
    destruct (getCostForPC node false st) as [[c s1]| |] eqn:E1; try discriminate.
    simpl in Hev.
    destruct (evalBranchesPC rest s1) as [[cs' s2]| |] eqn:E2; try discriminate.
    simpl in Hev. inversion Hev; subst cs st'. clear Hev.
    simpl in Hnd. apply NoDup_cons in Hnd. destruct Hnd as [Hnotin Hnd].
    assert (Hti : to_int (numNonDirectEdges acc + 1) = Z.of_nat (S k)).
    { rewrite Hn. rewrite to_int_id; [lia|].
      unfold in_int, INT_MIN, INT_MAX in *. simpl in Hk. lia. }
    cbn [branchLoopPC]. rewrite E1. cbn [mbind result_bind fst snd]. rewrite Hti.
    destruct (hasConstCost c =? -1) eqn:Ec.
    + edestruct (IH (mkBranchAcc true (first acc) (maxCost acc) (minCost acc)
                       (avgFloatingBranchCost acc) (Z.of_nat (S k))
                       (<[getID node := c]> (branchToCostMap acc)))
                    s1 cs' s2 seen (S k) E2)
        as (acc' & H1 & H2 & H3 & H4 & H5 & H6 & H7 & H8 & H9);
        try assumption; try reflexivity.
      { simpl in Hk |- *. lia. }
      exists acc'. cbn [List.map snd constantBranches existsb length]. rewrite Ec.
      split; [exact H1|]. split; [simpl; lia|]. split; [exact H3|]. split; [exact H4|].
      split; [exact H5|]. split; [rewrite H6; simpl; rewrite orb_true_r; reflexivity|].
      split; [rewrite H7; f_equal; lia|]. split.
      * intros [|j] n0 c0 Hj Hc; simpl in Hj, Hc.
        -- inversion Hj; inversion Hc; subst. rewrite H9.
           ++ simpl. apply lookup_insert_eq.
           ++ intros Hin. apply Hnotin. apply list_elem_of_In. exact Hin.
        -- eapply H8; eassumption.
      * intros id Hid. rewrite H9 by (intros Hin; apply Hid; right; exact Hin).
        simpl. apply lookup_insert_ne. intros Heq. apply Hid. left. exact Heq.
    + pose proof (trackCost_snoc acc (List.map snd seen) (hasConstCost c)) as Htc.
      destruct Htc as [Hmx Hmn].
      { destruct Htr as [(Ha & -> & Hb & Hc')|(Ha & Hb & Hc' & Hd)]; [left|right]; auto.
        repeat split; auto. destruct seen; [contradiction|discriminate]. }
      edestruct (IH (mkBranchAcc (instrumentBranch acc) false
                       (fst (trackCost acc (hasConstCost c)))
                       (snd (trackCost acc (hasConstCost c)))
                       (ld_add (avgFloatingBranchCost acc) (weighted p (hasConstCost c)))
                       (Z.of_nat (S k))
                       (<[getID node := c]> (branchToCostMap acc)))
                    s1 cs' s2 (seen ++ [(p, hasConstCost c)]) (S k) E2)
        as (acc' & H1 & H2 & H3 & H4 & H5 & H6 & H7 & H8 & H9);
        try assumption; try reflexivity.
      { right. simpl. rewrite List.map_app. simpl. repeat split; auto.
        intros H. apply app_eq_nil in H. destruct H as [_ H]. discriminate. }
      { simpl. rewrite weightedSum_snoc, Havg. reflexivity. }
      { simpl in Hk |- *. lia. }
      exists acc'. cbn [List.map snd constantBranches existsb length]. rewrite Ec.
      rewrite <- app_assoc in H3, H4, H5. simpl in H3, H4, H5.
      split; [exact H1|]. split; [simpl; lia|]. split; [exact H3|]. split; [exact H4|].
      split; [exact H5|]. split; [rewrite H6; reflexivity|].
      split; [rewrite H7; f_equal; lia|]. split.
      * intros [|j] n0 c0 Hj Hc; simpl in Hj, Hc.
        -- inversion Hj; inversion Hc; subst. rewrite H9.
           ++ simpl. apply lookup_insert_eq.
           ++ intros Hin. apply Hnotin. apply list_elem_of_In. exact Hin.
        -- eapply H8; eassumption.
      * intros id Hid. rewrite H9 by (intros Hin; apply Hid; right; exact Hin).
        simpl. apply lookup_insert_ne. intros Heq. apply Hid. left. exact Heq.
Qed.

Lemma branchLoopIC_spec (branches : list (LCCNode * double)) :
  forall entry acc st cs ns st' seen k,
  evalBranchesIC branches entry st = Ok (cs, st') ->
  Forall2 (fun c n => c = Some (CONST n) /\ 0 <= n) cs ns ->
  ((first acc = true /\ seen = [] /\ maxCost acc = 0 /\ minCost acc = 0) \/
   (first acc = false /\ seen <> [] /\ maxCost acc = maxOf (List.map snd seen)
    /\ minCost acc = minOf (List.map snd seen))) ->
  avgFloatingBranchCost acc = weightedSum seen ->
  numNonDirectEdges acc = Z.of_nat k ->
  Z.of_nat (k + length branches) <= INT_MAX ->
  NoDup (List.map (fun bp => getID (fst bp)) branches) ->
  exists acc',
    branchLoopIC branches entry acc st = Ok (acc', st') /\
    length cs = length branches /\
    maxCost acc' = maxOf (List.map snd (seen ++ zip (List.map snd branches) ns)) /\
    minCost acc' = minOf (List.map snd (seen ++ zip (List.map snd branches) ns)) /\
    avgFloatingBranchCost acc' = weightedSum (seen ++ zip (List.map snd branches) ns) /\
    numNonDirectEdges acc' = Z.of_nat (k + length branches) /\
    (forall j node c, List.map fst branches !! j = Some node -> cs !! j = Some c ->
       branchToCostMap acc' !! getID node = Some c) /\
    (forall id, ~ In id (List.map (fun bp => getID (fst bp)) branches) ->
       branchToCostMap acc' !! id = branchToCostMap acc !! id).
Proof.
  induction branches as [|[node p] rest IH];
    intros entry acc st cs ns st' seen k Hev Hcs Htr Havg Hn Hk Hnd.
  - simpl in Hev. inversion Hev; subst. inversion Hcs; subst.
    exists acc. simpl. rewrite app_nil_r, Nat.add_0_r.
    split; [reflexivity|]. split; [reflexivity|].
    assert (Hmm : maxCost acc = maxOf (List.map snd seen)
                  /\ minCost acc = minOf (List.map snd seen)).
    { destruct Htr as [(_ & -> & H1 & H2)|(_ & _ & H1 & H2)]; auto. }
    destruct Hmm as [H1 H2].
    repeat split; try assumption.
    intros j n c Hj. rewrite lookup_nil in Hj. discriminate.
  - simpl in Hev.
    destruct (getCostForIC node false entry st) as [[c s1]| |] eqn:E1; try discriminate.
    simpl in Hev.
    destruct (evalBranchesIC rest entry s1) as [[cs' s2]| |] eqn:E2; try discriminate.
    simpl in Hev. inversion Hev; subst cs st'. clear Hev.
    inversion Hcs as [|? n ? ns' [Hc Hn0] Hcs']; subst.
    simpl in Hnd. apply NoDup_cons in Hnd. destruct Hnd as [Hnotin Hnd].
    assert (Hti : to_int (numNonDirectEdges acc + 1) = Z.of_nat (S k)).
    { rewrite Hn. rewrite to_int_id; [lia|].
      unfold in_int, INT_MIN, INT_MAX in *. simpl in Hk. lia. }
    assert (Hgc : getConstCost (Some (CONST n)) = Ok n).
    { unfold getConstCost.
      replace (0 <=? n) with true by (symmetry; apply Z.leb_le; exact Hn0). reflexivity. }
    cbn [branchLoopIC]. rewrite E1. cbn [mbind result_bind fst snd].
    rewrite Hgc. cbn [mbind result_bind]. rewrite Hti.
    pose proof (trackCost_snoc acc (List.map snd seen) n) as Htc.
    destruct Htc as [Hmx Hmn].
    { destruct Htr as [(Ha & -> & Hb & Hc')|(Ha & Hb & Hc' & Hd)]; [left|right]; auto.
      repeat split; auto. destruct seen; [contradiction|discriminate]. }
    edestruct (IH entry (mkBranchAcc (instrumentBranch acc) false
                     (fst (trackCost acc n)) (snd (trackCost acc n))
                     (ld_add (avgFloatingBranchCost acc) (weighted p n))
                     (Z.of_nat (S k))
                     (<[getID node := Some (CONST n)]> (branchToCostMap acc)))
                  s1 cs' ns' s2 (seen ++ [(p, n)]) (S k) E2 Hcs')
      as (acc' & H1 & H2 & H3 & H4 & H5 & H7 & H8 & H9);
      try assumption; try reflexivity.
    { right. simpl. rewrite List.map_app. simpl. repeat split; auto.
      intros H. apply app_eq_nil in H. destruct H as [_ H]. discriminate. }
    { simpl. rewrite weightedSum_snoc, Havg. reflexivity. }
    { simpl in Hk |- *. lia. }
    exists acc'. cbn [List.map snd zip zip_with length].
    rewrite <- app_assoc in H3, H4, H5. simpl in H3, H4, H5.
    split; [exact H1|]. split; [simpl; lia|]. split; [exact H3|]. split; [exact H4|].
    split; [exact H5|]. split; [rewrite H7; f_equal; lia|]. split.
    + intros [|j] n0 c0 Hj Hc; simpl in Hj, Hc.
      * inversion Hj; inversion Hc; subst. rewrite H9.
        -- simpl. apply lookup_insert_eq.
        -- intros Hin. apply Hnotin. apply list_elem_of_In. exact Hin.
      * eapply H8; eassumption.
    + intros id Hid. rewrite H9 by (intros Hin; apply Hid; right; exact Hin).
      simpl. apply lookup_insert_ne. intros Heq. apply Hid. left. exact Heq.
Qed.

Lemma instrumentBranchesPC_each (branches : list (LCCNode * double)) :
  forall cs m st, length cs = length branches ->
  (forall j node c, List.map fst branches !! j = Some node -> cs !! j = Some c ->
     m !! getID node = Some c) ->
  instrumentBranchesPC branches m st
  = instrumentEachPC (zip (List.map fst branches) cs) st.
Proof.
  induction branches as [|[node p] rest IH]; intros cs m st Hlen Hm.
  - reflexivity.
  - destruct cs as [|c cs]; [discriminate|]. simpl.
    rewrite (Hm 0%nat node c eq_refl eq_refl).
    destruct (instrumentForPC node c st) as [s1| |]; try reflexivity. simpl.
    apply IH; [simpl in Hlen; lia|].
    intros j n c0 Hj Hc. apply (Hm (S j)); assumption.
Qed.

Lemma instrumentBranchesIC_each (branches : list (LCCNode * double)) :
  forall cs m st, length cs = length branches ->
  (forall j node c, List.map fst branches !! j = Some node -> cs !! j = Some c ->
     m !! getID node = Some c) ->
  instrumentBranchesIC branches m st
  = instrumentEachIC (zip (List.map fst branches) cs) st.
Proof.
  induction branches as [|[node p] rest IH]; intros cs m st Hlen Hm.
  - reflexivity.
  - destruct cs as [|c cs]; [discriminate|]. simpl.
    rewrite (Hm 0%nat node c eq_refl eq_refl).
    destruct (instrumentForIC node c st) as [s1| |]; try reflexivity. simpl.
    apply IH; [simpl in Hlen; lia|].
    intros j n c0 Hj Hc. apply (Hm (S j)); assumption.
Qed.

(** The scheduled direct branches through the evaluation of children that
    leave them alone. *)
Lemma evalBranchesPC_keeps (branches : list (LCCNode * double)) :
  Forall keepsDirectBranch (List.map fst branches) ->
  forall st cs st', evalBranchesPC branches st = Ok (cs, st') ->
  directBranch st' = directBranch st.
Proof.
  induction branches as [|[node p] rest IH]; intros Hk st cs st' H; simpl in H.
  - inversion H. reflexivity.
  - inversion Hk as [|? ? Hnode Hrest]; subst.
    destruct (getCostForPC node false st) as [[c s1]| |] eqn:E1; try discriminate.
    simpl in H.
    destruct (evalBranchesPC rest s1) as [[cs' s2]| |] eqn:E2; try discriminate.
    simpl in H. inversion H; subst.
    rewrite (IH Hrest _ _ _ E2). eapply keeps_getCostForPC; eassumption.
Qed.

Lemma evalBranchesIC_keeps (branches : list (LCCNode * double)) entry :
  Forall keepsDirectBranch (List.map fst branches) ->
  forall st cs st', evalBranchesIC branches entry st = Ok (cs, st') ->
  directBranch st' = directBranch st.
Proof.
  induction branches as [|[node p] rest IH]; intros Hk st cs st' H; simpl in H.
  - inversion H. reflexivity.
  - inversion Hk as [|? ? Hnode Hrest]; subst.
    destruct (getCostForIC node false entry st) as [[c s1]| |] eqn:E1; try discriminate.
    simpl in H.
    destruct (evalBranchesIC rest entry s1) as [[cs' s2]| |] eqn:E2; try discriminate.
    simpl in H. inversion H; subst.
    rewrite (IH Hrest _ _ _ E2). eapply keeps_getCostForIC; eassumption.
Qed.

Lemma instrumentEachPC_keeps (l : list (LCCNode * costptr)) :
  Forall keepsDirectBranch (List.map fst l) ->
  forall st st', instrumentEachPC l st = Ok st' -> directBranch st' = directBranch st.
Proof.
  induction l as [|[node c] rest IH]; intros Hk st st' H; simpl in H.
  - inversion H. reflexivity.
  - inversion Hk as [|? ? Hnode Hrest]; subst.
    destruct (instrumentForPC node c st) as [s1| |] eqn:E1; try discriminate.
    simpl in H. rewrite (IH Hrest _ _ H). eapply keeps_instrumentForPC; eassumption.
Qed.

Lemma instrumentEachIC_keeps (l : list (LCCNode * costptr)) :
  Forall keepsDirectBranch (List.map fst l) ->
  forall st st', instrumentEachIC l st = Ok st' -> directBranch st' = directBranch st.
Proof.
  induction l as [|[node c] rest IH]; intros Hk st st' H; simpl in H.
  - inversion H. reflexivity.
  - inversion Hk as [|? ? Hnode Hrest]; subst.
    destruct (instrumentForIC node c st) as [s1| |] eqn:E1; try discriminate.
    simpl in H. rewrite (IH Hrest _ _ H). eapply keeps_instrumentForIC; eassumption.
Qed.

Lemma Forall_keeps_zip (nodes : list LCCNode) (cs : list costptr) :
  Forall keepsDirectBranch nodes -> Forall keepsDirectBranch (List.map fst (zip nodes cs)).
Proof.
  intros H. revert cs. induction H as [|n nodes Hn _ IH]; intros cs; [constructor|].
  destruct cs as [|c cs]; simpl; [constructor|]. constructor; [exact Hn|apply IH].
Qed.

Lemma branchSumPC_keeps (b : @BranchLCC double) t costs st c st' :
  keepsDirectBranch (_entryLCC b) ->
  branchSumPC g fuel b t costs st = Ok (c, st') ->
  directBranch st' = directBranch st.
Proof.
  intros Hk H. unfold branchSumPC in H.
  destruct (simplifyCost _ _ _ _ _) as [sc| |]; try discriminate. simpl in H.
  destruct (assert _ _) as [[]| |]; try discriminate. simpl in H.
  destruct t.
  - unfold branchInstrumentForPC in H.
    destruct (instrumentForPC (_entryLCC b) sc st) as [s1| |] eqn:E; try discriminate.
    simpl in H. inversion H; subst. eapply keeps_instrumentForPC; eassumption.
  - inversion H. reflexivity.
Qed.

Lemma branchExitIC_keeps (b : @BranchLCC double) t avg st c st' :
  keepsDirectBranch (_exitLCC b) ->
  branchExitIC cfg b t avg st = Ok (c, st') ->
  directBranch st' = directBranch st.
Proof.
  intros Hk H. unfold branchExitIC in H.
  destruct (getCostForIC (_exitLCC b) false _ st) as [[x s1]| |] eqn:E; try discriminate.
  simpl in H. destruct (getConstCost x) as [rem| |]; try discriminate. simpl in H.
  pose proof (keeps_getCostForIC _ Hk _ _ _ _ _ E) as H1.
  destruct (t || (CommitInterval cfg <? rem)).
  - unfold branchInstrumentForIC in H.
    destruct (instrumentForIC (_exitLCC b) x s1) as [s2| |] eqn:E2; try discriminate.
    simpl in H. inversion H; subst. rewrite <- H1.
    eapply keeps_instrumentForIC; eassumption.
  - inversion H; subst. exact H1.
Qed.

Arguments simplifyCost : simpl never.
Arguments setInstrInfo : simpl never.
Arguments unitInstrumentForIC : simpl never.
Arguments unitInstrumentForPC : simpl never.

(** Unit containers leave the scheduled direct branches alone. *)
Lemma setInstrInfo_keeps u inst c st st' :
  setInstrInfo u inst c st = Ok st' -> directBranch st' = directBranch st.
Proof.
  unfold setInstrInfo. destruct c as [c|]; [|discriminate].
  destruct inst as [i|]; [|discriminate].
  destruct (match default ∅ (_instrInfo st !! _lccID u) !! i with
            | Some prevCost => _ | None => _ end) as [[]| |]; try discriminate.
  simpl. intros H. inversion H. reflexivity.
Qed.

Lemma unitInstrumentForIC_keeps u c st st' :
  unitInstrumentForIC u c st = Ok st' -> directBranch st' = directBranch st.
Proof.
  unfold unitInstrumentForIC. destruct (assert _ _) as [[]| |]; try discriminate. simpl.
  destruct (negb _).
  - apply setInstrInfo_keeps.
  - intros H. inversion H. reflexivity.
Qed.

Lemma unitLoopIC_keeps u t l : forall total st n st',
  unitLoopIC cfg g u t l total st = Ok (n, st') -> directBranch st' = directBranch st.
Proof.
  induction l as [|[idx inst] rest IH]; intros total st n st' H; simpl in H; [discriminate|].
  destruct (getInstCostForIC cfg g inst) as [ic| |]; try discriminate. simpl in H.
  destruct (getConstCost (Some ic)) as [num| |]; try discriminate. simpl in H.
  destruct (bool_decide (Some idx = _lastInst u)).
  - destruct (t || _).
    + destruct (unitInstrumentForIC u _ st) as [s1| |] eqn:E; try discriminate.
      simpl in H. inversion H; subst. eapply unitInstrumentForIC_keeps; eassumption.
    + inversion H. reflexivity.
  - destruct (CommitInterval cfg <? _).
    + destruct (setInstrInfo u (Some idx) _ st) as [s1| |] eqn:E; try discriminate.
      simpl in H. rewrite (IH _ _ _ _ H). eapply setInstrInfo_keeps; eassumption.
    + eapply IH; eassumption.
Qed.

Lemma unitNode_keeps F u : keepsDirectBranch (unitNode cfg g fuel F u).
Proof.
  constructor; simpl.
  - intros t st c st' H. unfold unitGetCostForPC in H.
    destruct (unitInsts F u) as [l| |]; try discriminate. simpl in H.
    destruct (unitCostsPC cfg g fuel F l) as [costs| |]; try discriminate. simpl in H.
    destruct (simplifyCost _ _ _ _ _) as [sc| |]; try discriminate. simpl in H.
    destruct (assert _ _) as [[]| |]; try discriminate. simpl in H.
    destruct t.
    + destruct (unitInstrumentForPC u sc st) as [s1| |] eqn:E; try discriminate.
      simpl in H. inversion H; subst. eapply setInstrInfo_keeps; exact E.
    + inversion H. reflexivity.
  - intros t i st c st' H. unfold unitGetCostForIC in H.
    destruct (getConstCost i) as [n0| |]; try discriminate. simpl in H.
    destruct (assert _ _) as [[]| |]; try discriminate. simpl in H.
    destruct (match _initialCost st !! _lccID u with Some _ => _ | None => _ end)
      as [[n1 s1]| |] eqn:E1; try discriminate.
    simpl in H.
    assert (Hs1 : directBranch s1 = directBranch st).
    { destruct (_initialCost st !! _lccID u).
      - destruct (getConstCost (Some i0)) as [sc| |]; try discriminate. simpl in E1.
        destruct (assert _ _) as [[]| |]; try discriminate. simpl in E1.
        inversion E1. reflexivity.
      - destruct i; inversion E1; reflexivity. }
    destruct (unitInsts F u) as [l| |]; try discriminate. simpl in H.
    destruct (unitLoopIC cfg g u t l n1 s1) as [[n2 s2]| |] eqn:E2; try discriminate.
    simpl in H. inversion H; subst. rewrite <- Hs1. eapply unitLoopIC_keeps; exact E2.
  - intros c st st' H. eapply setInstrInfo_keeps; exact H.
  - intros c st st' H. eapply unitInstrumentForIC_keeps; exact H.
Qed.

End BranchLoops.

End BranchProofs.

(** Claim C1 (amended).  A branch container evaluates its entry, its exit
    (predictive) and its branches, and decides on the branch costs.

    Predictive: when a branch has no constant cost, or the largest constant
    branch cost minus the smallest (minus 0 when there is a direct edge)
    exceeds 100, each branch is marked with its own cost and the entry and
    exit costs alone are summed; otherwise no branch is marked and the
    probability-weighted average of the branch costs is added to the sum.
    The direct edge is never scheduled.

    Instantaneous: the branch costs are constants; the entry cost counts as
    the cost of the direct edge.  When the spread exceeds 100 each branch
    is marked with its own cost (a unit container puts no marker for a cost
    of 0), the direct edge is scheduled, unless its dominator block already
    is, with the entry cost plus 1, and the exit is evaluated from 0;
    otherwise no branch is marked and the exit is evaluated from the
    weighted average, the direct edge included. *)
Theorem branch_rule2_decision {SE : ScalarEvolution} {double longdouble : Type}
    {FO : CostEval.FloatOps double longdouble}
    (cfg : Config) (g : Globals) (fuel : nat)
    (b : @CostEval.BranchLCC double) (toInstrument : bool) (s0 : CostEval.EvalState) :
  let branches := CostEval._branchLCCInfo b in
  let nodes := List.map fst branches in
  let keeps :=
    CostEval.keepsDirectBranch (CostEval._entryLCC b) /\
    CostEval.keepsDirectBranch (CostEval._exitLCC b) /\
    Forall CostEval.keepsDirectBranch nodes in
  NoDup (List.map (fun bp => CostEval.getID (fst bp)) branches) ->
  Z.of_nat (length branches) <= INT_MAX ->
  (forall ce s1 cx s2 cs s3,
     CostEval.getCostForPC (CostEval._entryLCC b) false s0 = Ok (ce, s1) ->
     CostEval.getCostForPC (CostEval._exitLCC b) false s1 = Ok (cx, s2) ->
     CostEval.evalBranchesPC branches s2 = Ok (cs, s3) ->
     CostEval.branchGetCostForPC g fuel b toInstrument s0 =
       (if CostEval.mustInstrumentPC b cs then
          st' ← CostEval.instrumentEachPC (zip nodes cs) s3;
          CostEval.branchSumPC g fuel b toInstrument
            (CostEval.pushCost ce ++ CostEval.pushCost cx) st'
        else
          CostEval.branchSumPC g fuel b toInstrument
            ((CostEval.pushCost ce ++ CostEval.pushCost cx)
               ++ [Some (CONST (CostEval.averagePC b cs))])
            (CostEval.countRule2 s3 (Z.of_nat (length branches))))
     /\ (keeps -> forall c s',
           CostEval.branchGetCostForPC g fuel b toInstrument s0 = Ok (c, s') ->
           CostEval.directBranch s' = CostEval.directBranch s0))
  /\
  (forall i0 e s1 cs ns s2,
     0 <= i0 <= CommitInterval cfg ->
     CostEval.getCostForIC (CostEval._entryLCC b) false (Some (CONST i0)) s0
       = Ok (Some (CONST e), s1) ->
     0 <= e ->
     CostEval.evalBranchesIC branches (Some (CONST e)) s1 = Ok (cs, s2) ->
     Forall2 (fun c n => c = Some (CONST n) /\ 0 <= n) cs ns ->
     CostEval.branchGetCostForIC cfg b toInstrument (Some (CONST i0)) s0 =
       (if CostEval.mustInstrumentIC b e ns then
          st' ← CostEval.instrumentEachIC (zip nodes cs) s2;
          CostEval.branchExitIC cfg b toInstrument 0
            (CostEval.scheduleDirectBranch b e st')
        else
          CostEval.branchExitIC cfg b toInstrument (CostEval.averageIC b e ns)
            (CostEval.countRule2 s2 (Z.of_nat (length branches))))
     /\ (keeps -> forall c s',
           CostEval.branchGetCostForIC cfg b toInstrument (Some (CONST i0)) s0 = Ok (c, s') ->
           CostEval.directBranch s' =
             if CostEval.mustInstrumentIC b e ns && CostEval._hasDirectEdge b then
               match CostEval.directBranch s0 !! CostEval._domBlock b with
               | None => <[CostEval._domBlock b := CONST (to_long (e + 1))]>
                           (CostEval.directBranch s0)
               | Some _ => CostEval.directBranch s0
               end
             else CostEval.directBranch s0))
  /\
  (forall u st, CostEval.unitInstrumentForIC u (Some (CONST 0)) st = Ok st).
Proof.
  intros branches nodes keeps Hnd Hlen. split; [|split].
  - intros ce s1 cx s2 cs s3 He Hx Hbr.
    destruct (BranchProofs.branchLoopPC_spec branches CostEval.initialBranchAcc
                s2 cs s3 [] 0%nat Hbr)
      as (acc & Hloop & Hlcs & Hmax & Hmin & Havg & Hinstr & Hcount & Hmap & _);
      try assumption; try reflexivity.
    { left. repeat split; reflexivity. }
    simpl in Hmax, Hmin, Havg, Hinstr, Hcount.
    assert (Heq :
      CostEval.branchGetCostForPC g fuel b toInstrument s0 =
        (if CostEval.mustInstrumentPC b cs then
           st' ← CostEval.instrumentEachPC (zip nodes cs) s3;
           CostEval.branchSumPC g fuel b toInstrument
             (CostEval.pushCost ce ++ CostEval.pushCost cx) st'
         else
           CostEval.branchSumPC g fuel b toInstrument
             ((CostEval.pushCost ce ++ CostEval.pushCost cx)
                ++ [Some (CONST (CostEval.averagePC b cs))])
             (CostEval.countRule2 s3 (Z.of_nat (length branches))))).
    { unfold CostEval.branchGetCostForPC. rewrite He. cbn [mbind result_bind fst snd].
      rewrite Hx. cbn [mbind result_bind fst snd]. fold branches. rewrite Hloop.
      cbn [mbind result_bind fst snd].
      unfold CostEval.mustInstrumentPC, CostEval.averagePC. fold branches.
      rewrite Hinstr, Hmax, Hmin, Havg, Hcount.
      destruct (existsb _ cs || _).
      - rewrite (BranchProofs.instrumentBranchesPC_each branches cs) by assumption.
        fold nodes. destruct (CostEval.instrumentEachPC (zip nodes cs) s3); reflexivity.
      - reflexivity. }
    split; [exact Heq|].
    intros (Hke & Hkx & Hkb) c s' Hres. rewrite Heq in Hres.
    pose proof (CostEval.keeps_getCostForPC _ Hke _ _ _ _ He) as D1.
    pose proof (CostEval.keeps_getCostForPC _ Hkx _ _ _ _ Hx) as D2.
    pose proof (BranchProofs.evalBranchesPC_keeps branches Hkb _ _ _ Hbr) as D3.
    destruct (CostEval.mustInstrumentPC b cs).
    + destruct (CostEval.instrumentEachPC (zip nodes cs) s3) as [s4| |] eqn:E4;
        try discriminate.
      simpl in Hres.
      pose proof (BranchProofs.instrumentEachPC_keeps _
                    (BranchProofs.Forall_keeps_zip nodes cs Hkb) _ _ E4) as D4.
      rewrite (BranchProofs.branchSumPC_keeps g fuel b _ _ _ _ _ Hke Hres).
      congruence.
    + rewrite (BranchProofs.branchSumPC_keeps g fuel b _ _ _ _ _ Hke Hres).
      simpl. congruence.
  - intros i0 e s1 cs ns s2 Hi0 He He0 Hbr Hcs.
    destruct (BranchProofs.branchLoopIC_spec branches (Some (CONST e))
                CostEval.initialBranchAcc s1 cs ns s2 [] 0%nat Hbr Hcs)
      as (acc & Hloop & Hlcs & Hmax & Hmin & Havg & Hcount & Hmap & _);
      try assumption; try reflexivity.
    { left. repeat split; reflexivity. }
    simpl in Hmax, Hmin, Havg, Hcount.
    assert (Hlns : length ns = length branches).
    { rewrite <- Hlcs. symmetry. eapply Forall2_length. exact Hcs. }
    assert (Hsnd : List.map snd (zip (List.map snd branches) ns) = ns).
    { apply snd_zip. rewrite length_map. lia. }
    rewrite Hsnd in Hmax, Hmin.
    assert (Hgi : getConstCost (Some (CONST i0)) = Ok i0).
    { unfold getConstCost.
      replace (0 <=? i0) with true by (symmetry; apply Z.leb_le; lia). reflexivity. }
    assert (Hge : getConstCost (Some (CONST e)) = Ok e).
    { unfold getConstCost.
      replace (0 <=? e) with true by (symmetry; apply Z.leb_le; lia). reflexivity. }
    assert (Heq :
      CostEval.branchGetCostForIC cfg b toInstrument (Some (CONST i0)) s0 =
        (if CostEval.mustInstrumentIC b e ns then
           st' ← CostEval.instrumentEachIC (zip nodes cs) s2;
           CostEval.branchExitIC cfg b toInstrument 0
             (CostEval.scheduleDirectBranch b e st')
         else
           CostEval.branchExitIC cfg b toInstrument (CostEval.averageIC b e ns)
             (CostEval.countRule2 s2 (Z.of_nat (length branches))))).
    { unfold CostEval.branchGetCostForIC. rewrite Hgi. cbn [mbind result_bind].
      replace (i0 <=? CommitInterval cfg) with true by (symmetry; apply Z.leb_le; lia).
      cbn [assert mbind result_bind]. rewrite He. cbn [mbind result_bind fst snd].
      fold branches. rewrite Hloop. cbn [mbind result_bind fst snd].
      rewrite Hge. cbn [mbind result_bind].
      unfold CostEval.mustInstrumentIC, CostEval.averageIC. fold branches.
      rewrite Hmax, Hmin, Havg, Hcount.
      set (mx := CostEval.maxOf ns). set (mn := CostEval.minOf ns).
      assert (Hspread :
        to_long ((if CostEval._hasDirectEdge b && (mx <? e) then e else mx)
                 - (if CostEval._hasDirectEdge b && (e <? mn) then e else mn))
        = (if CostEval._hasDirectEdge b
           then to_long (Z.max mx e - Z.min mn e)
           else to_long (mx - mn))).
      { destruct (CostEval._hasDirectEdge b); simpl; [|reflexivity]. f_equal.
        destruct (Z.ltb_spec mx e), (Z.ltb_spec e mn); lia. }
      rewrite Hspread.
      assert (Hav :
        (if CostEval._hasDirectEdge b
         then CostEval.ld_add
                (CostEval.weightedSum (zip (List.map snd branches) ns))
                (CostEval.weighted (CostEval._directBranchProb b) e)
         else CostEval.weightedSum (zip (List.map snd branches) ns))
        = CostEval.weightedSum
            (if CostEval._hasDirectEdge b
             then zip (List.map snd branches) ns ++ [(CostEval._directBranchProb b, e)]
             else zip (List.map snd branches) ns)).
      { destruct (CostEval._hasDirectEdge b); [|reflexivity].
        rewrite BranchProofs.weightedSum_snoc. reflexivity. }
      rewrite Hav.
      destruct (ALLOWED_DEVIATION <? _).
      - rewrite (BranchProofs.instrumentBranchesIC_each branches cs) by assumption.
        fold nodes. reflexivity.
      - reflexivity. }
    split; [exact Heq|].
    intros (Hke & Hkx & Hkb) c s' Hres. rewrite Heq in Hres.
    pose proof (CostEval.keeps_getCostForIC _ Hke _ _ _ _ _ He) as D1.
    pose proof (BranchProofs.evalBranchesIC_keeps branches _ Hkb _ _ _ Hbr) as D2.
    destruct (CostEval.mustInstrumentIC b e ns).
    + destruct (CostEval.instrumentEachIC (zip nodes cs) s2) as [s3| |] eqn:E3;
        try discriminate.
      simpl in Hres.
      pose proof (BranchProofs.instrumentEachIC_keeps _
                    (BranchProofs.Forall_keeps_zip nodes cs Hkb) _ _ E3) as D3.
      rewrite (BranchProofs.branchExitIC_keeps cfg b _ _ _ _ _ Hkx Hres).
      unfold CostEval.scheduleDirectBranch.
      assert (D : CostEval.directBranch s3 = CostEval.directBranch s0) by congruence.
      destruct (CostEval._hasDirectEdge b); simpl; [|exact D].
      rewrite D. destruct (CostEval.directBranch s0 !! CostEval._domBlock b); simpl;
        rewrite ?D; reflexivity.
    + rewrite (BranchProofs.branchExitIC_keeps cfg b _ _ _ _ _ Hkx Hres).
      simpl. congruence.
  - intros u st. reflexivity.
Qed.

(** The if-then under the instantaneous clock: the branch costs 504 from an
    entry cost of 2, the spread exceeds 100, and the direct edge out of
    block 0 is scheduled with cost 3. *)
Lemma branch_rule2_decision_witness :
  exists c s',
    CostEval.branchGetCostForIC (FO := ratioOps) exampleConfig ifThenBranch false
      (Some (CONST 0)) CostEval.initialEvalState = Ok (c, s') /\
    CostEval.directBranch s' = <[0 := CONST 3]> ∅.
Proof.
  assert (Hnd : NoDup (List.map (fun bp : CostEval.LCCNode * Ratio => CostEval.getID (fst bp))
                         (CostEval._branchLCCInfo ifThenBranch))).
  { simpl. apply NoDup_cons. split; [apply not_elem_of_nil | apply NoDup_nil_2]. }
  assert (Hlen : Z.of_nat (length (CostEval._branchLCCInfo ifThenBranch)) <= INT_MAX).
  { unfold INT_MAX. simpl. lia. }
  destruct (branch_rule2_decision (SE := FoldingSE) (FO := ratioOps)
              exampleConfig workGlobals 3 ifThenBranch false CostEval.initialEvalState
              Hnd Hlen) as (_ & HIC & _).
  set (s1 := stateOf (CostEval.getCostForIC (CostEval._entryLCC ifThenBranch) false
                        (Some (CONST 0)) CostEval.initialEvalState)).
  set (s2 := stateOf (CostEval.evalBranchesIC (CostEval._branchLCCInfo ifThenBranch)
                        (Some (CONST 2)) s1)).
  destruct (HIC 0 2 s1 [Some (CONST 504)] [504] s2) as [_ Hdir].
  - simpl. lia.
  - vm_compute. reflexivity.
  - lia.
  - vm_compute. reflexivity.
  - constructor; [split; [reflexivity|lia]|constructor].
  - set (r := CostEval.branchGetCostForIC (FO := ratioOps) exampleConfig ifThenBranch false
                (Some (CONST 0)) CostEval.initialEvalState).
    assert (Hr : r = Ok (Some (CONST 2), stateOf r)) by (vm_compute; reflexivity).
    exists (Some (CONST 2)), (stateOf r). split; [exact Hr|].
    assert (Hkeeps :
      CostEval.keepsDirectBranch (CostEval._entryLCC ifThenBranch) /\
      CostEval.keepsDirectBranch (CostEval._exitLCC ifThenBranch) /\
      Forall CostEval.keepsDirectBranch
        (List.map fst (CostEval._branchLCCInfo ifThenBranch))).
    { split; [apply BranchProofs.unitNode_keeps|].
      split; [apply BranchProofs.unitNode_keeps|].
      constructor; [apply BranchProofs.unitNode_keeps|constructor]. }
    rewrite (Hdir Hkeeps _ _ Hr).
    vm_compute. reflexivity.
Defined.

(** The same if-then under the predictive clock: the branch is marked with
    its cost 502 because of the direct edge, and no direct branch is
    scheduled. *)
Lemma branch_direct_edge_PC_counterexample :
  exists c s',
    CostEval.branchGetCostForPC (SE := FoldingSE) (FO := ratioOps) workGlobals 3
      ifThenBranch false CostEval.initialEvalState = Ok (c, s') /\
    CostEval._hasDirectEdge ifThenBranch = true /\
    CostEval.mustInstrumentPC ifThenBranch [Some (CONST 502)] = true /\
    CostEval.marker s' 1 1 = Some (CONST 502) /\
    CostEval.directBranch s' = ∅.
Proof.
  exists (Some (CONST 4)),
         (stateOf (CostEval.branchGetCostForPC (SE := FoldingSE) (FO := ratioOps)
                     workGlobals 3 ifThenBranch false CostEval.initialEvalState)).
  split; [vm_compute; reflexivity|]. split; [reflexivity|].
  split; [vm_compute; reflexivity|]. split; vm_compute; reflexivity.
Qed.

(** ** Probes *)

Module ProbeProofs.
Import Probe.

Arguments unsigned : simpl never.
Arguments cycleThreshold : simpl never.
Arguments cdiv : simpl never.

Lemma unsigned_idem bits v : unsigned bits (unsigned bits v) = unsigned bits v.
Proof.
  unfold unsigned. destruct (Z.eq_dec (2 ^ bits) 0) as [E|E].
  - rewrite E, !Z.mod_0_r_ext by reflexivity. reflexivity.
  - apply Z.mod_mod. exact E.
Qed.

Lemma unsigned_one : unsigned 32 1 = 1.
Proof. reflexivity. Qed.

Ltac caller_operand o :=
  let r := fresh "r" in
  destruct o as [? ?|r]; [|destruct r]; try discriminate.

Arguments checkIfInstGranCycleBasedCounter : simpl never.
Arguments checkIfInstGranIsIntermediate : simpl never.
Arguments getCostOfInstrumentation : simpl never.

Ltac runProbe :=
  cbv [run exec setReg valueOf store sameReg sameVar compare observe mem regs cycles calls
       counterVar flagVar app probeSpec probeOnCost probeOnCostAndCycles probeOnCycles
       commitStep targetOf readCycles option_map fst snd].

Ltac settle :=
  runProbe; rewrite ?unsigned_idem, ?unsigned_one;
  repeat match goal with
         | |- context [if ?c <? ?d then 1 else 0] => destruct (c <? d)
         | |- context [if ?c <=? ?d then 1 else 0] => destruct (c <=? d)
         end;
  reflexivity.

Section Soundness.
Variable cfg : Config.
Variable F : string.
Variable handler : Z -> Z -> Memory -> Memory.
Hypothesis threadLocal : gIsOnlyThreadLocal cfg = Ok true.

(** The emitted probe does what [probeSpec] says. *)
Lemma instrumentGlobal_run instrType val disFlag ops m :
  instrumentGlobal cfg F instrType val disFlag = Ok ops ->
  match val with Some v => fromCaller v = true | None => True end ->
  match disFlag with Some d => fromCaller d = true | None => True end ->
  exists overhead,
    getCostOfInstrumentation cfg = Ok overhead /\
    observe (run handler ops m)
    = probeSpec cfg handler instrType overhead
        (match val with Some v => valueOf m v | None => 0 end)
        (option_map (valueOf m) disFlag) (observe m).
Proof.
  intros Hops Hval Hdis.
  unfold instrumentGlobal, incrementTLLC, incrementTLLCWithCycles, testNpushMLCfromTLLC,
    pushToMLCfromTLLCifTSCExceeded, pushToMLCfromTLLC in Hops.
  rewrite threadLocal in Hops.
  destruct (getCostOfInstrumentation cfg) as [overhead| |] eqn:Hcost.
  - exists overhead. split; [reflexivity|].
    destruct m as [mm rg cyc cs].
    destruct instrType.
    + destruct val as [v|]; [|discriminate].
      cbn in Hops. destruct disFlag as [d|]; cbn in Hops; inversion Hops; subst ops; clear Hops.
      * caller_operand v; caller_operand d; settle.
      * caller_operand v; settle.
    + destruct val as [v|]; [|discriminate].
      cbn in Hops.
      destruct (checkIfInstGranIsIntermediate cfg); [|discriminate]. cbn in Hops.
      destruct (TargetIntervalInCycles cfg =? 0); [discriminate|]. cbn in Hops.
      destruct disFlag as [d|]; cbn in Hops; inversion Hops; subst ops; clear Hops.
      * destruct cyc as [|t cyc]; caller_operand v; caller_operand d; settle.
      * destruct cyc as [|t cyc]; caller_operand v; settle.
    + destruct val as [v|]; [discriminate|].
      cbn in Hops. destruct disFlag as [d|]; cbn in Hops; inversion Hops; subst ops; clear Hops.
      * destruct cyc as [|t cyc]; caller_operand d; settle.
      * destruct cyc as [|t cyc]; settle.
  - exfalso. destruct instrType, val as [v|], disFlag as [d|]; cbn in Hops;
      try discriminate;
      destruct (checkIfInstGranIsIntermediate cfg); cbn in Hops; try discriminate;
      destruct (TargetIntervalInCycles cfg =? 0); cbn in Hops; discriminate.
  - exfalso. destruct instrType, val as [v|], disFlag as [d|]; cbn in Hops;
      try discriminate;
      destruct (checkIfInstGranIsIntermediate cfg); cbn in Hops; try discriminate;
      destruct (TargetIntervalInCycles cfg =? 0); cbn in Hops; discriminate.
Qed.

End Soundness.

Lemma outlivesCommit_regs r :
  outlivesCommit (Value r) = true ->
  sameReg r disFlagVal = false /\ sameReg r lc_reg = false /\ sameReg r ci_handler = false
  /\ sameReg r loadDisFlag2 = false /\ sameReg r disFlagVal2 = false.
Proof. destruct r; simpl; intros H; try discriminate; repeat split. Qed.

Ltac commit_operand o H :=
  let r := fresh "r" in
  destruct o as [? ?|r];
  [| destruct (outlivesCommit_regs r H) as (? & ? & ? & ? & ?)].

Lemma exec_IfThen handler c body m :
  exec handler (IfThen c body) m = if valueOf m c =? 0 then m else run handler body m.
Proof. reflexivity. Qed.

(* The guard emitted by instrumentIfLCEnabled: the probe runs only while the
   disable count read from lc_disabled_count is zero. *)
Lemma instrumentIfLCEnabled_run (cfg : Config) (F : string)
    (handler : Z -> Z -> Memory -> Memory)
    (instrType : eInstrumentType) (val : option Operand) (ops : list Inst) (m : Machine) :
  gIsOnlyThreadLocal cfg = Ok true ->
  instrumentIfLCEnabled cfg F instrType val = Ok ops ->
  match val with Some v => costOperand v = true | None => True end ->
  exists overhead,
    getCostOfInstrumentation cfg = Ok overhead /\
    observe (run handler ops m)
    = guardedProbeSpec cfg handler instrType overhead
        (match val with Some v => valueOf m v | None => 0 end) (observe m).
Proof.
  intros Htl Hops Hval. unfold instrumentIfLCEnabled in Hops. rewrite Htl in Hops.
  cbn [mbind result_bind] in Hops.
  destruct (instrumentGlobal cfg F instrType val (Some (Value loadDisFlag)))
    as [body| |] eqn:Ebody; try discriminate.
  cbn in Hops. inversion Hops; subst ops; clear Hops.
  set (m1 := setReg (setReg m loadDisFlag (mem m lc_disabled_count)) clock_running
               (if unsigned 32 (mem m lc_disabled_count) =? 0 then 1 else 0)).
  assert (Hv1 : match val with Some v => fromCaller v = true | None => True end).
  { destruct val as [v|]; [|exact I]. destruct v as [? ?|r]; [reflexivity|].
    destruct r; try discriminate; reflexivity. }
  destruct (instrumentGlobal_run cfg F handler Htl instrType val (Some (Value loadDisFlag))
              body m1 Ebody Hv1 eq_refl) as (overhead & Hcost & Hrun).
  exists overhead. split; [exact Hcost|].
  unfold guardedProbeSpec. cbn [observe fst].
  change (run handler
            [Load loadDisFlag lc_disabled_count;
             ICmp clock_running ICMP_EQ 32 (Value loadDisFlag) (ConstantInt 32 0);
             IfThen (Value clock_running) body] m)
    with (exec handler (IfThen (Value clock_running) body) m1).
  rewrite exec_IfThen.
  change (valueOf m1 (Value clock_running))
    with (if unsigned 32 (mem m lc_disabled_count) =? 0 then 1 else 0).
  destruct (unsigned 32 (mem m lc_disabled_count) =? 0) eqn:E0.
  - change (1 =? 0) with false. cbv iota.
    change (mem (run handler body m1), cycles (run handler body m1),
            calls (run handler body m1)) with (observe (run handler body m1)).
    rewrite Hrun.
    assert (Hc : match val with Some v => valueOf m1 v | None => 0 end
                 = match val with Some v => valueOf m v | None => 0 end).
    { destruct val as [v|]; [|reflexivity]. destruct v as [? ?|r]; [reflexivity|].
      destruct r; try discriminate; reflexivity. }
    rewrite Hc. reflexivity.
  - reflexivity.
Qed.

End ProbeProofs.

Section ProbeProperties.
Import Probe ProbeProofs.
#[local] Arguments unsigned : simpl never.
#[local] Arguments cycleThreshold : simpl never.
#[local] Arguments cdiv : simpl never.
#[local] Arguments checkIfInstGranCycleBasedCounter : simpl never.
#[local] Arguments checkIfInstGranIsIntermediate : simpl never.
#[local] Arguments getCostOfInstrumentation : simpl never.

(** X1 (pushToMLCfromTLLC).  Under a thread-local granularity the commit sequence,
    run on any machine, stores the disable count plus one, resets LocalLC to the
    instrumentation overhead, stores the time stamp in LastCycleTS when one is
    passed, calls the handler read from intvActionHook exactly once with the
    loaded counter, and finally stores the count the handler left minus one.
    The cycle counter is not read. *)
Theorem pushToMLCfromTLLC_commit (cfg : Config) (F : string)
    (handler : Z -> Z -> Memory -> Memory)
    (loadedLC d : Operand) (stamp : option Operand) (ops : list Inst) (m : Machine) :
  gIsOnlyThreadLocal cfg = Ok true ->
  pushToMLCfromTLLC cfg F (Some loadedLC) (Some d) stamp = Ok ops ->
  outlivesCommit loadedLC = true -> outlivesCommit d = true ->
  match stamp with Some t => outlivesCommit t = true | None => True end ->
  exists overhead,
    getCostOfInstrumentation cfg = Ok overhead /\
    let raised := store (mem m) lc_disabled_count (unsigned 32 (valueOf m d + 1)) in
    let reset := store raised LocalLC (unsigned 64 overhead) in
    let pre := match stamp with
               | Some t => store reset LastCycleTS (valueOf m t)
               | None => reset
               end in
    let post := handler (mem m intvActionHook) (valueOf m loadedLC) pre in
    mem (run handler ops m)
      = store post lc_disabled_count (unsigned 32 (post lc_disabled_count - 1)) /\
    calls (run handler ops m) = calls m ++ [(mem m intvActionHook, valueOf m loadedLC)] /\
    cycles (run handler ops m) = cycles m.
Proof.
  intros Htl Hops Hlc Hd Hst. unfold pushToMLCfromTLLC in Hops. rewrite Htl in Hops.
  cbn [mbind result_bind] in Hops.
  destruct (getCostOfInstrumentation cfg) as [overhead| |]; try discriminate.
  cbn in Hops. inversion Hops; subst ops; clear Hops.
  exists overhead. split; [reflexivity|].
  destruct m as [mm rg cyc cs].
  destruct stamp as [t|].
  - commit_operand loadedLC Hlc; commit_operand d Hd; commit_operand t Hst;
      cbv [run exec setReg valueOf store sameVar mem regs cycles calls app];
      cbn [sameReg];
      repeat match goal with H : sameReg _ _ = false |- _ => rewrite H end;
      rewrite ?unsigned_one; repeat split.
  - commit_operand loadedLC Hlc; commit_operand d Hd;
      cbv [run exec setReg valueOf store sameVar mem regs cycles calls app];
      cbn [sameReg];
      repeat match goal with H : sameReg _ _ = false |- _ => rewrite H end;
      rewrite ?unsigned_one; repeat split.
Qed.

Lemma pushToMLCfromTLLC_commit_witness :
  exists ops,
    pushToMLCfromTLLC exampleConfig "f" (Some (ConstantInt 64 5001))
      (Some (ConstantInt 32 0)) None = Ok ops /\
    calls (run idleHandler ops probeMachine) = [(77, 5001)] /\
    mem (run idleHandler ops probeMachine) LocalLC = 9 /\
    mem (run idleHandler ops probeMachine) lc_disabled_count = 0.
Proof.
  eexists. split; [reflexivity|].
  destruct (pushToMLCfromTLLC_commit exampleConfig "f" idleHandler (ConstantInt 64 5001)
              (ConstantInt 32 0) None _ probeMachine eq_refl eq_refl eq_refl eq_refl I)
    as (overhead & Hcost & Hmem & Hcalls & _).
  vm_compute in Hcost. injection Hcost as <-.
  split; [exact Hcalls|]. rewrite Hmem. split; reflexivity.
Defined.

(** X2 (instrumentGlobal, ALL_IR).  The cost probe adds the cost to LocalLC
    (modulo 2^64).  At or below the target interval it only stores the sum and
    calls nothing; strictly above (unsigned comparison) it calls the handler once
    with the sum, after LocalLC has been reset to the instrumentation overhead. *)
Theorem probe_commits_past_target (cfg : Config) (F : string)
    (handler : Z -> Z -> Memory -> Memory)
    (v : Operand) (disFlag : option Operand) (ops : list Inst) (m : Machine) :
  gIsOnlyThreadLocal cfg = Ok true ->
  instrumentGlobal cfg F ALL_IR (Some v) disFlag = Ok ops ->
  fromCaller v = true ->
  match disFlag with Some d => fromCaller d = true | None => True end ->
  let clock := unsigned 64 (valueOf m v + mem m LocalLC) in
  (clock <= targetOf cfg ->
     mem (run handler ops m) = store (mem m) LocalLC clock /\
     calls (run handler ops m) = calls m) /\
  (targetOf cfg < clock ->
     calls (run handler ops m) = calls m ++ [(mem m intvActionHook, clock)] /\
     exists overhead pre,
       getCostOfInstrumentation cfg = Ok overhead /\
       pre LocalLC = unsigned 64 overhead /\
       forall p, sameVar p lc_disabled_count = false ->
         mem (run handler ops m) p = handler (mem m intvActionHook) clock pre p).
Proof.
  intros Htl Hops Hv Hd clock.
  destruct (instrumentGlobal_run cfg F handler Htl ALL_IR (Some v) disFlag ops m Hops Hv Hd)
    as (overhead & Hcost & Hrun).
  remember (run handler ops m) as r eqn:Er. clear Er.
  unfold probeSpec, probeOnCost, observe in Hrun.
  fold clock in Hrun. split.
  - intros Hle. replace (targetOf cfg <? clock) with false in Hrun
      by (symmetry; apply Z.ltb_ge; exact Hle).
    injection Hrun as Hm Hc Hcs. split; assumption.
  - intros Hlt. replace (targetOf cfg <? clock) with true in Hrun
      by (symmetry; apply Z.ltb_lt; exact Hlt).
    unfold commitStep in Hrun. injection Hrun as Hm Hc Hcs.
    split.
    + rewrite Hcs. destruct disFlag; reflexivity.
    + exists overhead.
      exists (store (match option_map (valueOf m) disFlag with
                     | Some d => store (store (mem m) LocalLC clock) lc_disabled_count
                                   (unsigned 32 (d + 1))
                     | None => store (mem m) LocalLC clock
                     end) LocalLC (unsigned 64 overhead)).
      split; [exact Hcost|]. split; [reflexivity|].
      intros p Hp. rewrite Hm. destruct disFlag as [d|]; cbn [option_map].
      * unfold store at 1. rewrite Hp. reflexivity.
      * reflexivity.
Qed.

Lemma probe_commits_past_target_witness :
  exists ops,
    instrumentGlobal exampleConfig "f" ALL_IR (Some (ConstantInt 64 20)) None = Ok ops /\
    calls (run idleHandler ops probeMachine) = [(77, 5010)].
Proof.
  eexists. split; [reflexivity|].
  destruct (probe_commits_past_target exampleConfig "f" idleHandler (ConstantInt 64 20)
              None _ probeMachine eq_refl eq_refl eq_refl I) as [_ Hpast].
  destruct Hpast as [Hcalls _]; [vm_compute; reflexivity|exact Hcalls].
Defined.

(** X3 (instrumentGlobal, PUSH_ON_CYCLES).  The intermediate probe reads the cycle
    counter only once the local counter is past the target.  If fewer than
    (int)(0.9 * TargetIntervalInCycles) cycles have elapsed since LastCycleTS, no
    handler is called and LocalLC is reset to TargetInterval / 2 plus the overhead;
    otherwise the handler is called once, with LastCycleTS set to the cycle count
    just read. *)
Theorem probe_cycle_gate (cfg : Config) (F : string)
    (handler : Z -> Z -> Memory -> Memory)
    (v : Operand) (disFlag : option Operand) (ops : list Inst) (m : Machine) :
  gIsOnlyThreadLocal cfg = Ok true ->
  instrumentGlobal cfg F PUSH_ON_CYCLES (Some v) disFlag = Ok ops ->
  fromCaller v = true ->
  match disFlag with Some d => fromCaller d = true | None => True end ->
  let clock := unsigned 64 (valueOf m v + mem m LocalLC) in
  let t := fst (readCycles (cycles m)) in
  let elapsed := unsigned 64 (t - mem m LastCycleTS) in
  exists overhead,
    getCostOfInstrumentation cfg = Ok overhead /\
    (clock <= targetOf cfg ->
       mem (run handler ops m) = store (mem m) LocalLC clock /\
       calls (run handler ops m) = calls m /\
       cycles (run handler ops m) = cycles m) /\
    (targetOf cfg < clock -> elapsed < unsigned 64 (cycleThreshold cfg) ->
       mem (run handler ops m)
         = store (store (mem m) LocalLC clock) LocalLC
             (unsigned 64 (to_int (cdiv (TargetInterval cfg) 2 + overhead))) /\
       calls (run handler ops m) = calls m /\
       cycles (run handler ops m) = snd (readCycles (cycles m))) /\
    (targetOf cfg < clock -> unsigned 64 (cycleThreshold cfg) <= elapsed ->
       calls (run handler ops m) = calls m ++ [(mem m intvActionHook, clock)] /\
       cycles (run handler ops m) = snd (readCycles (cycles m)) /\
       exists pre,
         pre LocalLC = unsigned 64 overhead /\ pre LastCycleTS = t /\
         forall p, sameVar p lc_disabled_count = false ->
           mem (run handler ops m) p = handler (mem m intvActionHook) clock pre p).
Proof.
  intros Htl Hops Hv Hd clock t elapsed.
  destruct (instrumentGlobal_run cfg F handler Htl PUSH_ON_CYCLES (Some v) disFlag ops m
              Hops Hv Hd) as (overhead & Hcost & Hrun).
  exists overhead. split; [exact Hcost|].
  remember (run handler ops m) as r eqn:Er. clear Er.
  unfold probeSpec, probeOnCostAndCycles, observe in Hrun.
  fold clock in Hrun.
  destruct (readCycles (cycles m)) as [t' rest] eqn:Ecyc.
  cbn [fst snd] in *. subst t.
  change (store (mem m) LocalLC clock LastCycleTS) with (mem m LastCycleTS) in Hrun.
  fold elapsed in Hrun.
  split; [|split].
  - intros Hle. replace (targetOf cfg <? clock) with false in Hrun
      by (symmetry; apply Z.ltb_ge; exact Hle).
    injection Hrun as Hm Hc Hcs. repeat split; assumption.
  - intros Hlt Hel. replace (targetOf cfg <? clock) with true in Hrun
      by (symmetry; apply Z.ltb_lt; exact Hlt).
    replace (unsigned 64 (cycleThreshold cfg) <=? elapsed) with false in Hrun
      by (symmetry; apply Z.leb_gt; exact Hel).
    injection Hrun as Hm Hc Hcs. repeat split; assumption.
  - intros Hlt Hel. replace (targetOf cfg <? clock) with true in Hrun
      by (symmetry; apply Z.ltb_lt; exact Hlt).
    replace (unsigned 64 (cycleThreshold cfg) <=? elapsed) with true in Hrun
      by (symmetry; apply Z.leb_le; exact Hel).
    unfold commitStep in Hrun. injection Hrun as Hm Hc Hcs.
    split; [rewrite Hcs; destruct disFlag; reflexivity|]. split; [exact Hc|].
    exists (store (store (match option_map (valueOf m) disFlag with
                          | Some d => store (store (mem m) LocalLC clock) lc_disabled_count
                                        (unsigned 32 (d + 1))
                          | None => store (mem m) LocalLC clock
                          end) LocalLC (unsigned 64 overhead)) LastCycleTS t').
    split; [reflexivity|]. split; [reflexivity|].
    intros p Hp. rewrite Hm. destruct disFlag as [d|]; cbn [option_map].
    * unfold store at 1. rewrite Hp. reflexivity.
    * reflexivity.
Qed.

Lemma probe_cycle_gate_witness :
  exists ops,
    instrumentGlobal intermediateConfig "f" PUSH_ON_CYCLES (Some (ConstantInt 64 20)) None
      = Ok ops /\
    calls (run idleHandler ops clockedMachine) = [(77, 5010)] /\
    cycles (run idleHandler ops clockedMachine) = [].
Proof.
  eexists. split; [reflexivity|].
  destruct (probe_cycle_gate intermediateConfig "f" idleHandler (ConstantInt 64 20)
              None _ clockedMachine eq_refl eq_refl eq_refl I)
    as (overhead & _ & _ & _ & Hfire).
  destruct Hfire as (Hcalls & Hcyc & _).
  - vm_compute; reflexivity.
  - vm_compute; discriminate.
  - split; [exact Hcalls|exact Hcyc].
Defined.

(** X4 (instrumentIfLCEnabled).  While lc_disabled_count is non-zero (as a 32-bit
    value) the guarded probe changes no global, reads no cycle counter and calls
    no handler, for every instrumentation type. *)
Theorem guarded_probe_skips_when_disabled (cfg : Config) (F : string)
    (handler : Z -> Z -> Memory -> Memory)
    (instrType : eInstrumentType) (val : option Operand) (ops : list Inst) (m : Machine) :
  gIsOnlyThreadLocal cfg = Ok true ->
  instrumentIfLCEnabled cfg F instrType val = Ok ops ->
  match val with Some v => costOperand v = true | None => True end ->
  unsigned 32 (mem m lc_disabled_count) <> 0 ->
  mem (run handler ops m) = mem m /\
  cycles (run handler ops m) = cycles m /\
  calls (run handler ops m) = calls m.
Proof.
  intros Htl Hops Hval Hdis.
  destruct (instrumentIfLCEnabled_run cfg F handler instrType val ops m Htl Hops Hval)
    as (overhead & _ & Hrun).
  unfold guardedProbeSpec in Hrun. cbn [observe fst] in Hrun.
  replace (unsigned 32 (mem m lc_disabled_count) =? 0) with false in Hrun
    by (symmetry; apply Z.eqb_neq; exact Hdis).
  injection Hrun as H1 H2 H3. auto.
Qed.

Lemma guarded_probe_skips_when_disabled_witness :
  exists ops,
    instrumentIfLCEnabled exampleConfig "f" ALL_IR (Some (ConstantInt 64 20)) = Ok ops /\
    mem (run idleHandler ops disabledMachine) = mem disabledMachine /\
    calls (run idleHandler ops disabledMachine) = [].
Proof.
  eexists. split; [reflexivity|].
  destruct (guarded_probe_skips_when_disabled exampleConfig "f" idleHandler ALL_IR
              (Some (ConstantInt 64 20)) _ disabledMachine eq_refl eq_refl eq_refl)
    as (Hmem & _ & Hcalls).
  - vm_compute; discriminate.
  - split; [exact Hmem|exact Hcalls].
Defined.

(** X5 (instrumentIfLCEnabled).  If the handler leaves lc_disabled_count as it
    found it, a guarded probe entered with the count at zero leaves it at zero:
    the increment before the handler call and the decrement after it cancel, and
    the paths that do not call the handler never write the count. *)
Theorem guarded_probe_rearms (cfg : Config) (F : string)
    (handler : Z -> Z -> Memory -> Memory)
    (instrType : eInstrumentType) (val : option Operand) (ops : list Inst) (m : Machine) :
  gIsOnlyThreadLocal cfg = Ok true ->
  instrumentIfLCEnabled cfg F instrType val = Ok ops ->
  match val with Some v => costOperand v = true | None => True end ->
  balanced handler ->
  mem m lc_disabled_count = 0 ->
  mem (run handler ops m) lc_disabled_count = 0.
Proof.
  intros Htl Hops Hval Hbal H0.
  destruct (instrumentIfLCEnabled_run cfg F handler instrType val ops m Htl Hops Hval)
    as (overhead & _ & Hrun).
  remember (run handler ops m) as r eqn:Er. clear Er.
  unfold guardedProbeSpec in Hrun. cbn [observe fst] in Hrun. rewrite H0 in Hrun.
  change (unsigned 32 0 =? 0) with true in Hrun. cbv iota in Hrun.
  assert (Hcommit : forall stamp clock o,
            fst (fst o) lc_disabled_count = 0 ->
            fst (fst (commitStep handler overhead (Some 0) stamp clock o))
              lc_disabled_count = 0).
  { intros stamp clock [[mm cyc] cs] Hz. unfold commitStep. cbn [fst].
    unfold store at 1. cbn [sameVar]. rewrite Hbal.
    destruct stamp; reflexivity. }
  assert (Hgoal : fst (fst (observe r)) lc_disabled_count = 0); [|exact Hgoal].
  rewrite Hrun. unfold probeSpec.
  destruct instrType.
  - unfold probeOnCost. cbn [observe].
    destruct (_ <? _); [apply Hcommit|]; cbn [fst]; exact H0.
  - unfold probeOnCostAndCycles. cbn [observe].
    destruct (_ <? _); [|cbn [fst]; exact H0].
    destruct (readCycles (cycles m)) as [t rest].
    destruct (_ <=? _); [apply Hcommit|]; cbn [fst]; exact H0.
  - unfold probeOnCycles. cbn [observe].
    destruct (readCycles (cycles m)) as [t rest].
    destruct (_ <? _); [apply Hcommit|]; cbn [fst]; exact H0.
Qed.

Lemma guarded_probe_rearms_witness :
  exists ops,
    instrumentIfLCEnabled exampleConfig "f" ALL_IR (Some (ConstantInt 64 20)) = Ok ops /\
    mem (run idleHandler ops probeMachine) lc_disabled_count = 0.
Proof.
  eexists. split; [reflexivity|].
  apply (guarded_probe_rearms exampleConfig "f" idleHandler ALL_IR
           (Some (ConstantInt 64 20)) _ probeMachine eq_refl eq_refl eq_refl).
  - intros f arg m. reflexivity.
  - reflexivity.
Defined.

(** X6 (instrumentCI, OPTIMIZE_HEURISTIC_FIBER).  The fiber granularity emits the
    probe without the lc_disabled_count guard: whatever the disable count, the
    cost is added to LocalLC and, past the target, the handler is called; the
    count itself is never written by the probe. *)
Theorem fiber_probe_unguarded (cfg : Config) (F : string)
    (handler : Z -> Z -> Memory -> Memory)
    (v : Operand) (ops : list Inst) (m : Machine) :
  InstGranularity cfg = OPTIMIZE_HEURISTIC_FIBER ->
  instrumentCI cfg F (Some v) = Ok ops ->
  costOperand v = true ->
  let clock := unsigned 64 (valueOf m v + mem m LocalLC) in
  (clock <= targetOf cfg ->
     mem (run handler ops m) = store (mem m) LocalLC clock /\
     calls (run handler ops m) = calls m) /\
  (targetOf cfg < clock ->
     calls (run handler ops m) = calls m ++ [(mem m intvActionHook, clock)] /\
     mem (run handler ops m)
       = handler (mem m intvActionHook) clock
           (store (store (mem m) LocalLC clock) LocalLC (unsigned 64 9))).
Proof.
  intros Hgran Hops Hv clock.
  assert (Htl : gIsOnlyThreadLocal cfg = Ok true).
  { unfold gIsOnlyThreadLocal. rewrite Hgran. reflexivity. }
  assert (Hcost : getCostOfInstrumentation cfg = Ok 9).
  { unfold getCostOfInstrumentation, checkIfInstGranIsDet. rewrite Hgran. reflexivity. }
  assert (Hops' : instrumentGlobal cfg F ALL_IR (Some v) None = Ok ops).
  { unfold instrumentCI in Hops. rewrite Hgran in Hops. exact Hops. }
  assert (Hv' : fromCaller v = true).
  { destruct v as [? ?|r]; [reflexivity|]. destruct r; try discriminate; reflexivity. }
  destruct (instrumentGlobal_run cfg F handler Htl ALL_IR (Some v) None ops m Hops' Hv' I)
    as (overhead & Hcost' & Hrun).
  rewrite Hcost in Hcost'. injection Hcost' as <-.
  remember (run handler ops m) as r eqn:Er. clear Er.
  unfold probeSpec, probeOnCost, observe in Hrun. fold clock in Hrun.
  split.
  - intros Hle. replace (targetOf cfg <? clock) with false in Hrun
      by (symmetry; apply Z.ltb_ge; exact Hle).
    injection Hrun as Hm Hc Hcs. split; assumption.
  - intros Hlt. replace (targetOf cfg <? clock) with true in Hrun
      by (symmetry; apply Z.ltb_lt; exact Hlt).
    unfold commitStep in Hrun. cbn [option_map] in Hrun.
    injection Hrun as Hm Hc Hcs. split; assumption.
Qed.

Lemma fiber_probe_unguarded_witness :
  exists ops,
    instrumentCI fiberConfig "f" (Some (ConstantInt 64 20)) = Ok ops /\
    calls (run idleHandler ops disabledMachine) = [(77, 5010)].
Proof.
  eexists. split; [reflexivity|].
  destruct (fiber_probe_unguarded fiberConfig "f" idleHandler (ConstantInt 64 20) _
              disabledMachine eq_refl eq_refl eq_refl) as [_ Hpast].
  destruct Hpast as [Hcalls _]; [vm_compute; reflexivity|exact Hcalls].
Defined.

End ProbeProperties.

(** ** The probes: commit and guard *)

Section ProbeClaims.
Import Probe ProbeProofs.
#[local] Arguments unsigned : simpl never.
#[local] Arguments cycleThreshold : simpl never.
#[local] Arguments cdiv : simpl never.
#[local] Arguments checkIfInstGranCycleBasedCounter : simpl never.
#[local] Arguments checkIfInstGranIsIntermediate : simpl never.
#[local] Arguments getCostOfInstrumentation : simpl never.

(** Claim C4 (amended).  A probe emitted by instrumentGlobal under a
    thread-local granularity, of whatever type and with or without the
    disable flag, commits exactly when the clock value it has just stored is
    strictly above the target interval (unsigned; TargetIntervalInCycles for
    the cycle-counting granularities) and, for the type PUSH_ON_CYCLES, at
    least (int)(0.9 * TargetIntervalInCycles) cycles have gone by since
    LastCycleTS.  On commit LocalLC is reset to the overhead of the probe, and
    the handler found in intvActionHook at the call is called once with the
    clock value.  Without commit no handler is called; the clock stays as
    stored, except that a PUSH_ON_CYCLES probe past the target sets it to half
    the target interval plus the overhead.  In the commit block the load of
    intvActionHook comes right before the call. *)
Theorem probe_commit_rule (cfg : Config) (F : string)
    (handler : Z -> Z -> Memory -> Memory)
    (instrType : eInstrumentType) (val disFlag : option Operand)
    (ops : list Inst) (m : Machine) :
  gIsOnlyThreadLocal cfg = Ok true ->
  instrumentGlobal cfg F instrType val disFlag = Ok ops ->
  match val with Some v => fromCaller v = true | None => True end ->
  match disFlag with Some d => fromCaller d = true | None => True end ->
  let cost := match val with Some v => valueOf m v | None => 0 end in
  let t := fst (readCycles (cycles m)) in
  let elapsed := unsigned 64 (t - mem m LastCycleTS) in
  let clock := match instrType with
               | INCR_ON_CYCLES => unsigned 64 (elapsed + mem m LocalLC)
               | _ => unsigned 64 (cost + mem m LocalLC)
               end in
  let fires := match instrType with
               | PUSH_ON_CYCLES =>
                   targetOf cfg < clock /\ unsigned 64 (cycleThreshold cfg) <= elapsed
               | _ => targetOf cfg < clock
               end in
  exists overhead,
    getCostOfInstrumentation cfg = Ok overhead /\
    (fires ->
       exists pre,
         calls (run handler ops m) = calls m ++ [(pre intvActionHook, clock)] /\
         pre intvActionHook = mem m intvActionHook /\
         pre LocalLC = unsigned 64 overhead /\
         forall p, sameVar p lc_disabled_count = false ->
           mem (run handler ops m) p = handler (pre intvActionHook) clock pre p) /\
    (~ fires ->
       calls (run handler ops m) = calls m /\
       mem (run handler ops m) LocalLC
         = match instrType with
           | PUSH_ON_CYCLES =>
               if targetOf cfg <? clock
               then unsigned 64 (to_int (cdiv (TargetInterval cfg) 2 + overhead))
               else clock
           | _ => clock
           end) /\
    (forall loadedLC flag stamp block,
       pushToMLCfromTLLC cfg F loadedLC flag stamp = Ok block ->
       exists before lc after,
         block = before ++ [Load ci_handler intvActionHook; Call (Value ci_handler) [lc]]
                   ++ after).
Proof.
  intros Htl Hops Hv Hd cost t elapsed clock fires.
  destruct (instrumentGlobal_run cfg F handler Htl instrType val disFlag ops m Hops Hv Hd)
    as (overhead & Hcost & Hrun).
  exists overhead. split; [exact Hcost|].
  assert (Hblock : forall loadedLC flag stamp block,
            pushToMLCfromTLLC cfg F loadedLC flag stamp = Ok block ->
            exists before lc after,
              block = before ++ [Load ci_handler intvActionHook; Call (Value ci_handler) [lc]]
                        ++ after).
  { intros loadedLC flag stamp block Hb. unfold pushToMLCfromTLLC in Hb.
    rewrite Htl, Hcost in Hb. cbn [mbind result_bind] in Hb.
    destruct flag as [d|]; cbn [mbind result_bind] in Hb; injection Hb as <-;
      destruct stamp, loadedLC; cbn [fst snd app];
      match goal with
      | |- exists _ _ _, ?l = _ =>
          first [ eexists (firstn 1 l), _, _; reflexivity
                | eexists (firstn 2 l), _, _; reflexivity
                | eexists (firstn 3 l), _, _; reflexivity
                | eexists (firstn 4 l), _, _; reflexivity
                | eexists (firstn 5 l), _, _; reflexivity ]
      end. }
  assert (Hcommit : forall stamp cl mm cyc cs,
            mm intvActionHook = mem m intvActionHook ->
            cs = calls m ->
            observe (run handler ops m)
              = commitStep handler overhead (option_map (valueOf m) disFlag) stamp cl
                  (mm, cyc, cs) ->
            exists pre,
              calls (run handler ops m) = calls m ++ [(pre intvActionHook, cl)] /\
              pre intvActionHook = mem m intvActionHook /\
              pre LocalLC = unsigned 64 overhead /\
              forall p, sameVar p lc_disabled_count = false ->
                mem (run handler ops m) p = handler (pre intvActionHook) cl pre p).
  { intros stamp cl mm cyc cs Hhook Hcs Hobs. subst cs.
    unfold commitStep, observe in Hobs. injection Hobs as Hm Hc Hcalls.
    exists (match stamp with
            | Some ts =>
                store (store (match option_map (valueOf m) disFlag with
                              | Some d => store mm lc_disabled_count (unsigned 32 (d + 1))
                              | None => mm
                              end) LocalLC (unsigned 64 overhead)) LastCycleTS ts
            | None =>
                store (match option_map (valueOf m) disFlag with
                       | Some d => store mm lc_disabled_count (unsigned 32 (d + 1))
                       | None => mm
                       end) LocalLC (unsigned 64 overhead)
            end).
    split; [exact Hcalls|].
    split; [destruct stamp, disFlag; cbn [option_map]; exact Hhook|].
    split; [destruct stamp; reflexivity|].
    intros p Hp. rewrite Hm. destruct disFlag as [d|]; cbn [option_map].
    - unfold store at 1. rewrite Hp. reflexivity.
    - reflexivity. }
  subst fires clock elapsed t cost.
  unfold probeSpec in Hrun.
  split; [|split; [|exact Hblock]].
  - (* commit *)
    intros Hfires.
    destruct instrType; cbv beta iota zeta in Hfires.
    + unfold probeOnCost in Hrun. cbn [observe] in Hrun.
      apply Z.ltb_lt in Hfires. rewrite Hfires in Hrun.
      refine (Hcommit None _ _ _ _ _ _ Hrun); reflexivity.
    + unfold probeOnCostAndCycles in Hrun. cbn [observe] in Hrun.
      destruct Hfires as [Hclock Hel].
      apply Z.ltb_lt in Hclock. rewrite Hclock in Hrun.
      destruct (readCycles (cycles m)) as [t' rest]. cbn [fst] in *.
      change (store (mem m) LocalLC ?c LastCycleTS) with (mem m LastCycleTS) in Hrun.
      apply Z.leb_le in Hel. rewrite Hel in Hrun.
      refine (Hcommit (Some t') _ _ _ _ _ _ Hrun); reflexivity.
    + unfold probeOnCycles in Hrun. cbn [observe] in Hrun.
      destruct (readCycles (cycles m)) as [t' rest]. cbn [fst] in *.
      apply Z.ltb_lt in Hfires. rewrite Hfires in Hrun.
      refine (Hcommit None _ _ _ _ _ _ Hrun); reflexivity.
  - (* no commit *)
    intros Hno.
    destruct instrType; cbv beta iota zeta in Hno.
    + unfold probeOnCost in Hrun. cbn [observe] in Hrun.
      apply Z.ltb_nlt in Hno. rewrite Hno in Hrun.
      injection Hrun as Hm Hc Hcs. split; [exact Hcs|]. rewrite Hm. reflexivity.
    + unfold probeOnCostAndCycles in Hrun. cbn [observe] in Hrun.
      destruct (targetOf cfg <? _) eqn:Eclock.
      * destruct (readCycles (cycles m)) as [t' rest]. cbn [fst] in *.
        change (store (mem m) LocalLC ?c LastCycleTS) with (mem m LastCycleTS) in Hrun.
        assert (Hel : (unsigned 64 (cycleThreshold cfg)
                       <=? unsigned 64 (t' - mem m LastCycleTS)) = false).
        { apply Z.leb_gt. apply Z.ltb_lt in Eclock. lia. }
        rewrite Hel in Hrun.
        injection Hrun as Hm Hc Hcs. split; [exact Hcs|]. rewrite Hm. reflexivity.
      * injection Hrun as Hm Hc Hcs. split; [exact Hcs|]. rewrite Hm. reflexivity.
    + unfold probeOnCycles in Hrun. cbn [observe] in Hrun.
      destruct (readCycles (cycles m)) as [t' rest]. cbn [fst] in *.
      apply Z.ltb_nlt in Hno. rewrite Hno in Hrun.
      injection Hrun as Hm Hc Hcs. split; [exact Hcs|]. rewrite Hm. reflexivity.
Qed.

(** The probe of cost 20 on a clock at 4990 with target 5000: the handler
    77 is called with 5010 and the clock is reset to the overhead 9. *)
Lemma probe_commit_rule_witness :
  exists ops,
    instrumentGlobal exampleConfig "f" ALL_IR (Some (ConstantInt 64 20)) None = Ok ops /\
    calls (run idleHandler ops probeMachine) = [(77, 5010)] /\
    mem (run idleHandler ops probeMachine) LocalLC = 9.
Proof.
  eexists. split; [reflexivity|].
  destruct (probe_commit_rule exampleConfig "f" idleHandler ALL_IR (Some (ConstantInt 64 20))
              None _ probeMachine eq_refl eq_refl eq_refl I)
    as (overhead & Hcost & Hfire & _ & _).
  destruct Hfire as (pre & Hcalls & Hhook & Hlc & Hmem); [vm_compute; reflexivity|].
  vm_compute in Hcost. injection Hcost as <-.
  split.
  - rewrite Hcalls, Hhook. reflexivity.
  - rewrite (Hmem LocalLC eq_refl). exact Hlc.
Defined.

(** C4 fails as stated: after a commit the clock stands at the overhead of
    the probe (9), not at half the interval plus the overhead (2509); and an
    intermediate probe whose clock is past the target does not commit when
    few cycles have gone by: it calls no handler and sets the clock to half
    the interval plus its overhead (2515). *)
Lemma probe_commit_reset_counterexample :
  (exists ops,
     instrumentGlobal exampleConfig "f" ALL_IR (Some (ConstantInt 64 20)) None = Ok ops /\
     calls (run idleHandler ops probeMachine) = [(77, 5010)] /\
     mem (run idleHandler ops probeMachine) LocalLC = 9 /\
     9 <> TargetInterval exampleConfig / 2 + 9) /\
  (exists ops,
     instrumentGlobal intermediateConfig "f" PUSH_ON_CYCLES (Some (ConstantInt 64 20)) None
       = Ok ops /\
     targetOf intermediateConfig < 5010 /\
     calls (run idleHandler ops earlyMachine) = [] /\
     mem (run idleHandler ops earlyMachine) LocalLC = 2515).
Proof.
  split.
  - eexists. split; [reflexivity|]. split; [reflexivity|]. split; [reflexivity|].
    vm_compute. discriminate.
  - eexists. split; [reflexivity|]. split; [vm_compute; reflexivity|].
    split; vm_compute; reflexivity.
Qed.

(** Claim C5 (amended).  A probe emitted by instrumentIfLCEnabled under a
    thread-local granularity does nothing while lc_disabled_count (a 32-bit
    value) is not zero.  At zero it either does not commit, and leaves the
    count alone, or commits: the handler then runs on a memory where the
    count is the loaded depth plus one, and after it has returned the count
    is set to what the handler left minus one, not to the depth loaded before
    the call; a handler that leaves the count as it found it thus leaves the
    probe with the count at zero.  instrumentCI emits this guarded probe for
    the granularities OPTIMIZE_HEURISTIC_WITH_TL, OPTIMIZE_ACCURATE,
    OPTIMIZE_INTERMEDIATE and OPTIMIZE_CYCLES; for the two fiber granularities
    it emits the probe of instrumentGlobal without the disable flag, as
    instrumentAllBlocks does for NAIVE_HEURISTIC_FIBER: the code of that
    probe nowhere loads or stores the count. *)
Theorem guarded_probe_nests (cfg : Config) (F : string)
    (handler : Z -> Z -> Memory -> Memory)
    (instrType : eInstrumentType) (val : option Operand) (ops : list Inst) (m : Machine) :
  gIsOnlyThreadLocal cfg = Ok true ->
  instrumentIfLCEnabled cfg F instrType val = Ok ops ->
  match val with Some v => costOperand v = true | None => True end ->
  let depth := mem m lc_disabled_count in
  (unsigned 32 depth <> 0 -> observe (run handler ops m) = observe m) /\
  (unsigned 32 depth = 0 ->
     (calls (run handler ops m) = calls m /\
      mem (run handler ops m) lc_disabled_count = depth)
     \/ (exists hook clock pre,
           calls (run handler ops m) = calls m ++ [(hook, clock)] /\
           pre lc_disabled_count = unsigned 32 (depth + 1) /\
           mem (run handler ops m)
             = store (handler hook clock pre) lc_disabled_count
                 (unsigned 32 (handler hook clock pre lc_disabled_count - 1)))) /\
  (balanced handler -> depth = 0 -> mem (run handler ops m) lc_disabled_count = 0) /\
  (forall v, In (InstGranularity cfg) guardedGranularities ->
     instrumentCI cfg F v
       = instrumentIfLCEnabled cfg F (instrTypeOf cfg)
           (match instrTypeOf cfg with INCR_ON_CYCLES => None | _ => v end)) /\
  (forall v, In (InstGranularity cfg) fiberGranularities ->
     instrumentCI cfg F v = instrumentGlobal cfg F (instrTypeOf cfg) v None) /\
  (forall instCount, InstGranularity cfg = NAIVE_HEURISTIC_FIBER ->
     instrumentBlock cfg F instCount
       = instrumentGlobal cfg F ALL_IR (Some (ConstantInt 64 instCount)) None) /\
  (forall ty v ops', instrumentGlobal cfg F ty v None = Ok ops' ->
     existsb (usesVar lc_disabled_count) ops' = false).
Proof.
  intros Htl Hops Hval depth. subst depth.
  destruct (instrumentIfLCEnabled_run cfg F handler instrType val ops m Htl Hops Hval)
    as (overhead & Hcost & Hrun).
  unfold guardedProbeSpec in Hrun. cbn [observe fst] in Hrun.
  assert (Hcommit : forall stamp clock mm cyc cs,
            mm lc_disabled_count = (mem m lc_disabled_count) -> cs = calls m ->
            observe (run handler ops m)
              = commitStep handler overhead (Some (mem m lc_disabled_count)) stamp clock (mm, cyc, cs) ->
            exists hook cl pre,
              calls (run handler ops m) = calls m ++ [(hook, cl)] /\
              pre lc_disabled_count = unsigned 32 ((mem m lc_disabled_count) + 1) /\
              mem (run handler ops m)
                = store (handler hook cl pre) lc_disabled_count
                    (unsigned 32 (handler hook cl pre lc_disabled_count - 1))).
  { intros stamp clock mm cyc cs Hmm Hcs Hobs. subst cs.
    unfold commitStep, observe in Hobs. injection Hobs as Hm Hc Hcalls.
    eexists _, clock, _. split; [exact Hcalls|]. split; [|exact Hm].
    destruct stamp; reflexivity. }
  assert (Hzero : unsigned 32 (mem m lc_disabled_count) = 0 ->
     (calls (run handler ops m) = calls m /\
      mem (run handler ops m) lc_disabled_count = (mem m lc_disabled_count))
     \/ (exists hook clock pre,
           calls (run handler ops m) = calls m ++ [(hook, clock)] /\
           pre lc_disabled_count = unsigned 32 ((mem m lc_disabled_count) + 1) /\
           mem (run handler ops m)
             = store (handler hook clock pre) lc_disabled_count
                 (unsigned 32 (handler hook clock pre lc_disabled_count - 1)))).
  { intros Hz. rewrite Hz in Hrun. change (0 =? 0) with true in Hrun. cbv iota in Hrun.
    unfold probeSpec in Hrun. destruct instrType.
    - unfold probeOnCost in Hrun. cbn [observe] in Hrun.
      destruct (targetOf cfg <? _).
      + right. refine (Hcommit None _ _ _ _ _ _ Hrun); reflexivity.
      + left. injection Hrun as Hm Hc Hcs. split; [exact Hcs|]. rewrite Hm. reflexivity.
    - unfold probeOnCostAndCycles in Hrun. cbn [observe] in Hrun.
      destruct (targetOf cfg <? _).
      + destruct (readCycles (cycles m)) as [t' rest].
        destruct (unsigned 64 (cycleThreshold cfg) <=? _).
        * right. refine (Hcommit (Some t') _ _ _ _ _ _ Hrun); reflexivity.
        * left. injection Hrun as Hm Hc Hcs. split; [exact Hcs|]. rewrite Hm. reflexivity.
      + left. injection Hrun as Hm Hc Hcs. split; [exact Hcs|]. rewrite Hm. reflexivity.
    - unfold probeOnCycles in Hrun. cbn [observe] in Hrun.
      destruct (readCycles (cycles m)) as [t' rest].
      destruct (targetOf cfg <? _).
      + right. refine (Hcommit None _ _ _ _ _ _ Hrun); reflexivity.
      + left. injection Hrun as Hm Hc Hcs. split; [exact Hcs|]. rewrite Hm. reflexivity. }
  split; [|split; [exact Hzero|split; [|split; [|split; [|split]]]]].
  - intros Hdis.
    replace (unsigned 32 (mem m lc_disabled_count) =? 0) with false in Hrun
      by (symmetry; apply Z.eqb_neq; exact Hdis).
    exact Hrun.
  - intros Hbal H0.
    destruct Hzero as [[_ Hkeep]|(hook & clock & pre & _ & Hpre & Hm)].
    + rewrite H0. reflexivity.
    + rewrite Hkeep. exact H0.
    + rewrite Hm. unfold store at 1. cbn [sameVar]. rewrite Hbal, Hpre, H0. reflexivity.
  - intros v Hin. unfold instrumentCI, instrTypeOf. cbn [In guardedGranularities] in Hin.
    destruct Hin as [<-|[<-|[<-|[<-|[]]]]]; reflexivity.
  - intros v Hin. unfold instrumentCI, instrTypeOf. cbn [In fiberGranularities] in Hin.
    destruct Hin as [<-|[<-|[]]]; reflexivity.
  - intros instCount Hgran. unfold instrumentBlock. rewrite Hgran. reflexivity.
  - intros ty v ops' Hops'.
    unfold instrumentGlobal, incrementTLLC, incrementTLLCWithCycles, testNpushMLCfromTLLC,
      pushToMLCfromTLLCifTSCExceeded, pushToMLCfromTLLC in Hops'.
    rewrite Htl, Hcost in Hops'.
    destruct ty, v as [c|]; cbn in Hops'; try discriminate;
      try (destruct (checkIfInstGranIsIntermediate cfg); cbn in Hops'; [|discriminate];
           destruct (TargetIntervalInCycles cfg =? 0); cbn in Hops'; [discriminate|]);
      injection Hops' as <-; reflexivity.
Qed.

(** The guarded probe of cost 20 on a clock at 4990: entered at depth 0 it
    calls the handler and leaves the depth at 0; entered at depth 1 it does
    nothing. *)
Lemma guarded_probe_nests_witness :
  exists ops,
    instrumentIfLCEnabled exampleConfig "f" ALL_IR (Some (ConstantInt 64 20)) = Ok ops /\
    mem (run idleHandler ops probeMachine) lc_disabled_count = 0 /\
    observe (run idleHandler ops disabledMachine) = observe disabledMachine.
Proof.
  eexists. split; [reflexivity|].
  split.
  - destruct (guarded_probe_nests exampleConfig "f" idleHandler ALL_IR
                (Some (ConstantInt 64 20)) _ probeMachine eq_refl eq_refl eq_refl)
      as (_ & _ & Hbal & _).
    apply Hbal; [intros f arg mm; reflexivity|reflexivity].
  - destruct (guarded_probe_nests exampleConfig "f" idleHandler ALL_IR
                (Some (ConstantInt 64 20)) _ disabledMachine eq_refl eq_refl eq_refl)
      as (Hskip & _).
    apply Hskip. vm_compute. discriminate.
Defined.

(** C5 fails as stated: the probe of the fiber granularity commits although
    lc_disabled_count is 1, and leaves the count at 1. *)
Lemma fiber_probe_counterexample :
  exists ops,
    instrumentCI fiberConfig "f" (Some (ConstantInt 64 20)) = Ok ops /\
    mem disabledMachine lc_disabled_count = 1 /\
    calls (run idleHandler ops disabledMachine) = [(77, 5010)] /\
    mem (run idleHandler ops disabledMachine) lc_disabled_count = 1.
Proof.
  eexists. split; [reflexivity|]. split; [reflexivity|]. split; reflexivity.
Qed.

End ProbeClaims.

(** *** The granularities that reach probe emission *)

Section GranularityProperties.
Import Probe ProbeProofs.
#[local] Arguments cycleThreshold : simpl never.
#[local] Arguments cdiv : simpl never.

(** One granularity, with the emitters unfolded: the overhead, the plain
    probe, and the cycle-gated probe. *)
Ltac gran_overhead :=
  eexists; split; [reflexivity|]; vm_compute; lia.

Ltac gran_case cycles :=
  split; [gran_overhead|];
  split; [intros F v; eexists; reflexivity|];
  intros F v; split;
  [ intros [ops Hops];
    first [ cbn in Hops; discriminate Hops
          | split; [reflexivity|]; intros Hz; subst cycles; cbn in Hops; discriminate Hops ]
  | intros [Hint Hc];
    first [ discriminate Hint
          | apply Z.eqb_neq in Hc; rewrite Hc; eexists; reflexivity ] ].

(** X7 (runOnModule, getCostOfInstrumentation, instrumentIfLCEnabled,
    pushToMLCfromTLLCifTSCExceeded).  Whenever runOnModule gets as far as
    emitting probes the granularity is one of the fourteen it accepts, the
    counters are thread-local and getCostOfInstrumentation
    returns without failing its assertion, with overhead 0 for the two accurate
    granularities only; hence a guarded probe of type ALL_IR with a cost is
    always emitted, and one of type PUSH_ON_CYCLES is emitted exactly when the
    granularity is an intermediate one and TargetIntervalInCycles is not 0. *)
Theorem accepted_granularity_emits (cfg : Config) (tl : bool) :
  gIsOnlyThreadLocal cfg = Ok tl ->
  In (InstGranularity cfg)
    [OPTIMIZE_HEURISTIC_WITH_TL; OPTIMIZE_HEURISTIC_FIBER; NAIVE_TL;
     LEGACY_HEURISTIC_TL; COREDET_HEURISTIC_TL; LEGACY_ACCURATE; OPTIMIZE_ACCURATE;
     NAIVE_ACCURATE; OPTIMIZE_INTERMEDIATE; OPTIMIZE_CYCLES;
     OPTIMIZE_HEURISTIC_INTERMEDIATE_FIBER; NAIVE_INTERMEDIATE;
     NAIVE_HEURISTIC_FIBER; NAIVE_CYCLES] /\
  tl = true /\
  (exists overhead,
     getCostOfInstrumentation cfg = Ok overhead /\
     (overhead = 9 \/ overhead = 15 \/ overhead = 35 \/ overhead = 0) /\
     (overhead = 0 <->
      InstGranularity cfg = NAIVE_ACCURATE \/ InstGranularity cfg = OPTIMIZE_ACCURATE)) /\
  (forall F v, exists ops, instrumentIfLCEnabled cfg F ALL_IR (Some v) = Ok ops) /\
  (forall F v,
     (exists ops, instrumentIfLCEnabled cfg F PUSH_ON_CYCLES (Some v) = Ok ops) <->
     (checkIfInstGranIsIntermediate cfg = true /\ TargetIntervalInCycles cfg <> 0)).
Proof.
  intros Htl.
  assert (Hgran : In (InstGranularity cfg)
            [OPTIMIZE_HEURISTIC_WITH_TL; OPTIMIZE_HEURISTIC_FIBER; NAIVE_TL;
             LEGACY_HEURISTIC_TL; COREDET_HEURISTIC_TL; LEGACY_ACCURATE; OPTIMIZE_ACCURATE;
             NAIVE_ACCURATE; OPTIMIZE_INTERMEDIATE; OPTIMIZE_CYCLES;
             OPTIMIZE_HEURISTIC_INTERMEDIATE_FIBER; NAIVE_INTERMEDIATE;
             NAIVE_HEURISTIC_FIBER; NAIVE_CYCLES]).
  { unfold gIsOnlyThreadLocal in Htl.
    destruct (isOneOf (InstGranularity cfg) [OPTIMIZE_HEURISTIC; _; _; _]); [discriminate|].
    destruct (isOneOf (InstGranularity cfg) [OPTIMIZE_HEURISTIC_WITH_TL; _; _; _; _; _; _;
                                              _; _; _; _; _; _; _]) eqn:E;
      [|discriminate].
    unfold isOneOf in E. apply existsb_exists in E. destruct E as (x & Hx & Heq).
    apply Z.eqb_eq in Heq. rewrite Heq. exact Hx. }
  assert (Htrue : gIsOnlyThreadLocal cfg = Ok true).
  { unfold gIsOnlyThreadLocal. cbn [In] in Hgran.
    repeat (destruct Hgran as [<-|Hgran]; [reflexivity|]). destruct Hgran. }
  assert (tl = true) as -> by congruence.
  split; [exact Hgran|]. split; [reflexivity|].
  unfold instrumentIfLCEnabled, instrumentGlobal, incrementTLLC, testNpushMLCfromTLLC,
    pushToMLCfromTLLCifTSCExceeded, pushToMLCfromTLLC.
  rewrite Htrue. cbn [mbind result_bind]. clear Htl Htrue.
  destruct cfg as [gran clock memCost target cycles commitIv lib].
  cbn [InstGranularity TargetIntervalInCycles] in *.
  cbn [In] in Hgran.
  repeat (destruct Hgran as [<-|Hgran]; [gran_case cycles|]).
  destruct Hgran.
Qed.

Lemma accepted_granularity_emits_witness :
  (exists ops,
     instrumentIfLCEnabled intermediateConfig "f" PUSH_ON_CYCLES (Some (ConstantInt 64 20))
       = Ok ops) /\
  gIsOnlyThreadLocal naiveConfig = Fatal "exit(1)".
Proof.
  split; [|reflexivity].
  destruct (accepted_granularity_emits intermediateConfig true eq_refl)
    as (_ & _ & _ & _ & Hpush).
  apply (Hpush "f" (ConstantInt 64 20)). split; [reflexivity|]. vm_compute. discriminate.
Defined.

End GranularityProperties.

Module CostFileEdgeProofs.
Import CostFile CostFileSpec CostFileProofs.

Lemma readLoop_not_false fuel : forall s table t',
  readLoop fuel s false table <> Ok (false, t').
Proof.
  induction fuel as [|fuel IH]; intros s table t'; cbn [readLoop]; [discriminate|].
  destruct (eof s); [discriminate|].
  destruct (nextLine s) as [buffer s'].
  destruct (hasColon (cstr buffer)); [|apply IH].
  destruct (strtok (cstr buffer)) as [[token1 rest]|]; [|apply IH].
  destruct (strtok rest) as [[token2 ?]|]; [apply IH|discriminate].
Qed.

(* A stream whose failbit is set without eofbit gives no further line and
   never reaches the end of the file. *)
Lemma readLoop_failed fuel : forall s table,
  fail s = true -> eof s = false -> readLoop fuel s false table = OutOfFuel.
Proof.
  induction fuel as [|fuel IH]; intros s table Hf He; cbn [readLoop]; [reflexivity|].
  rewrite He. unfold nextLine. rewrite Hf. cbn [cstr hasColon existsb].
  apply IH; assumption.
Qed.

Lemma getline_overlong line : forall room c rest,
  Forall (fun c => Ascii.eqb c newline = false) line ->
  length line = room -> Ascii.eqb c newline = false ->
  getline room (line ++ c :: rest) = mkLine line (c :: rest) false true.
Proof.
  induction line as [|d line IH]; intros room c rest Hl Hlen Hc.
  - cbn in Hlen. subst room. cbn [app getline]. rewrite Hc. reflexivity.
  - cbn [length] in Hlen. destruct room as [|room]; [discriminate|].
    inversion Hl as [|? ? Hd Hl']; subst. cbn [app getline]. rewrite Hd.
    rewrite (IH room c rest Hl') by (auto; lia). reflexivity.
Qed.

Lemma readLoop_overlong lines : forall fuel line c rest table r,
  Forall (fun l => Forall (fun c => Ascii.eqb c newline = false) l /\ (length l <= 127)%nat)
    lines ->
  Forall (fun c => Ascii.eqb c newline = false) line -> length line = 127%nat ->
  Ascii.eqb c newline = false ->
  readLoop fuel (mkStream (flat_map (fun l => l ++ [newline]) lines ++ line ++ c :: rest) false false) false table
    <> Ok r.
Proof.
  induction lines as [|l lines IH]; intros fuel line c rest table r Hls Hl Hlen Hc.
  - cbn [flat_map app]. destruct fuel as [|fuel]; [discriminate|].
    cbn [readLoop eof]. unfold nextLine. cbn [fail content].
    rewrite (getline_overlong line 127 c rest Hl Hlen Hc).
    cbn [buf remaining eofbit failbit orb andb].
    assert (Hloop : forall t, readLoop fuel (mkStream (c :: rest) false true) false t <> Ok r).
    { intros t. rewrite readLoop_failed by reflexivity. discriminate. }
    destruct (hasColon (cstr line)); [|apply Hloop].
    destruct (strtok (cstr line)) as [[token1 rest1]|]; [|apply Hloop].
    destruct (strtok rest1) as [[token2 ?]|]; [apply Hloop|discriminate].
  - inversion Hls as [|? ? [Hl1 Hl2] Hls']; subst.
    cbn [flat_map]. rewrite <- !app_assoc. cbn [app].
    destruct fuel as [|fuel]; [discriminate|].
    cbn [readLoop eof]. unfold nextLine. cbn [fail content].
    rewrite (getline_line l _ 127 Hl1 Hl2).
    cbn [buf remaining eofbit failbit orb andb].
    destruct (hasColon (cstr l)); [|apply IH; assumption].
    destruct (strtok (cstr l)) as [[token1 rest1]|]; [|apply IH; assumption].
    destruct (strtok rest1) as [[token2 ?]|]; [apply IH; assumption|discriminate].
Qed.

Lemma skipDelims_colons k : skipDelims (repeat colon k) = [].
Proof. induction k as [|k IH]; [reflexivity|]. cbn [repeat skipDelims]. exact IH. Qed.

Lemma cstr_app_nul_free a b :
  Forall (fun c => Ascii.eqb c NUL = false) a -> cstr (a ++ b) = a ++ cstr b.
Proof.
  induction 1 as [|c a Hc _ IH]; [reflexivity|]. cbn [app cstr]. rewrite Hc, IH. reflexivity.
Qed.

Lemma readLoop_missing_cost lines : forall fuel name k rest table,
  Forall (fun l => Forall (fun c => Ascii.eqb c newline = false) l /\ (length l <= 127)%nat)
    lines ->
  name <> [] ->
  Forall (fun c => Ascii.eqb c colon = false /\ Ascii.eqb c newline = false
                   /\ Ascii.eqb c NUL = false) name ->
  (length name + 1 + k <= 127)%nat ->
  (length lines < fuel)%nat ->
  readLoop fuel
    (mkStream (flat_map (fun l => l ++ [newline]) lines
               ++ name ++ colon :: repeat colon k ++ newline :: rest) false false)
    false table = Fatal "atoi(NULL)".
Proof.
  induction lines as [|l lines IH]; intros fuel name k rest table Hls Hne Hname Hlen Hfuel.
  - cbn [flat_map app]. destruct fuel as [|fuel]; [cbn in Hfuel; lia|].
    cbn [readLoop eof]. unfold nextLine. cbn [fail content].
    replace (name ++ colon :: repeat colon k ++ newline :: rest)
      with ((name ++ colon :: repeat colon k) ++ newline :: rest)
      by (rewrite <- app_assoc; reflexivity).
    rewrite getline_line.
    + cbn [buf remaining eofbit failbit orb andb].
      assert (Hc : cstr (name ++ colon :: repeat colon k) = name ++ colon :: repeat colon k).
      { apply cstr_id. apply Forall_app. split.
        - eapply Forall_impl; [exact Hname|]. intros c (_ & _ & H). exact H.
        - change (colon :: repeat colon k) with (repeat colon (S k)).
          apply Forall_forall. intros x Hx. apply list_elem_of_In, repeat_spec in Hx.
          subst x. reflexivity. }
      rewrite Hc, hasColon_app.
      rewrite strtok_first.
      * unfold strtok. rewrite skipDelims_colons. reflexivity.
      * exact Hne.
      * eapply Forall_impl; [exact Hname|]. intros c (H & _). exact H.
    + apply Forall_app. split.
      * eapply Forall_impl; [exact Hname|]. intros c (_ & H & _). exact H.
      * change (colon :: repeat colon k) with (repeat colon (S k)).
        apply Forall_forall. intros x Hx. apply list_elem_of_In, repeat_spec in Hx.
        subst x. reflexivity.
    + rewrite length_app. cbn [length]. rewrite repeat_length. lia.
  - inversion Hls as [|? ? [Hl1 Hl2] Hls']; subst.
    cbn [flat_map]. rewrite <- !app_assoc. cbn [app].
    destruct fuel as [|fuel]; [cbn in Hfuel; lia|].
    cbn [readLoop eof]. unfold nextLine. cbn [fail content].
    rewrite (getline_line l _ 127 Hl1 Hl2).
    cbn [buf remaining eofbit failbit orb andb].
    cbn [length] in Hfuel.
    destruct (hasColon (cstr l)); [|apply IH; auto; lia].
    destruct (strtok (cstr l)) as [[token1 rest1]|]; [|apply IH; auto; lia].
    destruct (strtok rest1) as [[token2 ?]|]; [apply IH; auto; lia|reflexivity].
Qed.

Lemma atoi_no_number c r :
  isspace c = false -> digitValue c = None ->
  Ascii.eqb c "-"%char = false -> Ascii.eqb c "+"%char = false ->
  atoi (c :: r) = 0.
Proof.
  intros Hs Hd Hm Hp. unfold atoi. cbn [skipSpaces]. rewrite Hs, Hm, Hp.
  cbn [atoiDigits]. rewrite Hd. reflexivity.
Qed.

Lemma strtok_head c r :
  Ascii.eqb c colon = false ->
  exists t rest, strtok (c :: r) = Some (c :: t, rest).
Proof.
  intros Hc. unfold strtok. cbn [skipDelims]. rewrite Hc. cbn [tokenOf]. rewrite Hc.
  destruct (tokenOf r) as [t rest]. eauto.
Qed.

Lemma strtok_head2 c d r :
  Ascii.eqb c colon = false -> Ascii.eqb d colon = false ->
  exists t rest, strtok (c :: d :: r) = Some (c :: d :: t, rest).
Proof.
  intros Hc Hd. unfold strtok. cbn [skipDelims]. rewrite Hc. cbn [tokenOf]. rewrite Hc, Hd.
  destruct (tokenOf r) as [t rest]. eauto.
Qed.

Lemma bind_Ok_inv {A B : Type} (f : A -> result B) (e : result A) (b : B) :
  mbind f e = Ok b -> exists a, e = Ok a /\ f a = Ok b.
Proof. destruct e as [a| |]; cbn; intros H; [eauto|discriminate|discriminate]. Qed.

Lemma Ok_inj {A : Type} (a b : A) : Ok a = Ok b -> a = b.
Proof. intros H. injection H as ->. reflexivity. Qed.

End CostFileEdgeProofs.

Section CostFileProperties.
Import CostFile CostFileSpec CostFileProofs CostFileEdgeProofs.

(** X8 (readCost).  readCost returns false only before anything is stored: the
    table is the one passed in, a path was supplied, and either the file did
    not open or its first line is not the header [Cost File].  Past the
    header no line makes readCost return false. *)
Theorem readCost_rejects_before_storing (fuel : nat) (InCostFilePath : string)
    (file : option chars) (table t' : gmap string InstructionCost) :
  readCost fuel InCostFilePath file table = Ok (false, t') ->
  t' = table /\ InCostFilePath <> ""%string /\
  (file = None \/
   exists bytes, file = Some bytes /\ cstr (buf (getline 127 bytes)) <> header).
Proof.
  unfold readCost. destruct (String.eqb_spec InCostFilePath "") as [->|Hne]; [discriminate|].
  destruct file as [bytes|].
  - destruct fuel as [|fuel]; [discriminate|]. cbn [readLoop eof nextLine fail content].
    destruct (bool_decide (cstr (buf (getline 127 bytes)) = header)) eqn:Hh.
    + intros H. exfalso. exact (readLoop_not_false _ _ _ _ H).
    + intros H. injection H as <-. split; [reflexivity|]. split; [exact Hne|].
      right. exists bytes. split; [reflexivity|].
      intros Heq. apply bool_decide_eq_false in Hh. exact (Hh Heq).
  - intros H. injection H as <-. auto.
Qed.

Lemma readCost_rejects_before_storing_witness :
  readCost 5 "lib.cost" (Some (chars_of "Costs
f:3
")) (<["g" := CONST 7]> ∅) = Ok (false, <["g" := CONST 7]> ∅).
Proof.
  destruct (readCost 5 "lib.cost" (Some (chars_of "Costs
f:3
")) (<["g" := CONST 7]> ∅)) as [[[|] t']| |] eqn:E.
  - vm_compute in E. discriminate E.
  - destruct (readCost_rejects_before_storing _ _ _ _ _ E) as (-> & _). reflexivity.
  - vm_compute in E. discriminate E.
  - vm_compute in E. discriminate E.
Defined.

(** X9 (readCost).  A cost file that holds, anywhere after the header, a line of
    more than 127 bytes is never read successfully: getline fills the 128-byte
    buffer and sets the failbit, and the loop on !fin.eof() gets no further
    line and no end of file, so readCost returns no result however long it
    runs (or stops earlier at a line without a cost). *)
Theorem readCost_overlong_line_never_returns (fuel : nat) (InCostFilePath : string)
    (lines : list chars) (line : chars) (c : ascii) (rest : chars)
    (table : gmap string InstructionCost) (r : bool * gmap string InstructionCost) :
  InCostFilePath <> ""%string ->
  Forall (fun l => Forall (fun c => c <> newline) l /\ (length l <= 127)%nat) lines ->
  Forall (fun c => c <> newline) line -> length line = 127%nat -> c <> newline ->
  readCost fuel InCostFilePath
    (Some (header ++ newline :: flat_map (fun l => l ++ [newline]) lines
             ++ line ++ c :: rest)) table <> Ok r.
Proof.
  intros Hp Hls Hl Hlen Hc. unfold readCost.
  destruct (String.eqb_spec InCostFilePath "") as [E|_]; [contradiction|].
  destruct fuel as [|fuel]; [discriminate|].
  rewrite readLoop_header. apply readLoop_overlong.
  - eapply Forall_impl; [exact Hls|]. intros l [H1 H2]. split; [|exact H2].
    eapply Forall_impl; [exact H1|]. intros d Hd. apply eqb_false_of_neq. exact Hd.
  - eapply Forall_impl; [exact Hl|]. intros d Hd. apply eqb_false_of_neq. exact Hd.
  - exact Hlen.
  - apply eqb_false_of_neq. exact Hc.
Qed.

Lemma readCost_overlong_line_never_returns_witness :
  readCost 10 "lib.cost"
    (Some (header ++ newline :: flat_map (fun l => l ++ [newline]) [chars_of "f:3"]
             ++ repeat "a"%char 127 ++ "a"%char :: [newline])) ∅ = OutOfFuel.
Proof.
  destruct (readCost 10 "lib.cost"
    (Some (header ++ newline :: flat_map (fun l => l ++ [newline]) [chars_of "f:3"]
             ++ repeat "a"%char 127 ++ "a"%char :: [newline])) ∅) as [r| |] eqn:E.
  - exfalso. revert E.
    apply (readCost_overlong_line_never_returns 10 "lib.cost" [chars_of "f:3"]
             (repeat "a"%char 127) "a"%char [newline] ∅ r).
    + discriminate.
    + constructor; [|constructor]. split; [|simpl; lia].
      repeat constructor; discriminate.
    + apply Forall_forall. intros x Hx. apply list_elem_of_In, repeat_spec in Hx. subst x. discriminate.
    + apply repeat_length.
    + discriminate.
  - vm_compute in E. discriminate E.
  - reflexivity.
Defined.

(** X10 (readCost).  A line made of a function name followed only by colons has
    no second token: strtok returns null and readCost hands the null pointer
    to atoi.  The pass stops there whatever the lines before it. *)
Theorem readCost_missing_cost_crashes (fuel : nat) (InCostFilePath : string)
    (lines : list chars) (name : string) (k : nat) (rest : chars)
    (table : gmap string InstructionCost) :
  InCostFilePath <> ""%string ->
  Forall (fun l => Forall (fun c => c <> newline) l /\ (length l <= 127)%nat) lines ->
  goodName name -> (length (chars_of name) + 1 + k <= 127)%nat ->
  (length lines + 2 <= fuel)%nat ->
  readCost fuel InCostFilePath
    (Some (header ++ newline :: flat_map (fun l => l ++ [newline]) lines
             ++ chars_of name ++ colon :: repeat colon k ++ newline :: rest)) table
  = Fatal "atoi(NULL)".
Proof.
  intros Hp Hls [Hne Hname] Hlen Hfuel. unfold readCost.
  destruct (String.eqb_spec InCostFilePath "") as [E|_]; [contradiction|].
  destruct fuel as [|fuel]; [lia|].
  rewrite readLoop_header. apply readLoop_missing_cost.
  - eapply Forall_impl; [exact Hls|]. intros l [H1 H2]. split; [|exact H2].
    eapply Forall_impl; [exact H1|]. intros d Hd. apply eqb_false_of_neq. exact Hd.
  - exact Hne.
  - eapply Forall_impl; [exact Hname|]. intros c (H1 & H2 & H3).
    repeat split; apply eqb_false_of_neq; assumption.
  - exact Hlen.
  - lia.
Qed.

Lemma readCost_missing_cost_crashes_witness :
  readCost 4 "lib.cost"
    (Some (header ++ newline :: flat_map (fun l => l ++ [newline]) [chars_of "f:3"]
             ++ chars_of "g" ++ colon :: repeat colon 0 ++ newline :: [])) ∅
  = Fatal "atoi(NULL)".
Proof.
  apply (readCost_missing_cost_crashes 4 "lib.cost" [chars_of "f:3"] "g" 0 [] ∅).
  - discriminate.
  - constructor; [|constructor]. split; [|simpl; lia]. repeat constructor; discriminate.
  - split; [discriminate|]. repeat constructor; discriminate.
  - simpl. lia.
  - simpl. lia.
Defined.

(** X11 (operator<<, readCost).  The printed form of a cost that is not a
    constant never starts with a number, so the cost token that readCost cuts
    from it is converted by atoi to 0: a symbolic cost written by writeCost is
    not read back. *)
Theorem symbolic_cost_reads_as_zero (fc : InstructionCost) (s : chars) :
  printCost fc = Ok s -> (forall v, fc <> CONST v) ->
  exists token2 rest, strtok s = Some (token2, rest) /\ atoi token2 = 0.
Proof.
  intros Hp Hnc.
  assert (Hhead : (exists c r, s = c :: r /\ isspace c = false /\ digitValue c = None /\
                     Ascii.eqb c "-"%char = false /\ Ascii.eqb c "+"%char = false /\
                     Ascii.eqb c colon = false)
                  \/ (exists r, s = "+"%char :: " "%char :: r)).
  { destruct fc as [v|v| |t ops|t ty ops|ops|f ops].
    - exfalso. exact (Hnc v eq_refl).
    - cbn in Hp. apply Ok_inj in Hp; subst s. left. eexists _, _. split; [reflexivity|].
      repeat split; reflexivity.
    - cbn in Hp. apply Ok_inj in Hp; subst s. left. eexists _, _. split; [reflexivity|].
      repeat split; reflexivity.
    - cbn [printCost] in Hp.
      apply bind_Ok_inv in Hp. destruct Hp as (body & _ & Hp). apply Ok_inj in Hp; subst s.
      destruct (1 <? length ops)%nat.
      + left. eexists _, _. split; [reflexivity|]. repeat split; reflexivity.
      + destruct t; cbn [app opSymbol chars_of list_ascii_of_string];
          first [ right; eexists; reflexivity
                | left; eexists _, _; split; [reflexivity|]; repeat split; reflexivity ].
    - cbn [printCost] in Hp. destruct ops as [|[op|] ops]; try discriminate.
      apply bind_Ok_inv in Hp. destruct Hp as (body & _ & Hp). apply Ok_inj in Hp; subst s.
      left. destruct t; eexists _, _; (split; [reflexivity|]); repeat split; reflexivity.
    - cbn [printCost] in Hp. destruct ops as [|[a|] [|[b|] ops]]; try discriminate.
      apply bind_Ok_inv in Hp. destruct Hp as (sa & _ & Hp).
      apply bind_Ok_inv in Hp. destruct Hp as (sb & _ & Hp). apply Ok_inj in Hp; subst s.
      left. eexists _, _. split; [reflexivity|]. repeat split; reflexivity.
    - cbn [printCost] in Hp.
      apply bind_Ok_inv in Hp. destruct Hp as (body & _ & Hp). apply Ok_inj in Hp; subst s.
      left. eexists _, _. split; [reflexivity|]. repeat split; reflexivity. }
  destruct Hhead as [(c & r & -> & Hs & Hd & Hm & Hpl & Hc)|(r & ->)].
  - destruct (strtok_head c r Hc) as (t & rest & Htok).
    exists (c :: t), rest. split; [exact Htok|]. apply atoi_no_number; assumption.
  - destruct (strtok_head2 "+"%char " "%char r eq_refl eq_refl) as (t & rest & Htok).
    exists ("+"%char :: " "%char :: t), rest. split; [exact Htok|]. reflexivity.
Qed.

Lemma symbolic_cost_reads_as_zero_witness :
  exists token2 rest,
    strtok (chars_of "(+ 3 4 )") = Some (token2, rest) /\ atoi token2 = 0.
Proof.
  apply (symbolic_cost_reads_as_zero (Op ADD [Some (CONST 3); Some (CONST 4)])).
  - reflexivity.
  - discriminate.
Defined.

End CostFileProperties.

Module ReducerListProofs.
Import Reducer ReducerSpec.

Lemma findLCC_split x l : forall i,
  findLCC x l = Some i ->
  exists pre post, l = pre ++ x :: post /\ length pre = i /\ x ∉ pre.
Proof.
  induction l as [|y l IH]; intros i H; cbn [findLCC] in H; [discriminate|].
  destruct (Z.eqb_spec y x) as [->|Hne].
  - injection H as <-. exists [], l. split; [reflexivity|]. split; [reflexivity|].
    apply not_elem_of_nil.
  - destruct (findLCC x l) as [j|]; [|discriminate]. cbn in H. injection H as <-.
    destruct (IH j eq_refl) as (pre & post & -> & Hlen & Hnin).
    exists (y :: pre), post. split; [reflexivity|]. split; [cbn; lia|].
    intros Hin. apply elem_of_cons in Hin. destruct Hin as [->|Hin]; [congruence|auto].
Qed.

Lemma findLCC_None x l : findLCC x l = None <-> x ∉ l.
Proof.
  induction l as [|y l IH]; cbn [findLCC].
  - split; [intros _; apply not_elem_of_nil|reflexivity].
  - destruct (Z.eqb_spec y x) as [->|Hne].
    + split; [discriminate|]. intros H. exfalso. apply H. left.
    + destruct (findLCC x l) as [j|].
      * split; [discriminate|]. intros H. exfalso.
        assert (Hx : x ∉ l) by (intros Hin; apply H; right; exact Hin).
        apply IH in Hx. discriminate.
      * split; [|reflexivity]. intros _ Hin. apply elem_of_cons in Hin.
        destruct Hin as [->|Hin]; [congruence|]. destruct IH as [IH _].
        exact (IH eq_refl Hin).
Qed.

Lemma erase_split x l i l' :
  eraseFromGlobalLCCList x l = Ok (i, l') ->
  exists pre post, l = pre ++ x :: post /\ (x ∉ pre) /\ i = length pre /\ l' = pre ++ post.
Proof.
  unfold eraseFromGlobalLCCList. destruct (findLCC x l) as [j|] eqn:E; [|discriminate].
  intros H. injection H as <- <-.
  destruct (findLCC_split x l j E) as (pre & post & -> & Hlen & Hnin).
  exists pre, post. split; [reflexivity|]. split; [exact Hnin|]. split; [auto|].
  subst j. rewrite take_app_length.
  replace (S (length pre)) with (length (pre ++ [x])) by (rewrite length_app; cbn; lia).
  replace (pre ++ x :: post) with ((pre ++ [x]) ++ post) by (rewrite <- app_assoc; reflexivity).
  rewrite drop_app_length. reflexivity.
Qed.

Lemma erase_absent x l :
  x ∉ l ->
  eraseFromGlobalLCCList x l
  = Fatal "Node had already been removed from global list of containers".
Proof.
  intros H. apply findLCC_None in H. unfold eraseFromGlobalLCCList. rewrite H. reflexivity.
Qed.

Lemma erase_present x pre post :
  x ∉ pre ->
  eraseFromGlobalLCCList x (pre ++ x :: post) = Ok (length pre, pre ++ post).
Proof.
  intros Hnin.
  destruct (eraseFromGlobalLCCList x (pre ++ x :: post)) as [[i l']| |] eqn:E.
  - destruct (erase_split _ _ _ _ E) as (pre' & post' & Heq & Hnin' & -> & ->).
    assert (Hpre : pre = pre').
    { clear E. revert pre' Heq Hnin'. induction pre as [|a pre IH]; intros pre' Heq Hnin'.
      - destruct pre' as [|b pre']; [reflexivity|]. cbn in Heq. injection Heq as <- _.
        exfalso. apply Hnin'. left.
      - destruct pre' as [|b pre'].
        + cbn in Heq. injection Heq as -> _. exfalso. apply Hnin. left.
        + cbn in Heq. injection Heq as <- Heq. f_equal. apply IH.
          * intros Hin. apply Hnin. right. exact Hin.
          * exact Heq.
          * intros Hin. apply Hnin'. right. exact Hin. }
    subst pre'. apply app_inv_head in Heq. injection Heq as <-. reflexivity.
  - exfalso. unfold eraseFromGlobalLCCList in E.
    destruct (findLCC x (pre ++ x :: post)) eqn:F; [discriminate|].
    apply findLCC_None in F. apply F. apply elem_of_app. right. left.
  - unfold eraseFromGlobalLCCList in E. destruct (findLCC x _); discriminate.
Qed.

Lemma insertAt_split pre post x :
  insertAt (length pre) x (pre ++ post) = pre ++ x :: post.
Proof. unfold insertAt. rewrite take_app_length, drop_app_length. reflexivity. Qed.

Lemma NoDup_middle (x : Z) pre post :
  NoDup (pre ++ x :: post) <-> (x ∉ (pre ++ post)) /\ NoDup (pre ++ post).
Proof.
  rewrite <- NoDup_cons.
  split; intros H; eapply NoDup_Permutation_proper; try exact H.
  - apply Permutation_middle.
  - symmetry. apply Permutation_middle.
Qed.

Lemma elem_of_middle (x y : Z) pre post :
  y ∈ (pre ++ x :: post) <-> y = x \/ y ∈ (pre ++ post).
Proof.
  rewrite !elem_of_app, elem_of_cons. tauto.
Qed.

(** Erasing keeps the list duplicate-free and adds nothing. *)
Lemma erase_keeps x l i l' :
  eraseFromGlobalLCCList x l = Ok (i, l') ->
  NoDup l -> NoDup l' /\ (forall y, y ∈ l' -> y ∈ l) /\ (x ∉ l') /\ x ∈ l.
Proof.
  intros E Hnd. destruct (erase_split _ _ _ _ E) as (pre & post & -> & Hnin & -> & ->).
  apply NoDup_middle in Hnd. destruct Hnd as [Hx Hnd].
  split; [exact Hnd|]. split; [|split; [exact Hx|]].
  - intros y Hy. apply elem_of_middle. right. exact Hy.
  - apply elem_of_middle. left. reflexivity.
Qed.

Lemma eraseAll_keeps xs : forall l l',
  eraseAll xs l = Ok l' -> NoDup l -> NoDup l' /\ (forall y, y ∈ l' -> y ∈ l).
Proof.
  induction xs as [|x xs IH]; intros l l' H Hnd; cbn [eraseAll] in H.
  - injection H as <-. auto.
  - destruct (eraseFromGlobalLCCList x l) as [[i l1]| |] eqn:E; try discriminate.
    cbn in H. destruct (erase_keeps _ _ _ _ E Hnd) as (Hnd1 & Hsub1 & _).
    destruct (IH _ _ H Hnd1) as (Hnd' & Hsub'). split; [exact Hnd'|]. auto.
Qed.

(** Putting a fresh container where one was erased. *)
Lemma erase_insert_keeps x new l i l1 :
  eraseFromGlobalLCCList x l = Ok (i, l1) ->
  NoDup l -> new ∉ l ->
  NoDup (insertAt i new l1) /\
  (forall y, y ∈ insertAt i new l1 -> y = new \/ y ∈ l).
Proof.
  intros E Hnd Hnew. destruct (erase_split _ _ _ _ E) as (pre & post & -> & Hnin & -> & ->).
  rewrite insertAt_split. apply NoDup_middle in Hnd. destruct Hnd as [Hx Hnd].
  split.
  - apply NoDup_middle. split; [|exact Hnd]. intros Hin. apply Hnew.
    apply elem_of_middle. right. exact Hin.
  - intros y Hy. apply elem_of_middle in Hy. destruct Hy as [->|Hy]; [left; reflexivity|].
    right. apply elem_of_middle. right. exact Hy.
Qed.

Lemma below_fresh (n : Z) l : Forall (fun x => x < n) l -> n ∉ l.
Proof.
  intros H Hin. rewrite Forall_forall in H. specialize (H n Hin). lia.
Qed.

Lemma below_next (n : Z) l l' :
  Forall (fun x => x < n) l -> (forall y, y ∈ l' -> y = n \/ y ∈ l) ->
  Forall (fun x => x < n + 1) l'.
Proof.
  intros H Hsub. apply Forall_forall. intros y Hy. destruct (Hsub y Hy) as [->|Hin]; [lia|].
  rewrite Forall_forall in H. specialize (H y Hin). lia.
Qed.

Lemma replace_absent (x n : Z) l :
  x ∉ l -> List.map (fun y => if y =? x then n else y) l = l.
Proof.
  induction l as [|a l IH]; intros H; [reflexivity|]. cbn [List.map].
  destruct (Z.eqb_spec a x) as [->|_]; [exfalso; apply H; left|].
  rewrite IH; [reflexivity|]. intros Hin. apply H. right. exact Hin.
Qed.

Lemma replace_middle (x n : Z) pre post :
  x ∉ (pre ++ post) ->
  List.map (fun y => if y =? x then n else y) (pre ++ x :: post) = pre ++ n :: post.
Proof.
  intros H. rewrite List.map_app. cbn [List.map]. rewrite Z.eqb_refl.
  rewrite !replace_absent; [reflexivity| |]; intros Hin; apply H; apply elem_of_app; auto.
Qed.

Lemma drop_absent (x : Z) l :
  x ∉ l -> List.filter (fun y => negb (y =? x)) l = l.
Proof.
  induction l as [|a l IH]; intros H; [reflexivity|]. cbn [List.filter].
  destruct (Z.eqb_spec a x) as [->|_]; [exfalso; apply H; left|]. cbn [negb].
  rewrite IH; [reflexivity|]. intros Hin. apply H. right. exact Hin.
Qed.

Lemma drop_middle (x : Z) pre post :
  x ∉ (pre ++ post) ->
  List.filter (fun y => negb (y =? x)) (pre ++ x :: post) = pre ++ post.
Proof.
  intros H. rewrite List.filter_app. cbn [List.filter]. rewrite Z.eqb_refl. cbn [negb].
  rewrite !drop_absent; [reflexivity| |]; intros Hin; apply H; apply elem_of_app; auto.
Qed.

Section RuleInvariant.
Context {Graph : Type} {P : Patterns Graph}.

Lemma checkNCreatePathLCC_keeps : keepsDistinct checkNCreatePathLCC.
Proof.
  intros st cur b st' H [Hnd Hbelow]. unfold checkNCreatePathLCC in H.
  destruct (pathPattern st cur) as [succ| |]; try discriminate.
  - destruct (eraseFromGlobalLCCList cur (outerLCCs st)) as [[i l1]| |] eqn:E1;
      try discriminate.
    cbn [mbind result_bind fst snd] in H.
    destruct (erase_insert_keeps _ (nextID st) _ _ _ E1 Hnd (below_fresh _ _ Hbelow))
      as [Hnd2 Hsub2].
    destruct (eraseFromGlobalLCCList succ _) as [[j l2]| |] eqn:E2; try discriminate.
    cbn [mbind result_bind fst snd] in H. injection H as <- <-.
    destruct (erase_keeps _ _ _ _ E2 Hnd2) as (Hnd3 & Hsub3 & _).
    split; cbn [outerLCCs nextID]; [exact Hnd3|].
    eapply below_next; [exact Hbelow|]. auto.
  - injection H as <- <-. split; assumption.
Qed.

Lemma checkNCreateBranchLCC_keeps : keepsDistinct checkNCreateBranchLCC.
Proof.
  intros st cur b st' H [Hnd Hbelow]. unfold checkNCreateBranchLCC in H.
  destruct (branchPattern st cur) as [[postDom middle]| |]; try discriminate.
  - destruct (eraseFromGlobalLCCList cur (outerLCCs st)) as [[i l1]| |] eqn:E1;
      try discriminate.
    cbn [mbind result_bind fst snd] in H.
    destruct (erase_insert_keeps _ (nextID st) _ _ _ E1 Hnd (below_fresh _ _ Hbelow))
      as [Hnd2 Hsub2].
    destruct (eraseFromGlobalLCCList postDom _) as [[j l2]| |] eqn:E2; try discriminate.
    cbn [mbind result_bind fst snd] in H.
    destruct (erase_keeps _ _ _ _ E2 Hnd2) as (Hnd3 & Hsub3 & _).
    destruct (eraseAll middle l2) as [l3| |] eqn:E3; try discriminate.
    cbn [mbind result_bind] in H. injection H as <- <-.
    destruct (eraseAll_keeps _ _ _ E3 Hnd3) as (Hnd4 & Hsub4).
    split; cbn [outerLCCs nextID]; [exact Hnd4|].
    eapply below_next; [exact Hbelow|]. auto.
  - injection H as <- <-. split; assumption.
Qed.

Lemma checkNCreateLoopLCC_keeps : keepsDistinct checkNCreateLoopLCC.
Proof.
  intros st cur b st' H [Hnd Hbelow]. unfold checkNCreateLoopLCC in H.
  destruct (loopPattern st cur) as [[[pred body] succ]| |]; try discriminate.
  - destruct (eraseFromGlobalLCCList pred (outerLCCs st)) as [[i l1]| |] eqn:E1;
      try discriminate.
    cbn [mbind result_bind fst snd] in H.
    destruct (erase_insert_keeps _ (nextID st) _ _ _ E1 Hnd (below_fresh _ _ Hbelow))
      as [Hnd2 Hsub2].
    destruct (eraseFromGlobalLCCList cur _) as [[j l2]| |] eqn:E2; try discriminate.
    cbn [mbind result_bind fst snd] in H.
    destruct (erase_keeps _ _ _ _ E2 Hnd2) as (Hnd3 & Hsub3 & _).
    destruct body as [body|].
    + destruct (eraseFromGlobalLCCList body l2) as [[k l3]| |] eqn:E3; try discriminate.
      cbn [mbind result_bind fst snd] in H.
      destruct (erase_keeps _ _ _ _ E3 Hnd3) as (Hnd4 & Hsub4 & _).
      destruct (eraseFromGlobalLCCList succ l3) as [[m l4]| |] eqn:E4; try discriminate.
      cbn [mbind result_bind fst snd] in H. injection H as <- <-.
      destruct (erase_keeps _ _ _ _ E4 Hnd4) as (Hnd5 & Hsub5 & _).
      split; cbn [outerLCCs nextID]; [exact Hnd5|].
      eapply below_next; [exact Hbelow|]. auto.
    + cbn [mbind result_bind fst snd] in H.
      destruct (eraseFromGlobalLCCList succ l2) as [[m l4]| |] eqn:E4; try discriminate.
      cbn [mbind result_bind fst snd] in H. injection H as <- <-.
      destruct (erase_keeps _ _ _ _ E4 Hnd3) as (Hnd5 & Hsub5 & _).
      split; cbn [outerLCCs nextID]; [exact Hnd5|].
      eapply below_next; [exact Hbelow|]. auto.
  - injection H as <- <-. split; assumption.
Qed.

Lemma rules_keep : keepsDistinct checkNApplyRules.
Proof.
  intros st cur b st' H Hinv. unfold checkNApplyRules in H.
  destruct (checkNCreatePathLCC st cur) as [[b1 s1]| |] eqn:E1; try discriminate.
  pose proof (checkNCreatePathLCC_keeps _ _ _ _ E1 Hinv) as H1.
  cbn [mbind result_bind fst snd] in H.
  destruct b1; [injection H as <- <-; exact H1|].
  destruct (checkNCreateBranchLCC s1 cur) as [[b2 s2]| |] eqn:E2; try discriminate.
  pose proof (checkNCreateBranchLCC_keeps _ _ _ _ E2 H1) as H2.
  cbn [mbind result_bind fst snd] in H.
  destruct b2; [injection H as <- <-; exact H2|].
  destruct (checkNCreateLoopLCC s2 cur) as [[b3 s3]| |] eqn:E3; try discriminate.
  pose proof (checkNCreateLoopLCC_keeps _ _ _ _ E3 H2) as H3.
  cbn [mbind result_bind fst snd] in H.
  destruct b3; injection H as <- <-; exact H3.
Qed.

Lemma scan_keeps lccs : forall st b st',
  scan lccs st = Ok (b, st') -> distinctBelow st -> distinctBelow st'.
Proof.
  induction lccs as [|x lccs IH]; intros st b st' H Hinv; cbn [scan] in H.
  - injection H as <- <-. exact Hinv.
  - destruct (checkNApplyRules st x) as [[b1 s1]| |] eqn:E; try discriminate.
    pose proof (rules_keep _ _ _ _ E Hinv) as H1.
    cbn [mbind result_bind fst snd] in H.
    destruct b1; [injection H as <- <-; exact H1|]. exact (IH _ _ _ H H1).
Qed.

Lemma scanLoop_keeps fuel : forall st passes b st' passes',
  scanLoop fuel st passes = Ok (b, st', passes') -> distinctBelow st -> distinctBelow st'.
Proof.
  induction fuel as [|fuel IH]; intros st passes b st' passes' H Hinv; cbn [scanLoop] in H;
    [discriminate|].
  destruct (scan (outerLCCs st) st) as [[b1 s1]| |] eqn:E; try discriminate.
  pose proof (scan_keeps _ _ _ _ E Hinv) as H1.
  cbn [mbind result_bind fst snd] in H.
  destruct b1; [exact (IH _ _ _ _ _ H H1)|]. injection H as <- <- <-. exact H1.
Qed.

End RuleInvariant.

End ReducerListProofs.

Section ReducerProperties.
Import Reducer ReducerSpec ReducerListProofs.

(** X12 (traverseNReduce, checkNCreatePathLCC, checkNCreateBranchLCC,
    checkNCreateLoopLCC, eraseFromGlobalLCCList).  Reduction keeps the outer
    list of a function well formed: if its containers are distinct and all
    below the id generator before traverseNReduce, they are so after it,
    whatever the patterns match. *)
Theorem traverseNReduce_keeps_distinct {Graph : Type} {P : Patterns Graph} (fuel : nat) :
  forall (st : RState Graph) (passes : nat) (st' : RState Graph) (passes' : nat),
  traverseNReduce fuel st passes = Ok (st', passes') ->
  distinctBelow st -> distinctBelow st'.
Proof.
  induction fuel as [|fuel IH]; intros st passes st' passes' H Hinv;
    [discriminate|].
  cbn [traverseNReduce] in H.
  destruct (scanLoop (S fuel) st passes) as [[[b s1] p1]| |] eqn:E; try discriminate.
  pose proof (scanLoop_keeps _ _ _ _ _ _ E Hinv) as H1.
  cbn [mbind result_bind] in H.
  destruct b; [exact (IH _ _ _ _ H H1)|]. injection H as <- <-. exact H1.
Qed.

Lemma traverseNReduce_keeps_distinct_witness :
  exists st' passes,
    traverseNReduce (P := chainPatterns) 4 chainState 0 = Ok (st', passes) /\
    distinctBelow st'.
Proof.
  destruct (traverseNReduce (P := chainPatterns) 4 chainState 0) as [[st' passes]| |] eqn:E.
  - exists st', passes. split; [reflexivity|].
    apply (traverseNReduce_keeps_distinct (P := chainPatterns) 4 chainState 0 st' passes E).
    split; [|repeat constructor].
    repeat (apply NoDup_cons; split; [vm_compute; intros H; inversion H; subst;
      repeat match goal with H : _ ∈ _ |- _ => inversion H; clear H; subst end|]).
    apply NoDup_nil_2.
  - vm_compute in E. discriminate E.
  - vm_compute in E. discriminate E.
Defined.

(** X13 (checkNCreatePathLCC).  When the path rule applies to a well-formed
    list, the new container takes the very place of the entry container, the
    successor is removed, and every other container keeps its place; the new
    container carries the id of the generator, which is incremented. *)
Theorem checkNCreatePathLCC_replaces_in_place {Graph : Type} {P : Patterns Graph}
    (st : RState Graph) (currentLCC succLCC : Z) (b : bool) (st' : RState Graph) :
  pathPattern st currentLCC = Matched succLCC ->
  checkNCreatePathLCC st currentLCC = Ok (b, st') ->
  distinctBelow st ->
  b = true /\
  outerLCCs st' = replaceAndDrop currentLCC (nextID st) succLCC (outerLCCs st) /\
  nextID st' = nextID st + 1 /\
  graph st' = newPathLCC (graph st) (nextID st) currentLCC succLCC.
Proof.
  intros Hpat H [Hnd Hbelow]. unfold checkNCreatePathLCC in H. rewrite Hpat in H.
  destruct (eraseFromGlobalLCCList currentLCC (outerLCCs st)) as [[i l1]| |] eqn:E1;
    try discriminate.
  cbn [mbind result_bind fst snd] in H.
  destruct (eraseFromGlobalLCCList succLCC _) as [[j l2]| |] eqn:E2; try discriminate.
  cbn [mbind result_bind fst snd] in H. injection H as <- <-.
  cbn [outerLCCs nextID graph]. repeat split.
  destruct (erase_split _ _ _ _ E1) as (pre & post & Hl & Hnin & -> & ->).
  rewrite insertAt_split in E2. rewrite Hl in Hnd |- *.
  assert (Hnd2 : NoDup (pre ++ nextID st :: post)).
  { apply NoDup_middle. apply NoDup_middle in Hnd. destruct Hnd as [Hx Hnd].
    split; [|exact Hnd]. intros Hin. apply (below_fresh _ _ Hbelow). rewrite Hl.
    apply elem_of_middle. right. exact Hin. }
  apply NoDup_middle in Hnd. destruct Hnd as [Hcur _].
  unfold replaceAndDrop. rewrite replace_middle by exact Hcur.
  destruct (erase_split _ _ _ _ E2) as (pre2 & post2 & Hl2 & Hnin2 & _ & ->).
  rewrite Hl2 in Hnd2 |- *. apply NoDup_middle in Hnd2. destruct Hnd2 as [Hsucc _].
  symmetry. apply drop_middle. exact Hsucc.
Qed.

Lemma checkNCreatePathLCC_replaces_in_place_witness :
  exists st',
    checkNCreatePathLCC (P := chainPatterns) chainState 1 = Ok (true, st') /\
    outerLCCs st' = [4; 3] /\ nextID st' = 5.
Proof.
  destruct (checkNCreatePathLCC (P := chainPatterns) chainState 1) as [[b st']| |] eqn:E.
  - destruct (checkNCreatePathLCC_replaces_in_place (P := chainPatterns) chainState 1 2 b st')
      as (-> & Hl & Hn & _).
    + reflexivity.
    + exact E.
    + split; [|repeat constructor].
      repeat (apply NoDup_cons; split; [vm_compute; intros H; inversion H; subst;
        repeat match goal with H : _ ∈ _ |- _ => inversion H; clear H; subst end|]).
      apply NoDup_nil_2.
    + exists st'. split; [reflexivity|]. split; [rewrite Hl; reflexivity|exact Hn].
  - vm_compute in E. discriminate E.
  - vm_compute in E. discriminate E.
Defined.

(** X14 (checkNCreatePathLCC, eraseFromGlobalLCCList).  The path rule stops at the
    assertion of eraseFromGlobalLCCList when its pattern names a container
    that is no longer in the outer list, or names the entry container itself
    as the successor: nothing is combined silently. *)
Theorem checkNCreatePathLCC_stale_container {Graph : Type} {P : Patterns Graph}
    (st : RState Graph) (currentLCC succLCC : Z) :
  pathPattern st currentLCC = Matched succLCC ->
  distinctBelow st -> succLCC <> nextID st ->
  (currentLCC ∉ outerLCCs st) \/ (succLCC ∉ outerLCCs st) \/ succLCC = currentLCC ->
  checkNCreatePathLCC st currentLCC
  = Fatal "Node had already been removed from global list of containers".
Proof.
  intros Hpat [Hnd Hbelow] Hnew Hcase. unfold checkNCreatePathLCC. rewrite Hpat.
  destruct (decide (currentLCC ∈ outerLCCs st)) as [Hin|Hnin];
    [|rewrite (erase_absent _ _ Hnin); reflexivity].
  destruct (list_elem_of_split_l _ _ Hin) as (pre & post & Hl & Hpre).
  rewrite Hl. rewrite (erase_present _ _ _ Hpre). cbn [mbind result_bind fst snd].
  rewrite insertAt_split. rewrite Hl in Hnd. apply NoDup_middle in Hnd.
  destruct Hnd as [Hcur Hnd].
  rewrite erase_absent; [reflexivity|].
  intros Hs. apply elem_of_middle in Hs. destruct Hs as [Hs|Hs]; [contradiction|].
  destruct Hcase as [Hc|[Hc| ->]].
  - contradiction.
  - apply Hc. rewrite Hl. apply elem_of_middle. right. exact Hs.
  - contradiction.
Qed.

Lemma checkNCreatePathLCC_stale_container_witness :
  checkNCreatePathLCC (P := chainPatterns) staleState 1
  = Fatal "Node had already been removed from global list of containers".
Proof.
  apply (checkNCreatePathLCC_stale_container (P := chainPatterns) staleState 1 2).
  - reflexivity.
  - split; [|repeat constructor].
    repeat (apply NoDup_cons; split; [vm_compute; intros H; inversion H; subst;
      repeat match goal with H : _ ∈ _ |- _ => inversion H; clear H; subst end|]).
    apply NoDup_nil_2.
  - discriminate.
  - right. left. vm_compute. intros H. inversion H; subst.
    repeat match goal with H : _ ∈ _ |- _ => inversion H; clear H; subst end.
Defined.

End ReducerProperties.

Module UnitProofs.
Import CostEval EvalSpec.

Lemma to_long_add_l a b : to_long (to_long a + b) = to_long (a + b).
Proof.
  unfold to_long, wrap. f_equal.
  rewrite <- Z.add_assoc, (Z.add_comm b), Z.add_assoc.
  replace ((a + 2 ^ (64 - 1)) mod 2 ^ 64 - 2 ^ (64 - 1) + 2 ^ (64 - 1) + b)
    with ((a + 2 ^ (64 - 1)) mod 2 ^ 64 + b) by lia.
  rewrite Z.add_mod_idemp_l by (apply Z.pow_nonzero; lia).
  f_equal. lia.
Qed.

Lemma to_long_idem a : to_long (to_long a) = to_long a.
Proof.
  pose proof (to_long_add_l a 0) as H. rewrite !Z.add_0_r in H. exact H.
Qed.

Lemma to_long_add_cong a x y : to_long x = to_long y -> to_long (a + x) = to_long (a + y).
Proof.
  intros H. rewrite (Z.add_comm a x), (Z.add_comm a y).
  rewrite <- (to_long_add_l x a), <- (to_long_add_l y a), H. reflexivity.
Qed.

Section UnitLoop.
Variable cfg : Config.
Variable g : Globals.
Variable u : UnitLCC.

Lemma getInstCostForIC_const inst c :
  getInstCostForIC cfg g inst = Ok c -> exists n, c = CONST n.
Proof.
  unfold getInstCostForIC, getConstantInstCost. intros H.
  destruct inst; try (injection H as <-; eauto).
  destruct calledFunction as [name|]; [|injection H as <-; eauto].
  match type of H with mbind _ ?e = _ => destruct e as [cc| |] end; try discriminate.
  cbn in H. injection H as <-. eauto.
Qed.

(** The marker of another instruction survives setInstrInfo. *)
Lemma setInstrInfo_marker i c st st' :
  setInstrInfo u (Some i) (Some c) st = Ok st' ->
  marker st (_lccID u) i = None ->
  marker st' (_lccID u) i = Some c /\
  (forall j, j <> i -> marker st' (_lccID u) j = marker st (_lccID u) j) /\
  _initialCost st' = _initialCost st.
Proof.
  intros H Hm. unfold setInstrInfo in H. unfold marker in Hm. rewrite Hm in H.
  cbn [mbind result_bind] in H. injection H as <-. unfold marker. cbn.
  rewrite lookup_insert_eq. cbn. rewrite lookup_insert_eq.
  split; [reflexivity|]. split; [|reflexivity].
  intros j Hj. rewrite lookup_insert_ne by congruence. reflexivity.
Qed.

Lemma unitLoopIC_bounded toInstrument l : forall total st r st',
  unitLoopIC cfg g u toInstrument l total st = Ok (r, st') ->
  r = 0 \/ (toInstrument = false /\ r <= CommitInterval cfg).
Proof.
  induction l as [|[idx inst] l IH]; intros total st r st' H; cbn [unitLoopIC] in H;
    [discriminate|].
  destruct (getInstCostForIC cfg g inst) as [c| |]; try discriminate.
  cbn [mbind result_bind] in H.
  destruct (getConstCost (Some c)) as [n| |]; try discriminate.
  cbn [mbind result_bind] in H.
  destruct (bool_decide (Some idx = _lastInst u)).
  - destruct toInstrument; cbn [orb] in H.
    + destruct (unitInstrumentForIC u _ st) as [s1| |]; try discriminate.
      cbn in H. injection H as <- <-. left. reflexivity.
    + destruct (CommitInterval cfg <? to_long (total + n)) eqn:E.
      * destruct (unitInstrumentForIC u _ st) as [s1| |]; try discriminate.
        cbn in H. injection H as <- <-. left. reflexivity.
      * injection H as <- <-. right. split; [reflexivity|]. apply Z.ltb_ge. exact E.
  - destruct (CommitInterval cfg <? to_long (total + n)).
    + destruct (setInstrInfo u (Some idx) _ st) as [s1| |]; try discriminate.
      cbn [mbind result_bind] in H. exact (IH _ _ _ _ H).
    + exact (IH _ _ _ _ H).
Qed.

Lemma sumZ_app a b : sumZ (a ++ b) = sumZ a + sumZ b.
Proof. unfold sumZ. induction a as [|x a IH]; cbn; [reflexivity|]. rewrite IH. lia. Qed.

(** The loop over the instructions: what comes in and what the
    instructions cost is what the markers and the result hold. *)
Lemma unitLoopIC_conserves toInstrument b instb l0 : forall total st r st',
  _lastInst u = Some b ->
  Forall (fun p => fst p <> b) l0 ->
  NoDup (List.map fst (l0 ++ [(b, instb)])) ->
  unmarked st (_lccID u) (l0 ++ [(b, instb)]) ->
  unitLoopIC cfg g u toInstrument (l0 ++ [(b, instb)]) total st = Ok (r, st') ->
  to_long (total + sumZ (List.map (instCostIC cfg g) (l0 ++ [(b, instb)])))
    = to_long (sumZ (List.map (markerCost st' (_lccID u)) (l0 ++ [(b, instb)])) + r) /\
  (forall j, j ∉ List.map fst (l0 ++ [(b, instb)]) ->
     marker st' (_lccID u) j = marker st (_lccID u) j).
Proof.
  intros total st r st' Hlast. revert total st.
  induction l0 as [|[idx inst] l0 IH]; intros total st Hne Hnd Hun H.
  - cbn [app unitLoopIC] in H. cbn [app List.map sumZ fold_right fst snd].
    unfold instCostIC, markerCost. cbn [fst snd].
    destruct (getInstCostForIC cfg g instb) as [c| |] eqn:Ec; try discriminate.
    destruct (getInstCostForIC_const _ _ Ec) as [n ->].
    cbn [mbind result_bind] in H.
    destruct (getConstCost (Some (CONST n))) as [n'| |] eqn:En; try discriminate.
    assert (n' = n).
    { unfold getConstCost in En. destruct (0 <=? n); cbn in En; [|discriminate].
      injection En as <-. reflexivity. }
    subst n'. cbn [mbind result_bind hasConstCost] in H |- *.
    rewrite Hlast in H. rewrite bool_decide_eq_true_2 in H by reflexivity.
    inversion Hun as [|? ? Hmb _]; subst. cbn [fst] in Hmb.
    rewrite !Z.add_0_r.
    assert (Hskip : to_long (total + n) = to_long (0 + to_long (total + n))).
    { rewrite Z.add_0_l, to_long_idem. reflexivity. }
    assert (Hinstr : forall s1,
      unitInstrumentForIC u (Some (getConstantInstCost (to_long (total + n)))) st = Ok s1 ->
      to_long (total + n)
        = to_long (match marker s1 (_lccID u) b with
                   | Some c => hasConstCost (Some c) | None => 0 end + 0) /\
      (forall j, j ∉ [b] -> marker s1 (_lccID u) j = marker st (_lccID u) j)).
    { intros s1 Hs1. unfold unitInstrumentForIC, getConstantInstCost in Hs1.
      cbn [hasConstCost] in Hs1.
      destruct (0 <=? to_long (total + n)); cbn [assert mbind result_bind] in Hs1;
        [|discriminate].
      destruct (Z.eqb_spec (to_long (total + n)) 0) as [E0|E0]; cbn [negb] in Hs1.
      - injection Hs1 as <-. rewrite Hmb. rewrite E0. split; [reflexivity|]. reflexivity.
      - rewrite Hlast in Hs1.
        destruct (setInstrInfo_marker _ _ _ _ Hs1 Hmb) as (Hm1 & Hframe & _).
        rewrite Hm1. cbn [hasConstCost]. rewrite Z.add_0_r, to_long_idem.
        split; [reflexivity|]. intros j Hj. apply Hframe. intros ->. apply Hj. left. }
    destruct toInstrument; cbn [orb] in H.
    + destruct (unitInstrumentForIC u _ st) as [s1| |] eqn:E1; try discriminate.
      cbn in H. injection H as <- <-. exact (Hinstr s1 eq_refl).
    + destruct (CommitInterval cfg <? to_long (total + n)).
      * destruct (unitInstrumentForIC u _ st) as [s1| |] eqn:E1; try discriminate.
        cbn in H. injection H as <- <-. exact (Hinstr s1 eq_refl).
      * injection H as <- <-. rewrite Hmb. rewrite Z.add_0_l, to_long_idem.
        split; reflexivity.
  - cbn [app unitLoopIC] in H. cbn [app List.map sumZ fold_right] in *.
    fold (sumZ (List.map (instCostIC cfg g) (l0 ++ [(b, instb)]))).
    fold (sumZ (List.map (markerCost st' (_lccID u)) (l0 ++ [(b, instb)]))).
    inversion Hne as [|? ? Hidx Hne']; subst. cbn [fst] in Hidx.
    inversion Hnd as [|? ? Hnin Hnd']; subst.
    inversion Hun as [|? ? Hmi Hun']; subst. cbn [fst] in Hmi, Hnin.
    unfold instCostIC at 1. unfold markerCost at 1. cbn [fst snd].
    destruct (getInstCostForIC cfg g inst) as [c| |] eqn:Ec; try discriminate.
    destruct (getInstCostForIC_const _ _ Ec) as [n ->].
    cbn [mbind result_bind] in H.
    destruct (getConstCost (Some (CONST n))) as [n'| |] eqn:En; try discriminate.
    assert (n' = n).
    { unfold getConstCost in En. destruct (0 <=? n); cbn in En; [|discriminate].
      injection En as <-. reflexivity. }
    subst n'. cbn [mbind result_bind hasConstCost] in H |- *.
    rewrite Hlast in H. rewrite bool_decide_eq_false_2 in H by congruence.
    destruct (CommitInterval cfg <? to_long (total + n)).
    + destruct (setInstrInfo u (Some idx) _ st) as [s1| |] eqn:E1; try discriminate.
      cbn [mbind result_bind] in H.
      destruct (setInstrInfo_marker _ _ _ _ E1 Hmi) as (Hm1 & Hframe & _).
      assert (Hun1 : unmarked s1 (_lccID u) (l0 ++ [(b, instb)])).
      { unfold unmarked in *. rewrite Forall_forall in Hun' |- *. intros p Hp.
        rewrite Hframe; [apply Hun'; exact Hp|].
        intros Heq. apply Hnin. rewrite <- Heq. apply list_elem_of_In, in_map.
        apply list_elem_of_In. exact Hp. }
      destruct (IH n s1 Hne' Hnd' Hun1 H) as [Hsum Hfr].
      assert (Hmidx : marker st' (_lccID u) idx = Some (getConstantInstCost total)).
      { rewrite Hfr; [exact Hm1|]. intros Hin. apply Hnin. exact Hin. }
      rewrite Hmidx. unfold getConstantInstCost. cbn [hasConstCost]. split.
      * rewrite <- !Z.add_assoc. apply to_long_add_cong. exact Hsum.
      * intros j Hj. rewrite Hfr.
        -- apply Hframe. intros ->. apply Hj. left.
        -- intros Hin. apply Hj. right. exact Hin.
    + destruct (IH (to_long (total + n)) st Hne' Hnd' Hun' H) as [Hsum Hfr].
      assert (Hmidx : marker st' (_lccID u) idx = None).
      { rewrite Hfr; [exact Hmi|]. intros Hin. apply Hnin. exact Hin. }
      rewrite Hmidx. split.
      * rewrite Z.add_0_l, <- Hsum, to_long_add_l, Z.add_assoc. reflexivity.
      * intros j Hj. apply Hfr. intros Hin. apply Hj. right. exact Hin.
Qed.

End UnitLoop.

Lemma imap_indices (xs : list Instruction) : forall a,
  List.map fst (imap (fun k inst => ((a + k)%nat, inst)) xs) = seq a (length xs).
Proof.
  induction xs as [|x xs IH]; intros a; [reflexivity|].
  cbn [imap List.map length seq fst]. rewrite Nat.add_0_r. f_equal.
  rewrite <- IH. f_equal. apply imap_ext. intros k y _. cbn. f_equal. lia.
Qed.

(** The instructions of a unit container end in its last instruction and
    are met once each. *)
Lemma unitInsts_shape F u l :
  unitInsts F u = Ok l ->
  exists b instb l0,
    _lastInst u = Some b /\ l = l0 ++ [(b, instb)] /\
    Forall (fun p => fst p <> b) l0 /\ NoDup (List.map fst l).
Proof.
  unfold unitInsts. destruct (_firstInst u) as [a|]; [|discriminate].
  destruct (_lastInst u) as [b|]; [|discriminate].
  destruct (findBlock F (_currentBlock u)) as [bb|]; [|discriminate].
  destruct ((a <=? b)%nat && (b <? length (insts bb))%nat) eqn:E; [|discriminate].
  apply andb_true_iff in E. destruct E as [Hab Hb].
  apply Nat.leb_le in Hab. apply Nat.ltb_lt in Hb.
  intros H. injection H as <-.
  set (xs := take (S b - a) (drop a (insts bb))).
  assert (Hlen : length xs = S (b - a)).
  { unfold xs. rewrite length_take, length_drop. lia. }
  destruct (exists_last (l := xs)) as (xs0 & x & Hxs).
  { intros E. rewrite E in Hlen. discriminate. }
  assert (Hlen0 : length xs0 = (b - a)%nat).
  { rewrite Hxs, length_app in Hlen. cbn in Hlen. lia. }
  exists b, x, (imap (fun k inst => ((a + k)%nat, inst)) xs0).
  split; [reflexivity|]. split; [|split].
  - rewrite Hxs, imap_app. cbn [imap]. unfold compose.
    rewrite Hlen0. repeat f_equal. lia.
  - apply Forall_forall. intros p Hp.
    assert (Hin : fst p ∈ List.map fst (imap (fun k inst => ((a + k)%nat, inst)) xs0)).
    { apply list_elem_of_In, in_map, list_elem_of_In. exact Hp. }
    rewrite imap_indices in Hin. apply list_elem_of_In, in_seq in Hin. lia.
  - rewrite imap_indices. apply NoDup_seq.
Qed.

End UnitProofs.

Section UnitProperties.
Import CostEval EvalSpec UnitProofs.

(** X15 (UnitLCC::getCostForIC).  The cost a unit container hands on under
    the instantaneous clock is a constant that is 0 when it was asked to
    instrument, and otherwise 0 or at most the commit interval: whatever
    exceeds the interval has been put in a marker. *)
Theorem unitGetCostForIC_bounded (cfg : Config) (g : Globals) (F : Function) (u : UnitLCC)
    (toInstrument : bool) (initialCost : costptr) (st : EvalState)
    (c : costptr) (st' : EvalState) :
  unitGetCostForIC cfg g F u toInstrument initialCost st = Ok (c, st') ->
  exists n, c = Some (CONST n) /\
    (n = 0 \/ (toInstrument = false /\ n <= CommitInterval cfg)).
Proof.
  unfold unitGetCostForIC. intros H.
  destruct (getConstCost initialCost) as [i0| |]; try discriminate.
  cbn [mbind result_bind] in H.
  destruct (assert (i0 <=? CommitInterval cfg) _) as [[]| |]; try discriminate.
  cbn [mbind result_bind] in H.
  match type of H with
  | mbind _ ?e = _ => destruct e as [[start s0]| |]
  end; try discriminate.
  cbn [mbind result_bind fst snd] in H.
  destruct (unitInsts F u) as [l| |]; try discriminate.
  cbn [mbind result_bind] in H.
  destruct (unitLoopIC cfg g u toInstrument l start s0) as [[r s1]| |] eqn:E;
    try discriminate.
  cbn [mbind result_bind fst snd] in H. injection H as <- <-.
  exists r. split; [reflexivity|]. exact (unitLoopIC_bounded _ _ _ _ _ _ _ _ _ E).
Qed.

Lemma unitGetCostForIC_bounded_witness :
  exists n st',
    unitGetCostForIC exampleConfig workGlobals ifThenF thenUnit false
      (Some (CONST 2)) initialEvalState = Ok (Some (CONST n), st') /\
    n <= 1000.
Proof.
  destruct (unitGetCostForIC exampleConfig workGlobals ifThenF thenUnit false
              (Some (CONST 2)) initialEvalState) as [[c st']| |] eqn:E.
  - destruct (unitGetCostForIC_bounded _ _ _ _ _ _ _ _ _ E) as (n & -> & Hn).
    exists n, st'. split; [reflexivity|]. destruct Hn as [->|[_ Hn]]; [lia|exact Hn].
  - vm_compute in E. discriminate E.
  - vm_compute in E. discriminate E.
Defined.

(** X16 (UnitLCC::getCostForIC).  The first instantaneous evaluation of a unit
    container loses no cost: in long arithmetic, the initial cost plus the
    costs of its instructions equals the costs of the markers it placed
    plus the cost it returns. *)
Theorem unitGetCostForIC_conserves (cfg : Config) (g : Globals) (F : Function) (u : UnitLCC)
    (toInstrument : bool) (i0 : Z) (st : EvalState) (l : list (nat * Instruction))
    (c : costptr) (st' : EvalState) :
  unitInsts F u = Ok l ->
  unmarked st (_lccID u) l ->
  _initialCost st !! _lccID u = None ->
  unitGetCostForIC cfg g F u toInstrument (Some (CONST i0)) st = Ok (c, st') ->
  exists rem, c = Some (CONST rem) /\
    to_long (i0 + sumZ (List.map (instCostIC cfg g) l))
    = to_long (sumZ (List.map (markerCost st' (_lccID u)) l) + rem).
Proof.
  intros Hl Hun Hinit H. unfold unitGetCostForIC in H.
  destruct (getConstCost (Some (CONST i0))) as [i1| |] eqn:Ei; try discriminate.
  assert (i1 = i0).
  { unfold getConstCost in Ei. destruct (0 <=? i0); cbn in Ei; [|discriminate].
    injection Ei as <-. reflexivity. }
  subst i1. cbn [mbind result_bind] in H.
  destruct (assert (i0 <=? CommitInterval cfg) _) as [[]| |]; try discriminate.
  cbn [mbind result_bind] in H. rewrite Hinit, Hl in H.
  cbn [mbind result_bind fst snd] in H.
  destruct (unitLoopIC cfg g u toInstrument l i0 _) as [[r s1]| |] eqn:E; try discriminate.
  cbn [mbind result_bind fst snd] in H. injection H as <- <-.
  exists r. split; [reflexivity|].
  destruct (unitInsts_shape _ _ _ Hl) as (b & instb & l0 & Hlast & -> & Hne & Hnd).
  refine (proj1 (unitLoopIC_conserves cfg g u toInstrument b instb l0 i0 _ r s1
                   Hlast Hne Hnd _ E)).
  exact Hun.
Qed.

Lemma unitGetCostForIC_conserves_witness :
  exists rem st',
    unitGetCostForIC exampleConfig workGlobals ifThenF thenUnit true
      (Some (CONST 700)) initialEvalState = Ok (Some (CONST rem), st') /\
    to_long (700 + sumZ (List.map (instCostIC exampleConfig workGlobals)
                           [(0%nat, CallInst (Some "work") false); (1%nat, BranchInst [2])]))
    = to_long (sumZ (List.map (markerCost st' 1)
                       [(0%nat, CallInst (Some "work") false); (1%nat, BranchInst [2])])
               + rem).
Proof.
  destruct (unitGetCostForIC exampleConfig workGlobals ifThenF thenUnit true
              (Some (CONST 700)) initialEvalState) as [[c st']| |] eqn:E.
  - destruct (unitGetCostForIC_conserves exampleConfig workGlobals ifThenF thenUnit true 700
                initialEvalState [(0%nat, CallInst (Some "work") false);
                                  (1%nat, BranchInst [2])] c st')
      as (rem & -> & Hsum).
    + reflexivity.
    + repeat constructor.
    + reflexivity.
    + exact E.
    + exists rem, st'. split; [reflexivity|exact Hsum].
  - vm_compute in E. discriminate E.
  - vm_compute in E. discriminate E.
Defined.

End UnitProperties.

Section BranchProperties.
Import CostEval.

(** X17 (BranchLCC::getCostForIC).  Whatever its child containers return, the
    cost a branch container hands on under the instantaneous clock is a
    constant that is 0 when it was asked to instrument, and otherwise 0 or a
    value between 0 and the commit interval: a larger remainder is put in the
    exit container. *)
Theorem branchGetCostForIC_bounded {double longdouble : Type}
    {FO : FloatOps double longdouble} (cfg : Config) (b : BranchLCC)
    (toInstrument : bool) (initialCost : costptr) (st : EvalState)
    (c : costptr) (st' : EvalState) :
  branchGetCostForIC cfg b toInstrument initialCost st = Ok (c, st') ->
  exists n, c = Some (CONST n) /\
    (n = 0 \/ (toInstrument = false /\ 0 <= n <= CommitInterval cfg)).
Proof.
  assert (Hexit : forall avg s,
    branchExitIC cfg b toInstrument avg s = Ok (c, st') ->
    exists n, c = Some (CONST n) /\
      (n = 0 \/ (toInstrument = false /\ 0 <= n <= CommitInterval cfg))).
  { intros avg s H. unfold branchExitIC in H.
    destruct (getCostForIC (_exitLCC b) false _ s) as [[e s1]| |]; try discriminate.
    cbn [mbind result_bind fst snd] in H.
    destruct (getConstCost e) as [rem| |] eqn:Er; try discriminate.
    cbn [mbind result_bind] in H.
    assert (He : e = Some (CONST rem) /\ 0 <= rem).
    { unfold getConstCost in Er. destruct e as [[v| | | | | |]|]; cbn in Er; try discriminate.
      destruct (Z.leb_spec 0 v); cbn in Er; [|discriminate]. injection Er as <-. auto. }
    destruct He as [-> Hrem].
    destruct toInstrument; cbn [orb] in H.
    - destruct (branchInstrumentForIC b _ s1); try discriminate. cbn in H.
      injection H as <- <-. exists 0. auto.
    - destruct (Z.ltb_spec (CommitInterval cfg) rem).
      + destruct (branchInstrumentForIC b _ s1); try discriminate. cbn in H.
        injection H as <- <-. exists 0. auto.
      + injection H as <- <-. exists rem. split; [reflexivity|]. right. auto with zarith. }
  unfold branchGetCostForIC. intros H.
  destruct (getConstCost initialCost) as [i0| |]; try discriminate.
  cbn [mbind result_bind] in H.
  destruct (assert (i0 <=? CommitInterval cfg) _) as [[]| |]; try discriminate.
  cbn [mbind result_bind] in H.
  destruct (getCostForIC (_entryLCC b) false initialCost st) as [[e s1]| |];
    try discriminate.
  cbn [mbind result_bind fst snd] in H.
  destruct (branchLoopIC (_branchLCCInfo b) e initialBranchAcc s1) as [[acc s2]| |];
    try discriminate.
  cbn [mbind result_bind fst snd] in H.
  destruct (getConstCost e) as [ne| |]; try discriminate.
  cbn [mbind result_bind] in H.
  match type of H with
  | (if ?cond then _ else _) = _ => destruct cond
  end.
  - destruct (instrumentBranchesIC (_branchLCCInfo b) _ s2) as [s3| |]; try discriminate.
    cbn [mbind result_bind] in H. exact (Hexit _ _ H).
  - exact (Hexit _ _ H).
Qed.

Lemma branchGetCostForIC_bounded_witness :
  exists n st',
    branchGetCostForIC (FO := ratioOps) exampleConfig ifThenBranch false
      (Some (CONST 0)) initialEvalState = Ok (Some (CONST n), st') /\
    n <= 1000.
Proof.
  destruct (branchGetCostForIC (FO := ratioOps) exampleConfig ifThenBranch false
              (Some (CONST 0)) initialEvalState) as [[c st']| |] eqn:E.
  - destruct (branchGetCostForIC_bounded _ _ _ _ _ _ _ E) as (n & -> & Hn).
    exists n, st'. split; [reflexivity|]. destruct Hn as [->|[_ [_ Hn]]]; [lia|exact Hn].
  - vm_compute in E. discriminate E.
  - vm_compute in E. discriminate E.
Defined.

End BranchProperties.

Module TilingProofs.
Import BuilderSpec.

Lemma tiles_snoc us : forall start mid u lastIdx,
  tiles start us mid ->
  _firstInst u = Some mid -> _lastInst u = Some lastIdx -> (mid <= lastIdx)%nat ->
  tiles start (us ++ [u]) (S lastIdx).
Proof.
  induction us as [|v us IH]; intros start mid u lastIdx H Hf Hl Hle; cbn [tiles app] in *.
  - subst mid. exists lastIdx. repeat split; assumption.
  - destruct H as (lv & Hvf & Hvl & Hvle & Hrest).
    exists lv. repeat split; try assumption. eapply IH; eassumption.
Qed.

Lemma madeFor_snoc b gen acc hasFence start log first lastIdx exiting :
  madeFor b gen acc ->
  madeFor b gen
    {| accHasFence := hasFence; accStartInst := start;
       accContainers := accContainers acc
                        ++ [mkUnitLCC (accIDGen acc) (bbId b) first lastIdx exiting];
       accIDGen := accIDGen acc + 1; accErrs := log |}.
Proof.
  intros (Hgen & Hall & Hnd). unfold madeFor. cbn.
  split; [lia|]. split.
  - apply Forall_app. split.
    + eapply Forall_impl; [exact Hall|]. cbn. intros u [H1 H2]. split; [exact H1|lia].
    + constructor; [|constructor]. cbn. split; [reflexivity|lia].
  - rewrite List.map_app. apply NoDup_app. split; [exact Hnd|]. split.
    + intros x Hx Hin. cbn in Hin. apply list_elem_of_singleton in Hin. subst x.
      apply list_elem_of_In, in_map_iff in Hx. destruct Hx as (u & Hu & Hin).
      rewrite Forall_forall in Hall. apply list_elem_of_In in Hin.
      destruct (Hall u Hin) as [_ H]. lia.
    + cbn. apply NoDup_singleton.
Qed.

Section Loop.
Variable g : Globals.
Variable b : BasicBlock.

Lemma containerLoop_tiles first gen term body : forall idx acc acc',
  Forall (fun i => isTerminator i = false) body ->
  isTerminator term = true ->
  getTerminator b = Some term ->
  length (insts b) = (idx + length (body ++ [term]))%nat ->
  loopInv b first idx gen acc ->
  containerLoop g b idx (body ++ [term]) acc = Ok acc' ->
  loopPost b first gen acc'.
Proof.
  induction body as [|i body IH]; intros idx acc acc' Hbody Hterm Hget Hlen Hinv H.
  - cbn [app length] in Hlen. destruct Hinv as [(s & Hs & Hle & Ht) Hmade].
    assert (Hkeep : acc' = acc -> loopPost b first gen acc').
    { intros ->. split; [|exact Hmade]. rewrite Hs. split; [lia|exact Ht]. }
    cbn [app containerLoop] in H. destruct term; try discriminate;
      try (injection H as <-; apply Hkeep; reflexivity).
    rewrite Hget in H. cbn [getNumSuccessors] in H. rewrite Hs in H.
    cbn [newUnitLCC mbind result_bind] in H. injection H as <-.
    split; [|apply madeFor_snoc; exact Hmade]. cbn.
    replace (length (insts b)) with (S idx) by lia.
    eapply tiles_snoc; [exact Ht| | |]; cbn; auto.
  - inversion Hbody as [|? ? Hi Hbody']; subst.
    change ((i :: body) ++ [term]) with (i :: (body ++ [term])) in H, Hlen.
    cbn [length] in Hlen.
    destruct Hinv as [(s & Hs & Hle & Ht) Hmade].
    assert (Hnext : nextStart idx (body ++ [term]) = Some (S idx)).
    { destruct body; reflexivity. }
    assert (Hstep : forall hasFence log,
      loopInv b first (S idx) gen
        {| accHasFence := hasFence; accStartInst := accStartInst acc;
           accContainers := accContainers acc; accIDGen := accIDGen acc;
           accErrs := log |}).
    { intros hasFence log. split; [|exact Hmade]. exists s. cbn. repeat split; auto. }
    assert (Hsame : loopInv b first (S idx) gen acc).
    { split; [|exact Hmade]. exists s. repeat split; auto. }
    assert (Hsplit : forall hasFence log acc1,
      (newLCC ← newUnitLCC (accIDGen acc) (bbId b) (accStartInst acc) (Some idx) false;
       containerLoop g b (S idx) (body ++ [term])
         {| accHasFence := hasFence; accStartInst := nextStart idx (body ++ [term]);
            accContainers := accContainers acc ++ [newLCC];
            accIDGen := accIDGen acc + 1; accErrs := log |}) = Ok acc1 ->
      loopPost b first gen acc1).
    { intros hasFence log acc1 H1. rewrite Hs, Hnext in H1.
      cbn [newUnitLCC mbind result_bind] in H1.
      refine (IH (S idx) _ acc1 Hbody' Hterm Hget _ _ H1); [lia|].
      split; [|apply madeFor_snoc; exact Hmade]. exists (S idx). cbn.
      split; [reflexivity|]. split; [lia|].
      eapply tiles_snoc; [exact Ht| | |]; cbn; auto. }
    destruct i as [| | |[name|] dbg| | | | |]; try discriminate;
      cbn [containerLoop] in H;
      try (refine (IH (S idx) acc acc' Hbody' Hterm Hget _ Hsame H); lia).
    destruct (isFenceFunc g name).
    + exact (Hsplit _ _ _ H).
    + destruct (computedFuncInfo (costEnv g) !! name) as [found|].
      * destruct (fi_hasFence found); [exact (Hsplit _ _ _ H)|].
        refine (IH (S idx) _ acc' Hbody' Hterm Hget _ (Hstep _ _) H); lia.
      * destruct (accHasFence acc); [exact (Hsplit _ _ _ H)|].
        refine (IH (S idx) _ acc' Hbody' Hterm Hget _ (Hstep _ _) H); lia.
Qed.

End Loop.

Lemma registerUnit_other us : forall st id,
  id ∉ List.map _lccID us ->
  units (fold_left registerUnit us st) !! id = units st !! id.
Proof.
  induction us as [|u us IH]; intros st id Hid; [reflexivity|].
  cbn [fold_left]. rewrite IH.
  - cbn. apply lookup_insert_ne. intros Heq. apply Hid. rewrite <- Heq. left.
  - intros Hin. apply Hid. right. exact Hin.
Qed.

Lemma registerUnit_units us : forall st,
  NoDup (List.map _lccID us) ->
  Forall (fun u => units (fold_left registerUnit us st) !! _lccID u = Some u) us.
Proof.
  induction us as [|u us IH]; intros st Hnd; [constructor|].
  cbn [List.map] in Hnd. apply NoDup_cons in Hnd. destruct Hnd as [Hu Hnd].
  constructor.
  - cbn [fold_left]. rewrite registerUnit_other by exact Hu. cbn.
    apply lookup_insert_eq.
  - cbn [fold_left]. apply IH. exact Hnd.
Qed.

Lemma registerUnit_map us : forall st,
  bbToContainersMap (fold_left registerUnit us st) = bbToContainersMap st.
Proof.
  induction us as [|u us IH]; intros st; [reflexivity|]. cbn [fold_left]. rewrite IH.
  reflexivity.
Qed.

End TilingProofs.

Section BuilderProperties.
Import BuilderSpec TilingProofs.

(** X18 (makeContainersOfBB).  The unit containers made for a well-formed block
    partition it: they are recorded for the block in order, the first starts
    at the first instruction that is not a phi, each next one starts right
    after the last instruction of the one before, and the last one ends at the
    end of the block.  Every instruction after the phis lies in exactly one
    unit container. *)
Theorem makeContainersOfBB_tiles (g : Globals) (st : BuilderState) (b : BasicBlock)
    (hasFence : bool) (st' : BuilderState) :
  wfBlock b ->
  makeContainersOfBB g st b = Ok (hasFence, st') ->
  exists startIdx us,
    checkForPhi (insts b) 0 = Some startIdx /\
    bbToContainersMap st' !! bbId b = Some (List.map _lccID us) /\
    Forall (fun u => units st' !! _lccID u = Some u /\ _currentBlock u = bbId b) us /\
    tiles startIdx us (length (insts b)).
Proof.
  intros (body & term & Hb & Hterm & Hbody) H.
  destruct (checkForPhi_wf body term 0 Hbody Hterm) as (k & Hk & Hle & Hdrop).
  cbn in Hk. unfold makeContainersOfBB in H. rewrite Hb, Hk, Hdrop in H.
  rewrite <- Hb in H.
  match type of H with
  | mbind _ (containerLoop _ _ _ _ ?a) = _ => set (acc0 := a) in H
  end.
  destruct (containerLoop g b k (drop k body ++ [term]) acc0) as [acc| |] eqn:E;
    try discriminate.
  cbn [mbind result_bind] in H.
  assert (Hpost : loopPost b k (lccIDGen st) acc).
  { refine (containerLoop_tiles g b k (lccIDGen st) term (drop k body) k acc0 acc
              _ Hterm _ _ _ E).
    - apply Forall_drop. exact Hbody.
    - eapply getTerminator_wf; eassumption.
    - rewrite Hb, !length_app, length_drop. cbn. lia.
    - split.
      + exists k. cbn. repeat split; auto.
      + split; [cbn; lia|]. split; [constructor|apply NoDup_nil_2]. }
  assert (HkB : checkForPhi (insts b) 0 = Some k) by (rewrite Hb; exact Hk).
  exists k.
  destruct Hpost as [Hstart Hmade].
  destruct (accStartInst acc) as [s|] eqn:Es.
  - destruct Hstart as [Hs Ht]. cbn [newUnitLCC mbind result_bind] in H.
    injection H as _ <-.
    pose proof (madeFor_snoc b (lccIDGen st) acc (accHasFence acc) (Some s) (accErrs acc)
                  (Some s) (Some (length (insts b) - 1)%nat) false Hmade)
      as (_ & Hall & Hnd).
    cbn [accContainers accIDGen] in Hall, Hnd |- *.
    eexists. split; [exact HkB|]. split; [|split].
    + rewrite registerUnit_map. cbn. apply lookup_insert_eq.
    + pose proof (registerUnit_units _
        {| lccIDGen := accIDGen acc + 1; units := units st; edges := edges st;
           bbToContainersMap :=
             <[bbId b := List.map _lccID
                 (accContainers acc
                  ++ [mkUnitLCC (accIDGen acc) (bbId b) (Some s)
                        (Some (length (insts b) - 1)%nat) false])]> (bbToContainersMap st);
           globalOuterLCCList := globalOuterLCCList st; errs := accErrs acc |} Hnd) as Hu.
      apply Forall_forall. intros u Hin. rewrite Forall_forall in Hu, Hall.
      split; [exact (Hu u Hin)|]. exact (proj1 (Hall u Hin)).
    + replace (length (insts b)) with (S (length (insts b) - 1)) at 2 by lia.
      eapply tiles_snoc; [exact Ht| | |]; cbn; auto. lia.
  - cbn [mbind result_bind] in H. injection H as _ <-.
    destruct Hmade as (_ & Hall & Hnd).
    eexists. split; [exact HkB|]. split; [|split].
    + rewrite registerUnit_map. cbn. apply lookup_insert_eq.
    + pose proof (registerUnit_units _
        {| lccIDGen := accIDGen acc; units := units st; edges := edges st;
           bbToContainersMap :=
             <[bbId b := List.map _lccID (accContainers acc)]> (bbToContainersMap st);
           globalOuterLCCList := globalOuterLCCList st; errs := accErrs acc |} Hnd) as Hu.
      apply Forall_forall. intros u Hin. rewrite Forall_forall in Hu, Hall.
      split; [exact (Hu u Hin)|]. exact (proj1 (Hall u Hin)).
    + exact Hstart.
Qed.

Lemma makeContainersOfBB_tiles_witness :
  exists hasFence st' us,
    makeContainersOfBB predictiveGlobals initialBuilderState lockBlock = Ok (hasFence, st') /\
    bbToContainersMap st' !! 1 = Some (List.map _lccID us) /\
    tiles 0 us 3.
Proof.
  destruct (makeContainersOfBB predictiveGlobals initialBuilderState lockBlock)
    as [[hasFence st']| |] eqn:E.
  - destruct (makeContainersOfBB_tiles predictiveGlobals initialBuilderState lockBlock
                hasFence st') as (startIdx & us & Hk & Hmap & _ & Ht).
    + exists [lockCall; StoreInst], (BranchInst [2]).
      split; [reflexivity|]. split; [reflexivity|]. repeat constructor.
    + exact E.
    + cbn in Hk. injection Hk as <-.
      exists hasFence, st', us. split; [reflexivity|]. split; [exact Hmap|exact Ht].
  - vm_compute in E. discriminate E.
  - vm_compute in E. discriminate E.
Defined.

End BuilderProperties.

Module CostSpecProofs.
Import CostSpec.

Lemma to_int_fits z : (INT_MIN <=? to_int z) && (to_int z <=? INT_MAX) = true.
Proof.
  unfold to_int, wrap, INT_MIN, INT_MAX.
  pose proof (Z.mod_pos_bound (z + 2 ^ (32 - 1)) (2 ^ 32) ltac:(lia)) as H.
  apply andb_true_iff. split; [apply Z.leb_le|apply Z.leb_le]; lia.
Qed.

Lemma scevToCost_resolved s : resolved (scevToCost s) = true.
Proof.
  induction s as [bits v|k op ty IH|k ops IH|l r IHl IHr|ops L _|v|] using SCEV_nested_ind;
    cbn [scevToCost].
  - destruct (bits <=? 64)%N; [apply to_int_fits|reflexivity].
  - cbn [resolved length forallb Nat.eqb andb]. rewrite IH. reflexivity.
  - assert (Hops : forallb (fun o => match o with Some c' => resolved c' | None => false end)
                     (List.map (fun o => Some (scevToCost o)) ops) = true).
    { induction IH as [|o ops Ho _ IHops]; [reflexivity|].
      cbn [List.map forallb]. rewrite Ho, IHops. reflexivity. }
    destruct k; cbn [naryToCost resolved]; rewrite ?Hops; reflexivity.
  - cbn [resolved length forallb Nat.eqb andb]. rewrite IHl, IHr. reflexivity.
  - reflexivity.
  - destruct v; reflexivity.
  - reflexivity.
Qed.

End CostSpecProofs.

Section CostProperties.
Import CostSpec CostSpecProofs.

(** X19 (simplifyCost, scevToCost).  Whatever the scalar-evolution factories of
    the host do, a cost that simplifyCost returns has nothing left to resolve:
    its constants fit an int, it holds no call, no add-recurrence, no unsigned
    minimum and no null operand, every division has two operands and every
    cast one. *)
Theorem simplifyCost_resolved {SE : ScalarEvolution} (env : CostEnv) (fuel : nat)
    (F : Function) (complexCost : costptr) (doNotAssert : bool) (c : InstructionCost) :
  simplifyCost env fuel F complexCost doNotAssert = Ok (Some c) ->
  resolved c = true.
Proof.
  unfold simplifyCost. destruct complexCost as [cc|]; [|discriminate].
  destruct (costToSCEV env fuel (Some cc) (funcArgs F)) as [[s|]| |]; try discriminate.
  cbn [mbind result_bind]. destruct (isCouldNotCompute s).
  - destruct doNotAssert; discriminate.
  - intros H. injection H as <-. apply scevToCost_resolved.
Qed.

Lemma simplifyCost_resolved_witness :
  exists c,
    simplifyCost (SE := PlainSE) emptyCostEnv 5 mainF
      (Some (Op ADD [Some (CALL "f" []); Some (CONST 4294967301)])) false = Ok (Some c) /\
    resolved c = true.
Proof.
  destruct (simplifyCost (SE := PlainSE) emptyCostEnv 5 mainF
      (Some (Op ADD [Some (CALL "f" []); Some (CONST 4294967301)])) false)
    as [[c|]| |] eqn:E.
  - exists c. split; [reflexivity|].
    exact (simplifyCost_resolved (SE := PlainSE) _ _ _ _ _ _ E).
  - vm_compute in E. discriminate E.
  - vm_compute in E. discriminate E.
  - vm_compute in E. discriminate E.
Defined.

End CostProperties.

Module ExitBlockProofs.
Import ExitBlock.

Lemma exitBlockLoop_spec bbs : forall exitBB,
  Forall (fun b => is_Some (getTerminator b)) bbs ->
  exitBlockLoop bbs exitBB
  = Ok (match exitBB,
              List.filter (fun b => match getTerminator b with
                                    | Some termInst => isExitInst termInst
                                    | None => false
                                    end) bbs with
        | None, [] => None
        | None, [b] => Some (bbId b)
        | Some e, [] => Some e
        | _, _ => None
        end).
Proof.
  induction bbs as [|BB bbs IH]; intros exitBB Hall.
  - destruct exitBB; reflexivity.
  - inversion Hall as [|? ? [t Ht] Hall']; subst.
    cbn [exitBlockLoop List.filter]. rewrite Ht.
    destruct (isExitInst t).
    + destruct exitBB as [e|].
      * reflexivity.
      * rewrite IH by exact Hall'. reflexivity.
    + apply IH. exact Hall'.
Qed.

End ExitBlockProofs.

Section ExitBlockProperties.
Import ExitBlock ExitBlockProofs.

(** X20 (getFuncExitBlock).  In a function whose blocks all have a terminator,
    getFuncExitBlock finds the exit block exactly when one block, and only
    one, ends in a return or in unreachable; with no such block or with
    several it returns null. *)
Theorem getFuncExitBlock_unique (F : Function) :
  Forall (fun b => is_Some (getTerminator b)) (blocks F) ->
  getFuncExitBlock F
  = Ok (match exitBlocks F with
        | [b] => Some (bbId b)
        | _ => None
        end).
Proof.
  intros Hall. unfold getFuncExitBlock, exitBlocks.
  rewrite exitBlockLoop_spec by exact Hall.
  destruct (List.filter _ (blocks F)) as [|b [|b' l]]; reflexivity.
Qed.

Lemma getFuncExitBlock_unique_witness :
  getFuncExitBlock ifThenF = Ok (Some 2) /\ getFuncExitBlock twoExitF = Ok None.
Proof.
  split.
  - rewrite getFuncExitBlock_unique; [reflexivity|].
    repeat constructor; eexists; reflexivity.
  - rewrite getFuncExitBlock_unique; [reflexivity|].
    repeat constructor; eexists; reflexivity.
Defined.

End ExitBlockProperties.

Module UnitComposeProofs.
Import CostEval.

Lemma unitLoopIC_instrument_after cfg g u l : forall total st r st1,
  unitLoopIC cfg g u false l total st = Ok (r, st1) ->
  unitLoopIC cfg g u true l total st
  = (st2 ← unitInstrumentForIC u (Some (getConstantInstCost r)) st1; Ok (0, st2)).
Proof.
  induction l as [|[idx inst] l IH]; intros total st r st1 H; cbn [unitLoopIC] in H |- *;
    [discriminate|].
  destruct (getInstCostForIC cfg g inst) as [c| |]; try discriminate.
  cbn [mbind result_bind] in H |- *.
  destruct (getConstCost (Some c)) as [n| |]; try discriminate.
  cbn [mbind result_bind] in H |- *.
  destruct (bool_decide (Some idx = _lastInst u)).
  - cbn [orb] in H |- *. destruct (CommitInterval cfg <? to_long (total + n)).
    + destruct (unitInstrumentForIC u _ st) as [s1| |]; try discriminate.
      cbn [mbind result_bind] in H |- *. injection H as <- <-. reflexivity.
    + injection H as <- <-. reflexivity.
  - destruct (CommitInterval cfg <? to_long (total + n)).
    + destruct (setInstrInfo u (Some idx) _ st) as [s1| |]; try discriminate.
      cbn [mbind result_bind] in H |- *. exact (IH _ _ _ _ H).
    + exact (IH _ _ _ _ H).
Qed.

End UnitComposeProofs.

Section UnitComposition.
Import CostEval UnitComposeProofs.

(** X21 (UnitLCC::getCostForIC, UnitLCC::instrumentForIC).  Asking a unit
    container to instrument is the same as evaluating it without
    instrumentation and then instrumenting it with the cost it returned, as
    its parent containers do: both leave the same markers and hand on 0. *)
Theorem unitGetCostForIC_instrument_after (cfg : Config) (g : Globals) (F : Function)
    (u : UnitLCC) (initialCost : costptr) (st : EvalState) (r : Z) (st1 : EvalState) :
  unitGetCostForIC cfg g F u false initialCost st = Ok (Some (CONST r), st1) ->
  unitGetCostForIC cfg g F u true initialCost st
  = (st2 ← unitInstrumentForIC u (Some (CONST r)) st1; Ok (Some (CONST 0), st2)).
Proof.
  unfold unitGetCostForIC. intros H.
  destruct (getConstCost initialCost) as [i0| |]; try discriminate.
  cbn [mbind result_bind] in H |- *.
  destruct (assert (i0 <=? CommitInterval cfg) _) as [[]| |]; try discriminate.
  cbn [mbind result_bind] in H |- *.
  match type of H with
  | mbind _ ?e = _ => destruct e as [[start s0]| |]
  end; try discriminate.
  cbn [mbind result_bind fst snd] in H |- *.
  destruct (unitInsts F u) as [l| |]; try discriminate.
  cbn [mbind result_bind] in H |- *.
  destruct (unitLoopIC cfg g u false l start s0) as [[r' s1]| |] eqn:E; try discriminate.
  cbn [mbind result_bind fst snd] in H. injection H as <- <-.
  rewrite (unitLoopIC_instrument_after _ _ _ _ _ _ _ _ E).
  unfold getConstantInstCost.
  destruct (unitInstrumentForIC u (Some (CONST r')) s1); reflexivity.
Qed.

Lemma unitGetCostForIC_instrument_after_witness :
  exists st1 st2,
    unitGetCostForIC exampleConfig workGlobals ifThenF thenUnit false
      (Some (CONST 2)) initialEvalState = Ok (Some (CONST 504), st1) /\
    unitGetCostForIC exampleConfig workGlobals ifThenF thenUnit true
      (Some (CONST 2)) initialEvalState = Ok (Some (CONST 0), st2) /\
    marker st2 1 1 = Some (CONST 504).
Proof.
  destruct (unitGetCostForIC exampleConfig workGlobals ifThenF thenUnit false
              (Some (CONST 2)) initialEvalState) as [[c st1]| |] eqn:E.
  - assert (Hc : c = Some (CONST 504)).
    { vm_compute in E. injection E as <- _. reflexivity. }
    subst c.
    pose proof (unitGetCostForIC_instrument_after _ _ _ _ _ _ _ _ E) as H.
    destruct (unitInstrumentForIC thenUnit (Some (CONST 504)) st1) as [st2| |] eqn:E2.
    + exists st1, st2. split; [reflexivity|]. split; [exact H|].
      vm_compute in E. injection E as <-. vm_compute in E2. injection E2 as <-.
      reflexivity.
    + vm_compute in E. injection E as <-. vm_compute in E2. discriminate E2.
    + vm_compute in E. injection E as <-. vm_compute in E2. discriminate E2.
  - vm_compute in E. discriminate E.
  - vm_compute in E. discriminate E.
Defined.

End UnitComposition.

Module FenceFlagProofs.
Import FenceFlagSpec.

Section Flag.
Variable g : Globals.
Variable b : BasicBlock.

Lemma containerLoop_keeps_flag post : forall idx acc acc',
  Forall (keepsFlag g) post ->
  accHasFence acc = false ->
  containerLoop g b idx post acc = Ok acc' ->
  accHasFence acc' = false.
Proof.
  induction post as [|i post IH]; intros idx acc acc' Hpost Hacc H.
  - cbn in H. injection H as <-. exact Hacc.
  - inversion Hpost as [|? ? Hi Hpost']; subst. cbn [containerLoop] in H.
    destruct i as [| | |[name|] dbg| | | | |];
      try exact (IH _ _ _ Hpost' Hacc H).
    + destruct Hi as [Hf Hinfo]. rewrite Hf, Hinfo, Hacc in H.
      refine (IH _ _ _ Hpost' _ H). reflexivity.
    + destruct (getTerminator b) as [termInst|]; [|discriminate].
      destruct (newUnitLCC _ _ _ _ _) as [newLCC| |]; try discriminate.
      cbn [mbind result_bind] in H.
      destruct (getNumSuccessors termInst).
      * injection H as <-. exact Hacc.
      * refine (IH _ _ _ Hpost' _ H). exact Hacc.
Qed.

Lemma containerLoop_forgets pre f dbg post found : forall idx acc acc',
  Forall (fun i => isUnreachable i = false) pre ->
  isFenceFunc g f = false ->
  computedFuncInfo (costEnv g) !! f = Some found -> fi_hasFence found = false ->
  Forall (keepsFlag g) post ->
  containerLoop g b idx (pre ++ CallInst (Some f) dbg :: post) acc = Ok acc' ->
  accHasFence acc' = false.
Proof.
  intros idx acc acc' Hpre Hf Hinfo Hfound Hpost. revert idx acc.
  induction Hpre as [|i pre Hi _ IH]; intros idx acc H.
  - cbn [app containerLoop] in H. rewrite Hf, Hinfo, Hfound in H.
    refine (containerLoop_keeps_flag _ _ _ _ Hpost _ H). reflexivity.
  - change ((i :: pre) ++ CallInst (Some f) dbg :: post)
      with (i :: (pre ++ CallInst (Some f) dbg :: post)) in H.
    cbn [containerLoop] in H.
    destruct i as [| | |[name|] dbg'| | | | |]; try discriminate Hi;
      try exact (IH _ _ H).
    match type of H with
    | (let '(hasFence, log) := ?e in _) = _ => destruct e as [hasFence log]
    end.
    destruct hasFence.
    + destruct (newUnitLCC _ _ _ _ _) as [newLCC| |]; try discriminate.
      cbn [mbind result_bind] in H. exact (IH _ _ H).
    + exact (IH _ _ H).
Qed.

End Flag.

Lemma checkForPhi_bound pre i post : forall idx k,
  i <> PHINode ->
  checkForPhi (pre ++ i :: post) idx = Some k ->
  exists j, k = (idx + j)%nat /\ (j <= length pre)%nat.
Proof.
  induction pre as [|p pre IH]; intros idx k Hi H.
  - cbn [app checkForPhi] in H. destruct i; try congruence;
      injection H as <-; exists 0%nat; split; lia.
  - cbn [app checkForPhi] in H.
    destruct p; try (injection H as <-; exists 0%nat; cbn; split; lia).
    destruct (IH _ _ Hi H) as (j & -> & Hj). exists (S j). cbn. split; lia.
Qed.

End FenceFlagProofs.

Section FenceFlagProperties.
Import FenceFlagSpec FenceFlagProofs.

(** X22 (makeContainersOfBB).  The flag that makeContainersOfBB returns is the
    one left by the last call that sets it, not whether the block holds a
    fence: when the last such call is to a summarised function without a
    fence, the block reports no fence whatever comes before it, fences
    included. *)
Theorem makeContainersOfBB_flag_forgets_fence (g : Globals) (st : BuilderState)
    (b : BasicBlock) (pre post : list Instruction) (f : string) (dbg : bool)
    (found : FuncInfo) (hasFence : bool) (st' : BuilderState) :
  insts b = pre ++ CallInst (Some f) dbg :: post ->
  Forall (fun i => isUnreachable i = false) pre ->
  isFenceFunc g f = false ->
  computedFuncInfo (costEnv g) !! f = Some found -> fi_hasFence found = false ->
  Forall (keepsFlag g) post ->
  makeContainersOfBB g st b = Ok (hasFence, st') ->
  hasFence = false.
Proof.
  intros Hb Hpre Hf Hinfo Hfound Hpost H. unfold makeContainersOfBB in H.
  destruct (checkForPhi (insts b) 0) as [k|] eqn:Ek; [|discriminate].
  rewrite Hb in Ek.
  assert (Hcall : CallInst (Some f) dbg <> PHINode) by discriminate.
  destruct (checkForPhi_bound pre _ post 0 k Hcall Ek) as (j & -> & Hj).
  cbn [Nat.add] in H. rewrite Hb in H.
  rewrite drop_app_le in H by exact Hj.
  rewrite <- Hb in H.
  match type of H with
  | mbind _ (containerLoop _ _ _ _ ?a) = _ => set (acc0 := a) in H
  end.
  destruct (containerLoop g b j (drop j pre ++ CallInst (Some f) dbg :: post) acc0)
    as [acc| |] eqn:E; try discriminate.
  cbn [mbind result_bind] in H.
  assert (Hflag : accHasFence acc = false).
  { refine (containerLoop_forgets g b (drop j pre) f dbg post found j acc0 acc
              _ Hf Hinfo Hfound Hpost E).
    apply Forall_drop. exact Hpre. }
  destruct (accStartInst acc) as [s|].
  - cbn [newUnitLCC mbind result_bind] in H. injection H as <- _. exact Hflag.
  - cbn [mbind result_bind] in H. injection H as <- _. exact Hflag.
Qed.

Lemma makeContainersOfBB_flag_forgets_fence_witness :
  exists st',
    makeContainersOfBB forgetfulGlobals initialBuilderState forgetfulBlock = Ok (false, st') /\
    length (default [] (bbToContainersMap st' !! 3)) = 2%nat.
Proof.
  destruct (makeContainersOfBB forgetfulGlobals initialBuilderState forgetfulBlock)
    as [[hasFence st']| |] eqn:E.
  - assert (Hf : hasFence = false).
    { apply (makeContainersOfBB_flag_forgets_fence forgetfulGlobals initialBuilderState
               forgetfulBlock [lockCall] [ReturnInst] "helper" false
               {| fi_hasFence := false; fi_cost := Some (CONST 3) |} hasFence st').
      - reflexivity.
      - repeat constructor.
      - reflexivity.
      - reflexivity.
      - reflexivity.
      - repeat constructor.
      - exact E. }
    subst hasFence. exists st'. split; [reflexivity|].
    vm_compute in E. injection E as <-. reflexivity.
  - vm_compute in E. discriminate E.
  - vm_compute in E. discriminate E.
Defined.

End FenceFlagProperties.

Section NumberRoundTrip.
Import CostFile CostFileSpec CostFileProofs.

(** X23 (operator<<, readCost).  A number printed by writeCost and converted by
    atoi as in readCost comes back cut to 32 bits: every long reads back as
    its value wrapped to int, hence as itself exactly when it fits an int,
    negative numbers and 0 included. *)
Theorem atoi_printLong_wraps (n : Z) :
  in_long n ->
  atoi (printLong n) = to_int n /\ (in_int n -> atoi (printLong n) = n).
Proof.
  intros Hn. unfold in_long in Hn.
  assert (Hmain : atoi (printLong n) = to_int n).
  { unfold printLong. destruct (Z.ltb_spec n 0) as [Hneg|Hpos].
    - assert (Hval : atoiDigits (digits 20 (- n)) 0 = - n).
      { apply atoiDigits_digits. split; [lia|].
        change (10 ^ Z.of_nat 20) with (10 ^ 20). lia. }
      unfold atoi. cbn [skipSpaces].
      replace (isspace "-"%char) with false by reflexivity.
      replace (Ascii.eqb "-"%char "-"%char) with true by reflexivity.
      rewrite Hval. rewrite Z.min_r by lia. rewrite Z.max_r by lia. f_equal. lia.
    - pose proof (digits_isDigit 20 n ltac:(lia)) as Hd.
      pose proof (digits_nonempty 19 n) as Hne.
      assert (Hval : atoiDigits (digits 20 n) 0 = n).
      { apply atoiDigits_digits. split; [lia|].
        change (10 ^ Z.of_nat 20) with (10 ^ 20). lia. }
      unfold atoi. revert Hd Hne Hval. generalize (digits 20 n). intros [|c r] Hd Hne Hval.
      + contradiction.
      + assert (Hc : isDigit c = true) by (inversion Hd; assumption).
        destruct (isDigit_plain c Hc) as (_ & _ & _ & Hsp & Hminus & Hplus).
        cbn [skipSpaces]. rewrite Hsp, Hminus, Hplus, Hval.
        rewrite Z.min_r by lia. rewrite Z.max_r by lia. reflexivity. }
  split; [exact Hmain|]. intros Hint. rewrite Hmain. apply to_int_id. exact Hint.
Qed.

Lemma atoi_printLong_wraps_witness :
  atoi (printLong 4294967301) = 5 /\ atoi (printLong (-42)) = -42.
Proof.
  split.
  - destruct (atoi_printLong_wraps 4294967301) as [H _].
    + unfold in_long. lia.
    + rewrite H. reflexivity.
  - destruct (atoi_printLong_wraps (-42)) as [_ H].
    + unfold in_long. lia.
    + apply H. unfold in_int, INT_MIN, INT_MAX. lia.
Defined.

End NumberRoundTrip.

Module OuterListProofs.
Import BuilderSpec TilingProofs OuterListSpec.

Lemma newUnitLCC_Ok id blk firstInst lastInst exiting u :
  newUnitLCC id blk firstInst lastInst exiting = Ok u ->
  u = mkUnitLCC id blk firstInst lastInst exiting.
Proof.
  unfold newUnitLCC. destruct firstInst, lastInst; intros H; try discriminate;
    injection H as <-; reflexivity.
Qed.

Lemma madeFor_same b gen acc hasFence start log :
  madeFor b gen acc ->
  madeFor b gen
    {| accHasFence := hasFence; accStartInst := start;
       accContainers := accContainers acc; accIDGen := accIDGen acc; accErrs := log |}.
Proof. intros H. exact H. Qed.

Section AnyBlock.
Variable g : Globals.
Variable b : BasicBlock.

Lemma containerLoop_madeFor gen rest : forall idx acc acc',
  madeFor b gen acc ->
  containerLoop g b idx rest acc = Ok acc' ->
  madeFor b gen acc'.
Proof.
  induction rest as [|i rest IH]; intros idx acc acc' Hmade H.
  - cbn in H. injection H as <-. exact Hmade.
  - cbn [containerLoop] in H.
    destruct i as [| | |[name|] dbg| | | | |]; try exact (IH _ _ _ Hmade H).
    + match type of H with
      | (let '(hasFence, log) := ?e in _) = _ => destruct e as [hasFence log]
      end.
      destruct hasFence.
      * destruct (newUnitLCC _ _ _ _ _) as [newLCC| |] eqn:En; try discriminate.
        cbn [mbind result_bind] in H. apply newUnitLCC_Ok in En. subst newLCC.
        refine (IH _ _ _ _ H). apply madeFor_snoc. exact Hmade.
      * refine (IH _ _ _ _ H). apply madeFor_same. exact Hmade.
    + destruct (getTerminator b) as [termInst|]; [|discriminate].
      destruct (newUnitLCC _ _ _ _ _) as [newLCC| |] eqn:En; try discriminate.
      cbn [mbind result_bind] in H. apply newUnitLCC_Ok in En. subst newLCC.
      destruct (getNumSuccessors termInst).
      * injection H as <-. apply madeFor_snoc. exact Hmade.
      * refine (IH _ _ _ _ H). apply madeFor_snoc. exact Hmade.
Qed.

End AnyBlock.

Lemma registerUnit_list us : forall st,
  globalOuterLCCList (fold_left registerUnit us st)
    = globalOuterLCCList st ++ List.map _lccID us /\
  lccIDGen (fold_left registerUnit us st) = lccIDGen st.
Proof.
  induction us as [|u us IH]; intros st; cbn [fold_left List.map].
  - rewrite app_nil_r. auto.
  - destruct (IH (registerUnit st u)) as [-> ->]. cbn. rewrite <- app_assoc. auto.
Qed.

(** The outer list of a builder state is duplicate-free and below the id
    generator. *)
Lemma makeContainersOfBB_outer g st b hasFence st' :
  makeContainersOfBB g st b = Ok (hasFence, st') ->
  NoDup (globalOuterLCCList st) ->
  Forall (fun x => x < lccIDGen st) (globalOuterLCCList st) ->
  NoDup (globalOuterLCCList st') /\
  Forall (fun x => x < lccIDGen st') (globalOuterLCCList st').
Proof.
  intros H Hnd Hbelow. unfold makeContainersOfBB in H.
  destruct (checkForPhi (insts b) 0) as [k|]; [|discriminate].
  match type of H with
  | mbind _ (containerLoop _ _ _ _ ?a) = _ => set (acc0 := a) in H
  end.
  destruct (containerLoop g b k (drop k (insts b)) acc0) as [acc| |] eqn:E;
    try discriminate.
  cbn [mbind result_bind] in H.
  assert (Hmade : madeFor b (lccIDGen st) acc).
  { refine (containerLoop_madeFor g b (lccIDGen st) _ k acc0 acc _ E).
    split; [cbn; lia|]. split; [constructor|apply NoDup_nil_2]. }
  assert (Hfin : forall accF,
    madeFor b (lccIDGen st) accF ->
    NoDup (globalOuterLCCList st ++ List.map _lccID (accContainers accF)) /\
    Forall (fun x => x < accIDGen accF)
      (globalOuterLCCList st ++ List.map _lccID (accContainers accF))).
  { intros accF (Hgen & Hall & HndF). split.
    - apply NoDup_app. split; [exact Hnd|]. split; [|exact HndF].
      intros x Hx Hin. rewrite Forall_forall in Hbelow. specialize (Hbelow x Hx).
      apply list_elem_of_In, in_map_iff in Hin. destruct Hin as (u & <- & Hu).
      rewrite Forall_forall in Hall. apply list_elem_of_In in Hu.
      destruct (Hall u Hu) as [_ Hid]. lia.
    - apply Forall_app. split.
      + eapply Forall_impl; [exact Hbelow|]. cbn. intros x Hx. lia.
      + apply Forall_forall. intros x Hin.
        apply list_elem_of_In, in_map_iff in Hin. destruct Hin as (u & <- & Hu).
        rewrite Forall_forall in Hall. apply list_elem_of_In in Hu.
        destruct (Hall u Hu) as [_ Hid]. lia. }
  destruct (accStartInst acc) as [s|] eqn:Es.
  - cbn [newUnitLCC mbind result_bind] in H. injection H as _ <-.
    match goal with
    | |- context [fold_left registerUnit ?us ?s0] =>
        destruct (registerUnit_list us s0) as [-> ->]
    end.
    cbn [globalOuterLCCList lccIDGen accContainers accIDGen].
    exact (Hfin _ (madeFor_snoc b (lccIDGen st) acc (accHasFence acc) (Some s)
                     (accErrs acc) (Some s) (Some (length (insts b) - 1)%nat) false Hmade)).
  - cbn [mbind result_bind] in H. injection H as _ <-.
    match goal with
    | |- context [fold_left registerUnit ?us ?s0] =>
        destruct (registerUnit_list us s0) as [-> ->]
    end.
    cbn [globalOuterLCCList lccIDGen]. exact (Hfin _ Hmade).
Qed.

Lemma makeAllContainers_outer g bbs : forall st flag hasFence st',
  makeAllContainers g st bbs flag = Ok (hasFence, st') ->
  NoDup (globalOuterLCCList st) ->
  Forall (fun x => x < lccIDGen st) (globalOuterLCCList st) ->
  NoDup (globalOuterLCCList st') /\
  Forall (fun x => x < lccIDGen st') (globalOuterLCCList st').
Proof.
  induction bbs as [|BB bbs IH]; intros st flag hasFence st' H Hnd Hbelow;
    cbn [makeAllContainers] in H.
  - injection H as _ <-. auto.
  - destruct (makeContainersOfBB g st BB) as [[hf s1]| |] eqn:E; try discriminate.
    cbn [mbind result_bind fst snd] in H.
    destruct (makeContainersOfBB_outer _ _ _ _ _ E Hnd Hbelow) as [Hnd1 Hbelow1].
    exact (IH _ _ _ _ H Hnd1 Hbelow1).
Qed.

Lemma updEdges_outer st id f :
  globalOuterLCCList (updEdges st id f) = globalOuterLCCList st /\
  lccIDGen (updEdges st id f) = lccIDGen st.
Proof. split; reflexivity. Qed.

Lemma sameOuter_refl st : sameOuter st st.
Proof. split; reflexivity. Qed.

Lemma sameOuter_trans a b c : sameOuter a b -> sameOuter b c -> sameOuter a c.
Proof. intros [H1 H2] [H3 H4]. split; congruence. Qed.

Section Edges.
Variable g : Globals.

Lemma chainContainers_outer rest : forall st prev st',
  chainContainers st prev rest = Ok st' -> sameOuter st st'.
Proof.
  induction rest as [|c rest IH]; intros st prev st' H; cbn [chainContainers] in H.
  - injection H as <-. apply sameOuter_refl.
  - destruct (getUnit st c) as [u| |]; try discriminate. cbn [mbind result_bind] in H.
    apply IH in H. eapply sameOuter_trans; [|exact H].
    destruct (negb (isExitBlockLCC u)); split; reflexivity.
Qed.

Lemma connectPreds_outer F preds : forall st first st',
  connectPreds g F st first preds = Ok st' -> sameOuter st st'.
Proof.
  induction preds as [|p preds IH]; intros st first st' H; cbn [connectPreds] in H.
  - injection H as <-. apply sameOuter_refl.
  - destruct (getLastLCCofBB st p) as [l| |]; try discriminate.
    cbn [mbind result_bind] in H.
    destruct (getUnit st l) as [u| |]; try discriminate. cbn [mbind result_bind] in H.
    destruct (isEmptyLCC u || isExitBlockLCC u); [exact (IH _ _ _ H)|].
    destruct (edgeIsFence g F u) as [fence| |]; try discriminate.
    cbn [mbind result_bind] in H. apply IH in H.
    eapply sameOuter_trans; [|exact H]. split; reflexivity.
Qed.

Lemma connectSuccs_outer F succs : forall st last st',
  connectSuccs g F st last succs = Ok st' -> sameOuter st st'.
Proof.
  induction succs as [|s succs IH]; intros st last st' H; cbn [connectSuccs] in H.
  - injection H as <-. apply sameOuter_refl.
  - destruct (getFirstLCCofBB st s) as [f| |]; try discriminate.
    cbn [mbind result_bind] in H.
    destruct (getUnit st f) as [u| |]; try discriminate. cbn [mbind result_bind] in H.
    destruct (isEmptyLCC u || isExitBlockLCC u); [exact (IH _ _ _ H)|].
    destruct (getUnit st last) as [lu| |]; try discriminate. cbn [mbind result_bind] in H.
    destruct (edgeIsFence g F lu) as [fence| |]; try discriminate.
    cbn [mbind result_bind] in H. apply IH in H.
    eapply sameOuter_trans; [|exact H]. split; reflexivity.
Qed.

Lemma createContainerCFG_outer F st BB st' :
  createContainerCFG g F st BB = Ok st' -> sameOuter st st'.
Proof.
  unfold createContainerCFG. intros H.
  set (containers := default [] (bbToContainersMap st !! bbId BB)) in H.
  assert (Hchain : forall s1,
    match containers with
    | first :: (_ :: _) as rest => chainContainers st first rest
    | _ => Ok st
    end = Ok s1 -> sameOuter st s1).
  { intros s1 H1. destruct containers as [|c [|c' cs]].
    - injection H1 as <-. apply sameOuter_refl.
    - injection H1 as <-. apply sameOuter_refl.
    - exact (chainContainers_outer _ _ _ _ H1). }
  destruct (match containers with
            | first :: (_ :: _) as rest => chainContainers st first rest
            | _ => Ok st
            end) as [s1| |]; try discriminate.
  specialize (Hchain s1 eq_refl). cbn [mbind result_bind] in H.
  match type of H with
  | mbind _ ?e = _ => destruct e as [skip| |]
  end; try discriminate.
  cbn [mbind result_bind] in H. destruct skip.
  - injection H as <-. exact Hchain.
  - destruct (getFirstLCCofBB s1 (bbId BB)) as [f| |]; try discriminate.
    cbn [mbind result_bind] in H.
    destruct (connectPreds g F s1 f _) as [s2| |] eqn:E2; try discriminate.
    cbn [mbind result_bind] in H.
    destruct (getLastLCCofBB s2 (bbId BB)) as [l| |]; try discriminate.
    cbn [mbind result_bind] in H.
    eapply sameOuter_trans; [exact Hchain|].
    eapply sameOuter_trans; [exact (connectPreds_outer _ _ _ _ _ E2)|].
    exact (connectSuccs_outer _ _ _ _ _ H).
Qed.

Lemma createAllEdges_outer F bbs : forall st st',
  createAllEdges g F st bbs = Ok st' -> sameOuter st st'.
Proof.
  induction bbs as [|BB bbs IH]; intros st st' H; cbn [createAllEdges] in H.
  - injection H as <-. apply sameOuter_refl.
  - destruct (createContainerCFG g F st BB) as [s1| |] eqn:E; try discriminate.
    cbn [mbind result_bind] in H.
    eapply sameOuter_trans; [exact (createContainerCFG_outer _ _ _ _ E)|exact (IH _ _ H)].
Qed.

End Edges.

End OuterListProofs.

Section OuterListProperties.
Import OuterListProofs.

(** X24 (initializeLCCGraph, makeContainersOfBB, createContainerCFG).  The outer
    list that the builder hands to the reducer is well formed for every
    function: its containers are pairwise distinct and all below the id
    generator, and making the edges changes neither. *)
Theorem initializeLCCGraph_outer_list (g : Globals) (F : Function)
    (g' : Globals) (st : BuilderState) :
  initializeLCCGraph g F = Ok (g', st) ->
  NoDup (globalOuterLCCList st) /\
  Forall (fun x => x < lccIDGen st) (globalOuterLCCList st).
Proof.
  unfold initializeLCCGraph. intros H.
  destruct (makeAllContainers g initialBuilderState (blocks F) false) as [[hf s1]| |] eqn:E1;
    try discriminate.
  cbn [mbind result_bind fst snd] in H.
  destruct (createAllEdges g F s1 (blocks F)) as [s2| |] eqn:E2; try discriminate.
  cbn [mbind result_bind] in H. injection H as _ <-.
  destruct (createAllEdges_outer _ _ _ _ _ E2) as [-> ->].
  refine (makeAllContainers_outer _ _ _ _ _ _ E1 _ _).
  - apply NoDup_nil_2.
  - constructor.
Qed.

Lemma initializeLCCGraph_outer_list_witness :
  exists g' st,
    initializeLCCGraph predictiveGlobals diamondF = Ok (g', st) /\
    globalOuterLCCList st = [0; 1; 2; 3] /\
    NoDup (globalOuterLCCList st).
Proof.
  destruct (initializeLCCGraph predictiveGlobals diamondF) as [[g' st]| |] eqn:E.
  - exists g', st. split; [reflexivity|].
    split; [|exact (proj1 (initializeLCCGraph_outer_list _ _ _ _ E))].
    vm_compute in E. injection E as _ <-. reflexivity.
  - vm_compute in E. discriminate E.
  - vm_compute in E. discriminate E.
Defined.

End OuterListProperties.

Module GraphProofs.
Import GraphSpec.

Lemma edgesOf_updEdges st x f y :
  edgesOf (updEdges st x f) y = if decide (y = x) then f (edgesOf st x) else edgesOf st y.
Proof.
  unfold edgesOf, updEdges. cbn [edges]. destruct (decide (y = x)) as [->|Hne].
  - rewrite lookup_insert_eq. reflexivity.
  - rewrite lookup_insert_ne by congruence. reflexivity.
Qed.

Lemma hasPred_addPred st x p fl c q :
  hasPred (updEdges st x (addPredLCC x p fl)) c q <-> hasPred st c q \/ (c = x /\ q = p).
Proof.
  unfold hasPred. rewrite edgesOf_updEdges. destruct (decide (c = x)) as [->|Hne].
  - cbn [addPredLCC predSet]. destruct (decide (q = p)) as [->|Hq].
    + rewrite lookup_insert_eq. split; [auto|]. intros _. eexists. reflexivity.
    + rewrite lookup_insert_ne by congruence. split; [auto|].
      intros [H|[_ H]]; [exact H|contradiction].
  - split; [auto|]. intros [H|[H _]]; [exact H|contradiction].
Qed.

Lemma hasSucc_addPred st x p fl q c :
  hasSucc (updEdges st x (addPredLCC x p fl)) q c <-> hasSucc st q c.
Proof.
  unfold hasSucc. rewrite edgesOf_updEdges. destruct (decide (q = x)) as [->|Hne];
    reflexivity.
Qed.

Lemma hasSucc_addSucc st x s fl q c :
  hasSucc (updEdges st x (addSuccLCC x s fl)) q c <-> hasSucc st q c \/ (q = x /\ c = s).
Proof.
  unfold hasSucc. rewrite edgesOf_updEdges. destruct (decide (q = x)) as [->|Hne].
  - cbn [addSuccLCC succSet]. destruct (decide (c = s)) as [->|Hc].
    + rewrite lookup_insert_eq. split; [auto|]. intros _. eexists. reflexivity.
    + rewrite lookup_insert_ne by congruence. split; [auto|].
      intros [H|[_ H]]; [exact H|contradiction].
  - split; [auto|]. intros [H|[H _]]; [exact H|contradiction].
Qed.

Lemma hasPred_addSucc st x s fl c q :
  hasPred (updEdges st x (addSuccLCC x s fl)) c q <-> hasPred st c q.
Proof.
  unfold hasPred. rewrite edgesOf_updEdges. destruct (decide (c = x)) as [->|Hne];
    reflexivity.
Qed.

(** The relations read the units and the block map only. *)
Lemma liveLCC_same st st' x : sameUnits st st' -> liveLCC st' x <-> liveLCC st x.
Proof. intros [Hu _]. unfold liveLCC. rewrite Hu. reflexivity. Qed.

Lemma notExit_same st st' x : sameUnits st st' -> notExit st' x <-> notExit st x.
Proof. intros [Hu _]. unfold notExit. rewrite Hu. reflexivity. Qed.

Lemma containersOf_same st st' bb : sameUnits st st' -> containersOf st' bb = containersOf st bb.
Proof. intros [_ Hm]. unfold containersOf. rewrite Hm. reflexivity. Qed.

Section Edges.
Variable g : Globals.
Variable F : Function.

(** chainContainers links each container to the one before it. *)
Lemma chainContainers_edges rest : forall st prev st',
  chainContainers st prev rest = Ok st' ->
  sameUnits st st' /\
  (forall p c, hasPred st' c p <-> hasPred st c p \/ chained st (prev :: rest) p c) /\
  (forall p c, hasSucc st' p c <-> hasSucc st p c \/ chained st (prev :: rest) p c).
Proof.
  induction rest as [|x rest IH]; intros st prev st' H; cbn [chainContainers] in H.
  - injection H as <-. split; [apply sameUnits_refl|].
    assert (Hno : forall p c, ~ chained st [prev] p c).
    { intros p c [(l1 & l2 & Hl) _]. destruct l1 as [|a [|b l1]]; discriminate. }
    split; intros p c; split; auto; intros [Hh|Hc]; auto; destruct (Hno _ _ Hc).
  - destruct (getUnit st x) as [u| |] eqn:Eu; try discriminate.
    cbn [mbind result_bind] in H.
    assert (Hux : units st !! x = Some u).
    { unfold getUnit in Eu. destruct (units st !! x); [|discriminate].
      injection Eu as <-. reflexivity. }
    set (st1 := if negb (isExitBlockLCC u)
                then updEdges (updEdges st prev (addSuccLCC prev x true))
                       x (addPredLCC x prev true)
                else st) in H.
    assert (Hsame1 : sameUnits st st1).
    { unfold st1. destruct (negb (isExitBlockLCC u)); [|apply sameUnits_refl].
      eapply sameUnits_trans; apply sameUnits_updEdges. }
    destruct (IH _ _ _ H) as (Hsame & Hp & Hs).
    assert (Hhead : forall p c,
      chained st (prev :: x :: rest) p c <->
      (p = prev /\ c = x /\ isExitBlockLCC u = false) \/ chained st (x :: rest) p c).
    { intros p c. split.
      - intros [(l1 & l2 & Hl) Hne]. destruct l1 as [|a l1].
        + cbn in Hl. injection Hl as <- <- _. left. split; [reflexivity|].
          split; [reflexivity|]. destruct Hne as (u' & Hu' & He). congruence.
        + cbn in Hl. injection Hl as _ Hl. right. split; [|exact Hne].
          exists l1, l2. exact Hl.
      - intros [(-> & -> & He)|[(l1 & l2 & Hl) Hne]].
        + split; [exists [], rest; reflexivity|]. exists u. auto.
        + split; [|exact Hne]. exists (prev :: l1), l2. cbn. rewrite Hl. reflexivity. }
    assert (Hch : forall p c, chained st1 (x :: rest) p c <-> chained st (x :: rest) p c).
    { intros p c. unfold chained. rewrite (notExit_same _ _ _ Hsame1). reflexivity. }
    split; [eapply sameUnits_trans; eassumption|].
    split; intros p c.
    + rewrite Hp, Hch, Hhead. unfold st1. destruct (isExitBlockLCC u); cbn [negb].
      * intuition discriminate.
      * rewrite hasPred_addPred, hasPred_addSucc. intuition.
    + rewrite Hs, Hch, Hhead. unfold st1. destruct (isExitBlockLCC u); cbn [negb].
      * intuition discriminate.
      * rewrite hasSucc_addPred, hasSucc_addSucc. intuition.
Qed.

Lemma getLastLCCofBB_Ok st bb l :
  getLastLCCofBB st bb = Ok l <-> last (containersOf st bb) = Some l.
Proof.
  unfold getLastLCCofBB, containersOf.
  destruct (last (default [] (bbToContainersMap st !! bb))) as [id|].
  - split; intros H; injection H as <-; reflexivity.
  - split; discriminate.
Qed.

Lemma getFirstLCCofBB_Ok st bb c :
  getFirstLCCofBB st bb = Ok c <-> head (containersOf st bb) = Some c.
Proof.
  unfold getFirstLCCofBB, containersOf.
  destruct (default [] (bbToContainersMap st !! bb)) as [|id l].
  - split; discriminate.
  - split; intros H; injection H as <-; reflexivity.
Qed.

Lemma getUnit_Ok st x u : getUnit st x = Ok u <-> units st !! x = Some u.
Proof.
  unfold getUnit. destruct (units st !! x) as [v|].
  - split; intros H; injection H as <-; reflexivity.
  - split; discriminate.
Qed.

(** connectPreds adds, for the first container of a block, the last live
    containers of the preceding blocks. *)
Lemma connectPreds_edges preds : forall st first st',
  connectPreds g F st first preds = Ok st' ->
  sameUnits st st' /\
  (forall p c, hasSucc st' p c <-> hasSucc st p c) /\
  (forall p c, hasPred st' c p <->
     hasPred st c p \/
     (c = first /\ exists a, In a preds /\ last (containersOf st a) = Some p /\
                             liveLCC st p)).
Proof.
  induction preds as [|a preds IH]; intros st first st' H; cbn [connectPreds] in H.
  - injection H as <-. split; [apply sameUnits_refl|]. split; [reflexivity|].
    intros p c. split; [auto|]. intros [Hh|(_ & x & [] & _)]. exact Hh.
  - destruct (getLastLCCofBB st a) as [l| |] eqn:El; try discriminate.
    cbn [mbind result_bind] in H. apply getLastLCCofBB_Ok in El.
    destruct (getUnit st l) as [u| |] eqn:Eu; try discriminate.
    cbn [mbind result_bind] in H. apply getUnit_Ok in Eu.
    destruct (isEmptyLCC u || isExitBlockLCC u) eqn:Ed.
    + destruct (IH _ _ _ H) as (Hsame & Hs & Hp).
      split; [exact Hsame|]. split; [exact Hs|]. intros p c. rewrite Hp.
      split; (intros [Hh|(-> & x & Hin & Hl & Hlive)]; [left; exact Hh|right]);
        (split; [reflexivity|]).
      * exists x. split; [right; exact Hin|]. auto.
      * destruct Hin as [<-|Hin].
        -- exfalso. rewrite El in Hl. injection Hl as <-.
           destruct Hlive as (u' & Hu' & Hd). congruence.
        -- exists x. auto.
    + destruct (edgeIsFence g F u) as [fence| |]; try discriminate.
      cbn [mbind result_bind] in H.
      destruct (IH _ _ _ H) as (Hsame & Hs & Hp).
      pose proof (sameUnits_updEdges st first (addPredLCC first l fence)) as Hsame1.
      split; [eapply sameUnits_trans; eassumption|]. split.
      * intros p c. rewrite Hs. apply hasSucc_addPred.
      * intros p c. rewrite Hp, hasPred_addPred.
        split.
        -- intros [[Hh|[-> ->]]|(-> & x & Hin & Hl & Hlive)].
           ++ left. exact Hh.
           ++ right. split; [reflexivity|]. exists a. split; [left; reflexivity|].
              split; [exact El|]. exists u. auto.
           ++ right. split; [reflexivity|]. exists x. split; [right; exact Hin|].
              rewrite (containersOf_same _ _ _ Hsame1) in Hl.
              rewrite (liveLCC_same _ _ _ Hsame1) in Hlive. auto.
        -- intros [Hh|(-> & x & [<-|Hin] & Hl & Hlive)].
           ++ left. left. exact Hh.
           ++ left. right. split; [reflexivity|]. rewrite El in Hl. injection Hl as <-.
              reflexivity.
           ++ right. split; [reflexivity|]. exists x. split; [exact Hin|].
              rewrite (containersOf_same _ _ _ Hsame1), (liveLCC_same _ _ _ Hsame1). auto.
Qed.

(** connectSuccs adds, for the last container of a block, the first live
    containers of the following blocks. *)
Lemma connectSuccs_edges succs : forall st lastC st',
  connectSuccs g F st lastC succs = Ok st' ->
  sameUnits st st' /\
  (forall p c, hasPred st' c p <-> hasPred st c p) /\
  (forall p c, hasSucc st' p c <->
     hasSucc st p c \/
     (p = lastC /\ exists b, In b succs /\ head (containersOf st b) = Some c /\
                             liveLCC st c)).
Proof.
  induction succs as [|b succs IH]; intros st lastC st' H; cbn [connectSuccs] in H.
  - injection H as <-. split; [apply sameUnits_refl|]. split; [reflexivity|].
    intros p c. split; [auto|]. intros [Hh|(_ & x & [] & _)]. exact Hh.
  - destruct (getFirstLCCofBB st b) as [f| |] eqn:Ef; try discriminate.
    cbn [mbind result_bind] in H. apply getFirstLCCofBB_Ok in Ef.
    destruct (getUnit st f) as [u| |] eqn:Eu; try discriminate.
    cbn [mbind result_bind] in H. apply getUnit_Ok in Eu.
    destruct (isEmptyLCC u || isExitBlockLCC u) eqn:Ed.
    + destruct (IH _ _ _ H) as (Hsame & Hp & Hs).
      split; [exact Hsame|]. split; [exact Hp|]. intros p c. rewrite Hs.
      split; (intros [Hh|(-> & x & Hin & Hl & Hlive)]; [left; exact Hh|right]);
        (split; [reflexivity|]).
      * exists x. split; [right; exact Hin|]. auto.
      * destruct Hin as [<-|Hin].
        -- exfalso. rewrite Ef in Hl. injection Hl as <-.
           destruct Hlive as (u' & Hu' & Hd). congruence.
        -- exists x. auto.
    + destruct (getUnit st lastC) as [lu| |]; try discriminate.
      cbn [mbind result_bind] in H.
      destruct (edgeIsFence g F lu) as [fence| |]; try discriminate.
      cbn [mbind result_bind] in H.
      destruct (IH _ _ _ H) as (Hsame & Hp & Hs).
      pose proof (sameUnits_updEdges st lastC (addSuccLCC lastC f fence)) as Hsame1.
      split; [eapply sameUnits_trans; eassumption|]. split.
      * intros p c. rewrite Hp. apply hasPred_addSucc.
      * intros p c. rewrite Hs, hasSucc_addSucc.
        split.
        -- intros [[Hh|[-> ->]]|(-> & x & Hin & Hl & Hlive)].
           ++ left. exact Hh.
           ++ right. split; [reflexivity|]. exists b. split; [left; reflexivity|].
              split; [exact Ef|]. exists u. auto.
           ++ right. split; [reflexivity|]. exists x. split; [right; exact Hin|].
              rewrite (containersOf_same _ _ _ Hsame1) in Hl.
              rewrite (liveLCC_same _ _ _ Hsame1) in Hlive. auto.
        -- intros [Hh|(-> & x & [<-|Hin] & Hl & Hlive)].
           ++ left. left. exact Hh.
           ++ left. right. split; [reflexivity|]. rewrite Ef in Hl. injection Hl as <-.
              reflexivity.
           ++ right. split; [reflexivity|]. exists x. split; [exact Hin|].
              rewrite (containersOf_same _ _ _ Hsame1), (liveLCC_same _ _ _ Hsame1). auto.
Qed.

Lemma chained_short st l p c : (length l < 2)%nat -> ~ chained st l p c.
Proof.
  intros Hlen [(l1 & l2 & ->) _]. rewrite length_app in Hlen. cbn in Hlen. lia.
Qed.

Lemma chained_same st st' l p c :
  sameUnits st st' -> chained st' l p c <-> chained st l p c.
Proof. intros Hs. unfold chained. rewrite (notExit_same _ _ _ Hs). reflexivity. Qed.

Lemma skipped_same st st' bb : sameUnits st st' -> skipped st' bb <-> skipped st bb.
Proof.
  intros Hs. unfold skipped. rewrite (containersOf_same _ _ _ Hs).
  destruct Hs as [Hu _]. rewrite Hu. reflexivity.
Qed.

(** What handling one block adds to the graph. *)
Lemma createContainerCFG_edges st BB st' :
  createContainerCFG g F st BB = Ok st' ->
  sameUnits st st' /\
  (forall p c, hasPred st' c p <-> hasPred st c p \/ blockPreds F st BB p c) /\
  (forall p c, hasSucc st' p c <-> hasSucc st p c \/ blockSuccs st BB p c).
Proof.
  unfold createContainerCFG. fold (containersOf st (bbId BB)). intros H.
  remember (containersOf st (bbId BB)) as containers eqn:Hcont.
  assert (Hchain : forall s1,
    match containers with
    | first :: (_ :: _) as rest => chainContainers st first rest
    | _ => Ok st
    end = Ok s1 ->
    sameUnits st s1 /\
    (forall p c, hasPred s1 c p <-> hasPred st c p \/ chained st containers p c) /\
    (forall p c, hasSucc s1 p c <-> hasSucc st p c \/ chained st containers p c)).
  { intros s1 H1. destruct containers as [|x [|y rest]].
    - injection H1 as <-. split; [apply sameUnits_refl|].
      split; intros p c; (split; [auto|]); intros [Hh|Hc]; auto;
        destruct (chained_short st [] p c ltac:(cbn; lia) Hc).
    - injection H1 as <-. split; [apply sameUnits_refl|].
      split; intros p c; (split; [auto|]); intros [Hh|Hc]; auto;
        destruct (chained_short st [x] p c ltac:(cbn; lia) Hc).
    - exact (chainContainers_edges _ _ _ _ H1). }
  destruct (match containers with
            | first :: (_ :: _) as rest => chainContainers st first rest
            | _ => Ok st
            end) as [s1| |]; try discriminate.
  destruct (Hchain s1 eq_refl) as (Hsame1 & Hp1 & Hs1). clear Hchain.
  cbn [mbind result_bind] in H.
  assert (Hcont1 : forall bb, containersOf s1 bb = containersOf st bb)
    by (intros bb; apply containersOf_same; exact Hsame1).
  match type of H with
  | mbind _ ?e = _ => destruct e as [skip| |] eqn:Eskip
  end; try discriminate.
  cbn [mbind result_bind] in H.
  assert (Hskip : if skip then skipped st (bbId BB) else ~ skipped st (bbId BB) \/ containers = []).
  { destruct containers as [|x [|y rest]].
    - injection Eskip as <-. right. reflexivity.
    - destruct (getUnit s1 x) as [u| |] eqn:Eu; try discriminate.
      cbn [mbind result_bind] in Eskip. injection Eskip as <-.
      apply getUnit_Ok in Eu. destruct Hsame1 as [Hu1 _]. rewrite Hu1 in Eu.
      destruct (isEmptyLCC u || isExitBlockLCC u) eqn:Ed.
      + exists x, u. rewrite <- Hcont. auto.
      + left. intros (x' & u' & Hx & Hu' & Hd). rewrite <- Hcont in Hx.
        injection Hx as <-. congruence.
    - injection Eskip as <-. left. intros (x' & u' & Hx & _). rewrite <- Hcont in Hx.
      discriminate. }
  destruct skip.
  - injection H as <-. split; [exact Hsame1|]. split; intros p c.
    + rewrite Hp1. unfold blockPreds. rewrite <- Hcont. split; [tauto|].
      intros [Hh|[Hc|(Hns & _)]]; [auto|auto|contradiction].
    + rewrite Hs1. unfold blockSuccs. rewrite <- Hcont. split; [tauto|].
      intros [Hh|[Hc|(Hns & _)]]; [auto|auto|contradiction].
  - destruct (getFirstLCCofBB s1 (bbId BB)) as [f| |] eqn:Ef; try discriminate.
    cbn [mbind result_bind] in H. apply getFirstLCCofBB_Ok in Ef.
    rewrite Hcont1, <- Hcont in Ef.
    destruct Hskip as [Hns|Hnil]; [|rewrite Hnil in Ef; discriminate].
    destruct (connectPreds g F s1 f (predecessors F (bbId BB))) as [s2| |] eqn:E2;
      try discriminate.
    cbn [mbind result_bind] in H.
    destruct (connectPreds_edges _ _ _ _ E2) as (Hsame2 & Hs2 & Hp2).
    destruct (getLastLCCofBB s2 (bbId BB)) as [l| |] eqn:El; try discriminate.
    cbn [mbind result_bind] in H. apply getLastLCCofBB_Ok in El.
    assert (Hsame12 : sameUnits st s2) by (eapply sameUnits_trans; eassumption).
    rewrite (containersOf_same _ _ _ Hsame12), <- Hcont in El.
    destruct (connectSuccs_edges _ _ _ _ H) as (Hsame3 & Hp3 & Hs3).
    split; [eapply sameUnits_trans; eassumption|]. split; intros p c.
    + rewrite Hp3, Hp2, Hp1. unfold blockPreds, crossPred. rewrite <- Hcont.
      split.
      * intros [[Hh|Hc]|(-> & a & Hin & Hl & Hlive)]; [tauto|tauto|].
        right. right. split; [exact Hns|]. split; [exact Ef|].
        exists a. rewrite Hcont1 in Hl. rewrite (liveLCC_same _ _ _ Hsame1) in Hlive. auto.
      * intros [Hh|[Hc|(_ & Hhd & a & Hin & Hl & Hlive)]]; [tauto|tauto|].
        right. split; [congruence|]. exists a.
        rewrite Hcont1, (liveLCC_same _ _ _ Hsame1). auto.
    + rewrite Hs3, Hs2, Hs1. unfold blockSuccs, crossSucc. rewrite <- Hcont.
      split.
      * intros [[Hh|Hc]|(-> & b & Hin & Hl & Hlive)]; [tauto|tauto|].
        right. right. split; [exact Hns|]. split; [exact El|].
        exists b. rewrite (containersOf_same _ _ _ Hsame12) in Hl.
        rewrite (liveLCC_same _ _ _ Hsame12) in Hlive. auto.
      * intros [Hh|[Hc|(_ & Hla & b & Hin & Hl & Hlive)]]; [tauto|tauto|].
        right. split; [congruence|]. exists b.
        rewrite (containersOf_same _ _ _ Hsame12), (liveLCC_same _ _ _ Hsame12). auto.
Qed.

Lemma blockPreds_same st st' B p c :
  sameUnits st st' -> blockPreds F st' B p c <-> blockPreds F st B p c.
Proof.
  intros Hs. unfold blockPreds, crossPred.
  rewrite (chained_same _ _ _ _ _ Hs), (skipped_same _ _ _ Hs), (containersOf_same _ _ _ Hs).
  split; (intros [H|(H1 & H2 & a & H3 & H4 & H5)]; [left; exact H|right]);
    (split; [exact H1|]); (split; [exact H2|]); exists a;
    rewrite (containersOf_same _ _ _ Hs), (liveLCC_same _ _ _ Hs) in *; auto.
Qed.

Lemma blockSuccs_same st st' B p c :
  sameUnits st st' -> blockSuccs st' B p c <-> blockSuccs st B p c.
Proof.
  intros Hs. unfold blockSuccs, crossSucc.
  rewrite (chained_same _ _ _ _ _ Hs), (skipped_same _ _ _ Hs), (containersOf_same _ _ _ Hs).
  split; (intros [H|(H1 & H2 & b & H3 & H4 & H5)]; [left; exact H|right]);
    (split; [exact H1|]); (split; [exact H2|]); exists b;
    rewrite (containersOf_same _ _ _ Hs), (liveLCC_same _ _ _ Hs) in *; auto.
Qed.

(** The graph after all blocks: the edges of every block, and no other. *)
Lemma createAllEdges_edges bbs : forall st st',
  createAllEdges g F st bbs = Ok st' ->
  sameUnits st st' /\
  (forall p c, hasPred st' c p <->
     hasPred st c p \/ exists B, In B bbs /\ blockPreds F st B p c) /\
  (forall p c, hasSucc st' p c <->
     hasSucc st p c \/ exists B, In B bbs /\ blockSuccs st B p c).
Proof.
  induction bbs as [|BB bbs IH]; intros st st' H; cbn [createAllEdges] in H.
  - injection H as <-. split; [apply sameUnits_refl|].
    split; intros p c; (split; [auto|]); intros [Hh|(B & [] & _)]; exact Hh.
  - destruct (createContainerCFG g F st BB) as [s1| |] eqn:E; try discriminate.
    cbn [mbind result_bind] in H.
    destruct (createContainerCFG_edges _ _ _ E) as (Hsame1 & Hp1 & Hs1).
    destruct (IH _ _ H) as (Hsame & Hp & Hs).
    split; [eapply sameUnits_trans; eassumption|]. split; intros p c.
    + rewrite Hp, Hp1. split.
      * intros [[Hh|Hb]|(B & Hin & Hb)].
        -- left. exact Hh.
        -- right. exists BB. split; [left; reflexivity|exact Hb].
        -- right. exists B. split; [right; exact Hin|].
           apply (blockPreds_same _ _ _ _ _ Hsame1). exact Hb.
      * intros [Hh|(B & [<-|Hin] & Hb)].
        -- left. left. exact Hh.
        -- left. right. exact Hb.
        -- right. exists B. split; [exact Hin|].
           apply (blockPreds_same _ _ _ _ _ Hsame1). exact Hb.
    + rewrite Hs, Hs1. split.
      * intros [[Hh|Hb]|(B & Hin & Hb)].
        -- left. exact Hh.
        -- right. exists BB. split; [left; reflexivity|exact Hb].
        -- right. exists B. split; [right; exact Hin|].
           apply (blockSuccs_same _ _ _ _ _ Hsame1). exact Hb.
      * intros [Hh|(B & [<-|Hin] & Hb)].
        -- left. left. exact Hh.
        -- left. right. exact Hb.
        -- right. exists B. split; [exact Hin|].
           apply (blockSuccs_same _ _ _ _ _ Hsame1). exact Hb.
Qed.

Lemma predecessors_spec a bb :
  In a (predecessors F bb) <-> exists A, In A (blocks F) /\ bbId A = a /\ In bb (successors A).
Proof.
  unfold predecessors. rewrite List.in_flat_map. split.
  - intros (A & HA & Hin). apply List.in_map_iff in Hin. destruct Hin as (x & <- & Hx).
    apply List.filter_In in Hx. destruct Hx as [Hx Heq]. apply Z.eqb_eq in Heq. subst x.
    exists A. auto.
  - intros (A & HA & <- & Hin). exists A. split; [exact HA|].
    apply List.in_map_iff. exists bb. split; [reflexivity|].
    apply List.filter_In. split; [exact Hin|apply Z.eqb_refl].
Qed.

(** With the layout the builder gives, the cross edges of the two
    directions are the same. *)
Lemma cross_symmetric st p c :
  layout F st ->
  (exists B, In B (blocks F) /\ crossPred F st B p c) <->
  (exists A, In A (blocks F) /\ crossSucc st A p c).
Proof.
  intros (Htarget & Hunit & Hlast & Hfirst). split.
  - intros (B & HB & Hns & Hhd & a & Ha & Hl & Hlive).
    apply predecessors_spec in Ha. destruct Ha as (A & HA & <- & Hin).
    exists A. split; [exact HA|]. split; [|split; [exact Hl|]].
    + intros (x & u & Hx & Hu & Hd). rewrite Hx in Hl. cbn in Hl. injection Hl as <-.
      destruct Hlive as (u' & Hu' & Hd'). congruence.
    + exists (bbId B). split; [exact Hin|]. split; [exact Hhd|].
      destruct (containersOf st (bbId B)) as [|x [|y rest]] eqn:Ec; [discriminate| |].
      * cbn in Hhd. injection Hhd as <-.
        destruct (Hunit B x HB) as [u Hu]; [rewrite Ec; left; reflexivity|].
        exists u. split; [exact Hu|].
        destruct (isEmptyLCC u || isExitBlockLCC u) eqn:Ed; [|reflexivity].
        exfalso. apply Hns. exists x, u. auto.
      * cbn in Hhd. injection Hhd as <-. exact (Hfirst B x y rest HB Ec).
  - intros (A & HA & Hns & Hl & b & Hb & Hhd & Hlive).
    destruct (Htarget A b HA Hb) as (B & HB & <-).
    exists B. split; [exact HB|]. split; [|split; [exact Hhd|]].
    + intros (x & u & Hx & Hu & Hd). rewrite Hx in Hhd. cbn in Hhd. injection Hhd as <-.
      destruct Hlive as (u' & Hu' & Hd'). congruence.
    + exists (bbId A). split.
      * apply predecessors_spec. exists A. auto.
      * split; [exact Hl|]. apply (Hlast A p HA); [|exact Hl].
        intros Hnil. rewrite Hnil in Hb. destruct Hb.
Qed.

End Edges.

(** With the layout, the graph made over all blocks is symmetric. *)
Lemma createAllEdges_symmetric (g : Globals) (F : Function) (st st' : BuilderState) :
  noEdgesYet st -> layout F st ->
  createAllEdges g F st (blocks F) = Ok st' ->
  forall p c, hasPred st' c p <-> hasSucc st' p c.
Proof.
  intros Hno Hlay H p c.
  destruct (createAllEdges_edges g F _ _ _ H) as (_ & Hp & Hs).
  rewrite Hp, Hs.
  assert (Hnp : ~ hasPred st c p).
  { unfold hasPred, edgesOf. intros [x Hx].
    destruct (edges st !! c) as [e|] eqn:Ee; cbn in Hx.
    - rewrite (Hno _ _ Ee) in Hx. cbn in Hx. rewrite lookup_empty in Hx. discriminate.
    - rewrite lookup_empty in Hx. discriminate. }
  assert (Hns : ~ hasSucc st p c).
  { unfold hasSucc, edgesOf. intros [x Hx].
    destruct (edges st !! p) as [e|] eqn:Ee; cbn in Hx.
    - rewrite (Hno _ _ Ee) in Hx. cbn in Hx. rewrite lookup_empty in Hx. discriminate.
    - rewrite lookup_empty in Hx. discriminate. }
  pose proof (cross_symmetric F st p c Hlay) as Hcross.
  unfold blockPreds, blockSuccs. split.
  - intros [Hh|(B & HB & [Hc|Hx])]; [contradiction| |].
    + right. exists B. auto.
    + destruct Hcross as [Hcross _]. destruct Hcross as (A & HA & HAx); [eauto|].
      right. exists A. auto.
  - intros [Hh|(A & HA & [Hc|Hx])]; [contradiction| |].
    + right. exists A. auto.
    + destruct Hcross as [_ Hcross]. destruct Hcross as (B & HB & HBx); [eauto|].
      right. exists B. auto.
Qed.


End GraphProofs.

Module LayoutProofs.
Import BuilderSpec TilingProofs OuterListSpec OuterListProofs GraphSpec GraphProofs LayoutSpec.

Lemma removelast_snoc {A : Type} (l : list A) (x : A) : removelast (l ++ [x]) = l.
Proof. apply removelast_last. Qed.

Lemma aliveAcc_split b acc hasFence start log first lastIdx :
  aliveAcc b acc -> is_Some (accStartInst acc) ->
  aliveAcc b
    {| accHasFence := hasFence; accStartInst := Some start;
       accContainers := accContainers acc
                        ++ [mkUnitLCC (accIDGen acc) (bbId b) (Some first) (Some lastIdx) false];
       accIDGen := accIDGen acc + 1; accErrs := log |}.
Proof.
  intros [Hne Hnx] [s Hs]. rewrite Hs in Hnx. split; cbn.
  - apply Forall_app. split; [exact Hne|]. repeat constructor.
  - apply Forall_app. split; [exact Hnx|]. repeat constructor.
Qed.

Section Loop.
Variable g : Globals.
Variable b : BasicBlock.

Lemma containerLoop_alive term body : forall idx acc acc',
  Forall (fun i => isTerminator i = false) body ->
  isTerminator term = true ->
  getTerminator b = Some term ->
  aliveAcc b acc -> is_Some (accStartInst acc) ->
  containerLoop g b idx (body ++ [term]) acc = Ok acc' ->
  aliveAcc b acc'.
Proof.
  induction body as [|i body IH]; intros idx acc acc' Hbody Hterm Hget Halive Hstart H.
  - cbn [app containerLoop] in H. destruct term; try discriminate;
      try (injection H as <-; exact Halive).
    rewrite Hget in H. cbn [getNumSuccessors] in H.
    destruct Hstart as [s Hs]. rewrite Hs in H.
    cbn [newUnitLCC mbind result_bind] in H. injection H as <-.
    destruct Halive as [Hne Hnx]. rewrite Hs in Hnx. split; cbn.
    + apply Forall_app. split; [exact Hne|]. repeat constructor.
    + split; [intros E; destruct (accContainers acc); discriminate|].
      rewrite removelast_snoc. split; [exact Hnx|].
      unfold successors. rewrite Hget. reflexivity.
  - inversion Hbody as [|? ? Hi Hbody']; subst.
    change ((i :: body) ++ [term]) with (i :: (body ++ [term])) in H.
    assert (Hnext : nextStart idx (body ++ [term]) = Some (S idx)).
    { destruct body; reflexivity. }
    assert (Hsame : forall hasFence log,
      aliveAcc b {| accHasFence := hasFence; accStartInst := accStartInst acc;
                    accContainers := accContainers acc; accIDGen := accIDGen acc;
                    accErrs := log |}) by (intros; exact Halive).
    assert (Hsplit : forall hasFence log acc1,
      (newLCC ← newUnitLCC (accIDGen acc) (bbId b) (accStartInst acc) (Some idx) false;
       containerLoop g b (S idx) (body ++ [term])
         {| accHasFence := hasFence; accStartInst := nextStart idx (body ++ [term]);
            accContainers := accContainers acc ++ [newLCC];
            accIDGen := accIDGen acc + 1; accErrs := log |}) = Ok acc1 ->
      aliveAcc b acc1).
    { intros hasFence log acc1 H1. destruct Hstart as [s Hs].
      rewrite Hs, Hnext in H1. cbn [newUnitLCC mbind result_bind] in H1.
      refine (IH (S idx) _ acc1 Hbody' Hterm Hget _ _ H1).
      - apply aliveAcc_split; [exact Halive|]. exists s. exact Hs.
      - eexists. reflexivity. }
    cbn [containerLoop] in H.
    destruct i as [| | |[name|] dbg| | | | |]; try discriminate;
      try exact (IH (S idx) acc acc' Hbody' Hterm Hget Halive Hstart H).
    destruct (isFenceFunc g name).
    + exact (Hsplit _ _ _ H).
    + destruct (computedFuncInfo (costEnv g) !! name) as [found|].
      * destruct (fi_hasFence found); [exact (Hsplit _ _ _ H)|].
        exact (IH (S idx) _ acc' Hbody' Hterm Hget (Hsame _ _) Hstart H).
      * destruct (accHasFence acc); [exact (Hsplit _ _ _ H)|].
        exact (IH (S idx) _ acc' Hbody' Hterm Hget (Hsame _ _) Hstart H).
Qed.

End Loop.

Lemma registerUnit_noEdges us : forall st,
  noEdgesYet st -> noEdgesYet (fold_left registerUnit us st).
Proof.
  induction us as [|u us IH]; intros st Hno; [exact Hno|]. cbn [fold_left]. apply IH.
  intros x e Hx. cbn in Hx. destruct (decide (x = _lccID u)) as [->|Hne].
  - rewrite lookup_insert_eq in Hx. injection Hx as <-. reflexivity.
  - rewrite lookup_insert_ne in Hx by congruence. exact (Hno _ _ Hx).
Qed.

Lemma registerUnit_known us : forall st id,
  is_Some (units (fold_left registerUnit us st) !! id) ->
  id ∈ List.map _lccID us \/ is_Some (units st !! id).
Proof.
  induction us as [|u us IH]; intros st id H; [right; exact H|].
  cbn [fold_left] in H. destruct (IH _ _ H) as [Hin|Hs].
  - left. right. exact Hin.
  - cbn in Hs. destruct (decide (id = _lccID u)) as [->|Hne].
    + left. left.
    + rewrite lookup_insert_ne in Hs by congruence. right. exact Hs.
Qed.

Lemma last_map {A B : Type} (f : A -> B) (l : list A) (y : B) :
  last (List.map f l) = Some y -> exists x, last l = Some x /\ f x = y.
Proof.
  induction l as [|a [|b l] IH]; cbn; intros H; [discriminate| |].
  - injection H as <-. eauto.
  - exact (IH H).
Qed.

Lemma last_elem {A : Type} (l : list A) (x : A) : last l = Some x -> In x l.
Proof.
  induction l as [|a [|b l] IH]; cbn; intros H; [discriminate| |].
  - injection H as <-. left. reflexivity.
  - right. exact (IH H).
Qed.

(** The containers of one more block. *)
Lemma makeContainersOfBB_built g st b hasFence st' done :
  wfBlock b -> built st done ->
  (forall B, In B done -> bbId B <> bbId b) ->
  makeContainersOfBB g st b = Ok (hasFence, st') ->
  built st' (done ++ [b]).
Proof.
  intros (body & term & Hb & Hterm & Hbody) (Hno & Hbound & Hdone) Hfresh H.
  destruct (checkForPhi_wf body term 0 Hbody Hterm) as (k & Hk & Hle & Hdrop).
  cbn in Hk. unfold makeContainersOfBB in H. rewrite Hb, Hk, Hdrop in H.
  rewrite <- Hb in H.
  match type of H with
  | mbind _ (containerLoop _ _ _ _ ?a) = _ => set (acc0 := a) in H
  end.
  destruct (containerLoop g b k (drop k body ++ [term]) acc0) as [acc| |] eqn:E;
    try discriminate.
  cbn [mbind result_bind] in H.
  assert (Hget : getTerminator b = Some term) by (eapply getTerminator_wf; eassumption).
  assert (Hmade : madeFor b (lccIDGen st) acc).
  { refine (containerLoop_madeFor g b (lccIDGen st) _ k acc0 acc _ E).
    split; [cbn; lia|]. split; [constructor|apply NoDup_nil_2]. }
  assert (Halive : aliveAcc b acc).
  { refine (containerLoop_alive g b term (drop k body) k acc0 acc _ Hterm Hget _ _ E).
    - apply Forall_drop. exact Hbody.
    - split; [constructor|]. cbn. constructor.
    - eexists. reflexivity. }
  (* the containers of the block, whether or not a last one is added *)
  assert (Hfinal : forall accF,
    madeFor b (lccIDGen st) accF ->
    accContainers accF <> [] -> Forall nonEmpty (accContainers accF) ->
    Forall nonExit (removelast (accContainers accF)) ->
    (successors b <> [] -> Forall nonExit (accContainers accF)) ->
    built
      (fold_left registerUnit (accContainers accF)
         {| lccIDGen := accIDGen accF; units := units st; edges := edges st;
            bbToContainersMap :=
              <[bbId b := List.map _lccID (accContainers accF)]> (bbToContainersMap st);
            globalOuterLCCList := globalOuterLCCList st; errs := accErrs accF |})
      (done ++ [b])).
  { intros accF (Hgen & Hall & Hnd) Hnonnil Hne Hnx Hsucc.
    set (us := accContainers accF) in *.
    set (st1 := {| lccIDGen := accIDGen accF; units := units st; edges := edges st;
                   bbToContainersMap := <[bbId b := List.map _lccID us]> (bbToContainersMap st);
                   globalOuterLCCList := globalOuterLCCList st; errs := accErrs accF |}).
    assert (Hnew : forall id, id ∈ List.map _lccID us -> lccIDGen st <= id < accIDGen accF).
    { intros id Hin. apply list_elem_of_In, in_map_iff in Hin. destruct Hin as (u & <- & Hu).
      rewrite Forall_forall in Hall. apply list_elem_of_In in Hu.
      exact (proj2 (Hall u Hu)). }
    split; [|split].
    - apply registerUnit_noEdges. exact Hno.
    - intros id Hid. destruct (registerUnit_list us st1) as [_ ->]. cbn.
      destruct (registerUnit_known _ _ _ Hid) as [Hin|Hs].
      + exact (proj2 (Hnew _ Hin)).
      + cbn in Hs. specialize (Hbound _ Hs). lia.
    - intros B HB. apply in_app_iff in HB. destruct HB as [HB|[<-|[]]].
      + destruct (Hdone B HB) as (usB & HnB & HmB & HuB & HxB & HsB).
        exists usB. split; [exact HnB|]. split; [|split; [|split; assumption]].
        * rewrite registerUnit_map. cbn. rewrite lookup_insert_ne; [exact HmB|].
          intros Heq. exact (Hfresh B HB (eq_sym Heq)).
        * apply Forall_forall. intros u Hu. rewrite Forall_forall in HuB.
          destruct (HuB u Hu) as [Hux Hune]. split; [|exact Hune].
          rewrite registerUnit_other; [exact Hux|].
          intros Hin. pose proof (Hnew _ Hin) as Hrange.
          assert (is_Some (units st !! _lccID u)) as Hs by (rewrite Hux; eauto).
          specialize (Hbound _ Hs). lia.
      + exists us. split; [exact Hnonnil|]. split; [|split; [|split; assumption]].
        * rewrite registerUnit_map. cbn. apply lookup_insert_eq.
        * pose proof (registerUnit_units us st1 Hnd) as Hu.
          apply Forall_forall. intros u Hin. rewrite Forall_forall in Hu, Hne.
          split; [exact (Hu u Hin)|exact (Hne u Hin)]. }
  destruct Halive as [Hne Hnx].
  destruct (accStartInst acc) as [s|] eqn:Es.
  - cbn [newUnitLCC mbind result_bind] in H. injection H as _ <-.
    refine (Hfinal
      {| accHasFence := accHasFence acc; accStartInst := Some s;
         accContainers := accContainers acc
                          ++ [mkUnitLCC (accIDGen acc) (bbId b) (Some s)
                                (Some (length (insts b) - 1)%nat) false];
         accIDGen := accIDGen acc + 1; accErrs := accErrs acc |} _ _ _ _ _); cbn.
    + apply madeFor_snoc. exact Hmade.
    + intros E'. destruct (accContainers acc); discriminate.
    + apply Forall_app. split; [exact Hne|]. repeat constructor.
    + rewrite removelast_snoc. exact Hnx.
    + intros _. apply Forall_app. split; [exact Hnx|]. repeat constructor.
  - cbn [mbind result_bind] in H. injection H as _ <-.
    destruct Hnx as (Hnonnil & Hnx & Hsucc).
    refine (Hfinal acc Hmade Hnonnil Hne Hnx _).
    intros Hs. contradiction.
Qed.

Lemma makeAllContainers_built g bbs : forall st flag hasFence st' done,
  Forall wfBlock bbs ->
  NoDup (List.map bbId (done ++ bbs)) ->
  built st done ->
  makeAllContainers g st bbs flag = Ok (hasFence, st') ->
  built st' (done ++ bbs).
Proof.
  induction bbs as [|BB bbs IH]; intros st flag hasFence st' done Hwf Hnd Hbuilt H;
    cbn [makeAllContainers] in H.
  - injection H as _ <-. rewrite app_nil_r. exact Hbuilt.
  - inversion Hwf as [|? ? HwfB Hwf']; subst.
    destruct (makeContainersOfBB g st BB) as [[hf s1]| |] eqn:E; try discriminate.
    cbn [mbind result_bind fst snd] in H.
    assert (Hfresh : forall B, In B done -> bbId B <> bbId BB).
    { intros B HB Heq. rewrite List.map_app in Hnd. apply NoDup_app in Hnd.
      destruct Hnd as (_ & Hdisj & _). apply (Hdisj (bbId B)).
      - apply list_elem_of_In, in_map. exact HB.
      - rewrite Heq. left. }
    pose proof (makeContainersOfBB_built _ _ _ _ _ _ HwfB Hbuilt Hfresh E) as Hb1.
    replace (done ++ BB :: bbs) with ((done ++ [BB]) ++ bbs)
      by (rewrite <- app_assoc; reflexivity).
    refine (IH _ _ _ _ _ Hwf' _ Hb1 H).
    rewrite <- app_assoc. exact Hnd.
Qed.

(** A built state has the layout the edges rely on. *)
Lemma built_layout F st :
  wfFunction F -> built st (blocks F) -> layout F st.
Proof.
  intros (_ & _ & Htarget) (_ & _ & Hblocks). split; [|split; [|split]].
  - intros A s HA Hs. exact (Htarget A s HA Hs).
  - intros B x HB Hx. destruct (Hblocks B HB) as (us & _ & Hm & Hu & _).
    unfold containersOf in Hx. rewrite Hm in Hx. cbn in Hx.
    apply in_map_iff in Hx. destruct Hx as (u & <- & Hin).
    rewrite Forall_forall in Hu. apply list_elem_of_In in Hin.
    destruct (Hu u Hin) as [-> _]. eauto.
  - intros A p HA Hs Hl. destruct (Hblocks A HA) as (us & _ & Hm & Hu & _ & Hx).
    unfold containersOf in Hl. rewrite Hm in Hl. cbn in Hl.
    apply last_map in Hl. destruct Hl as (u & Hlu & <-).
    apply last_elem, list_elem_of_In in Hlu.
    specialize (Hx Hs). rewrite Forall_forall in Hu, Hx.
    destruct (Hu u Hlu) as [Hux Hne]. exists u. split; [exact Hux|].
    unfold nonEmpty in Hne. rewrite Hne. exact (Hx u Hlu).
  - intros B c c' cs HB Hc. destruct (Hblocks B HB) as (us & _ & Hm & Hu & Hx & _).
    unfold containersOf in Hc. rewrite Hm in Hc. cbn in Hc.
    destruct us as [|u [|u' us]]; try discriminate.
    cbn in Hc. injection Hc as <- _ _.
    inversion Hu as [|? ? [Hux Hne] _]; subst.
    cbn in Hx. inversion Hx as [|? ? Hxu _]; subst.
    exists u. split; [exact Hux|]. unfold nonEmpty in Hne. rewrite Hne. exact Hxu.
Qed.

End LayoutProofs.

Section GraphConsistency.
Import GraphSpec GraphProofs LayoutSpec LayoutProofs.

(** X25 (initializeLCCGraph, makeContainersOfBB, createContainerCFG).  The
    container graph that initializeLCCGraph builds for a well-formed function
    is consistent: a container records [p] among its predecessors exactly
    when [p] records it among its successors, across blocks and between the
    containers of a block split by fences. *)
Theorem initializeLCCGraph_symmetric (g : Globals) (F : Function)
    (g' : Globals) (st : BuilderState) :
  wfFunction F ->
  initializeLCCGraph g F = Ok (g', st) ->
  forall p c, hasPred st c p <-> hasSucc st p c.
Proof.
  intros Hwf H. unfold initializeLCCGraph in H.
  destruct (makeAllContainers g initialBuilderState (blocks F) false) as [[hf s1]| |] eqn:E1;
    try discriminate.
  cbn [mbind result_bind fst snd] in H.
  destruct (createAllEdges g F s1 (blocks F)) as [s2| |] eqn:E2; try discriminate.
  cbn [mbind result_bind] in H. injection H as _ <-.
  assert (Hbuilt : built s1 (blocks F)).
  { destruct Hwf as (Hblocks & Hnd & _).
    refine (makeAllContainers_built g (blocks F) initialBuilderState false hf s1 []
              Hblocks Hnd _ E1).
    split; [|split].
    - intros x e Hx. cbn in Hx. rewrite lookup_empty in Hx. discriminate.
    - intros id [u Hu]. cbn in Hu. rewrite lookup_empty in Hu. discriminate.
    - intros B []. }
  apply (createAllEdges_symmetric g F s1 s2).
  - exact (proj1 Hbuilt).
  - apply built_layout; assumption.
  - exact E2.
Qed.

Lemma initializeLCCGraph_symmetric_witness :
  exists g' st,
    initializeLCCGraph predictiveGlobals diamondF = Ok (g', st) /\
    hasPred st 2 1 /\ hasSucc st 1 2 /\ hasSucc st 0 3.
Proof.
  destruct (initializeLCCGraph predictiveGlobals diamondF) as [[g' st]| |] eqn:E.
  - pose proof (initializeLCCGraph_symmetric _ _ _ _ diamondF_wf E) as Hsym.
    exists g', st. split; [reflexivity|].
    assert (H21 : hasPred st 2 1).
    { vm_compute in E. injection E as _ <-. vm_compute. eexists. reflexivity. }
    assert (H30 : hasPred st 3 0).
    { vm_compute in E. injection E as _ <-. vm_compute. eexists. reflexivity. }
    split; [exact H21|]. split; [apply Hsym; exact H21|apply Hsym; exact H30].
  - vm_compute in E. discriminate E.
  - vm_compute in E. discriminate E.
Defined.

End GraphConsistency.

(** *** The path pattern on the built graph *)

Module PathProofs.
Import GraphSpec GraphProofs LayoutSpec LayoutProofs PathPattern.

Lemma map_size_one {K : Type} `{Countable K} {A : Type} (m : gmap K A) :
  size m = 1%nat ->
  exists k v, m = {[k := v]} /\ head (map_to_list m) = Some (k, v).
Proof.
  intros Hs. rewrite <- length_map_to_list in Hs.
  pose proof (list_to_map_to_list m) as Hm.
  destruct (map_to_list m) as [|[k v] [|? ?]] eqn:E; try discriminate.
  exists k, v. split; [|reflexivity].
  rewrite <- Hm. cbn. apply insert_empty.
Qed.

Lemma set_size_one (s : gset Z) :
  size s = 1%nat -> exists x, s = {[x]} /\ head (elements s) = Some x.
Proof.
  intros Hs. apply size_1_elem_of in Hs. destruct Hs as [x Hx].
  apply leibniz_equiv in Hx. subst s. exists x. split; [reflexivity|].
  rewrite elements_singleton. reflexivity.
Qed.

(** A container with one neighbour holds one flag, for the edge to it. *)
Lemma single_entry (x : Z) (m : gmap Z (gset Z)) (info : gmap (Z * Z) bool) :
  (forall p s, m !! p = Some s -> s = {[x]}) ->
  (forall k, is_Some (info !! k) <-> exists p, k = (p, x) /\ is_Some (m !! p)) ->
  size m = 1%nat ->
  exists p fl, m = {[p := {[x]}]} /\ head (map_to_list m) = Some (p, {[x]}) /\
               info = {[(p, x) := fl]}.
Proof.
  intros Hset Hinfo Hs.
  destruct (map_size_one m Hs) as (p & s & Hm & Hh).
  assert (s = {[x]}) as ->.
  { apply (Hset p). rewrite Hm. apply lookup_singleton_eq. }
  assert (Hfl : is_Some (info !! (p, x))).
  { apply Hinfo. exists p. split; [reflexivity|].
    rewrite Hm, lookup_singleton_eq. eauto. }
  destruct Hfl as [fl Hfl]. exists p, fl. split; [exact Hm|]. split; [exact Hh|].
  apply map_eq. intros k. destruct (decide (k = (p, x))) as [->|Hne].
  - rewrite lookup_singleton_eq. exact Hfl.
  - rewrite lookup_singleton_ne by congruence.
    destruct (info !! k) as [b|] eqn:Ek; [|reflexivity].
    exfalso. apply Hne.
    destruct (proj1 (Hinfo k) (ex_intro _ b Ek)) as (q & -> & [t Hq]).
    rewrite Hm in Hq. apply lookup_singleton_Some in Hq. destruct Hq as [-> _].
    reflexivity.
Qed.

Lemma getSingleSuccWOFence_tidy (x : Z) (e : LCCEdges) :
  tidyEdges x e ->
  exists r, getSingleSuccWOFence e = Ok r /\
    forall s, r = Some s ->
      succSet e = {[s := {[x]}]} /\ succEdgeInfo e = {[(s, x) := false]}.
Proof.
  intros (_ & _ & Hset & Hinfo). destruct e as [ps ss pinfo sinfo].
  unfold getSingleSuccWOFence, getSingleSucc, getSuccSingleConnLCC.
  cbn [succSet succEdgeInfo] in *.
  destruct (size ss =? 1)%nat eqn:Es.
  - apply Nat.eqb_eq in Es.
    destruct (single_entry x _ _ Hset Hinfo Es) as (s & fl & Hm & Hh & Hi).
    rewrite Hh. cbn [fmap option_fmap option_map fst]. subst ss sinfo.
    rewrite lookup_singleton_eq.
    rewrite size_singleton. cbn [Nat.eqb]. rewrite elements_singleton. cbn [head].
    rewrite map_size_singleton. cbn [Nat.eqb assert mbind result_bind].
    rewrite lookup_singleton_eq.
    destruct fl.
    + exists None. split; [reflexivity|]. intros ? [=].
    + exists (Some s). split; [reflexivity|]. intros ? [= <-]. split; reflexivity.
  - exists None. split; [reflexivity|]. intros ? [=].
Qed.

Lemma getSinglePredWOFence_tidy (x : Z) (e : LCCEdges) :
  tidyEdges x e ->
  exists r, getSinglePredWOFence e = Ok r /\
    forall p, r = Some p ->
      predSet e = {[p := {[x]}]} /\ predEdgeInfo e = {[(p, x) := false]}.
Proof.
  intros (Hset & Hinfo & _ & _). destruct e as [ps ss pinfo sinfo].
  unfold getSinglePredWOFence, getSinglePred, getPredSingleConnLCC.
  cbn [predSet predEdgeInfo] in *.
  destruct (size ps =? 1)%nat eqn:Es.
  - apply Nat.eqb_eq in Es.
    destruct (single_entry x _ _ Hset Hinfo Es) as (s & fl & Hm & Hh & Hi).
    rewrite Hh. cbn [fmap option_fmap option_map fst]. subst ps pinfo.
    rewrite lookup_singleton_eq.
    rewrite size_singleton. cbn [Nat.eqb]. rewrite elements_singleton. cbn [head].
    rewrite map_size_singleton. cbn [Nat.eqb assert mbind result_bind].
    rewrite lookup_singleton_eq.
    destruct fl.
    + exists None. split; [reflexivity|]. intros ? [=].
    + exists (Some s). split; [reflexivity|]. intros ? [= <-]. split; reflexivity.
  - exists None. split; [reflexivity|]. intros ? [=].
Qed.

(** The edge maps stay tidy when a container records a neighbour. *)
Lemma tidyEdges_noEdges x : tidyEdges x noEdges.
Proof.
  split; [|split; [|split]]; cbn.
  - intros p s Hp. rewrite lookup_empty in Hp. discriminate.
  - intros k. rewrite lookup_empty. split.
    + intros [? [=]].
    + intros (p & _ & [? Hp]). rewrite lookup_empty in Hp. discriminate.
  - intros p s Hp. rewrite lookup_empty in Hp. discriminate.
  - intros k. rewrite lookup_empty. split.
    + intros [? [=]].
    + intros (p & _ & [? Hp]). rewrite lookup_empty in Hp. discriminate.
Qed.

Lemma tidy_insert (x q : Z) (fl : bool) (m : gmap Z (gset Z)) (info : gmap (Z * Z) bool) :
  (forall p s, m !! p = Some s -> s = {[x]}) ->
  (forall k, is_Some (info !! k) <-> exists p, k = (p, x) /\ is_Some (m !! p)) ->
  (forall p s, <[q := {[x]} ∪ default ∅ (m !! q)]> m !! p = Some s -> s = {[x]}) /\
  (forall k, is_Some (<[(q, x) := fl]> info !! k) <->
     exists p, k = (p, x) /\ is_Some (<[q := {[x]} ∪ default ∅ (m !! q)]> m !! p)).
Proof.
  intros Hset Hinfo. split.
  - intros p s Hp. destruct (decide (p = q)) as [->|Hne].
    + rewrite lookup_insert_eq in Hp. injection Hp as <-.
      destruct (m !! q) as [s0|] eqn:E; cbn.
      * rewrite (Hset _ _ E). apply leibniz_equiv. set_solver.
      * apply leibniz_equiv. set_solver.
    + rewrite lookup_insert_ne in Hp by congruence. exact (Hset _ _ Hp).
  - intros k. destruct (decide (k = (q, x))) as [->|Hne].
    + rewrite lookup_insert_eq. split; [|eauto].
      intros _. exists q. split; [reflexivity|]. rewrite lookup_insert_eq. eauto.
    + rewrite lookup_insert_ne by congruence. rewrite Hinfo. split.
      * intros (p & -> & Hp). exists p. split; [reflexivity|].
        rewrite lookup_insert_ne by congruence. exact Hp.
      * intros (p & -> & Hp). exists p. split; [reflexivity|].
        rewrite lookup_insert_ne in Hp by congruence. exact Hp.
Qed.

Lemma tidyEdges_addPredLCC x p fl e :
  tidyEdges x e -> tidyEdges x (addPredLCC x p fl e).
Proof.
  intros (H1 & H2 & H3 & H4). destruct (tidy_insert x p fl _ _ H1 H2) as [H5 H6].
  split; [exact H5|]. split; [exact H6|]. split; [exact H3|exact H4].
Qed.

Lemma tidyEdges_addSuccLCC x c fl e :
  tidyEdges x e -> tidyEdges x (addSuccLCC x c fl e).
Proof.
  intros (H1 & H2 & H3 & H4). destruct (tidy_insert x c fl _ _ H3 H4) as [H5 H6].
  split; [exact H1|]. split; [exact H2|]. split; [exact H5|exact H6].
Qed.

Lemma tidy_updEdges st x f :
  (forall e, tidyEdges x e -> tidyEdges x (f e)) ->
  tidy st -> tidy (updEdges st x f).
Proof.
  intros Hf Ht y. unfold edgesOf, updEdges. cbn [edges].
  destruct (decide (y = x)) as [->|Hne].
  - rewrite lookup_insert_eq. cbn. apply Hf. exact (Ht x).
  - rewrite lookup_insert_ne by congruence. exact (Ht y).
Qed.

Lemma noEdgesYet_tidy st : noEdgesYet st -> tidy st.
Proof.
  intros Hno x. unfold edgesOf. destruct (edges st !! x) as [e|] eqn:E; cbn.
  - rewrite (Hno _ _ E). apply tidyEdges_noEdges.
  - apply tidyEdges_noEdges.
Qed.

Section Edges.
Variable g : Globals.

Lemma chainContainers_tidy rest : forall st prev st',
  chainContainers st prev rest = Ok st' -> tidy st -> tidy st'.
Proof.
  induction rest as [|c rest IH]; intros st prev st' H Ht; cbn [chainContainers] in H.
  - injection H as <-. exact Ht.
  - destruct (getUnit st c) as [u| |]; try discriminate. cbn [mbind result_bind] in H.
    refine (IH _ _ _ H _).
    destruct (negb (isExitBlockLCC u)); [|exact Ht].
    apply tidy_updEdges; [intros e; apply tidyEdges_addPredLCC|].
    apply tidy_updEdges; [intros e; apply tidyEdges_addSuccLCC|exact Ht].
Qed.

Lemma connectPreds_tidy F preds : forall st first st',
  connectPreds g F st first preds = Ok st' -> tidy st -> tidy st'.
Proof.
  induction preds as [|p preds IH]; intros st first st' H Ht; cbn [connectPreds] in H.
  - injection H as <-. exact Ht.
  - destruct (getLastLCCofBB st p) as [l| |]; try discriminate.
    cbn [mbind result_bind] in H.
    destruct (getUnit st l) as [u| |]; try discriminate. cbn [mbind result_bind] in H.
    destruct (isEmptyLCC u || isExitBlockLCC u); [exact (IH _ _ _ H Ht)|].
    destruct (edgeIsFence g F u) as [fence| |]; try discriminate.
    cbn [mbind result_bind] in H. refine (IH _ _ _ H _).
    apply tidy_updEdges; [intros e; apply tidyEdges_addPredLCC|exact Ht].
Qed.

Lemma connectSuccs_tidy F succs : forall st last st',
  connectSuccs g F st last succs = Ok st' -> tidy st -> tidy st'.
Proof.
  induction succs as [|s succs IH]; intros st last st' H Ht; cbn [connectSuccs] in H.
  - injection H as <-. exact Ht.
  - destruct (getFirstLCCofBB st s) as [f| |]; try discriminate.
    cbn [mbind result_bind] in H.
    destruct (getUnit st f) as [u| |]; try discriminate. cbn [mbind result_bind] in H.
    destruct (isEmptyLCC u || isExitBlockLCC u); [exact (IH _ _ _ H Ht)|].
    destruct (getUnit st last) as [lu| |]; try discriminate. cbn [mbind result_bind] in H.
    destruct (edgeIsFence g F lu) as [fence| |]; try discriminate.
    cbn [mbind result_bind] in H. refine (IH _ _ _ H _).
    apply tidy_updEdges; [intros e; apply tidyEdges_addSuccLCC|exact Ht].
Qed.

Lemma createContainerCFG_tidy F st BB st' :
  createContainerCFG g F st BB = Ok st' -> tidy st -> tidy st'.
Proof.
  unfold createContainerCFG. intros H Ht.
  set (containers := default [] (bbToContainersMap st !! bbId BB)) in H.
  destruct (match containers with
            | first :: (_ :: _) as rest => chainContainers st first rest
            | _ => Ok st
            end) as [s1| |] eqn:E1; try discriminate.
  cbn [mbind result_bind] in H.
  assert (Ht1 : tidy s1).
  { destruct containers as [|first [|second rest]].
    - injection E1 as <-. exact Ht.
    - injection E1 as <-. exact Ht.
    - exact (chainContainers_tidy _ _ _ _ E1 Ht). }
  destruct (match containers with
            | [singleLCC] => u ← getUnit s1 singleLCC; Ok (isEmptyLCC u || isExitBlockLCC u)
            | _ => Ok false
            end) as [skip| |]; try discriminate.
  cbn [mbind result_bind] in H.
  destruct skip; [injection H as <-; exact Ht1|].
  destruct (getFirstLCCofBB s1 (bbId BB)) as [fc| |]; try discriminate.
  cbn [mbind result_bind] in H.
  destruct (connectPreds g F s1 fc (predecessors F (bbId BB))) as [s2| |] eqn:E2;
    try discriminate.
  cbn [mbind result_bind] in H.
  destruct (getLastLCCofBB s2 (bbId BB)) as [lc| |]; try discriminate.
  cbn [mbind result_bind] in H.
  apply (connectSuccs_tidy _ _ _ _ _ H).
  exact (connectPreds_tidy _ _ _ _ _ E2 Ht1).
Qed.

Lemma createAllEdges_tidy F bbs : forall st st',
  createAllEdges g F st bbs = Ok st' -> tidy st -> tidy st'.
Proof.
  induction bbs as [|BB bbs IH]; intros st st' H Ht; cbn [createAllEdges] in H.
  - injection H as <-. exact Ht.
  - destruct (createContainerCFG g F st BB) as [s1| |] eqn:E; try discriminate.
    cbn [mbind result_bind] in H.
    exact (IH _ _ H (createContainerCFG_tidy _ _ _ _ E Ht)).
Qed.

End Edges.

(** On a tidy and symmetric graph the path pattern trips no assertion. *)
Lemma getSingleSuccOfPath_tidy st this :
  tidy st -> (forall p c, hasPred st c p <-> hasSucc st p c) ->
  exists r, getSingleSuccOfPath st this = Ok r /\
    forall s, r = Some s ->
      succSet (edgesOf st this) = {[s := {[this]}]} /\
      succEdgeInfo (edgesOf st this) = {[(s, this) := false]} /\
      predSet (edgesOf st s) = {[this := {[s]}]} /\
      predEdgeInfo (edgesOf st s) = {[(this, s) := false]}.
Proof.
  intros Ht Hsym. unfold getSingleSuccOfPath.
  destruct (getSingleSuccWOFence_tidy this _ (Ht this)) as (r1 & -> & H1).
  cbn [mbind result_bind]. destruct r1 as [s|].
  - destruct (H1 s eq_refl) as [Hs Hsi].
    destruct (getSinglePredWOFence_tidy s _ (Ht s)) as (r2 & -> & H2).
    cbn [mbind result_bind]. destruct r2 as [p|].
    + destruct (H2 p eq_refl) as [Hp Hpi].
      assert (p = this) as ->.
      { assert (Hhas : hasPred st s this).
        { apply Hsym. unfold hasSucc. rewrite Hs, lookup_singleton_eq. eauto. }
        unfold hasPred in Hhas. rewrite Hp in Hhas. destruct Hhas as [t Hhas].
        apply lookup_singleton_Some in Hhas. destruct Hhas as [-> _]. reflexivity. }
      rewrite Z.eqb_refl. cbn [assert mbind result_bind].
      exists (Some s). split; [reflexivity|]. intros ? [= <-]. repeat split; assumption.
    + exists None. split; [reflexivity|]. intros ? [=].
  - exists None. split; [reflexivity|]. intros ? [=].
Qed.

Lemma straightF_wf : wfFunction straightF.
Proof.
  split; [|split].
  - repeat constructor.
    + exists [OtherInst], (BranchInst [1]). repeat constructor.
    + exists [LoadInst], ReturnInst. repeat constructor.
  - simpl. repeat (apply NoDup_cons_2; [rewrite ?elem_of_cons, elem_of_nil; lia|]).
    apply NoDup_nil_2.
  - intros b s Hb Hs. simpl in Hb.
    destruct Hb as [<-|[<-|[]]]; simpl in Hs.
    + destruct Hs as [<-|[]].
      eexists; split; [right; left; reflexivity|reflexivity].
    + destruct Hs.
Defined.

End PathProofs.

Section PathProperties.
Import GraphSpec GraphProofs LayoutSpec LayoutProofs PathPattern PathProofs.

(** X26 (LCCNode::getSingleSuccOfPath, getSingleSuccWOFence,
    getSinglePredWOFence).  On the container graph that initializeLCCGraph
    builds for a well-formed function, getSingleSuccOfPath returns for every
    container without tripping an assertion; when it returns a successor [s],
    then [s] is the only successor of the container, the container is the
    only predecessor of [s], and the edge between them is recorded on both
    sides without a fence. *)
Theorem getSingleSuccOfPath_on_built_graph (g : Globals) (F : Function)
    (g' : Globals) (st : BuilderState) (this : Z) :
  wfFunction F ->
  initializeLCCGraph g F = Ok (g', st) ->
  exists r, getSingleSuccOfPath st this = Ok r /\
    forall s, r = Some s ->
      succSet (edgesOf st this) = {[s := {[this]}]} /\
      succEdgeInfo (edgesOf st this) = {[(s, this) := false]} /\
      predSet (edgesOf st s) = {[this := {[s]}]} /\
      predEdgeInfo (edgesOf st s) = {[(this, s) := false]}.
Proof.
  intros Hwf H. unfold initializeLCCGraph in H.
  destruct (makeAllContainers g initialBuilderState (blocks F) false) as [[hf s1]| |] eqn:E1;
    try discriminate.
  cbn [mbind result_bind fst snd] in H.
  destruct (createAllEdges g F s1 (blocks F)) as [s2| |] eqn:E2; try discriminate.
  cbn [mbind result_bind] in H. injection H as _ <-.
  assert (Hbuilt : built s1 (blocks F)).
  { destruct Hwf as (Hblocks & Hnd & _).
    refine (makeAllContainers_built g (blocks F) initialBuilderState false hf s1 []
              Hblocks Hnd _ E1).
    split; [|split].
    - intros x e Hx. cbn in Hx. rewrite lookup_empty in Hx. discriminate.
    - intros id [u Hu]. cbn in Hu. rewrite lookup_empty in Hu. discriminate.
    - intros B []. }
  apply getSingleSuccOfPath_tidy.
  - apply (createAllEdges_tidy g F _ _ _ E2). apply noEdgesYet_tidy. exact (proj1 Hbuilt).
  - apply (createAllEdges_symmetric g F s1 s2).
    + exact (proj1 Hbuilt).
    + apply built_layout; assumption.
    + exact E2.
Qed.

Lemma getSingleSuccOfPath_on_built_graph_witness :
  exists g' st,
    initializeLCCGraph predictiveGlobals straightF = Ok (g', st) /\
    getSingleSuccOfPath st 0 = Ok (Some 1) /\
    succSet (edgesOf st 0) = {[1 := {[0]}]} /\
    predSet (edgesOf st 1) = {[0 := {[1]}]}.
Proof.
  destruct (initializeLCCGraph predictiveGlobals straightF) as [[g' st]| |] eqn:E.
  - destruct (getSingleSuccOfPath_on_built_graph _ _ _ _ 0 straightF_wf E) as (r & Hr & Hspec).
    exists g', st. split; [reflexivity|].
    assert (Hrun : getSingleSuccOfPath st 0 = Ok (Some 1)).
    { vm_compute in E. injection E as _ <-. vm_compute. reflexivity. }
    split; [exact Hrun|].
    rewrite Hrun in Hr. injection Hr as <-.
    destruct (Hspec 1 eq_refl) as (Hs & _ & Hp & _). split; assumption.
  - vm_compute in E. discriminate E.
  - vm_compute in E. discriminate E.
Defined.

End PathProperties.
